(** * The real-time transcription session manager

    A shallow embedding of
      - [src/main/transcription/whisper-local.ts]  (class WhisperLocalService),
      - [src/main/ipc-handlers.ts]                 (the [transcription:*] handlers),
      - [src/renderer/main.tsx]                    (the transcript listener),
    as an event-driven transition system.

    The program is single threaded: every callback (socket event, timer,
    ipc invocation) runs to completion, after which the continuations of
    the promises it settled are run ([drain]).  The heap of JavaScript
    objects is modelled by three stores, indexed by allocation order:
    the services, the connections (one per [connect()] call: its
    WebSocket, its promise and its timer) and the [stop()] calls (their
    promise, timer and [once('done')] listener).  Everything the program
    does to the outside world is appended to one chronological [trace]. *)

From stdpp Require Import base option list strings sorting.
From Stdlib Require Import Lia NArith ZArith.

Open Scope string_scope.
Open Scope list_scope.

(** ** Data *)

(** [readyState] of a WebSocket of the [ws] package. *)
Inductive ReadyState := CONNECTING | OPEN | CLOSING | CLOSED.

(** Client to server frames ([JSON.stringify] of a tagged record).  The
    payload of an audio frame is the chunk; on the wire it is its base64
    text.  [FPong] is the transport-level answer to a ping. *)
Inductive Frame :=
| FConfig (language : string)
| FAudio (data : string)
| FStop
| FPong.

(** What [JSON.parse(data.toString())] yields on an inbound message: an
    exception, or a record of which the handler reads [type], [text] and
    [message]. *)
Inductive Inbound :=
| Unparseable
| Message (type : string) (text : option string) (message : option string).

(** [mainWindow.webContents.send] channels used by the handlers. *)
Inductive RendererMsg :=
| TranscriptionResult (text : option string)
| TranscriptionError (message : string)
| TranscriptionReady.

(** How an [ipcMain.handle] invocation ends. *)
Inductive IpcResult :=
| RBool (b : bool)
| RVoid
| RError (message : string).

(** State of the promise returned by [stop()]. *)
Inductive Settled := Pending | Resolved | Rejected (reason : string).

(** Observable effects, in the order in which they happen. *)
Inductive Obs :=
| Sent (c : nat) (f : Frame)
| Recv (c : nat) (m : Inbound)
| ToRenderer (m : RendererMsg)
| Reply (call : nat) (r : IpcResult)
| Warn (message : string)
| Uncaught (message : string).

#[global] Instance ReadyState_eq_dec : EqDecision ReadyState.
Proof. solve_decision. Defined.
#[global] Instance Settled_eq_dec : EqDecision Settled.
Proof. solve_decision. Defined.
#[global] Instance Frame_eq_dec : EqDecision Frame.
Proof. solve_decision. Defined.
#[global] Instance Inbound_eq_dec : EqDecision Inbound.
Proof. solve_decision. Defined.
#[global] Instance RendererMsg_eq_dec : EqDecision RendererMsg.
Proof. solve_decision. Defined.
#[global] Instance IpcResult_eq_dec : EqDecision IpcResult.
Proof. solve_decision. Defined.
#[global] Instance Obs_eq_dec : EqDecision Obs.
Proof. solve_decision. Defined.

(** class WhisperLocalService: [ws] is the handle of the socket (an index
    in the connection store), [doneOnce] the pending [once('done', ...)]
    listeners, each named by the [stop()] call that registered it. *)
Record Service := mkService {
  language : string;
  ws : option nat;
  isConnected : bool;
  reconnectAttempts : nat;
  maxReconnectAttempts : nat;
  doneOnce : list nat
}.

(** One [connect()] call: the socket it created ([None] when the
    constructor threw), the promise it returned ([None] while pending)
    and its 5000 ms timer. *)
Record Conn := mkConn {
  owner : nat;
  readyState : option ReadyState;
  outcome : option bool;
  connDeadline : N;
  connTimer : bool
}.

(** One [stop()] call: the promise it returned and its 10000 ms timer. *)
Record StopCall := mkStopCall {
  target : nat;
  settled : Settled;
  stopDeadline : N;
  stopTimer : bool
}.

(** A handler invocation suspended at an [await]. *)
Inductive Task :=
| StartAwaitStop (call : nat) (language : string) (ctorThrows : bool) (p : nat)
| StartAwaitConnect (call : nat) (service : nat) (c : nat)
| StopAwaitStop (call : nat) (p : nat).

Record World := mkWorld {
  now : N;
  services : list Service;
  conns : list Conn;
  stops : list StopCall;
  whisperService : option nat;
  tasks : list Task;
  calls : nat;
  trace : list Obs
}.

Definition init : World :=
  mkWorld 0%N [] [] [] None [] 0 [].

(** ** Store updates *)

Definition log (o : Obs) (w : World) : World :=
  mkWorld (now w) (services w) (conns w) (stops w) (whisperService w)
          (tasks w) (calls w) (trace w ++ [o]).

Definition upd_service (i : nat) (f : Service → Service) (w : World) : World :=
  mkWorld (now w) (alter f i (services w)) (conns w) (stops w)
          (whisperService w) (tasks w) (calls w) (trace w).

Definition upd_conn (c : nat) (f : Conn → Conn) (w : World) : World :=
  mkWorld (now w) (services w) (alter f c (conns w)) (stops w)
          (whisperService w) (tasks w) (calls w) (trace w).

Definition upd_stop (p : nat) (f : StopCall → StopCall) (w : World) : World :=
  mkWorld (now w) (services w) (conns w) (alter f p (stops w))
          (whisperService w) (tasks w) (calls w) (trace w).

Definition new_service (s : Service) (w : World) : World :=
  mkWorld (now w) (services w ++ [s]) (conns w) (stops w)
          (whisperService w) (tasks w) (calls w) (trace w).

Definition new_conn (k : Conn) (w : World) : World :=
  mkWorld (now w) (services w) (conns w ++ [k]) (stops w)
          (whisperService w) (tasks w) (calls w) (trace w).

Definition new_stop (k : StopCall) (w : World) : World :=
  mkWorld (now w) (services w) (conns w) (stops w ++ [k])
          (whisperService w) (tasks w) (calls w) (trace w).

Definition set_whisperService (o : option nat) (w : World) : World :=
  mkWorld (now w) (services w) (conns w) (stops w) o
          (tasks w) (calls w) (trace w).

Definition set_tasks (ts : list Task) (w : World) : World :=
  mkWorld (now w) (services w) (conns w) (stops w) (whisperService w)
          ts (calls w) (trace w).

Definition suspend (t : Task) (w : World) : World :=
  set_tasks (tasks w ++ [t]) w.

Definition next_call (w : World) : World :=
  mkWorld (now w) (services w) (conns w) (stops w) (whisperService w)
          (tasks w) (S (calls w)) (trace w).

Definition elapse (ms : N) (w : World) : World :=
  mkWorld (now w + ms)%N (services w) (conns w) (stops w) (whisperService w)
          (tasks w) (calls w) (trace w).

Definition set_ws (o : option nat) (s : Service) : Service :=
  mkService (language s) o (isConnected s) (reconnectAttempts s)
            (maxReconnectAttempts s) (doneOnce s).

Definition set_isConnected (b : bool) (s : Service) : Service :=
  mkService (language s) (ws s) b (reconnectAttempts s)
            (maxReconnectAttempts s) (doneOnce s).

Definition set_reconnectAttempts (n : nat) (s : Service) : Service :=
  mkService (language s) (ws s) (isConnected s) n
            (maxReconnectAttempts s) (doneOnce s).

Definition set_doneOnce (l : list nat) (s : Service) : Service :=
  mkService (language s) (ws s) (isConnected s) (reconnectAttempts s)
            (maxReconnectAttempts s) l.

Definition set_readyState (r : ReadyState) (k : Conn) : Conn :=
  mkConn (owner k) (Some r) (outcome k) (connDeadline k) (connTimer k).

Definition set_connTimer (b : bool) (k : Conn) : Conn :=
  mkConn (owner k) (readyState k) (outcome k) (connDeadline k) b.

Definition set_stopTimer (b : bool) (k : StopCall) : StopCall :=
  mkStopCall (target k) (settled k) (stopDeadline k) b.

(** Settling a promise that is already settled does nothing. *)
Definition settle_conn (b : bool) (k : Conn) : Conn :=
  match outcome k with
  | None => mkConn (owner k) (readyState k) (Some b) (connDeadline k) (connTimer k)
  | Some _ => k
  end.

Definition settle_stop (k : StopCall) : StopCall :=
  match settled k with
  | Pending => mkStopCall (target k) Resolved (stopDeadline k) (stopTimer k)
  | _ => k
  end.

Definition resolve_conn (c : nat) (b : bool) : World → World :=
  upd_conn c (settle_conn b).

Definition resolve_stop (p : nat) : World → World :=
  upd_stop p settle_stop.

(** ** The WebSocket, as the [ws] package behaves

    [send] and [pong] throw while the socket is CONNECTING, put the frame
    on the wire when it is OPEN and discard it (no callback given) when it
    is CLOSING or CLOSED.  [close] is idempotent; on a CONNECTING socket
    it aborts the handshake. *)

Definition rs_of (c : nat) (w : World) : option ReadyState :=
  k ← conns w !! c; readyState k.

Definition ws_send (c : nat) (f : Frame) (w : World) : World + string :=
  match rs_of c w with
  | Some CONNECTING => inr "WebSocket is not open: readyState 0 (CONNECTING)"
  | Some OPEN => inl (log (Sent c f) w)
  | _ => inl w
  end.

Definition closing (k : Conn) : Conn :=
  match readyState k with
  | Some CONNECTING | Some OPEN => set_readyState CLOSING k
  | _ => k
  end.

Definition ws_close (c : nat) : World → World :=
  upd_conn c closing.

(** ** WhisperLocalService *)

(** [getIsConnected()], lines 179-181. *)
Definition getIsConnected (i : nat) (w : World) : bool :=
  match services w !! i with
  | Some s => isConnected s
  | None => false
  end.

Definition ws_of (i : nat) (w : World) : option nat :=
  s ← services w !! i; ws s.

(** [disconnect()], lines 171-177. *)
Definition disconnect (i : nat) (w : World) : World :=
  let w1 := match ws_of i w with
            | Some c => upd_service i (set_ws None) (ws_close c w)
            | None => w
            end in
  upd_service i (set_isConnected false) w1.

(** [connect()], lines 30-124: the synchronous part.  The handlers it
    registers are [on_open] ... [on_connect_timeout] below; they close
    over [this] (the [owner]) and over [resolve] (the connection [c]).
    Returns the name of the promise. *)
Definition connect (i : nat) (ctorThrows : bool) (w : World) : World * nat :=
  let c := length (conns w) in
  if ctorThrows
  then (new_conn (mkConn i None (Some false) 0%N false) w, c)
  else (upd_service i (set_ws (Some c))
          (new_conn (mkConn i (Some CONNECTING) None (now w + 5000)%N true) w), c).

(** [this.ws?.send(frame)] from an event callback: an exception is
    nobody's to catch. *)
Definition send_via_handle (i : nat) (f : Frame) (w : World) : World :=
  match ws_of i w with
  | None => w
  | Some c => match ws_send c f w with
              | inl w1 => w1
              | inr e => log (Uncaught e) w
              end
  end.

(** [ws.on('open')], lines 40-53. *)
Definition on_open (c : nat) (w : World) : World :=
  match conns w !! c with
  | None => w
  | Some k =>
    let i := owner k in
    let w1 := upd_service i (fun s => set_reconnectAttempts 0 (set_isConnected true s)) w in
    match services w1 !! i with
    | None => w1
    | Some s => send_via_handle i (FConfig (language s)) w1
    end
  end.

(** [ws.on('ping')], lines 56-59. *)
Definition on_ping (c : nat) (w : World) : World :=
  match conns w !! c with
  | None => w
  | Some k => send_via_handle (owner k) FPong w
  end.

(** The listener that [stop()] registers with [once('done')],
    lines 157-162. *)
Definition done_listener (i : nat) (p : nat) (w : World) : World :=
  resolve_stop p (disconnect i (upd_stop p (set_stopTimer false) w)).

(** A once-listener unregisters itself just before it runs. *)
Definition remove_listener (p : nat) (s : Service) : Service :=
  set_doneOnce (filter (λ q, q ≠ p) (doneOnce s)) s.

(** [this.emit('done')]: the listeners registered at that moment are run
    in the order in which they were registered. *)
Definition emit_done (i : nat) (w : World) : World :=
  match services w !! i with
  | None => w
  | Some s =>
    foldl (λ w' p, done_listener i p (upd_service i (remove_listener p) w'))
          w (doneOnce s)
  end.

(** The listeners that the [transcription:start] handler registers on
    every service before it connects (ipc-handlers.ts, lines 202-215). *)
Definition emit_ready : World → World := log (ToRenderer TranscriptionReady).
Definition emit_transcript (text : option string) : World → World :=
  log (ToRenderer (TranscriptionResult text)).
Definition emit_error (message : string) : World → World :=
  log (ToRenderer (TranscriptionError message)).

(** [ws.on('message')], lines 65-96. *)
Definition on_message (c : nat) (m : Inbound) (w : World) : World :=
  match conns w !! c with
  | None => w
  | Some k =>
    let w := log (Recv c m) w in
    match m with
    | Unparseable => w
    | Message type text message =>
      if type =? "ready" then resolve_conn c true (emit_ready w)
      else if type =? "transcript" then emit_transcript text w
      else if type =? "done" then emit_done (owner k) w
      else if type =? "error" then emit_error (default "" message) w
      else w
    end
  end.

(** [ws.on('error')], lines 98-104. *)
Definition on_error (c : nat) (err : string) (w : World) : World :=
  match conns w !! c with
  | None => w
  | Some k =>
    let w := emit_error err w in
    if getIsConnected (owner k) w then w else resolve_conn c false w
  end.

(** [ws.on('close')], lines 106-110; nobody listens to 'disconnected'. *)
Definition on_close (c : nat) (w : World) : World :=
  match conns w !! c with
  | None => w
  | Some k => upd_service (owner k) (set_isConnected false) w
  end.

(** The connection timer, lines 113-118. *)
Definition on_connect_timeout (c : nat) (w : World) : World :=
  match conns w !! c with
  | None => w
  | Some k =>
    if getIsConnected (owner k) w then w
    else
      let w1 := match ws_of (owner k) w with
                | Some c' => ws_close c' w
                | None => w
                end in
      resolve_conn c false w1
  end.

(** [sendAudio(audioData)], lines 126-139. *)
Definition sendAudio (i : nat) (audioData : string) (w : World) : World + string :=
  match ws_of i w with
  | Some c =>
    if getIsConnected i w then ws_send c (FAudio audioData) w
    else inl (log (Warn "Not connected to Whisper server") w)
  | None => inl (log (Warn "Not connected to Whisper server") w)
  end.

(** The stop timer, lines 151-155. *)
Definition on_stop_timeout (p : nat) (w : World) : World :=
  match stops w !! p with
  | None => w
  | Some k => resolve_stop p (disconnect (target k) w)
  end.

(** [stop()], lines 141-169.  Returns the name of the promise.  When the
    executor throws, the promise is rejected. *)
Definition stop (i : nat) (w : World) : World * nat :=
  let p := length (stops w) in
  match ws_of i w with
  | None => (new_stop (mkStopCall i Resolved 0%N false) w, p)
  | Some c =>
    if getIsConnected i w then
      match ws_send c FStop w with
      | inr e => (new_stop (mkStopCall i (Rejected e) 0%N false) w, p)
      | inl w1 =>
        (upd_service i (fun s => set_doneOnce (doneOnce s ++ [p]) s)
           (new_stop (mkStopCall i Pending (now w + 10000)%N true) w1), p)
      end
    else (new_stop (mkStopCall i Resolved 0%N false) (disconnect i w), p)
  end.

(** ** The ipc handlers (ipc-handlers.ts, lines 193-250) *)

Definition not_started : string :=
  "Transcription not started. Please check if Whisper server is running.".
Definition not_connected : string :=
  "Transcription not connected. Please restart recording.".

(** [transcription:start], lines 199-218: from [new WhisperLocalService]
    to the [await] of [connect()]. *)
Definition start_connect (call : nat) (lang : string) (ctorThrows : bool)
    (w : World) : World :=
  let i := length (services w) in
  let w1 := new_service (mkService lang None false 0 3 []) w in
  let '(w2, c) := connect i ctorThrows w1 in
  suspend (StartAwaitConnect call i c) w2.

(** [transcription:start], lines 193-198: up to the first [await]. *)
Definition handle_start (lang : string) (ctorThrows : bool) (w : World) : World :=
  let call := calls w in
  let w := next_call w in
  match whisperService w with
  | Some a =>
    let '(w1, p) := stop a w in
    suspend (StartAwaitStop call lang ctorThrows p) w1
  | None => start_connect call lang ctorThrows w
  end.

(** [transcription:start], lines 220-229: after [connect()] has settled. *)
Definition start_connected (call i : nat) (connected : bool) (w : World) : World :=
  if connected
  then log (Reply call (RBool true)) (set_whisperService (Some i) w)
  else log (Reply call (RBool false))
         (set_whisperService None (disconnect i w)).

(** [transcription:send-audio], lines 232-243. *)
Definition handle_sendAudio (audioData : string) (w : World) : World :=
  let call := calls w in
  let w := next_call w in
  match whisperService w with
  | None => log (Reply call (RError not_started)) w
  | Some i =>
    if getIsConnected i w then
      match sendAudio i audioData w with
      | inl w1 => log (Reply call RVoid) w1
      | inr e => log (Reply call (RError e)) w
      end
    else log (Reply call (RError not_connected)) w
  end.

(** [transcription:stop], lines 245-250: up to the [await]. *)
Definition handle_stop (w : World) : World :=
  let call := calls w in
  let w := next_call w in
  match whisperService w with
  | Some a =>
    let '(w1, p) := stop a w in
    suspend (StopAwaitStop call p) w1
  | None => log (Reply call RVoid) w
  end.

(** ** The event loop *)

(** What the environment can do: an ipc invocation from the renderer, an
    event of a socket, a timer that fires, time that passes.  [SockPeerClose]
    is the server's close frame: the socket becomes CLOSING and no handler
    runs until 'close'. *)
Inductive Event :=
| IpcStart (language : string) (ctorThrows : bool)
| IpcSendAudio (audioData : string)
| IpcStop
| SockOpen (c : nat)
| SockMessage (c : nat) (m : Inbound)
| SockPing (c : nat)
| SockPong (c : nat)
| SockError (c : nat) (err : string)
| SockPeerClose (c : nat)
| SockClose (c : nat)
| ConnectTimeout (c : nat)
| StopTimeout (p : nat)
| Elapse (ms : N).

(** A socket emits 'message' and 'ping' once it is open and until it is
    closed. *)
Definition receptive (c : nat) (w : World) : bool :=
  match rs_of c w with
  | Some OPEN | Some CLOSING => true
  | _ => false
  end.

Definition conn_timer_due (c : nat) (w : World) : bool :=
  match conns w !! c with
  | Some k => connTimer k && (connDeadline k <=? now w)%N
  | None => false
  end.

Definition stop_timer_due (p : nat) (w : World) : bool :=
  match stops w !! p with
  | Some k => stopTimer k && (stopDeadline k <=? now w)%N
  | None => false
  end.

(** One callback, run to completion.  An event that the socket or the
    timer cannot produce in its present state is no event. *)
Definition handle (e : Event) (w : World) : World :=
  match e with
  | IpcStart lang ctorThrows => handle_start lang ctorThrows w
  | IpcSendAudio audioData => handle_sendAudio audioData w
  | IpcStop => handle_stop w
  | SockOpen c =>
    match rs_of c w with
    | Some CONNECTING => on_open c (upd_conn c (set_readyState OPEN) w)
    | _ => w
    end
  | SockMessage c m => if receptive c w then on_message c m w else w
  | SockPing c => if receptive c w then on_ping c w else w
  | SockPong c => w
  | SockError c err =>
    match rs_of c w with
    | Some CLOSED | None => w
    | Some _ => on_error c err (ws_close c w)
    end
  | SockPeerClose c =>
    match rs_of c w with
    | Some OPEN => ws_close c w
    | _ => w
    end
  | SockClose c =>
    match rs_of c w with
    | Some CLOSED | None => w
    | Some _ => on_close c (upd_conn c (set_readyState CLOSED) w)
    end
  | ConnectTimeout c =>
    if conn_timer_due c w
    then on_connect_timeout c (upd_conn c (set_connTimer false) w)
    else w
  | StopTimeout p =>
    if stop_timer_due p w
    then on_stop_timeout p (upd_stop p (set_stopTimer false) w)
    else w
  | Elapse ms => elapse ms w
  end.

(** A suspended handler can go on once the promise it awaits is settled. *)
Definition stop_settled (p : nat) (w : World) : Settled :=
  match stops w !! p with
  | Some k => settled k
  | None => Pending
  end.

Definition conn_outcome (c : nat) (w : World) : option bool :=
  k ← conns w !! c; outcome k.

Definition ready (w : World) (t : Task) : bool :=
  match t with
  | StartAwaitStop _ _ _ p | StopAwaitStop _ p =>
    match stop_settled p w with Pending => false | _ => true end
  | StartAwaitConnect _ _ c =>
    match conn_outcome c w with None => false | Some _ => true end
  end.

(** The rest of the handler after its [await]. *)
Definition continue (t : Task) (w : World) : World :=
  match t with
  | StartAwaitStop call lang ctorThrows p =>
    match stop_settled p w with
    | Rejected e => log (Reply call (RError e)) w
    | _ => start_connect call lang ctorThrows (set_whisperService None w)
    end
  | StartAwaitConnect call i c =>
    match conn_outcome c w with
    | Some b => start_connected call i b w
    | None => w
    end
  | StopAwaitStop call p =>
    match stop_settled p w with
    | Rejected e => log (Reply call (RError e)) w
    | _ => log (Reply call RVoid) (set_whisperService None w)
    end
  end.

(** Resume the [n]-th suspended handler, if it can go on. *)
Definition resume (n : nat) (w : World) : World :=
  match tasks w !! n with
  | Some t => if ready w t then continue t (set_tasks (delete n (tasks w)) w) else w
  | None => w
  end.

Fixpoint first_ready (w : World) (ts : list Task) : option nat :=
  match ts with
  | [] => None
  | t :: ts' => if ready w t then Some 0 else S <$> first_ready w ts'
  end.

(** A start handler has two awaits ahead of it, the others one. *)
Definition awaits (t : Task) : nat :=
  match t with
  | StartAwaitStop _ _ _ _ => 2
  | _ => 1
  end.

Definition pending_awaits (w : World) : nat :=
  foldr (fun t n => awaits t + n) 0 (tasks w).

Fixpoint drain_for (fuel : nat) (w : World) : World :=
  match fuel with
  | 0 => w
  | S fuel' =>
    match first_ready w (tasks w) with
    | Some n => drain_for fuel' (resume n w)
    | None => w
    end
  end.

(** Run the continuations until none can go on, oldest first. *)
Definition drain (w : World) : World := drain_for (pending_awaits w) w.

Definition step (w : World) (e : Event) : World := drain (handle e w).

Definition run (w : World) (es : list Event) : World := foldl step w es.

(** The finer schedule, in which continuations are steps of their own. *)
Inductive Action :=
| Ev (e : Event)
| Resume (n : nat).

Definition act (w : World) (a : Action) : World :=
  match a with
  | Ev e => handle e w
  | Resume n => resume n w
  end.

Definition exec (w : World) (acts : list Action) : World := foldl act w acts.

(** ** The renderer (main.tsx, [MeetingPage])

    The state of the page that the transcription listeners write: the
    [transcript] that is shown, the ref that [handleStopRecording]
    saves, and the error that is shown (lines 63, 73, 79). *)

Record MeetingPage := mkMeetingPage {
  transcript : string;
  transcriptRef : string;
  transcriptionError : option string
}.

Definition initialPage : MeetingPage := mkMeetingPage "" "" None.

(** A string is truthy unless it is empty; [undefined] is falsy. *)
Definition truthy (text : option string) : bool :=
  match text with
  | Some "" | None => false
  | Some _ => true
  end.

(** The [onTranscriptionResult] callback, lines 102-109. *)
Definition onTranscriptionResult (text : option string) (st : MeetingPage) : MeetingPage :=
  match text with
  | Some t => if truthy text then mkMeetingPage t t (transcriptionError st) else st
  | None => st
  end.

(** The [onTranscriptionError] callback, lines 111-114. *)
Definition onTranscriptionError (error : string) (st : MeetingPage) : MeetingPage :=
  mkMeetingPage (transcript st) (transcriptRef st) (Some error).

(** [setTranscript(transcriptData.fullText || '')] of [loadMeeting],
    lines 147-151, for a meeting that has a transcript row; the ref is
    not written. *)
Definition onTranscriptLoaded (fullText : option string) (st : MeetingPage) : MeetingPage :=
  mkMeetingPage (if truthy fullText then default "" fullText else "")
    (transcriptRef st) (transcriptionError st).

(** [setTranscriptionError(...)] of [handleStartRecording] and of the
    button that dismisses the error, lines 178, 195, 298 and 526. *)
Definition setTranscriptionError (error : option string) (st : MeetingPage) : MeetingPage :=
  mkMeetingPage (transcript st) (transcriptRef st) error.

(** What writes this state: a message of the main process, a load that
    found a transcript, the page setting or clearing its error. *)
Inductive PageEvent :=
| FromMain (m : RendererMsg)
| TranscriptLoaded (fullText : option string)
| ErrorSet (error : option string).

(** The page listens to 'transcription:result' and 'transcription:error'
    (lines 100-120); nothing listens to 'transcription:ready'. *)
Definition deliver (st : MeetingPage) (e : PageEvent) : MeetingPage :=
  match e with
  | FromMain (TranscriptionResult text) => onTranscriptionResult text st
  | FromMain (TranscriptionError message) => onTranscriptionError message st
  | FromMain TranscriptionReady => st
  | TranscriptLoaded fullText => onTranscriptLoaded fullText st
  | ErrorSet error => setTranscriptionError error st
  end.

(** The page after it has handled the events [evs]. *)
Definition render (st : MeetingPage) (evs : list PageEvent) : MeetingPage :=
  foldl deliver st evs.

(** ** Reading the trace *)

Definition is_ready (m : Inbound) : bool :=
  match m with
  | Message type _ _ => type =? "ready"
  | Unparseable => false
  end.

Definition is_done (m : Inbound) : bool :=
  match m with
  | Message type _ _ => type =? "done"
  | Unparseable => false
  end.

(** Every audio frame of a socket comes after a [ready] frame received on
    that socket. *)
Definition gated (tr : list Obs) : Prop :=
  ∀ (l1 l2 : list Obs) c d, tr = l1 ++ Sent c (FAudio d) :: l2 →
    ∃ m, is_ready m = true ∧ Recv c m ∈ l1.

Definition is_audio (f : Frame) : bool :=
  match f with FAudio _ => true | _ => false end.

(** The audio frames, and the stop frames, put on the wire of socket [c]. *)
Definition audio_on (c : nat) (tr : list Obs) : list string :=
  omap (λ o, match o with
             | Sent c' (FAudio d) => if decide (c' = c) then Some d else None
             | _ => None
             end) tr.

Definition stops_on (c : nat) (tr : list Obs) : nat :=
  length (filter (λ o, o = Sent c FStop) tr).

(** The outcome of ipc invocation [call], if it has one yet. *)
Definition reply_of (call : nat) (tr : list Obs) : option IpcResult :=
  head (omap (λ o, match o with
                   | Reply call' r => if decide (call' = call) then Some r else None
                   | _ => None
                   end) tr).

Definition ready_events (tr : list Obs) : nat :=
  length (filter (λ o, o = ToRenderer TranscriptionReady) tr).

(** ** The invariant of the event loop

    [ex] names the [stop()] calls whose listener or timer a callback is
    in the middle of retiring. *)

Definition active (k : Conn) : Prop :=
  readyState k = Some CONNECTING ∨ readyState k = Some OPEN.

Definition hearing (k : Conn) : Prop :=
  readyState k = Some OPEN ∨ readyState k = Some CLOSING.

Record InvE (ex : list nat) (w : World) : Prop := mkInv {
  inv_ws : ∀ i s c, services w !! i = Some s → ws s = Some c →
    ∃ k, conns w !! c = Some k ∧ owner k = i;
  inv_owner : ∀ c k, conns w !! c = Some k → owner k < length (services w);
  inv_uniq : ∀ c c' k k', conns w !! c = Some k → conns w !! c' = Some k' →
    owner k = owner k' → c = c';
  inv_torn : ∀ c k, conns w !! c = Some k → active k →
    ws_of (owner k) w = Some c;
  inv_connected : ∀ i s, services w !! i = Some s → isConnected s = true →
    ∃ c k, ws s = Some c ∧ conns w !! c = Some k ∧ hearing k;
  inv_ready : ∀ c k, conns w !! c = Some k → outcome k = Some true →
    ∃ m, is_ready m = true ∧ Recv c m ∈ trace w;
  inv_registered : ∀ i c k, whisperService w = Some i →
    conns w !! c = Some k → owner k = i → outcome k = Some true;
  inv_registered_lt : ∀ i, whisperService w = Some i → i < length (services w);
  inv_task : ∀ call i c, StartAwaitConnect call i c ∈ tasks w →
    ∃ k, conns w !! c = Some k ∧ owner k = i;
  inv_resolved : ∀ p k, stops w !! p = Some k → settled k = Resolved →
    ws_of (target k) w = None;
  inv_pending : ∀ p k, p ∉ ex → stops w !! p = Some k → settled k = Pending →
    stopTimer k = true ∧ ∃ s, services w !! target k = Some s ∧ p ∈ doneOnce s;
  inv_listener : ∀ i s p, services w !! i = Some s → p ∈ doneOnce s →
    ∃ k, stops w !! p = Some k ∧ target k = i;
  inv_settled : ∀ p k e, stops w !! p = Some k → settled k ≠ Rejected e;
  inv_target : ∀ p k, stops w !! p = Some k → target k < length (services w);
  inv_caught : ∀ e, Uncaught e ∉ trace w;
  inv_gated : gated (trace w)
}.

Definition Inv : World → Prop := InvE [].

(** The world after [new WhisperLocalService] and [connect()]. *)
Definition fresh_service (lang : string) (ctorThrows : bool) (w : World) : Service :=
  mkService lang (if ctorThrows then None else Some (length (conns w))) false 0 3 [].

Definition fresh_conn (ctorThrows : bool) (w : World) : Conn :=
  if ctorThrows then mkConn (length (services w)) None (Some false) 0%N false
  else mkConn (length (services w)) (Some CONNECTING) None (now w + 5000)%N true.

(** Two worlds of one run: nothing is forgotten, and what is settled,
    closed or released stays so. *)
Record Ext (w w' : World) : Prop := mkExt {
  ext_trace : trace w `prefix_of` trace w';
  ext_now : (now w ≤ now w')%N;
  ext_service : ∀ i s, services w !! i = Some s →
    ∃ s', services w' !! i = Some s' ∧ language s' = language s ∧
          (ws s = None → ws s' = None);
  ext_conn : ∀ c k, conns w !! c = Some k →
    ∃ k', conns w' !! c = Some k' ∧ owner k' = owner k ∧
          (∀ b, outcome k = Some b → outcome k' = Some b) ∧
          (active k' → active k);
  ext_stop : ∀ p k, stops w !! p = Some k →
    ∃ k', stops w' !! p = Some k' ∧ target k' = target k ∧
          stopDeadline k' = stopDeadline k ∧
          (settled k ≠ Pending → settled k' = settled k)
}.

(** What every callback may put in the trace: replies, warnings, errors
    shown to the user, frames other than audio. *)
Definition routine (o : Obs) : bool :=
  match o with
  | Reply _ _ | Warn _ | Uncaught _ | ToRenderer (TranscriptionError _) => true
  | Sent _ f => negb (is_audio f)
  | _ => false
  end.

Definition adds (w w' : World) : Prop :=
  ∃ l, trace w' = trace w ++ l ∧ Forall (λ o, routine o = true) l.

Definition spontaneous (e : Event) : bool :=
  match e with
  | SockMessage _ _ | IpcSendAudio _ => false
  | _ => true
  end.

(** What a message makes the service say, after the frame itself. *)
Definition reaction (m : Inbound) : list Obs :=
  match m with
  | Unparseable => []
  | Message type text message =>
    if type =? "ready" then [ToRenderer TranscriptionReady]
    else if type =? "transcript" then [ToRenderer (TranscriptionResult text)]
    else if type =? "done" then []
    else if type =? "error" then [ToRenderer (TranscriptionError (default "" message))]
    else []
  end.


(** ** Notions used by the statements *)

(** The session of service [i] is closed: the handle is released, the
    service is not connected, none of its sockets is open or opening. *)
Definition torn_down (i : nat) (w : World) : Prop :=
  ws_of i w = None ∧ getIsConnected i w = false ∧
  ∀ c k, conns w !! c = Some k → owner k = i → ¬ active k.

Definition owner_of (c : nat) (w : World) : option nat :=
  owner <$> conns w !! c.

(** The action delivers [done] to service [i], or is the timer of the
    [stop()] call [p] firing when it is due. *)
Definition finishes (p i : nat) (w : World) (a : Action) : bool :=
  match a with
  | Ev (SockMessage c m) =>
    is_done m && receptive c w && bool_decide (owner_of c w = Some i)
  | Ev (StopTimeout q) => bool_decide (q = p) && stop_timer_due p w
  | _ => false
  end.

(** The once-listeners of 'done' that service [i] holds, and whether
    the timer of the [stop()] call [p] is set: neither cleared nor
    fired. *)
Definition listeners (i : nat) (w : World) : list nat :=
  from_option doneOnce [] (services w !! i).

Definition stop_timer_set (p : nat) (w : World) : bool :=
  from_option stopTimer false (stops w !! p).

(** A [stop()] call that is settled has no timer left. *)
Definition TimerOff (w : World) : Prop :=
  ∀ p k, stops w !! p = Some k → settled k ≠ Pending → stopTimer k = false.

(** What [stop()] leaves behind once it is resolved: the session is
    torn down, the timer of the call is gone, and the socket [c] that
    was stopped has been told to close: it is closing or closed. *)
Definition stopped (i p c : nat) (w : World) : Prop :=
  torn_down i w ∧ stop_timer_set p w = false ∧
  (rs_of c w = Some CLOSING ∨ rs_of c w = Some CLOSED).

(** The [text] of the transcript frames received, in order, and what was
    sent on to the renderer. *)
Definition transcripts_received (tr : list Obs) : list (option string) :=
  omap (λ o, match o with
             | Recv _ (Message type text _) =>
               if type =? "transcript" then Some text else None
             | _ => None
             end) tr.

Definition transcripts_shown (tr : list Obs) : list (option string) :=
  omap (λ o, match o with
             | ToRenderer (TranscriptionResult text) => Some text
             | _ => None
             end) tr.

(** What the main process has sent to the renderer, in order, and the
    messages of the main process among the events of the page. *)
Definition sent_to_renderer (tr : list Obs) : list RendererMsg :=
  omap (λ o, match o with ToRenderer m => Some m | _ => None end) tr.

Definition from_main (evs : list PageEvent) : list RendererMsg :=
  omap (λ e, match e with FromMain m => Some m | _ => None end) evs.

Definition is_load (e : PageEvent) : bool :=
  match e with TranscriptLoaded _ => true | _ => false end.

(** The most recent text that is a non-empty string. *)
Definition most_recent_nonempty (texts : list (option string)) : option string :=
  last (omap (λ t, if truthy t then t else None) texts).

Definition ready_frame (o : Obs) : bool :=
  match o with
  | Recv _ m => is_ready m
  | _ => false
  end.

Definition readys_received (tr : list Obs) : nat :=
  length (filter (λ o, ready_frame o = true) tr).

(** What one action can add to the trace: routine observations only, or
    a frame received and the reaction to it, or one audio frame on the
    socket of the service that the handlers know. *)
Inductive Says (w : World) : list Obs → Prop :=
| says_routine l : Forall (λ o, routine o = true) l → Says w l
| says_message c m : Says w (Recv c m :: reaction m)
| says_audio i c d :
    whisperService w = Some i → ws_of i w = Some c →
    Says w [Sent c (FAudio d); Reply (calls w) RVoid].

(** Running the listeners [L] of service [i]. *)
Definition fire_all (i : nat) (L : list nat) (w : World) : World :=
  foldl (λ w' p, done_listener i p (upd_service i (remove_listener p) w')) w L.

#[global] Instance Task_eq_dec : EqDecision Task.
Proof. solve_decision. Defined.

(** * More of the session manager: notions *)

(** ** How a connection and the stores can change in one callback *)

(** A socket that was never created, or is closed, emits nothing more. *)
Definition finished (k : Conn) : Prop :=
  readyState k = None ∨ readyState k = Some CLOSED.

(** What a callback can do to one [connect()] call: the socket only moves
    forward and stays the socket it is, a cleared timer stays cleared, a settled promise stays as it
    is, and a pending one is settled only while the socket can still emit
    events or by the timer. *)
Record ConnStep (k k' : Conn) : Prop := mkConnStep {
  cs_owner : owner k' = owner k;
  cs_finished : finished k → readyState k' = readyState k;
  cs_connecting : readyState k' = Some CONNECTING → readyState k = Some CONNECTING;
  cs_open : readyState k' = Some OPEN → active k;
  cs_timer : connTimer k = false → connTimer k' = false;
  cs_outcome : ∀ b, outcome k = Some b → outcome k' = Some b;
  cs_settle : ∀ b, outcome k = None → outcome k' = Some b →
    ¬ finished k ∨ (b = false ∧ connTimer k = true);
  cs_made : readyState k' = None → readyState k = None
}.

Record Evo (w w' : World) : Prop := mkEvo {
  evo_len : (length (services w) ≤ length (services w'))%nat;
  evo_conn : ∀ c k, conns w !! c = Some k →
    ∃ k', conns w' !! c = Some k' ∧ ConnStep k k';
  evo_new : ∀ c k', conns w' !! c = Some k' → conns w !! c = None →
    (length (services w) ≤ owner k')%nat;
  evo_rise : ∀ i, i < length (services w) →
    getIsConnected i w = false → getIsConnected i w' = true →
    ∃ c k, conns w !! c = Some k ∧ owner k = i ∧ active k
}.

(** The service is not connected and none of its sockets is open or
    opening (the handle may still name the closed socket). *)
Definition offline (i : nat) (w : World) : Prop :=
  getIsConnected i w = false ∧
  ∀ c k, conns w !! c = Some k → owner k = i → ¬ active k.

(** The promise of [connect()] is pending, its timer has fired and its
    socket is closed. *)
Definition stranded (c : nat) (w : World) : Prop :=
  ∃ k, conns w !! c = Some k ∧ outcome k = None ∧ connTimer k = false ∧
       readyState k = Some CLOSED.

(** ** What one callback adds to the trace *)

Definition call_of (t : Task) : nat :=
  match t with
  | StartAwaitStop call _ _ _ | StartAwaitConnect call _ _ | StopAwaitStop call _ => call
  end.

Definition is_ipc (e : Event) : bool :=
  match e with
  | IpcStart _ _ | IpcSendAudio _ | IpcStop => true
  | _ => false
  end.

Definition is_config (f : Frame) : bool :=
  match f with FConfig _ => true | _ => false end.

(** The ipc invocations answered so far, in order. *)
Definition replies (tr : list Obs) : list nat :=
  omap (λ o, match o with Reply call _ => Some call | _ => None end) tr.

(** The frames put on the wire of socket [c], in order. *)
Definition frames_on (c : nat) (tr : list Obs) : list Frame :=
  omap (λ o, match o with
             | Sent c' f => if decide (c' = c) then Some f else None
             | _ => None
             end) tr.

(** Why an observation other than a reply is made when action [a] runs
    in world [w]: the config frame is sent by the 'open' callback of a
    socket that was connecting, with the language of its service; every
    other frame goes to a socket that is open; a frame is received on a
    socket that is open or closing. *)
Definition caused (w : World) (a : Action) (o : Obs) : Prop :=
  match o with
  | Sent c f =>
    if is_config f
    then a = Ev (SockOpen c) ∧ rs_of c w = Some CONNECTING ∧
         ∃ k s, conns w !! c = Some k ∧ services w !! owner k = Some s ∧
                f = FConfig (language s)
    else rs_of c w = Some OPEN
  | Recv c m => a = Ev (SockMessage c m) ∧ receptive c w = true
  | Reply _ _ => False
  | _ => True
  end.

(** A callback that answers no ipc invocation and suspends none. *)
Definition quiet (P : Obs → Prop) (w w' : World) : Prop :=
  tasks w' = tasks w ∧ calls w' = calls w ∧
  ∃ l, trace w' = trace w ++ l ∧ Forall P l.

(** The shape of one turn of the event loop. *)
Inductive Turn (w : World) (a : Action) (w' : World) : Prop :=
| turn_quiet :
    quiet (caused w a) w w' → Turn w a w'
| turn_return e l r :
    a = Ev e → is_ipc e = true →
    calls w' = S (calls w) → tasks w' = tasks w →
    trace w' = trace w ++ l ++ [Reply (calls w) r] → Forall (caused w a) l →
    r = RVoid ∨ r = RError not_started ∨ r = RError not_connected →
    Turn w a w'
| turn_suspend e t :
    a = Ev e → is_ipc e = true →
    calls w' = S (calls w) → tasks w' = tasks w ++ [t] → call_of t = calls w →
    (∃ l, trace w' = trace w ++ l ∧ Forall (caused w a) l) →
    Turn w a w'
| turn_resume_return n t r :
    a = Resume n → tasks w !! n = Some t → ready w t = true →
    calls w' = calls w → tasks w' = delete n (tasks w) →
    trace w' = trace w ++ [Reply (call_of t) r] →
    (r = RBool true → ∃ i c, t = StartAwaitConnect (call_of t) i c ∧
                             conn_outcome c w = Some true) →
    (∀ e, r ≠ RError e) →
    Turn w a w'
| turn_resume_suspend n t t' :
    a = Resume n → tasks w !! n = Some t → ready w t = true →
    calls w' = calls w → tasks w' = delete n (tasks w) ++ [t'] →
    call_of t' = call_of t → trace w' = trace w →
    Turn w a w'.

(** Every pending invocation has a number already given out, every
    answered one too, and no invocation is answered twice or answered
    while it is pending. *)
Record CallsOk (w : World) : Prop := mkCallsOk {
  co_pending : Forall (λ t, call_of t < calls w) (tasks w);
  co_replies : Forall (λ call, call < calls w) (replies (trace w));
  co_once : NoDup (replies (trace w) ++ (call_of <$> tasks w))
}.

(** A callback other than 'open' opens no socket. *)
Definition calm (w w' : World) : Prop :=
  ∀ c, rs_of c w' = Some OPEN → rs_of c w = Some OPEN.

(** Nothing is on the wire of a socket that does not exist yet or is
    still connecting; something is on the wire of an open socket; the
    first frame on a wire is the config frame of the service, and there
    is no other config frame. *)
Record ConfigFirst (w : World) : Prop := mkConfigFirst {
  cf_none : ∀ c, conns w !! c = None ∨ rs_of c w = Some CONNECTING →
    frames_on c (trace w) = [];
  cf_open : ∀ c, rs_of c w = Some OPEN → frames_on c (trace w) ≠ [];
  cf_shape : ∀ c f rest, frames_on c (trace w) = f :: rest →
    (∃ k s, conns w !! c = Some k ∧ services w !! owner k = Some s ∧
            f = FConfig (language s)) ∧
    Forall (λ f, is_config f = false) rest
}.

(** The answers that an ipc invocation of the transcription channels can
    get. *)
Definition expected_reply (r : IpcResult) : Prop :=
  match r with
  | RBool _ | RVoid => True
  | RError e => e = not_started ∨ e = not_connected
  end.


(** * The database (src/main/db/index.ts, schema.ts, queries.ts)

    The tables that [createTables] declares, as lists of rows in the order
    of insertion, and the queries of queries.ts as functions on them.
    A query runs to completion before anything else touches the
    database (better-sqlite3 is synchronous), and makes at most one
    write; when a statement fails nothing is written.  [uuid()] and
    [new Date()] are inputs of the queries that use them.  A timestamp
    column (mode 'timestamp') holds whole seconds. *)
Module Db.

Inductive MeetingStatus := recording | processing | completed.
Inductive EvaluationTaskType := enhancement | chat | action_items | summary_task.

#[global] Instance MeetingStatus_eq_dec : EqDecision MeetingStatus.
Proof. solve_decision. Defined.
#[global] Instance EvaluationTaskType_eq_dec : EqDecision EvaluationTaskType.
Proof. solve_decision. Defined.

(** [meetings], lines 53-62 of index.ts. *)
Module Meeting.
Record row := mk {
  id : string;
  title : string;
  date : N;
  duration : option Z;
  templateId : option string;
  status : option MeetingStatus;
  createdAt : option N;
  updatedAt : option N
}.
End Meeting.

(** One element of [TranscriptData.segments] (shared/types.ts).  A
    [number] is a double, held here as its 64 bits; the queries store
    the segments and never compute with them. *)
Record TranscriptSegment := mkSegment {
  seg_id : string;
  seg_text : string;
  seg_start : N;
  seg_end : N;
  seg_speaker : option string;
  seg_confidence : N
}.

(** [transcripts], lines 67-75.  [segments] holds what the query passes
    for the column: [JSON.stringify(data.segments)]. *)
Module Transcript.
Record row := mk {
  id : string;
  meetingId : string;
  fullText : option string;
  segments : option (list TranscriptSegment);
  sttModel : option string;
  language : option string;
  createdAt : option N
}.
End Transcript.

(** [notes], lines 80-90.  The queries write 1 in [version] and never
    change it. *)
Module Note.
Record row := mk {
  id : string;
  meetingId : string;
  rawNotes : option string;
  enhancedNotes : option string;
  llmModel : option string;
  enhancementLatencyMs : option Z;
  version : Z;
  createdAt : option N;
  updatedAt : option N
}.
End Note.

(** [model_evaluations], lines 108-121. *)
Module Evaluation.
Record row := mk {
  id : string;
  meetingId : option string;
  taskType : EvaluationTaskType;
  modelId : string;
  modelName : string;
  input : string;
  output : string;
  latencyMs : option Z;
  tokensUsed : option Z;
  userRating : option Z;
  notes : option string;
  createdAt : option N
}.
End Evaluation.

(** The module variables [db] and [sqlite] ([connected]: they are not
    null) and the contents of the database file.  [foreign_keys] is the
    pragma of the connection; the program never sets it. *)
Record Database := mkDatabase {
  connected : bool;
  foreign_keys : bool;
  meetings : list Meeting.row;
  transcripts : list Transcript.row;
  notes : list Note.row;
  modelEvaluations : list Evaluation.row
}.

Definition empty (fk : bool) : Database := mkDatabase false fk [] [] [] [].

Inductive DbError :=
| NotInitialized
| UniqueConstraint (column : string)
| ForeignKeyConstraint
| CheckConstraint (column : string)
| SyntaxError (near : string).

(** A query returns or throws; it may change the database on the way. *)
Definition Query (A : Type) : Type := Database → (A + DbError) * Database.

Definition ret {A} (a : A) : Query A := λ d, (inl a, d).
Definition throw {A} (e : DbError) : Query A := λ d, (inr e, d).
Definition bind {A B} (m : Query A) (f : A → Query B) : Query B :=
  λ d, match m d with
       | (inl a, d') => f a d'
       | (inr e, d') => (inr e, d')
       end.
Definition read : Query Database := λ d, (inl d, d).
Definition write (d' : Database) : Query unit := λ _, (inl tt, d').

#[global] Instance Query_ret : MRet Query := @ret.
#[global] Instance Query_bind : MBind Query := λ A B f m, bind m f.

Definition set_meetings (l : list Meeting.row) (d : Database) : Database :=
  mkDatabase (connected d) (foreign_keys d) l (transcripts d) (notes d) (modelEvaluations d).
Definition set_transcripts (l : list Transcript.row) (d : Database) : Database :=
  mkDatabase (connected d) (foreign_keys d) (meetings d) l (notes d) (modelEvaluations d).
Definition set_notes (l : list Note.row) (d : Database) : Database :=
  mkDatabase (connected d) (foreign_keys d) (meetings d) (transcripts d) l (modelEvaluations d).
Definition set_modelEvaluations (l : list Evaluation.row) (d : Database) : Database :=
  mkDatabase (connected d) (foreign_keys d) (meetings d) (transcripts d) (notes d) l.
Definition set_connected (b : bool) (d : Database) : Database :=
  mkDatabase b (foreign_keys d) (meetings d) (transcripts d) (notes d) (modelEvaluations d).

(** ** index.ts *)

(** [getDb()], lines 11-16. *)
Definition getDb : Query unit :=
  d ← read;
  if connected d then mret tt else throw NotInitialized.

(** [initDatabase()], lines 18-48: the tables are created if they do not
    exist, so the contents of an existing file are kept. *)
Definition initDatabase (d : Database) : Database := set_connected true d.

(** [closeDatabase()], lines 134-140. *)
Definition closeDatabase (d : Database) : Database := set_connected false d.

(** ** SQL, as SQLite runs it *)

(** [.limit(n).offset(m)] of a select, for integers [n] and [m], as
    drizzle builds the statement and SQLite runs it: [LIMIT n] is part
    of the statement only when [n] is not negative, [OFFSET m] only when
    [m] is not 0.  An [OFFSET] without a [LIMIT] is no statement of
    SQLite: preparing it throws a syntax error near "offset".  With
    both, a negative offset skips nothing. *)
Definition limit_offset {A} (limit offset : Z) (l : list A) : list A + DbError :=
  if (0 <=? limit)%Z then inl (take (Z.to_nat limit) (drop (Z.to_nat offset) l))
  else if (offset =? 0)%Z then inl l
  else inr (SyntaxError "offset").

(** The rows that a statement returns, or the error that it throws. *)
Definition rows_or_throw {A} (r : A + DbError) : Query A :=
  match r with
  | inl a => mret a
  | inr e => throw e
  end.

(** [ORDER BY key DESC] on a column that is never null. *)
Definition order_by_desc {A} (key : A → Z) (l : list A) : list A :=
  @merge_sort A (λ a b, (key b ≤ key a)%Z) (λ a b, decide (key b ≤ key a)%Z) l.

(** SQL leaves the order among rows of equal key to the engine.  A
    statement that lists several rows takes the ordering of the engine
    as a parameter: any listing of the rows by descending key.
    [order_by_desc] is one. *)
Definition Ordering (A : Type) : Type := (A → Z) → list A → list A.

Definition orders_desc {A} (order : Ordering A) (key : A → Z) (l : list A) : Prop :=
  order key l ≡ₚ l ∧ StronglySorted (λ a b, (key b ≤ key a)%Z) (order key l).

(** [Date] to the value of a timestamp column. *)
Definition seconds (ms : N) : N := (ms / 1000)%N.

Definition has_meeting (id : string) (d : Database) : bool :=
  bool_decide (id ∈ Meeting.id <$> meetings d).

(** The check of [REFERENCES meetings(id)] on a row that is written. *)
Definition references_ok (meetingId : option string) (d : Database) : bool :=
  match meetingId with
  | Some m => negb (foreign_keys d) || has_meeting m d
  | None => true
  end.

(** [CHECK(user_rating >= 1 AND user_rating <= 5)]; a null passes. *)
Definition rating_ok (r : option Z) : bool :=
  match r with
  | Some n => (1 <=? n)%Z && (n <=? 5)%Z
  | None => true
  end.

Definition insert_meeting (m : Meeting.row) : Query unit :=
  d ← read;
  if bool_decide (Meeting.id m ∈ Meeting.id <$> meetings d)
  then throw (UniqueConstraint "meetings.id")
  else write (set_meetings (meetings d ++ [m]) d).

Definition insert_transcript (t : Transcript.row) : Query unit :=
  d ← read;
  if bool_decide (Transcript.id t ∈ Transcript.id <$> transcripts d)
  then throw (UniqueConstraint "transcripts.id")
  else if references_ok (Some (Transcript.meetingId t)) d
  then write (set_transcripts (transcripts d ++ [t]) d)
  else throw ForeignKeyConstraint.

Definition insert_note (n : Note.row) : Query unit :=
  d ← read;
  if bool_decide (Note.id n ∈ Note.id <$> notes d)
  then throw (UniqueConstraint "notes.id")
  else if references_ok (Some (Note.meetingId n)) d
  then write (set_notes (notes d ++ [n]) d)
  else throw ForeignKeyConstraint.

Definition insert_evaluation (e : Evaluation.row) : Query unit :=
  d ← read;
  if negb (rating_ok (Evaluation.userRating e))
  then throw (CheckConstraint "user_rating")
  else if bool_decide (Evaluation.id e ∈ Evaluation.id <$> modelEvaluations d)
  then throw (UniqueConstraint "model_evaluations.id")
  else if references_ok (Evaluation.meetingId e) d
  then write (set_modelEvaluations (modelEvaluations d ++ [e]) d)
  else throw ForeignKeyConstraint.

(** [UPDATE ... WHERE p]: every row that [p] selects is rewritten. *)
Definition update_where {A} (p : A → bool) (f : A → A) (l : list A) : list A :=
  (λ r, if p r then f r else r) <$> l.

(** [DELETE FROM meetings WHERE id = ?], with the actions that the
    other tables declare ([ON DELETE CASCADE], [ON DELETE SET NULL])
    when foreign keys are enforced. *)
Definition delete_meeting (id : string) (d : Database) : Database :=
  let ms := filter (λ m, Meeting.id m ≠ id) (meetings d) in
  if foreign_keys d && has_meeting id d
  then mkDatabase (connected d) (foreign_keys d) ms
         (filter (λ t, Transcript.meetingId t ≠ id) (transcripts d))
         (filter (λ n, Note.meetingId n ≠ id) (notes d))
         (update_where (λ e, bool_decide (Evaluation.meetingId e = Some id))
            (λ e, Evaluation.mk (Evaluation.id e) None (Evaluation.taskType e)
                    (Evaluation.modelId e) (Evaluation.modelName e)
                    (Evaluation.input e) (Evaluation.output e)
                    (Evaluation.latencyMs e) (Evaluation.tokensUsed e)
                    (Evaluation.userRating e) (Evaluation.notes e)
                    (Evaluation.createdAt e))
            (modelEvaluations d))
  else set_meetings ms d.

(** ** queries.ts: meetings *)

(** The sort key of [date]. *)
Definition dated (m : Meeting.row) : Z := Z.of_N (Meeting.date m).

(** [getMeetings(options)], lines 158-169. *)
Definition getMeetings (order : Ordering Meeting.row) (limit offset : option Z) :
    Query (list Meeting.row) :=
  _ ← getDb;
  d ← read;
  let limit := default 50%Z limit in
  let offset := default 0%Z offset in
  rows_or_throw (limit_offset limit offset (order dated (meetings d))).

(** [getMeetingById(id)], lines 171-175. *)
Definition getMeetingById (id : string) : Query (option Meeting.row) :=
  _ ← getDb;
  d ← read;
  mret (head (filter (λ m, Meeting.id m = id) (meetings d))).

(** [createMeeting(data)], lines 177-193. *)
Definition createMeeting (title : string) (templateId : option string)
    (date : option N) (id : string) (now : N) : Query (option Meeting.row) :=
  _ ← getDb;
  _ ← insert_meeting
        (Meeting.mk id title (seconds (default now date)) None templateId
           (Some recording) (Some (seconds now)) (Some (seconds now)));
  getMeetingById id.

(** [Partial<MeetingUpdate>], lines 151-156: an absent key leaves the
    column as it is. *)
Record MeetingUpdate := mkMeetingUpdate {
  upd_title : option string;
  upd_duration : option Z;
  upd_templateId : option string;
  upd_status : option MeetingStatus
}.

Definition apply_update (data : MeetingUpdate) (now : N) (m : Meeting.row) : Meeting.row :=
  Meeting.mk (Meeting.id m)
    (default (Meeting.title m) (upd_title data))
    (Meeting.date m)
    (match upd_duration data with Some x => Some x | None => Meeting.duration m end)
    (match upd_templateId data with Some x => Some x | None => Meeting.templateId m end)
    (match upd_status data with Some x => Some x | None => Meeting.status m end)
    (Meeting.createdAt m)
    (Some (seconds now)).

(** [updateMeeting(id, data)], lines 195-208. *)
Definition updateMeeting (id : string) (data : MeetingUpdate) (now : N) :
    Query (option Meeting.row) :=
  _ ← getDb;
  d ← read;
  _ ← write (set_meetings
               (update_where (λ m, bool_decide (Meeting.id m = id))
                  (apply_update data now) (meetings d)) d);
  getMeetingById id.

(** [deleteMeeting(id)], lines 210-214: [{ success: true }]. *)
Definition deleteMeeting (id : string) : Query bool :=
  _ ← getDb;
  d ← read;
  _ ← write (delete_meeting id d);
  mret true.

(** ** queries.ts: transcripts *)

(** [TranscriptData], lines 220-225. *)
Record TranscriptData := mkTranscriptData {
  td_fullText : string;
  td_segments : list TranscriptSegment;
  td_sttModel : string;
  td_language : option string
}.

(** [getTranscriptByMeetingId(meetingId)], lines 227-236. *)
Definition getTranscriptByMeetingId (meetingId : string) : Query (option Transcript.row) :=
  _ ← getDb;
  d ← read;
  mret (head (filter (λ t, Transcript.meetingId t = meetingId) (transcripts d))).

(** [saveTranscript(meetingId, data)], lines 238-273. *)
Definition saveTranscript (meetingId : string) (data : TranscriptData)
    (id : string) (now : N) : Query (option Transcript.row) :=
  _ ← getDb;
  existing ← getTranscriptByMeetingId meetingId;
  match existing with
  | Some _ =>
    d ← read;
    _ ← write (set_transcripts
                 (update_where (λ t, bool_decide (Transcript.meetingId t = meetingId))
                    (λ t, Transcript.mk (Transcript.id t) (Transcript.meetingId t)
                            (Some (td_fullText data)) (Some (td_segments data))
                            (Some (td_sttModel data))
                            (Some (default "en" (td_language data)))
                            (Transcript.createdAt t))
                    (transcripts d)) d);
    getTranscriptByMeetingId meetingId
  | None =>
    _ ← insert_transcript
          (Transcript.mk id meetingId (Some (td_fullText data))
             (Some (td_segments data)) (Some (td_sttModel data))
             (Some (default "en" (td_language data))) (Some (seconds now)));
    getTranscriptByMeetingId meetingId
  end.

(** ** queries.ts: notes *)

(** [getNotesByMeetingId(meetingId)], lines 279-289. *)
Definition getNotesByMeetingId (meetingId : string) : Query (option Note.row) :=
  _ ← getDb;
  d ← read;
  mret (head (order_by_desc Note.version
                (filter (λ n, Note.meetingId n = meetingId) (notes d)))).

(** [saveNotes(meetingId, rawNotes)], lines 291-321. *)
Definition saveNotes (meetingId rawNotes : string) (id : string) (now : N) :
    Query (option Note.row) :=
  _ ← getDb;
  existing ← getNotesByMeetingId meetingId;
  match existing with
  | Some e =>
    d ← read;
    _ ← write (set_notes
                 (update_where (λ n, bool_decide (Note.id n = Note.id e))
                    (λ n, Note.mk (Note.id n) (Note.meetingId n) (Some rawNotes)
                            (Note.enhancedNotes n) (Note.llmModel n)
                            (Note.enhancementLatencyMs n) (Note.version n)
                            (Note.createdAt n) (Some (seconds now)))
                    (notes d)) d);
    getNotesByMeetingId meetingId
  | None =>
    _ ← insert_note
          (Note.mk id meetingId (Some rawNotes) None None None 1
             (Some (seconds now)) (Some (seconds now)));
    getNotesByMeetingId meetingId
  end.

(** [saveEnhancedNotes(meetingId, enhancedNotes, llmModel, latencyMs)],
    lines 323-361. *)
Definition saveEnhancedNotes (meetingId enhancedNotes llmModel : string)
    (latencyMs : Z) (id : string) (now : N) : Query (option Note.row) :=
  _ ← getDb;
  existing ← getNotesByMeetingId meetingId;
  match existing with
  | Some e =>
    d ← read;
    _ ← write (set_notes
                 (update_where (λ n, bool_decide (Note.id n = Note.id e))
                    (λ n, Note.mk (Note.id n) (Note.meetingId n) (Note.rawNotes n)
                            (Some enhancedNotes) (Some llmModel) (Some latencyMs)
                            (Note.version n) (Note.createdAt n) (Some (seconds now)))
                    (notes d)) d);
    getNotesByMeetingId meetingId
  | None =>
    _ ← insert_note
          (Note.mk id meetingId None (Some enhancedNotes) (Some llmModel)
             (Some latencyMs) 1 (Some (seconds now)) (Some (seconds now)));
    getNotesByMeetingId meetingId
  end.

(** ** queries.ts: model evaluations *)

(** [EvaluationData], lines 367-378. *)
Record EvaluationData := mkEvaluationData {
  ed_meetingId : option string;
  ed_taskType : EvaluationTaskType;
  ed_modelId : string;
  ed_modelName : string;
  ed_input : string;
  ed_output : string;
  ed_latencyMs : option Z;
  ed_tokensUsed : option Z;
  ed_userRating : option Z;
  ed_notes : option string
}.

(** [saveEvaluation(data)], lines 380-401: [{ id }]. *)
Definition saveEvaluation (data : EvaluationData) (id : string) (now : N) : Query string :=
  _ ← getDb;
  _ ← insert_evaluation
        (Evaluation.mk id (ed_meetingId data) (ed_taskType data) (ed_modelId data)
           (ed_modelName data) (ed_input data) (ed_output data) (ed_latencyMs data)
           (ed_tokensUsed data) (ed_userRating data) (ed_notes data)
           (Some (seconds now)));
  mret id.

(** The sort key of [created_at]: a null sorts below every time. *)
Definition created (e : Evaluation.row) : Z :=
  match Evaluation.createdAt e with
  | Some t => Z.of_N t
  | None => (-1)%Z
  end.

(** The evaluations that a model id asks for: those of the model, or
    all of them when the id is missing or empty. *)
Definition asked_for (modelId : option string) (e : Evaluation.row) : Prop :=
  ∀ m, modelId = Some m → m ≠ "" → Evaluation.modelId e = m.

#[global] Instance asked_for_dec modelId e : Decision (asked_for modelId e).
Proof.
  unfold asked_for. destruct modelId as [m|]; [|left; by intros m].
  destruct (decide (m = "")) as [->|Hm]; [left; by intros m [= <-]|].
  destruct (decide (Evaluation.modelId e = m)) as [He|He].
  - left. by intros m' [= <-].
  - right. intros H. by apply He, H.
Defined.

(** [getEvaluations(options)], lines 403-414; an empty [modelId] is
    falsy and filters nothing.  The statement that runs is
    [SELECT ... WHERE model_id = ? ORDER BY created_at DESC LIMIT ?],
    without the [LIMIT] when the limit is negative. *)
Definition getEvaluations (order : Ordering Evaluation.row) (modelId : option string)
    (limit : option Z) : Query (list Evaluation.row) :=
  _ ← getDb;
  d ← read;
  let limit := default 100%Z limit in
  let selected := match modelId with
                  | Some "" | None => modelEvaluations d
                  | Some m => filter (λ e, Evaluation.modelId e = m) (modelEvaluations d)
                  end in
  rows_or_throw (limit_offset limit 0 (order created selected)).

(** [updateEvaluationRating(id, rating, evalNotes)], lines 435-447:
    [{ success: true }]. *)
Definition updateEvaluationRating (id : string) (rating : Z) (evalNotes : option string) :
    Query bool :=
  _ ← getDb;
  d ← read;
  if negb (rating_ok (Some rating)) &&
     bool_decide (id ∈ Evaluation.id <$> modelEvaluations d)
  then throw (CheckConstraint "user_rating")
  else
    _ ← write (set_modelEvaluations
                 (update_where (λ e, bool_decide (Evaluation.id e = id))
                    (λ e, Evaluation.mk (Evaluation.id e) (Evaluation.meetingId e)
                            (Evaluation.taskType e) (Evaluation.modelId e)
                            (Evaluation.modelName e) (Evaluation.input e)
                            (Evaluation.output e) (Evaluation.latencyMs e)
                            (Evaluation.tokensUsed e) (Some rating)
                            (match evalNotes with
                             | Some x => Some x
                             | None => Evaluation.notes e
                             end)
                            (Evaluation.createdAt e))
                    (modelEvaluations d)) d);
    mret true.

(** ** The database over time *)

(** What is done to the database: [initDatabase] and [closeDatabase] of
    the application and the exported queries that write, which the
    [db:*] ipc handlers call with their arguments as they are. *)
Inductive Call :=
| InitDatabase
| CloseDatabase
| CreateMeeting (title : string) (templateId : option string) (date : option N)
    (id : string) (now : N)
| UpdateMeeting (id : string) (data : MeetingUpdate) (now : N)
| DeleteMeeting (id : string)
| SaveTranscript (meetingId : string) (data : TranscriptData) (id : string) (now : N)
| SaveNotes (meetingId rawNotes : string) (id : string) (now : N)
| SaveEnhancedNotes (meetingId enhancedNotes llmModel : string) (latencyMs : Z)
    (id : string) (now : N)
| SaveEvaluation (data : EvaluationData) (id : string) (now : N)
| UpdateEvaluationRating (id : string) (rating : Z) (evalNotes : option string).

Definition perform (d : Database) (c : Call) : Database :=
  match c with
  | InitDatabase => initDatabase d
  | CloseDatabase => closeDatabase d
  | CreateMeeting title templateId date id now =>
    (createMeeting title templateId date id now d).2
  | UpdateMeeting id data now => (updateMeeting id data now d).2
  | DeleteMeeting id => (deleteMeeting id d).2
  | SaveTranscript meetingId data id now => (saveTranscript meetingId data id now d).2
  | SaveNotes meetingId rawNotes id now => (saveNotes meetingId rawNotes id now d).2
  | SaveEnhancedNotes meetingId enhancedNotes llmModel latencyMs id now =>
    (saveEnhancedNotes meetingId enhancedNotes llmModel latencyMs id now d).2
  | SaveEvaluation data id now => (saveEvaluation data id now d).2
  | UpdateEvaluationRating id rating evalNotes =>
    (updateEvaluationRating id rating evalNotes d).2
  end.

(** The database after the calls [cs], from an empty file. *)
Definition history (fk : bool) (cs : list Call) : Database :=
  foldl perform (empty fk) cs.

(** Keys are unique, and no meeting has two transcripts or two notes. *)
Record WellKeyed (d : Database) : Prop := mkWellKeyed {
  wk_meetings : NoDup (Meeting.id <$> meetings d);
  wk_transcripts : NoDup (Transcript.id <$> transcripts d);
  wk_notes : NoDup (Note.id <$> notes d);
  wk_evaluations : NoDup (Evaluation.id <$> modelEvaluations d);
  wk_one_transcript : NoDup (Transcript.meetingId <$> transcripts d);
  wk_one_note : NoDup (Note.meetingId <$> notes d)
}.

(** Every row that names a meeting names one of the table. *)
Record Referenced (d : Database) : Prop := mkReferenced {
  ref_transcripts :
    ∀ t, t ∈ transcripts d → Transcript.meetingId t ∈ Meeting.id <$> meetings d;
  ref_notes :
    ∀ n, n ∈ notes d → Note.meetingId n ∈ Meeting.id <$> meetings d;
  ref_evaluations :
    ∀ e m, e ∈ modelEvaluations d → Evaluation.meetingId e = Some m →
           m ∈ Meeting.id <$> meetings d
}.

End Db.


(** * Audio capture (src/main/audio-capture.ts and the [audio:*] handlers
      of src/main/ipc-handlers.ts)

    The main process as a transition system on the events it receives:
    invocations of the [audio:*] channels, the two messages of the
    renderer that [stopRecording] listens for, and the firing of one of
    its timers.  A handler runs until it returns or waits for the
    promise of [stopRecording]; that promise is named by the number of
    the invocation that made it.  The window is assumed to be alive, so
    that [webContents.send] does not throw. *)
Module Audio.

Inductive AudioSource := microphone | system | both.

(** The fields of [class AudioCapture]; [mainWindow] is whether the
    field is set. *)
Record AudioCapture := mkAudioCapture {
  recording : bool;
  mainWindow : bool
}.

(** What an invocation is answered with. *)
Inductive Reply :=
| RTrue
| RBool (b : bool)
| RBuffer (buffer : string)
| RError (message : string).

Inductive Obs :=
| StartCapture (source : AudioSource)   (* send('audio:start-capture', source) *)
| StopCapture                           (* send('audio:stop-capture') *)
| Answer (call : nat) (r : Reply).

Inductive Event :=
| StartRecording (source : AudioSource) (* invoke 'audio:start-recording' *)
| StopRecording                         (* invoke 'audio:stop-recording' *)
| IsRecording                           (* invoke 'audio:is-recording' *)
| CaptureComplete (buffer : string)     (* 'audio:capture-complete' *)
| CaptureError (error : string)         (* 'audio:capture-error' *)
| Timeout (p : nat).                    (* the 5000 ms timer of promise p fires *)

Record State := mkState {
  audioCapture : option AudioCapture;   (* the module variable *)
  calls : nat;                          (* invocations so far *)
  complete_listeners : list nat;        (* ipcMain.once('audio:capture-complete') *)
  error_listeners : list nat;           (* ipcMain.once('audio:capture-error') *)
  timers : list nat;                    (* timers set, not cleared, not fired *)
  settled : list nat;                   (* promises resolved or rejected *)
  trace : list Obs
}.

Definition init : State := mkState None 0 [] [] [] [] [].

Definition log (o : Obs) (s : State) : State :=
  mkState (audioCapture s) (calls s) (complete_listeners s) (error_listeners s)
    (timers s) (settled s) (trace s ++ [o]).

(** The handler returns or throws: the invocation is answered. *)
Definition answer (r : Reply) (s : State) : State :=
  mkState (audioCapture s) (S (calls s)) (complete_listeners s) (error_listeners s)
    (timers s) (settled s) (trace s ++ [Answer (calls s) r]).

Definition set_audioCapture (c : AudioCapture) (s : State) : State :=
  mkState (Some c) (calls s) (complete_listeners s) (error_listeners s)
    (timers s) (settled s) (trace s).

(** [clearTimeout(timeout)] of promise [p]. *)
Definition clearTimeout (p : nat) (s : State) : State :=
  mkState (audioCapture s) (calls s) (complete_listeners s) (error_listeners s)
    (filter (λ q, q ≠ p) (timers s)) (settled s) (trace s).

(** [resolve(buffer)] or [reject(error)] of promise [p]: the first one
    settles it, and the handler that waits for it answers its
    invocation; later ones do nothing. *)
Definition settle (p : nat) (r : Reply) (s : State) : State :=
  if bool_decide (p ∈ settled s) then s
  else mkState (audioCapture s) (calls s) (complete_listeners s) (error_listeners s)
         (timers s) (settled s ++ [p]) (trace s ++ [Answer p r]).

(** [AudioCapture.startRecording], lines 12-18. *)
Definition startRecording (source : AudioSource) (s : State) : State :=
  log (StartCapture source) (set_audioCapture (mkAudioCapture true true) s).

(** The promise of [AudioCapture.stopRecording], lines 28-46, for the
    invocation that is being handled. *)
Definition await_capture (c : AudioCapture) (s : State) : State :=
  let p := calls s in
  mkState (Some (mkAudioCapture false (mainWindow c))) (S (calls s))
    (complete_listeners s ++ [p]) (error_listeners s ++ [p])
    (timers s ++ [p]) (settled s) (trace s ++ [StopCapture]).

(** The listeners of an event of [ipcMain]: they run in the order of
    their registration, and each is removed as it runs. *)
Definition emit_complete (buffer : string) (s : State) : State :=
  foldl (λ s p, settle p (RBuffer buffer) (clearTimeout p s))
    (mkState (audioCapture s) (calls s) [] (error_listeners s)
       (timers s) (settled s) (trace s))
    (complete_listeners s).

Definition emit_error (error : string) (s : State) : State :=
  foldl (λ s p, settle p (RError error) (clearTimeout p s))
    (mkState (audioCapture s) (calls s) (complete_listeners s) []
       (timers s) (settled s) (trace s))
    (error_listeners s).

Definition handle (e : Event) (s : State) : State :=
  match e with
  | StartRecording source =>
    (* ipc-handlers.ts, lines 43-49 *)
    answer RTrue (startRecording source s)
  | StopRecording =>
    (* ipc-handlers.ts, lines 51-57; audio-capture.ts, lines 20-26 *)
    match audioCapture s with
    | None => answer (RError "No recording in progress") s
    | Some c =>
      if mainWindow c then await_capture c s
      else answer (RError "No recording in progress") s
    end
  | IsRecording =>
    (* ipc-handlers.ts, lines 59-61 *)
    answer (RBool (from_option recording false (audioCapture s))) s
  | CaptureComplete buffer => emit_complete buffer s
  | CaptureError error => emit_error error s
  | Timeout p =>
    if bool_decide (p ∈ timers s)
    then settle p (RError "Timeout waiting for audio data")
           (mkState (audioCapture s) (calls s) (complete_listeners s)
              (error_listeners s) (filter (λ q, q ≠ p) (timers s)) (settled s) (trace s))
    else s
  end.

Definition run (es : list Event) : State := foldl (λ s e, handle e s) init es.

(** ** Notions for stating what a run guarantees *)

(** The invocations answered in a trace, in the order of the answers. *)
Definition answered (t : list Obs) : list nat :=
  omap (λ o, match o with Answer n _ => Some n | _ => None end) t.

Definition is_start (e : Event) : bool :=
  match e with StartRecording _ => true | _ => false end.

(** Whether the last request to start or stop was one to start; false
    when there was none. *)
Definition last_request_was_start (es : list Event) : bool :=
  foldl (λ b e, match e with
                | StartRecording _ => true
                | StopRecording => false
                | _ => b
                end) false es.

(** Events that neither deliver a message of the renderer nor fire the
    timer of promise [p]. *)
Definition leaves_waiting (p : nat) (e : Event) : bool :=
  match e with
  | CaptureComplete _ | CaptureError _ => false
  | Timeout q => bool_decide (q ≠ p)
  | _ => true
  end.

(** What holds of the state at every point, between two listeners of
    one event too. *)
Record Core (s : State) : Prop := mkCore {
  c_timers_lt : ∀ p, p ∈ timers s → p < calls s;
  c_complete_lt : ∀ p, p ∈ complete_listeners s → p < calls s;
  c_error_lt : ∀ p, p ∈ error_listeners s → p < calls s;
  c_answered : ∀ p, p < calls s → p ∈ answered (trace s) ∨ p ∈ timers s;
  c_answered_lt : ∀ p, p ∈ answered (trace s) → p < calls s;
  c_not_both : ∀ p, p ∈ timers s → p ∉ answered (trace s);
  c_settled_answered : ∀ p, p ∈ settled s → p ∈ answered (trace s);
  c_complete_known : ∀ p, p ∈ complete_listeners s → p ∈ settled s ∨ p ∈ timers s;
  c_error_known : ∀ p, p ∈ error_listeners s → p ∈ settled s ∨ p ∈ timers s;
  c_once : NoDup (answered (trace s));
  c_window : ∀ c, audioCapture s = Some c → mainWindow c = true
}.

(** What holds of the state after every event: moreover, a promise
    whose timer is pending has both its listeners registered. *)
Definition Inv (s : State) : Prop :=
  Core s ∧
  ∀ p, p ∈ timers s → p ∈ complete_listeners s ∧ p ∈ error_listeners s.

End Audio.


(** * The meeting page and the database (src/renderer/main.tsx,
      [MeetingPage]) *)
Module Page.

(** The state of [MeetingPage] that [loadMeeting] writes. *)
Record State := mk {
  title : string;
  selectedTemplate : string;
  rawNotes : string;
  enhancedNotes : string;
  transcript : string
}.

(** The initial values of the [useState] calls, lines 59-63. *)
Definition initial : State := mk "Untitled Meeting" "general" "" "" "".






End Page.

(** * The request to Anthropic (src/main/llm/client.ts) *)
Module Llm.

Inductive Role := system | user | assistant.

#[global] Instance Role_eq_dec : EqDecision Role.
Proof. solve_decision. Defined.

(** [ChatMessage] of shared/types.ts. *)
Record ChatMessage := mkChatMessage {
  role : Role;
  content : string
}.

Inductive LLMProvider := ollama | vllm | openai_compatible | anthropic | groq.

(** [ModelConfig] of shared/types.ts; [temperature] is a double, held
    as its 64 bits. *)
Record ModelConfig := mkModelConfig {
  id : string;
  name : string;
  provider : LLMProvider;
  baseUrl : string;
  apiKey : option string;
  model : string;
  maxTokens : option Z;
  temperature : option N
}.

(** The object that [callAnthropic] (lines 251-295) and
    [streamAnthropic] (lines 418-471) pass to [JSON.stringify]; a key
    whose value is undefined is left out of the request. *)
Record Body := mkBody {
  body_model : string;
  body_max_tokens : option Z;
  body_system : option string;
  body_messages : list ChatMessage;
  body_stream : option bool
}.

Definition anthropic_body (stream : bool) (config : ModelConfig)
    (messages : list ChatMessage) : Body :=
  let systemMsg := snd <$> list_find (λ m, role m = system) messages in
  let chatMessages := filter (λ m, role m ≠ system) messages in
  mkBody (model config) (maxTokens config) (content <$> systemMsg)
    ((λ m, mkChatMessage (role m) (content m)) <$> chatMessages)
    (if stream then Some true else None).

End Llm.


(** * Proofs *)

(** ** The invariant holds in every run *)

Lemma Inv_init : Inv init.
Proof.
  split; cbn; try done.
  - intros call i c H. by apply not_elem_of_nil in H.
  - intros e. apply not_elem_of_nil.
  - intros l1 l2 c d E. by destruct l1.
Qed.

Lemma InvE_weaken ex ex' w :
  InvE ex w → ex ⊆ ex' → InvE ex' w.
Proof.
  intros [] H. split; eauto.
Qed.

(** Looking up in a store that has been updated. *)
Lemma lookup_alter_Some {A} (f : A → A) (l : list A) i j y :
  alter f i l !! j = Some y →
  (i = j ∧ ∃ x, l !! j = Some x ∧ y = f x) ∨ (i ≠ j ∧ l !! j = Some y).
Proof.
  rewrite list_lookup_alter. destruct (decide (i = j)) as [->|Hne].
  - intros H. apply fmap_Some in H as (x & Hx & ->). left. eauto.
  - intros H. right. done.
Qed.

Lemma lookup_alter_back {A} (f : A → A) (l : list A) i j x :
  l !! j = Some x →
  alter f i l !! j = Some (if decide (i = j) then f x else x).
Proof.
  intros H. rewrite list_lookup_alter. destruct (decide (i = j)) as [->|]; [|done].
  by rewrite H.
Qed.

Lemma ws_of_Some i c w :
  ws_of i w = Some c ↔ ∃ s, services w !! i = Some s ∧ ws s = Some c.
Proof.
  unfold ws_of. destruct (services w !! i) as [s|]; cbn.
  - split; [eauto|]. by intros (? & [= <-] & ?).
  - split; [done|]. by intros (? & ? & ?).
Qed.

Lemma ws_of_None i w :
  ws_of i w = None ↔ ∀ s, services w !! i = Some s → ws s = None.
Proof.
  unfold ws_of. destruct (services w !! i) as [s|]; cbn.
  - split; [by intros ? ? [= <-]|eauto].
  - split; done.
Qed.

Lemma gated_snoc tr o :
  gated tr →
  (∀ c d, o = Sent c (FAudio d) → ∃ m, is_ready m = true ∧ Recv c m ∈ tr) →
  gated (tr ++ [o]).
Proof.
  intros G Ho l1 l2 c d E.
  destruct l2 as [|x l2 _] using rev_ind.
  - apply app_inj_tail in E as [-> ->]. eauto.
  - rewrite app_comm_cons, app_assoc in E. apply app_inj_tail in E as [-> ->].
    destruct (G l1 l2 c d eq_refl) as (m & ? & ?). eauto.
Qed.

Lemma log_InvE ex o w :
  InvE ex w →
  (∀ e, o ≠ Uncaught e) →
  (∀ c d, o = Sent c (FAudio d) → ∃ m, is_ready m = true ∧ Recv c m ∈ trace w) →
  InvE ex (log o w).
Proof.
  intros [] Hu Ha. split; cbn; eauto.
  - intros c k Hk Ho. destruct (inv_ready0 c k Hk Ho) as (m & ? & ?).
    exists m. split; [done|]. apply elem_of_app. by left.
  - intros e He. apply elem_of_app in He as [He|He]; [by eapply inv_caught0|].
    apply list_elem_of_singleton in He. by eapply Hu.
  - by apply gated_snoc.
Qed.

(** Updating a connection in place. *)
Lemma upd_conn_InvE ex c f w :
  InvE ex w →
  (∀ k, owner (f k) = owner k) →
  (∀ k, conns w !! c = Some k → active (f k) → active k) →
  (∀ k, conns w !! c = Some k → getIsConnected (owner k) w = true →
     hearing k → hearing (f k)) →
  (∀ k, conns w !! c = Some k → outcome (f k) = Some true →
     outcome k = Some true ∨ ∃ m, is_ready m = true ∧ Recv c m ∈ trace w) →
  (∀ k, conns w !! c = Some k → outcome k = Some true → outcome (f k) = Some true) →
  InvE ex (upd_conn c f w).
Proof.
  intros [] Hown Hact Hhear Hout Hmono.
  assert (Hback : ∀ c' k, conns w !! c' = Some k →
            ∃ k', alter f c (conns w) !! c' = Some k' ∧ owner k' = owner k).
  { intros c' k Hk. eexists. split; [by apply lookup_alter_back|].
    destruct (decide (c = c')); [apply Hown|done]. }
  split; cbn; eauto.
  - intros i s c' Hs Hc'. destruct (inv_ws0 i s c' Hs Hc') as (k & Hk & <-).
    by apply Hback.
  - intros c' k Hk. apply lookup_alter_Some in Hk as [(<- & k0 & Hk & ->)|(? & Hk)].
    + rewrite Hown. eauto.
    + eauto.
  - intros c1 c2 k1 k2 H1 H2.
    apply lookup_alter_Some in H1 as [(<- & k1' & H1 & ->)|(? & H1)];
    apply lookup_alter_Some in H2 as [(<- & k2' & H2 & ->)|(? & H2)];
    rewrite ?Hown; eauto.
  - intros c' k Hk Ha. unfold ws_of; cbn.
    apply lookup_alter_Some in Hk as [(<- & k0 & Hk & ->)|(? & Hk)].
    + rewrite Hown. apply (inv_torn0 c k0 Hk). eauto.
    + by apply (inv_torn0 c' k Hk).
  - intros i s Hs Hc. destruct (inv_connected0 i s Hs Hc) as (c' & k & Hw & Hk & Hh).
    exists c'. eexists. split; [done|]. split; [by apply lookup_alter_back|].
    destruct (decide (c = c')) as [->|]; [|done]. apply Hhear; [done| |done].
    destruct (inv_ws0 i s c' Hs Hw) as (k' & Hk' & <-).
    assert (k' = k) as -> by congruence.
    unfold getIsConnected. by rewrite Hs.
  - intros c' k Hk Ho.
    apply lookup_alter_Some in Hk as [(<- & k0 & Hk & ->)|(? & Hk)]; [|eauto].
    destruct (Hout k0 Hk Ho) as [?|?]; eauto.
  - intros i c' k Hw Hk Ho.
    apply lookup_alter_Some in Hk as [(<- & k0 & Hk & ->)|(? & Hk)]; [|eauto].
    rewrite Hown in Ho. eauto.
  - intros call i c' Ht. destruct (inv_task0 call i c' Ht) as (k & Hk & <-).
    by apply Hback.
Qed.

(** Updating a service in place. *)
Lemma upd_service_InvE ex i f w :
  InvE ex w →
  (∀ s, services w !! i = Some s →
     ws (f s) = ws s ∨
     (ws (f s) = None ∧ ∀ c k, ws s = Some c → conns w !! c = Some k → ¬ active k)) →
  (∀ s, services w !! i = Some s → isConnected (f s) = true →
     ws (f s) = ws s ∧
     (isConnected s = true ∨ ∃ c k, ws s = Some c ∧ conns w !! c = Some k ∧ hearing k)) →
  (∀ s p, services w !! i = Some s → p ∈ doneOnce (f s) →
     p ∈ doneOnce s ∨ ∃ k, stops w !! p = Some k ∧ target k = i) →
  (∀ s p, services w !! i = Some s → p ∈ doneOnce s →
     p ∈ doneOnce (f s) ∨ p ∈ ex ∨ ∀ k, stops w !! p = Some k → settled k ≠ Pending) →
  InvE ex (upd_service i f w).
Proof.
  intros [] Hws Hcon Hadd Hrem.
  split; cbn; eauto.
  - intros j s' c Hs Hc.
    apply lookup_alter_Some in Hs as [(<- & s & Hs & ->)|(? & Hs)]; [|eauto].
    destruct (Hws s Hs) as [E|[E _]]; rewrite E in Hc; [eauto|done].
  - intros c k Hk. rewrite length_alter. eauto.
  - intros c k Hk Ha. pose proof (inv_torn0 c k Hk Ha) as Hw.
    apply ws_of_Some in Hw as (s & Hs & Hc). apply ws_of_Some.
    eexists. split; [by apply lookup_alter_back|].
    destruct (decide (i = owner k)) as [->|]; [|done].
    destruct (Hws s Hs) as [E|[_ E]]; [by rewrite E|].
    by destruct (E c k Hc Hk).
  - intros j s' Hs Hc.
    apply lookup_alter_Some in Hs as [(<- & s & Hs & ->)|(? & Hs)]; [|eauto].
    destruct (Hcon s Hs Hc) as [E [Ho|Hn]]; rewrite E; eauto.
  - intros j Hj. rewrite length_alter. eauto.
  - intros p k Hk Hr. pose proof (inv_resolved0 p k Hk Hr) as Hw.
    rewrite ws_of_None in Hw. apply ws_of_None. cbn. intros s' Hs.
    remember (target k) as j.
    apply lookup_alter_Some in Hs as [(<- & s & Hs & ->)|(? & Hs)]; [|eauto].
    destruct (Hws s Hs) as [E|[E _]]; rewrite E; eauto.
  - intros p k Hex Hk Hp. destruct (inv_pending0 p k Hex Hk Hp) as (Ht & s & Hs & Hin).
    split; [done|]. eexists. split; [by apply lookup_alter_back|].
    destruct (decide (i = target k)) as [->|]; [|done].
    destruct (Hrem s p Hs Hin) as [?|[?|Hn]]; [done|done|by destruct (Hn k Hk)].
  - intros j s' p Hs Hin.
    apply lookup_alter_Some in Hs as [(<- & s & Hs & ->)|(? & Hs)]; [|eauto].
    destruct (Hadd s p Hs Hin) as [?|?]; eauto.
  - intros p k Hk. rewrite length_alter. eauto.
Qed.

(** Updating a [stop()] call in place. *)
Lemma upd_stop_InvE ex p f w :
  InvE ex w →
  (∀ k, target (f k) = target k) →
  (∀ k, stops w !! p = Some k → settled (f k) = Resolved →
     settled k = Resolved ∨ ws_of (target k) w = None) →
  (∀ k, stops w !! p = Some k → settled (f k) = Pending →
     settled k = Pending ∧ (stopTimer (f k) = stopTimer k ∨ p ∈ ex)) →
  (∀ k e, stops w !! p = Some k → settled (f k) ≠ Rejected e) →
  InvE ex (upd_stop p f w).
Proof.
  intros [] Ht Hres Hpen Hrej.
  split; cbn; eauto.
  - intros q k Hk Hr. unfold ws_of; cbn.
    apply lookup_alter_Some in Hk as [(<- & k0 & Hk & ->)|(? & Hk)]; [|by eapply inv_resolved0].
    rewrite Ht. destruct (Hres k0 Hk Hr); [by eapply inv_resolved0|done].
  - intros q k Hex Hk Hp.
    apply lookup_alter_Some in Hk as [(<- & k0 & Hk & ->)|(? & Hk)]; [|eauto].
    destruct (Hpen k0 Hk Hp) as [Hp0 [E|?]]; [|done].
    rewrite Ht, E. eauto.
  - intros i s q Hs Hin. destruct (inv_listener0 i s q Hs Hin) as (k & Hk & <-).
    eexists. split; [by apply lookup_alter_back|].
    destruct (decide (p = q)); [apply Ht|done].
  - intros q k e Hk.
    apply lookup_alter_Some in Hk as [(<- & k0 & Hk & ->)|(? & Hk)]; eauto.
  - intros q k Hk.
    apply lookup_alter_Some in Hk as [(<- & k0 & Hk & ->)|(? & Hk)]; [|eauto].
    rewrite Ht. eauto.
Qed.

Lemma alter_twice {A} (f g : A → A) i (l : list A) :
  alter f i (alter g i l) = alter (f ∘ g) i l.
Proof.
  revert i. induction l as [|x l IH]; intros [|i]; cbn; [done..|].
  f_equal. apply IH.
Qed.

Lemma upd_service_twice i f g w :
  upd_service i f (upd_service i g w) = upd_service i (f ∘ g) w.
Proof. unfold upd_service; cbn. f_equal. apply alter_twice. Qed.

Lemma closing_not_active k : ¬ active (closing k).
Proof.
  unfold active, closing.
  destruct (readyState k) as [[]|] eqn:E; cbn; intros [?|?]; congruence.
Qed.

Lemma ws_close_InvE ex c w : InvE ex w → InvE ex (ws_close c w).
Proof.
  intros H. apply upd_conn_InvE; [done|..].
  - intros k. unfold closing. by destruct (readyState k) as [[]|].
  - intros k _ Ha. by apply closing_not_active in Ha.
  - intros k _ _. unfold hearing, closing.
    destruct (readyState k) as [[]|] eqn:E; cbn; intros [?|?]; eauto; congruence.
  - intros k _. unfold closing. destruct (readyState k) as [[]|]; cbn; eauto.
  - intros k _. unfold closing. by destruct (readyState k) as [[]|].
Qed.

Lemma disconnect_InvE ex i w : InvE ex w → InvE ex (disconnect i w).
Proof.
  intros H. unfold disconnect. destruct (ws_of i w) as [c|] eqn:Hw.
  - rewrite upd_service_twice. apply upd_service_InvE; cbn.
    + by apply ws_close_InvE.
    + intros s Hs. right. split; [done|]. intros c' k Hc' Hk.
      apply ws_of_Some in Hw as (s' & Hs' & Hc). assert (s' = s) as -> by congruence.
      assert (c' = c) as -> by congruence.
      apply lookup_alter_Some in Hk as [(_ & k0 & _ & ->)|(? & _)]; [|done].
      apply closing_not_active.
    + done.
    + eauto.
    + eauto.
  - apply upd_service_InvE; cbn; [done|by left|done|by left|by left].
Qed.

Lemma ws_of_disconnect i w : ws_of i (disconnect i w) = None.
Proof.
  unfold disconnect. destruct (ws_of i w) as [c|] eqn:Hw.
  - rewrite upd_service_twice. unfold ws_of; cbn. rewrite list_lookup_alter.
    destruct (decide (i = i)); [|done]. by destruct (services w !! i).
  - unfold ws_of in *; cbn. rewrite list_lookup_alter.
    destruct (decide (i = i)); [|done]. by destruct (services w !! i).
Qed.

Lemma InvE_drop ex p w :
  InvE (p :: ex) w →
  (∀ k, stops w !! p = Some k → settled k = Pending →
     stopTimer k = true ∧ ∃ s, services w !! target k = Some s ∧ p ∈ doneOnce s) →
  InvE ex w.
Proof.
  intros [] H. split; eauto.
  intros q k Hex Hk Hp. destruct (decide (q = p)) as [->|Hne]; [eauto|].
  apply inv_pending0; [|done..]. intros Hin. apply elem_of_cons in Hin as [?|?]; done.
Qed.

Lemma stops_disconnect i w : stops (disconnect i w) = stops w.
Proof. unfold disconnect. by destruct (ws_of i w). Qed.

Lemma length_services_disconnect i w :
  length (services (disconnect i w)) = length (services w).
Proof.
  unfold disconnect. destruct (ws_of i w); cbn; by rewrite ?length_alter.
Qed.

Lemma settle_stop_settled k : settled (settle_stop k) ≠ Pending.
Proof. unfold settle_stop. by destruct (settled k) eqn:E; cbn; rewrite ?E. Qed.

(** A [stop()] call is over: its timer is spent or cleared, the service
    disconnects, the promise is resolved. *)
Lemma retire_InvE ex i p w :
  InvE (p :: ex) w →
  (∀ k, stops w !! p = Some k → target k = i) →
  InvE ex (resolve_stop p (disconnect i (upd_stop p (set_stopTimer false) w))).
Proof.
  intros H Ht.
  assert (H1 : InvE (p :: ex) (upd_stop p (set_stopTimer false) w)).
  { apply upd_stop_InvE; [done|done|by left| |].
    - intros k _ Hp. split; [done|]. right. by left.
    - intros k e Hk. cbn. by eapply (inv_settled _ _ H). }
  apply disconnect_InvE with (i := i) in H1.
  assert (Ht' : ∀ k, stops (disconnect i (upd_stop p (set_stopTimer false) w)) !! p = Some k →
                     target k = i).
  { intros k Hk. rewrite stops_disconnect in Hk. cbn in Hk.
    apply lookup_alter_Some in Hk as [(_ & k0 & Hk & ->)|(? & _)]; [|done].
    cbn. by apply Ht. }
  apply InvE_drop with (p := p).
  - apply upd_stop_InvE; [done|..].
    + intros k. unfold settle_stop. by destruct (settled k).
    + intros k Hk _. right. rewrite (Ht' k Hk). apply ws_of_disconnect.
    + intros k _ Hp. by apply settle_stop_settled in Hp.
    + intros k e Hk. unfold settle_stop.
      destruct (settled k) eqn:E; cbn; rewrite ?E; try done.
      by destruct (inv_settled _ _ H1 p k reason Hk).
  - intros k Hk Hp. cbn in Hk.
    apply lookup_alter_Some in Hk as [(_ & k0 & Hk & ->)|(? & _)]; [|done].
    by apply settle_stop_settled in Hp.
Qed.

Lemma fire_InvE ex i p w :
  InvE ex w →
  (∀ k, stops w !! p = Some k → target k = i) →
  InvE ex (done_listener i p (upd_service i (remove_listener p) w)).
Proof.
  intros H Ht. unfold done_listener. apply retire_InvE; [|done].
  apply upd_service_InvE; cbn.
  - eapply InvE_weaken; [done|]. intros q ?. by right.
  - by left.
  - intros s _ Hc. split; [done|by left].
  - intros s q _ Hq. left. by apply list_elem_of_filter in Hq as [_ ?].
  - intros s q _ Hq. destruct (decide (q = p)) as [->|Hne].
    + right. left. by left.
    + left. by apply list_elem_of_filter.
Qed.

Lemma target_fire i p w q k' :
  stops (done_listener i p (upd_service i (remove_listener p) w)) !! q = Some k' →
  ∃ k, stops w !! q = Some k ∧ target k' = target k.
Proof.
  unfold done_listener, resolve_stop.
  change (stops (upd_stop p settle_stop ?w)) with (alter settle_stop p (stops w)).
  rewrite stops_disconnect.
  change (stops (upd_stop p ?f (upd_service i ?g w))) with (alter f p (stops w)).
  rewrite alter_twice. intros Hk.
  apply lookup_alter_Some in Hk as [(_ & k0 & Hk & ->)|(? & Hk)]; [|eauto].
  exists k0. split; [done|]. cbn. unfold settle_stop. by destruct (settled _).
Qed.

Lemma emit_done_InvE ex i w : InvE ex w → InvE ex (emit_done i w).
Proof.
  intros H. unfold emit_done. destruct (services w !! i) as [s|] eqn:Hs; [|done].
  assert (Ht : ∀ p k, p ∈ doneOnce s → stops w !! p = Some k → target k = i).
  { intros p k Hp Hk. destruct (inv_listener _ _ H i s p Hs Hp) as (k' & Hk' & <-).
    congruence. }
  clear Hs. revert w H Ht. induction (doneOnce s) as [|p L IH]; intros w H Ht; [done|].
  cbn. apply IH.
  - apply fire_InvE; [done|]. intros k. apply Ht. by left.
  - intros q k' Hq Hk'. apply target_fire in Hk' as (k & Hk & ->).
    eapply Ht; [by right|done].
Qed.

Lemma new_stop_InvE ex k w :
  InvE ex w →
  (settled k = Resolved → ws_of (target k) w = None) →
  (settled k = Pending → length (stops w) ∈ ex) →
  (∀ e, settled k ≠ Rejected e) →
  target k < length (services w) →
  InvE ex (new_stop k w).
Proof.
  intros [] Hres Hpen Hrej Htgt. split; cbn; eauto.
  - intros p k' Hk' Hr. unfold ws_of; cbn.
    apply lookup_snoc_Some in Hk' as [[_ Hk']|[_ <-]]; [by eapply inv_resolved0|eauto].
  - intros p k' Hex Hk' Hp.
    apply lookup_snoc_Some in Hk' as [[_ Hk']|[-> <-]]; [eauto|].
    by destruct Hex; apply Hpen.
  - intros i s p Hs Hp. destruct (inv_listener0 i s p Hs Hp) as (k' & Hk' & <-).
    exists k'. split; [|done]. by apply lookup_app_l_Some.
  - intros p k' e Hk'.
    apply lookup_snoc_Some in Hk' as [[_ Hk']|[_ <-]]; eauto.
  - intros p k' Hk'.
    apply lookup_snoc_Some in Hk' as [[_ Hk']|[_ <-]]; eauto.
Qed.

Lemma rs_of_hearing c k w :
  conns w !! c = Some k → hearing k → rs_of c w ≠ Some CONNECTING.
Proof. unfold rs_of. intros -> [E|E]; cbn; rewrite E; done. Qed.

(** A connected service holds a socket that has been opened. *)
Lemma connected_not_connecting ex i c w :
  InvE ex w → getIsConnected i w = true → ws_of i w = Some c →
  rs_of c w ≠ Some CONNECTING.
Proof.
  intros H Hc Hw. unfold getIsConnected in Hc.
  apply ws_of_Some in Hw as (s & Hs & Hws). rewrite Hs in Hc.
  destruct (inv_connected _ _ H i s Hs Hc) as (c' & k & Hws' & Hk & Hh).
  assert (c' = c) as -> by congruence. exact (rs_of_hearing _ _ _ Hk Hh).
Qed.

Lemma stop_InvE ex i w :
  InvE ex w → i < length (services w) → InvE ex (stop i w).1.
Proof.
  intros H Hi. unfold stop. destruct (ws_of i w) as [c|] eqn:Hw; cbn [fst].
  - destruct (getIsConnected i w) eqn:Hc; cbn [fst].
    + pose proof (connected_not_connecting _ _ _ _ H Hc Hw) as Hn.
      unfold ws_send. 
      assert (∃ w1, (w1 = w ∨ w1 = log (Sent c FStop) w) ∧
                match rs_of c w with
                | Some CONNECTING => inr "WebSocket is not open: readyState 0 (CONNECTING)"
                | Some OPEN => inl (log (Sent c FStop) w)
                | _ => inl w
                end = inl w1) as (w1 & Hw1 & ->).
      { destruct (rs_of c w) as [[]|]; try done; eauto. }
      cbn [fst].
      assert (H1 : InvE ex w1).
      { destruct Hw1 as [->| ->]; [done|]. by apply log_InvE. }
      assert (Hs1 : stops w1 = stops w) by (by destruct Hw1 as [->| ->]).
      assert (Hn1 : now w1 = now w) by (by destruct Hw1 as [->| ->]).
      assert (Hv1 : services w1 = services w) by (by destruct Hw1 as [->| ->]).
      apply InvE_drop with (p := length (stops w)).
      * apply upd_service_InvE; cbn.
        -- apply new_stop_InvE; cbn;
             [|done|intros _; rewrite Hs1; by left|done|by rewrite Hv1].
           eapply InvE_weaken; [done|]. intros q ?. by right.
        -- by left.
        -- intros s _ Hc'. split; [done|by left].
        -- intros s p _ Hp. apply elem_of_app in Hp as [?|Hp]; [by left|].
           apply list_elem_of_singleton in Hp as ->. right.
           eexists. split; [rewrite Hs1; by apply list_lookup_middle|done].
        -- intros s p _ Hp. left. apply elem_of_app. by left.
      * intros k Hk _. cbn in Hk. rewrite Hs1 in Hk.
        rewrite list_lookup_middle in Hk by done. injection Hk as <-. cbn.
        split; [done|]. apply ws_of_Some in Hw as (s & Hs & _).
        exists (set_doneOnce (doneOnce s ++ [length (stops w)]) s).
        rewrite Hv1. split.
        -- by rewrite list_lookup_alter, decide_True, Hs.
        -- cbn. apply elem_of_app. right. by left.
    + apply new_stop_InvE; [by apply disconnect_InvE| |done|done|].
      * intros _. apply ws_of_disconnect.
      * by rewrite length_services_disconnect.
  - apply new_stop_InvE; [done|intros _; exact Hw|done|done|done].
Qed.

Lemma set_tasks_InvE ex ts w :
  InvE ex w →
  (∀ call i c, StartAwaitConnect call i c ∈ ts → StartAwaitConnect call i c ∈ tasks w) →
  InvE ex (set_tasks ts w).
Proof. intros [] H. split; cbn; eauto. Qed.

Lemma suspend_InvE ex t w :
  InvE ex w →
  (∀ call i c, t = StartAwaitConnect call i c → ∃ k, conns w !! c = Some k ∧ owner k = i) →
  InvE ex (suspend t w).
Proof.
  intros [] H. split; cbn; eauto.
  intros call i c Hin. apply elem_of_app in Hin as [?|Hin]; [eauto|].
  apply list_elem_of_singleton in Hin. eauto.
Qed.

Lemma set_whisperService_None_InvE ex w :
  InvE ex w → InvE ex (set_whisperService None w).
Proof. intros []. split; cbn; eauto; done. Qed.

Lemma set_whisperService_Some_InvE ex i w :
  InvE ex w →
  i < length (services w) →
  (∀ c k, conns w !! c = Some k → owner k = i → outcome k = Some true) →
  InvE ex (set_whisperService (Some i) w).
Proof.
  intros [] Hi H. split; cbn; eauto.
  - intros j c k [= <-]. eauto.
  - by intros j [= <-].
Qed.

Lemma next_call_InvE ex w : InvE ex w → InvE ex (next_call w).
Proof. intros []. split; cbn; eauto. Qed.

Lemma elapse_InvE ex ms w : InvE ex w → InvE ex (elapse ms w).
Proof. intros []. split; cbn; eauto. Qed.

Lemma start_connect_eq call lang ctorThrows w :
  start_connect call lang ctorThrows w =
  mkWorld (now w) (services w ++ [fresh_service lang ctorThrows w])
          (conns w ++ [fresh_conn ctorThrows w]) (stops w) (whisperService w)
          (tasks w ++ [StartAwaitConnect call (length (services w)) (length (conns w))])
          (calls w) (trace w).
Proof.
  unfold start_connect, connect, fresh_service, fresh_conn.
  destruct ctorThrows; cbn; [done|].
  unfold suspend, set_tasks, upd_service; cbn. f_equal.
  rewrite alter_app_r_alt by done. by rewrite Nat.sub_diag.
Qed.

Lemma start_connect_InvE ex call lang ctorThrows w :
  InvE ex w → InvE ex (start_connect call lang ctorThrows w).
Proof.
  intros []. rewrite start_connect_eq.
  assert (Hws : ∀ i c, ws_of i w = Some c →
    ws_of i (mkWorld (now w) (services w ++ [fresh_service lang ctorThrows w])
          (conns w ++ [fresh_conn ctorThrows w]) (stops w) (whisperService w)
          (tasks w ++ [StartAwaitConnect call (length (services w)) (length (conns w))])
          (calls w) (trace w)) = Some c).
  { intros i c Hw. apply ws_of_Some in Hw as (s & Hs & Hc). apply ws_of_Some. cbn.
    exists s. split; [by apply lookup_app_l_Some|done]. }
  assert (Hfresh : outcome (fresh_conn ctorThrows w) ≠ Some true).
  { unfold fresh_conn. by destruct ctorThrows. }
  split; cbn [now services conns stops whisperService tasks calls trace]; eauto.
  - intros i s c Hs Hc.
    apply lookup_snoc_Some in Hs as [[_ Hs]|[-> <-]].
    + destruct (inv_ws0 i s c Hs Hc) as (k & Hk & <-).
      exists k. split; [by apply lookup_app_l_Some|done].
    + unfold fresh_service in Hc. destruct ctorThrows; [done|]. cbn in Hc.
      injection Hc as <-. eexists. split; [by apply list_lookup_middle|done].
  - intros c k Hk. rewrite length_app; cbn.
    apply lookup_snoc_Some in Hk as [[_ Hk]|[_ <-]].
    + apply inv_owner0 in Hk. lia.
    + unfold fresh_conn. destruct ctorThrows; cbn; lia.
  - assert (Ho : owner (fresh_conn ctorThrows w) = length (services w)).
    { unfold fresh_conn. by destruct ctorThrows. }
    intros c c' k k' Hk Hk' E.
    apply lookup_snoc_Some in Hk as [[_ Hk]|[-> <-]];
    apply lookup_snoc_Some in Hk' as [[_ Hk']|[-> <-]]; eauto.
    + apply inv_owner0 in Hk. lia.
    + apply inv_owner0 in Hk'. lia.
  - intros c k Hk Ha.
    apply lookup_snoc_Some in Hk as [[_ Hk]|[-> <-]]; [by apply Hws, inv_torn0|].
    unfold active, fresh_conn in *. destruct ctorThrows; cbn in Ha; [by destruct Ha|].
    unfold ws_of. cbn. by rewrite list_lookup_middle.
  - intros i s Hs Hc.
    apply lookup_snoc_Some in Hs as [[_ Hs]|[-> <-]]; [|done].
    destruct (inv_connected0 i s Hs Hc) as (c & k & ? & Hk & ?).
    exists c, k. split; [done|]. split; [by apply lookup_app_l_Some|done].
  - intros c k Hk Ho.
    apply lookup_snoc_Some in Hk as [[_ Hk]|[-> <-]]; [eauto|done].
  - intros i c k Hi Hk Ho.
    apply lookup_snoc_Some in Hk as [[_ Hk]|[-> <-]]; [eauto|].
    apply inv_registered_lt0 in Hi.
    unfold fresh_conn in Ho. destruct ctorThrows; cbn in Ho; lia.
  - intros i Hi. rewrite length_app. apply inv_registered_lt0 in Hi. lia.
  - intros call' i c Hin. apply elem_of_app in Hin as [Hin|Hin].
    + destruct (inv_task0 call' i c Hin) as (k & Hk & <-).
      exists k. split; [by apply lookup_app_l_Some|done].
    + apply list_elem_of_singleton in Hin as [= -> -> ->].
      eexists. split; [by apply list_lookup_middle|].
      unfold fresh_conn. by destruct ctorThrows.
  - intros p k Hk Hr. pose proof (inv_resolved0 p k Hk Hr) as Hw.
    apply inv_target0 in Hk.
    unfold ws_of in *. cbn. by rewrite lookup_app_l.
  - intros p k Hex Hk Hp. destruct (inv_pending0 p k Hex Hk Hp) as (? & s & Hs & ?).
    split; [done|]. exists s. split; [by apply lookup_app_l_Some|done].
  - intros i s p Hs Hp.
    apply lookup_snoc_Some in Hs as [[_ Hs]|[-> <-]]; [eauto|].
    by apply not_elem_of_nil in Hp.
  - intros p k Hk. rewrite length_app. apply inv_target0 in Hk. lia.
Qed.

Lemma resolve_conn_false_InvE ex c w : InvE ex w → InvE ex (resolve_conn c false w).
Proof.
  intros H. apply upd_conn_InvE; [done|..].
  - intros k. unfold settle_conn. by destruct (outcome k).
  - intros k _. unfold settle_conn, active. by destruct (outcome k).
  - intros k _ _. unfold settle_conn, hearing. by destruct (outcome k).
  - intros k _. unfold settle_conn. destruct (outcome k) eqn:E; cbn; [|done].
    rewrite E. by left.
  - intros k _ E. unfold settle_conn. by rewrite E.
Qed.

Lemma resolve_conn_true_InvE ex c m w :
  InvE ex w → is_ready m = true → Recv c m ∈ trace w →
  InvE ex (resolve_conn c true w).
Proof.
  intros H Hm Hin. apply upd_conn_InvE; [done|..].
  - intros k. unfold settle_conn. by destruct (outcome k).
  - intros k _. unfold settle_conn, active. by destruct (outcome k).
  - intros k _ _. unfold settle_conn, hearing. by destruct (outcome k).
  - intros k _ _. right. eauto.
  - intros k _ E. unfold settle_conn. by rewrite E.
Qed.

Lemma send_via_handle_InvE ex i f w :
  InvE ex w → is_audio f = false →
  (∀ c, ws_of i w = Some c → rs_of c w ≠ Some CONNECTING) →
  InvE ex (send_via_handle i f w).
Proof.
  intros H Hf Hn. unfold send_via_handle. destruct (ws_of i w) as [c|]; [|done].
  specialize (Hn c eq_refl). unfold ws_send.
  destruct (rs_of c w) as [[]|]; try done.
  apply log_InvE; [done|done|]. intros c' d [= _ ->]. done.
Qed.

Lemma rs_of_Some c r w :
  rs_of c w = Some r ↔ ∃ k, conns w !! c = Some k ∧ readyState k = Some r.
Proof.
  unfold rs_of. destruct (conns w !! c) as [k|]; cbn.
  - split; [eauto|]. by intros (? & [= <-] & ?).
  - split; [done|]. by intros (? & ? & ?).
Qed.

Lemma receptive_hearing c w :
  receptive c w = true ↔ ∃ k, conns w !! c = Some k ∧ hearing k.
Proof.
  unfold receptive, hearing. split.
  - destruct (rs_of c w) as [[]|] eqn:E; try done; intros _;
      apply rs_of_Some in E as (k & ? & ?); eauto.
  - intros (k & Hk & [E|E]); by erewrite (proj2 (rs_of_Some c _ w)) by eauto.
Qed.

(** The handle of the owner of a socket that is still heard is that
    socket, or null. *)
Lemma handle_of_owner ex c k c' w :
  InvE ex w → conns w !! c = Some k → ws_of (owner k) w = Some c' → c' = c.
Proof.
  intros H Hk Hw. apply ws_of_Some in Hw as (s & Hs & Hc).
  destruct (inv_ws _ _ H _ _ _ Hs Hc) as (k' & Hk' & Ho).
  by eapply (inv_uniq _ _ H).
Qed.

Lemma on_open_InvE ex c w :
  InvE ex w → rs_of c w = Some CONNECTING →
  InvE ex (on_open c (upd_conn c (set_readyState OPEN) w)).
Proof.
  intros H Hc. apply rs_of_Some in Hc as (k & Hk & Hr).
  assert (H1 : InvE ex (upd_conn c (set_readyState OPEN) w)).
  { apply upd_conn_InvE; [done|done|..].
    - intros k' Hk' _. assert (k' = k) as -> by congruence. by left.
    - intros k' Hk' _ [E|E]; assert (k' = k) as -> by congruence; congruence.
    - intros k' Hk' E. by left.
    - done. }
  assert (Hk1 : conns (upd_conn c (set_readyState OPEN) w) !! c
                = Some (set_readyState OPEN k)).
  { cbn. by rewrite list_lookup_alter, decide_True, Hk. }
  pose proof (inv_torn _ _ H1 c _ Hk1 (or_intror eq_refl)) as Hw.
  unfold on_open. rewrite Hk1. cbn [owner set_readyState] in *.
  set (w1 := upd_conn c (set_readyState OPEN) w) in *.
  set (g := λ s, set_reconnectAttempts 0 (set_isConnected true s)).
  assert (H2 : InvE ex (upd_service (owner k) g w1)).
  { apply upd_service_InvE; [done|by left| |by left|by left].
    intros s Hs _. split; [done|]. right. exists c. eexists.
    apply ws_of_Some in Hw as (s' & Hs' & ?). assert (s' = s) as -> by congruence.
    split; [done|]. split; [done|]. by left. }
  destruct (services (upd_service (owner k) g w1) !! owner k) as [s|]; [|done].
  apply send_via_handle_InvE; [done|done|].
  intros c' Hc'. assert (Hc'' : ws_of (owner k) w1 = Some c').
  { apply ws_of_Some in Hc' as (s' & Hs' & Hws'). cbn in Hs'.
    apply lookup_alter_Some in Hs' as [(_ & s0 & Hs0 & ->)|(? & _)]; [|done].
    apply ws_of_Some. eauto. }
  assert (c' = c) as -> by congruence.
  cbn. unfold rs_of. cbn. by rewrite list_lookup_alter, decide_True, Hk.
Qed.

Lemma on_message_InvE ex c m w :
  InvE ex w → InvE ex (on_message c m w).
Proof.
  intros H. unfold on_message. destruct (conns w !! c) as [k|]; [|done].
  assert (H1 : InvE ex (log (Recv c m) w)) by (by apply log_InvE).
  destruct m as [|type text message]; [done|].
  destruct (type =? "ready") eqn:E1.
  { apply resolve_conn_true_InvE with (m := Message type text message); [|done|].
    - by apply log_InvE.
    - cbn. apply elem_of_app. left. apply elem_of_app. right. by left. }
  destruct (type =? "transcript"); [by apply log_InvE|].
  destruct (type =? "done"); [by apply emit_done_InvE|].
  destruct (type =? "error"); [by apply log_InvE|done].
Qed.

Lemma on_ping_InvE ex c w :
  InvE ex w → receptive c w = true → InvE ex (on_ping c w).
Proof.
  intros H Hr. unfold on_ping. destruct (conns w !! c) as [k|] eqn:Hk; [|done].
  apply send_via_handle_InvE; [done|done|].
  intros c' Hc'. assert (c' = c) as -> by exact (handle_of_owner _ _ _ _ _ H Hk Hc').
  apply receptive_hearing in Hr as (k' & Hk' & Hh).
  exact (rs_of_hearing _ _ _ Hk' Hh).
Qed.

Lemma on_error_InvE ex c err w : InvE ex w → InvE ex (on_error c err w).
Proof.
  intros H. unfold on_error. destruct (conns w !! c) as [k|]; [|done].
  assert (H1 : InvE ex (emit_error err w)) by (by apply log_InvE).
  destruct (getIsConnected _ _); [done|]. by apply resolve_conn_false_InvE.
Qed.

Lemma on_close_InvE ex c w :
  InvE ex w → InvE ex (on_close c (upd_conn c (set_readyState CLOSED) w)).
Proof.
  intros H. unfold on_close.
  destruct (conns (upd_conn c (set_readyState CLOSED) w) !! c) as [k'|] eqn:Hk'.
  - cbn in Hk'. apply lookup_alter_Some in Hk' as [(_ & k & Hk & ->)|(? & _)]; [|done].
    cbn [owner set_readyState].
    change (upd_service (owner k) (set_isConnected false) (upd_conn c (set_readyState CLOSED) w))
      with (upd_conn c (set_readyState CLOSED) (upd_service (owner k) (set_isConnected false) w)).
    apply upd_conn_InvE; [|done|..].
    + apply upd_service_InvE; [done|by left|done|by left|by left].
    + intros k0 _ [?|?]; done.
    + intros k0 Hk0 Hc. cbn in Hk0. assert (k0 = k) as -> by congruence.
      unfold getIsConnected in Hc. cbn in Hc.
      rewrite list_lookup_alter, decide_True in Hc by done.
      by destruct (services w !! owner k).
    + intros k0 _ E. by left.
    + done.
  - cbn in Hk'. rewrite list_lookup_alter, decide_True in Hk' by done.
    destruct (conns w !! c) eqn:E; [done|].
    apply upd_conn_InvE; [done|done|intros k0 Hk0; congruence..].
Qed.

Lemma on_connect_timeout_InvE ex c w :
  InvE ex w → InvE ex (on_connect_timeout c w).
Proof.
  intros H. unfold on_connect_timeout. destruct (conns w !! c) as [k|]; [|done].
  destruct (getIsConnected _ _); [done|]. apply resolve_conn_false_InvE.
  destruct (ws_of _ _); [by apply ws_close_InvE|done].
Qed.

Lemma set_connTimer_InvE ex c b w :
  InvE ex w → InvE ex (upd_conn c (set_connTimer b) w).
Proof.
  intros H. apply upd_conn_InvE; [done|done|done|done| |done].
  intros k _ E. by left.
Qed.

Lemma on_stop_timeout_Inv p w :
  Inv w → Inv (on_stop_timeout p (upd_stop p (set_stopTimer false) w)).
Proof.
  intros H. unfold on_stop_timeout.
  destruct (stops (upd_stop p (set_stopTimer false) w) !! p) as [k'|] eqn:Hk'.
  - cbn in Hk'. apply lookup_alter_Some in Hk' as [(_ & k & Hk & ->)|(? & _)]; [|done].
    cbn [target set_stopTimer]. apply retire_InvE.
    + eapply InvE_weaken; [done|]. intros q ?. by right.
    + intros k0 Hk0. congruence.
  - cbn in Hk'. rewrite list_lookup_alter, decide_True in Hk' by done.
    destruct (stops w !! p) eqn:E; [done|].
    apply upd_stop_InvE; [done|done|intros k0 Hk0; congruence..].
Qed.

Lemma handle_start_Inv lang ctorThrows w : Inv w → Inv (handle_start lang ctorThrows w).
Proof.
  intros H. unfold handle_start.
  apply next_call_InvE in H.
  change (whisperService (next_call w)) with (whisperService w).
  destruct (whisperService w) as [a|] eqn:Ha; [|by apply start_connect_InvE].
  pose proof (stop_InvE [] a (next_call w) H (inv_registered_lt _ _ H a Ha)) as H1.
  destruct (stop a (next_call w)) as [w1 p]. by apply suspend_InvE.
Qed.

Lemma handle_stop_Inv w : Inv w → Inv (handle_stop w).
Proof.
  intros H. unfold handle_stop.
  apply next_call_InvE in H.
  change (whisperService (next_call w)) with (whisperService w).
  destruct (whisperService w) as [a|] eqn:Ha; [|by apply log_InvE].
  pose proof (stop_InvE [] a (next_call w) H (inv_registered_lt _ _ H a Ha)) as H1.
  destruct (stop a (next_call w)) as [w1 p]. by apply suspend_InvE.
Qed.

(** The service that the handlers know has received [ready]. *)
Lemma registered_ready ex i c w :
  InvE ex w → whisperService w = Some i → ws_of i w = Some c →
  ∃ m, is_ready m = true ∧ Recv c m ∈ trace w.
Proof.
  intros H Hi Hw. apply ws_of_Some in Hw as (s & Hs & Hc).
  destruct (inv_ws _ _ H i s c Hs Hc) as (k & Hk & Ho).
  eapply (inv_ready _ _ H); [done|]. by eapply (inv_registered _ _ H).
Qed.

Lemma handle_sendAudio_Inv d w : Inv w → Inv (handle_sendAudio d w).
Proof.
  intros H. unfold handle_sendAudio.
  apply next_call_InvE in H.
  change (whisperService (next_call w)) with (whisperService w).
  destruct (whisperService w) as [i|] eqn:Hi; [|by apply log_InvE].
  destruct (getIsConnected i (next_call w)); [|by apply log_InvE].
  unfold sendAudio. destruct (ws_of i (next_call w)) as [c|] eqn:Hw.
  - destruct (getIsConnected i (next_call w)).
    + unfold ws_send. destruct (rs_of c (next_call w)) as [[]|];
        try by apply log_InvE.
      apply log_InvE; [|done|done]. apply log_InvE; [done|done|].
      intros c' d' [= -> _]. by eapply registered_ready.
    + apply log_InvE; [|done|done]. by apply log_InvE.
  - apply log_InvE; [|done|done]. by apply log_InvE.
Qed.

Lemma handle_Inv e w : Inv w → Inv (handle e w).
Proof.
  intros H. destruct e; cbn [handle].
  - by apply handle_start_Inv.
  - by apply handle_sendAudio_Inv.
  - by apply handle_stop_Inv.
  - destruct (rs_of c w) as [[]|] eqn:E; try done. by apply on_open_InvE.
  - destruct (receptive c w); [|done]. by apply on_message_InvE.
  - destruct (receptive c w) eqn:E; [|done]. by apply on_ping_InvE.
  - done.
  - destruct (rs_of c w) as [[]|]; try done; by apply on_error_InvE, ws_close_InvE.
  - destruct (rs_of c w) as [[]|]; try done. by apply ws_close_InvE.
  - destruct (rs_of c w) as [[]|]; try done; by apply on_close_InvE.
  - destruct (conn_timer_due c w); [|done].
    by apply on_connect_timeout_InvE, set_connTimer_InvE.
  - destruct (stop_timer_due p w); [|done]. by apply on_stop_timeout_Inv.
  - by apply elapse_InvE.
Qed.

Lemma continue_Inv n t w :
  Inv w → tasks w !! n = Some t → ready w t = true →
  Inv (continue t (set_tasks (delete n (tasks w)) w)).
Proof.
  intros H Ht Hr.
  assert (H1 : Inv (set_tasks (delete n (tasks w)) w)).
  { apply set_tasks_InvE; [done|]. intros call i c. apply list_elem_of_delete_inv. }
  destruct t as [call lang ctorThrows p|call i c|call p]; cbn [continue].
  - change (stop_settled p (set_tasks ?ts w)) with (stop_settled p w).
    destruct (stop_settled p w); [| |by apply log_InvE];
      by apply start_connect_InvE, set_whisperService_None_InvE.
  - change (conn_outcome c (set_tasks ?ts w)) with (conn_outcome c w).
    destruct (conn_outcome c w) as [b|] eqn:Hb; [|done].
    assert (StartAwaitConnect call i c ∈ tasks w) as Hin
      by (by eapply list_elem_of_lookup_2).
    destruct (inv_task _ _ H call i c Hin) as (k & Hk & Ho).
    unfold start_connected. destruct b.
    + apply log_InvE; [|done|done]. apply set_whisperService_Some_InvE; [done|..].
      * cbn. rewrite <- Ho. by eapply (inv_owner _ _ H).
      * cbn. intros c' k' Hk' Ho'.
        assert (c' = c) as -> by (eapply (inv_uniq _ _ H); [done|done|congruence]).
        unfold conn_outcome in Hb. rewrite Hk in Hb. cbn in Hb. congruence.
    + apply log_InvE; [|done|done].
      by apply set_whisperService_None_InvE, disconnect_InvE.
  - change (stop_settled p (set_tasks ?ts w)) with (stop_settled p w).
    destruct (stop_settled p w); apply log_InvE; try done;
      by apply set_whisperService_None_InvE.
Qed.

Lemma resume_Inv n w : Inv w → Inv (resume n w).
Proof.
  intros H. unfold resume. destruct (tasks w !! n) as [t|] eqn:Ht; [|done].
  destruct (ready w t) eqn:Hr; [|done]. by eapply continue_Inv.
Qed.

Lemma act_Inv a w : Inv w → Inv (act w a).
Proof. destruct a; [apply handle_Inv|apply resume_Inv]. Qed.

Lemma exec_Inv acts w : Inv w → Inv (exec w acts).
Proof.
  revert w. induction acts as [|a acts IH]; intros w H; [done|].
  cbn. by apply IH, act_Inv.
Qed.

Lemma drain_for_exec fuel w : ∃ acts, drain_for fuel w = exec w acts.
Proof.
  revert w. induction fuel as [|fuel IH]; intros w; [by exists []|].
  cbn. destruct (first_ready w (tasks w)) as [n|]; [|by exists []].
  destruct (IH (resume n w)) as (acts & ->). by exists (Resume n :: acts).
Qed.

(** The event loop is one of the finer schedules. *)
Lemma run_exec es w : ∃ acts, run w es = exec w acts.
Proof.
  revert w. induction es as [|e es IH]; intros w; [by exists []|].
  change (run w (e :: es)) with (run (step w e) es). unfold step, drain.
  destruct (drain_for_exec (pending_awaits (handle e w)) (handle e w)) as (a1 & ->).
  destruct (IH (exec (handle e w) a1)) as (a2 & ->).
  exists (Ev e :: a1 ++ a2). cbn. unfold exec. by rewrite foldl_app.
Qed.

Theorem run_Inv es : Inv (run init es).
Proof.
  destruct (run_exec es init) as (acts & ->). apply exec_Inv, Inv_init.
Qed.

(** ** What never changes back *)

Lemma Ext_refl w : Ext w w.
Proof. split; eauto 10; done. Qed.

Lemma Ext_trans w1 w2 w3 : Ext w1 w2 → Ext w2 w3 → Ext w1 w3.
Proof.
  intros [] []. split.
  - by etrans.
  - lia.
  - intros i s Hs. destruct (ext_service0 i s Hs) as (s' & Hs' & E1 & E2).
    destruct (ext_service1 i s' Hs') as (s'' & Hs'' & E3 & E4).
    exists s''. split; [done|]. split; [congruence|eauto].
  - intros c k Hk. destruct (ext_conn0 c k Hk) as (k' & Hk' & E1 & E2 & E3).
    destruct (ext_conn1 c k' Hk') as (k'' & Hk'' & E4 & E5 & E6).
    exists k''. split; [done|]. split; [congruence|]. split; eauto.
  - intros p k Hk. destruct (ext_stop0 p k Hk) as (k' & Hk' & E1 & E2 & E3).
    destruct (ext_stop1 p k' Hk') as (k'' & Hk'' & E4 & E5 & E6).
    exists k''. split; [done|]. split; [congruence|]. split; [congruence|].
    intros Hn. rewrite E6; [eauto|]. rewrite E3; done.
Qed.

Ltac ext_same := first [done | lia | by eauto 10].

Lemma Ext_log o w w' : Ext w w' → Ext w (log o w').
Proof.
  intros H. eapply Ext_trans; [done|].
  split; cbn; [by apply prefix_app_r|ext_same..].
Qed.

Lemma Ext_upd_service i f w w' :
  (∀ s, language (f s) = language s) →
  (∀ s, ws s = None → ws (f s) = None) →
  Ext w w' → Ext w (upd_service i f w').
Proof.
  intros Hl Hw H. eapply Ext_trans; [done|].
  split; cbn; [ext_same|ext_same| |ext_same|ext_same].
  intros j s Hs. eexists. split; [by apply lookup_alter_back|].
  destruct (decide (i = j)); eauto.
Qed.

Lemma Ext_upd_conn c f w w' :
  (∀ k, owner (f k) = owner k) →
  (∀ k b, outcome k = Some b → outcome (f k) = Some b) →
  (∀ k, conns w' !! c = Some k → active (f k) → active k) →
  Ext w w' → Ext w (upd_conn c f w').
Proof.
  intros Ho Hb Ha H. eapply Ext_trans; [done|].
  split; cbn; [ext_same|ext_same|ext_same| |ext_same].
  intros j k Hk. eexists. split; [by apply lookup_alter_back|].
  destruct (decide (c = j)) as [->|]; eauto.
Qed.

Lemma Ext_upd_stop p f w w' :
  (∀ k, target (f k) = target k) →
  (∀ k, stopDeadline (f k) = stopDeadline k) →
  (∀ k, settled k ≠ Pending → settled (f k) = settled k) →
  Ext w w' → Ext w (upd_stop p f w').
Proof.
  intros Ht Hd Hs H. eapply Ext_trans; [done|].
  split; cbn; [ext_same|ext_same|ext_same|ext_same|].
  intros j k Hk. eexists. split; [by apply lookup_alter_back|].
  destruct (decide (p = j)); eauto.
Qed.

Lemma Ext_new_stop k w w' : Ext w w' → Ext w (new_stop k w').
Proof.
  intros H. eapply Ext_trans; [done|].
  split; cbn; [ext_same|ext_same|ext_same|ext_same|].
  intros j k' Hk. exists k'. split; [by apply lookup_app_l_Some|done].
Qed.

Lemma Ext_set_whisperService o w w' : Ext w w' → Ext w (set_whisperService o w').
Proof. intros H. eapply Ext_trans; [done|]. split; cbn; ext_same. Qed.

Lemma Ext_set_tasks ts w w' : Ext w w' → Ext w (set_tasks ts w').
Proof. intros H. eapply Ext_trans; [done|]. split; cbn; ext_same. Qed.

Lemma Ext_suspend t w w' : Ext w w' → Ext w (suspend t w').
Proof. apply Ext_set_tasks. Qed.

Lemma Ext_next_call w w' : Ext w w' → Ext w (next_call w').
Proof. intros H. eapply Ext_trans; [done|]. split; cbn; ext_same. Qed.

Lemma Ext_elapse ms w w' : Ext w w' → Ext w (elapse ms w').
Proof. intros H. eapply Ext_trans; [done|]. split; cbn; ext_same. Qed.

Lemma Ext_start_connect call lang ctorThrows w w' :
  Ext w w' → Ext w (start_connect call lang ctorThrows w').
Proof.
  intros H. eapply Ext_trans; [done|]. rewrite start_connect_eq.
  split; cbn; [done|lia|..].
  - intros i s Hs. exists s. split; [by apply lookup_app_l_Some|done].
  - intros c k Hk. exists k. split; [by apply lookup_app_l_Some|done].
  - intros p k Hk. eauto 10.
Qed.

Lemma Ext_ws_close c w w' : Ext w w' → Ext w (ws_close c w').
Proof.
  apply Ext_upd_conn.
  - intros k. unfold closing. by destruct (readyState k) as [[]|].
  - intros k b. unfold closing. by destruct (readyState k) as [[]|].
  - intros k _ Ha. by apply closing_not_active in Ha.
Qed.

Lemma Ext_resolve_conn c b w w' : Ext w w' → Ext w (resolve_conn c b w').
Proof.
  apply Ext_upd_conn.
  - intros k. unfold settle_conn. by destruct (outcome k).
  - intros k b' E. unfold settle_conn. by rewrite E.
  - intros k _. unfold settle_conn, active. by destruct (outcome k).
Qed.

Lemma Ext_resolve_stop p w w' : Ext w w' → Ext w (resolve_stop p w').
Proof.
  apply Ext_upd_stop.
  - intros k. unfold settle_stop. by destruct (settled k).
  - intros k. unfold settle_stop. by destruct (settled k).
  - intros k. unfold settle_stop. by destruct (settled k) eqn:E; cbn; rewrite ?E.
Qed.

Lemma Ext_set_stopTimer p b w w' : Ext w w' → Ext w (upd_stop p (set_stopTimer b) w').
Proof. by apply Ext_upd_stop. Qed.

Lemma Ext_disconnect i w w' : Ext w w' → Ext w (disconnect i w').
Proof.
  intros H. unfold disconnect. apply Ext_upd_service; [done|done|].
  destruct (ws_of i w'); [|done].
  apply Ext_upd_service; [done|done|]. by apply Ext_ws_close.
Qed.

Create HintDb ext.
#[local] Hint Resolve Ext_refl Ext_log Ext_new_stop Ext_set_whisperService
  Ext_set_tasks Ext_suspend Ext_next_call Ext_elapse Ext_start_connect
  Ext_ws_close Ext_resolve_conn Ext_resolve_stop Ext_set_stopTimer
  Ext_disconnect : ext.

Lemma Ext_send_via_handle i f w w' : Ext w w' → Ext w (send_via_handle i f w').
Proof.
  intros H. unfold send_via_handle, ws_send.
  destruct (ws_of i w'); [|done]. destruct (rs_of _ _) as [[]|]; eauto with ext.
Qed.

Lemma Ext_done_listener i p w w' : Ext w w' → Ext w (done_listener i p w').
Proof. intros H. unfold done_listener. eauto with ext. Qed.

Lemma Ext_emit_done i w w' : Ext w w' → Ext w (emit_done i w').
Proof.
  intros H. unfold emit_done. destruct (services w' !! i) as [s|]; [|done].
  revert w' H. induction (doneOnce s) as [|p L IH]; intros w' H; [done|].
  cbn. apply IH, Ext_done_listener. by apply Ext_upd_service.
Qed.

Lemma Ext_stop i w w' : Ext w w' → Ext w (stop i w').1.
Proof.
  intros H. unfold stop, ws_send. destruct (ws_of i w'); cbn [fst]; [|eauto with ext].
  destruct (getIsConnected i w'); cbn [fst]; [|eauto with ext].
  destruct (rs_of _ _) as [[]|]; cbn [fst]; eauto with ext;
    apply Ext_upd_service; eauto with ext.
Qed.

Lemma Ext_handle e w : Ext w (handle e w).
Proof.
  destruct e; cbn [handle].
  - unfold handle_start. destruct (whisperService _); [|eauto with ext].
    pose proof (Ext_stop n w (next_call w) (Ext_next_call _ _ (Ext_refl _))) as H.
    destruct (stop n (next_call w)) as [w1 p]. cbn in H. eauto with ext.
  - unfold handle_sendAudio, sendAudio, ws_send.
    destruct (whisperService _); [|eauto with ext].
    destruct (getIsConnected _ _); [|eauto with ext].
    destruct (ws_of _ _); [|eauto with ext].
    destruct (rs_of _ _) as [[]|]; eauto with ext.
  - unfold handle_stop. destruct (whisperService _); [|eauto with ext].
    pose proof (Ext_stop n w (next_call w) (Ext_next_call _ _ (Ext_refl _))) as H.
    destruct (stop n (next_call w)) as [w1 p]. cbn in H. eauto with ext.
  - destruct (rs_of c w) as [[]|] eqn:E; eauto with ext.
    unfold on_open. destruct (conns _ !! c); [|].
    + match goal with |- context [services ?w1 !! ?i] =>
        destruct (services w1 !! i) end.
      * apply Ext_send_via_handle, Ext_upd_service; [done|done|].
        apply Ext_upd_conn; [done|done| |apply Ext_refl].
        intros k Hk _. apply rs_of_Some in E as (k' & Hk' & E).
        assert (k' = k) as -> by congruence. by left.
      * apply Ext_upd_service; [done|done|].
        apply Ext_upd_conn; [done|done| |apply Ext_refl].
        intros k Hk _. apply rs_of_Some in E as (k' & Hk' & E).
        assert (k' = k) as -> by congruence. by left.
    + apply Ext_upd_conn; [done|done| |apply Ext_refl].
      intros k Hk _. apply rs_of_Some in E as (k' & Hk' & E).
      assert (k' = k) as -> by congruence. by left.
  - destruct (receptive c w); [|eauto with ext].
    unfold on_message. destruct (conns w !! c); [|eauto with ext].
    destruct m as [|type text message]; [eauto with ext|].
    destruct (type =? "ready"); [unfold emit_ready; eauto with ext|].
    destruct (type =? "transcript"); [unfold emit_transcript; eauto with ext|].
    destruct (type =? "done"); [apply Ext_emit_done; eauto with ext|].
    destruct (type =? "error"); [unfold emit_error|]; eauto with ext.
  - destruct (receptive c w); [|eauto with ext].
    unfold on_ping. destruct (conns w !! c); [|eauto with ext].
    apply Ext_send_via_handle. eauto with ext.
  - eauto with ext.
  - unfold on_error, emit_error.
    destruct (rs_of c w) as [[]|]; eauto with ext;
      (destruct (conns _ !! c); [|eauto with ext]);
      destruct (getIsConnected _ _); eauto with ext.
  - destruct (rs_of c w) as [[]|]; eauto with ext.
  - assert (Ext w (upd_conn c (set_readyState CLOSED) w)).
    { apply Ext_upd_conn; [done|done| |apply Ext_refl]. by intros k _ [?|?]. }
    unfold on_close.
    destruct (rs_of c w) as [[]|]; eauto with ext;
      (destruct (conns _ !! c); [|eauto with ext]); by apply Ext_upd_service.
  - destruct (conn_timer_due c w); [|eauto with ext].
    assert (Ext w (upd_conn c (set_connTimer false) w)).
    { apply Ext_upd_conn; [done|done|done|apply Ext_refl]. }
    unfold on_connect_timeout. destruct (conns _ !! c); [|eauto with ext].
    destruct (getIsConnected _ _); [eauto with ext|].
    destruct (ws_of _ _); eauto with ext.
  - destruct (stop_timer_due p w); [|eauto with ext].
    unfold on_stop_timeout. destruct (stops _ !! p); eauto with ext.
  - eauto with ext.
Qed.

Lemma Ext_resume n w : Ext w (resume n w).
Proof.
  unfold resume. destruct (tasks w !! n) as [t|]; [|eauto with ext].
  destruct (ready w t); [|eauto with ext].
  destruct t; cbn [continue]; unfold start_connected.
  - destruct (stop_settled _ _); eauto with ext.
  - destruct (conn_outcome _ _) as [[]|]; eauto with ext.
  - destruct (stop_settled _ _); eauto with ext.
Qed.

Lemma Ext_act a w : Ext w (act w a).
Proof. destruct a; [apply Ext_handle|apply Ext_resume]. Qed.

Lemma Ext_exec acts w : Ext w (exec w acts).
Proof.
  revert w. induction acts as [|a acts IH]; intros w; [apply Ext_refl|].
  cbn. eapply Ext_trans; [apply Ext_act|apply IH].
Qed.

(** ** What the callbacks say *)

Lemma adds_refl w : adds w w.
Proof. exists []. by rewrite app_nil_r. Qed.

Lemma adds_trans w1 w2 w3 : adds w1 w2 → adds w2 w3 → adds w1 w3.
Proof.
  intros (l1 & E1 & F1) (l2 & E2 & F2). exists (l1 ++ l2).
  split; [by rewrite E2, E1, app_assoc|by apply Forall_app].
Qed.

Lemma adds_log o w w' : routine o = true → adds w w' → adds w (log o w').
Proof.
  intros Ho H. eapply adds_trans; [done|]. exists [o]. split; [done|].
  by apply Forall_singleton.
Qed.

Lemma adds_same w w' w'' : trace w'' = trace w' → adds w w' → adds w w''.
Proof. intros E (l & E' & F). exists l. by rewrite E. Qed.

Lemma adds_next_call w w' : adds w w' → adds w (next_call w').
Proof. by apply adds_same. Qed.

Lemma trace_disconnect i w : trace (disconnect i w) = trace w.
Proof. unfold disconnect. by destruct (ws_of i w). Qed.

Lemma trace_done_listener i p w : trace (done_listener i p w) = trace w.
Proof. unfold done_listener, resolve_stop. cbn [trace upd_stop]. by rewrite trace_disconnect. Qed.

Lemma trace_emit_done i w : trace (emit_done i w) = trace w.
Proof.
  unfold emit_done. destruct (services w !! i) as [s|]; [|done].
  revert w. induction (doneOnce s) as [|p L IH]; intros w; [done|].
  cbn [foldl]. rewrite IH. by rewrite trace_done_listener.
Qed.

Lemma trace_start_connect call lang ctorThrows w :
  trace (start_connect call lang ctorThrows w) = trace w.
Proof. by rewrite start_connect_eq. Qed.

Lemma adds_send_via_handle i f w w' :
  is_audio f = false → adds w w' → adds w (send_via_handle i f w').
Proof.
  intros Hf H. unfold send_via_handle, ws_send. destruct (ws_of i w'); [|done].
  destruct (rs_of _ _) as [[]|]; try done; apply adds_log; try done.
  cbn. by rewrite Hf.
Qed.

(** [stop()] says [stop] when the socket is open. *)
Lemma trace_stop i w :
  trace (stop i w).1 =
  trace w ++ match ws_of i w with
             | Some c => if getIsConnected i w && bool_decide (rs_of c w = Some OPEN)
                         then [Sent c FStop] else []
             | None => []
             end.
Proof.
  unfold stop, ws_send. destruct (ws_of i w) as [c|]; cbn [fst]; [|by rewrite app_nil_r].
  destruct (getIsConnected i w); cbn [fst andb].
  - destruct (rs_of c w) as [[]|]; cbn; by rewrite ?app_nil_r.
  - cbn [new_stop trace]. by rewrite trace_disconnect, app_nil_r.
Qed.

Lemma adds_stop i w w' : adds w w' → adds w (stop i w').1.
Proof.
  intros H. eapply adds_trans; [done|]. eexists. split; [apply trace_stop|].
  destruct (ws_of i w'); [|done]. by destruct (_ && _); repeat constructor.
Qed.

Ltac adds_step :=
  match goal with
  | |- adds ?w ?w => apply adds_refl
  | |- adds _ (log _ _) => apply adds_log; [done|]
  | |- adds _ (send_via_handle _ _ _) => apply adds_send_via_handle; [done|]
  | |- adds _ (disconnect _ ?w') => apply (adds_same _ w'); [apply trace_disconnect|]
  | |- adds _ (emit_done _ ?w') => apply (adds_same _ w'); [apply trace_emit_done|]
  | |- adds _ (start_connect _ _ _ ?w') =>
    apply (adds_same _ w'); [apply trace_start_connect|]
  | |- adds _ (?f _ _ ?w') => apply (adds_same _ w'); [reflexivity|]
  | |- adds _ (?f _ ?w') => apply (adds_same _ w'); [reflexivity|]
  | |- adds _ (?f ?w') => apply (adds_same _ w'); [reflexivity|]
  end.

Ltac adds_go := repeat first [adds_step | case_match].

Lemma adds_handle e w : spontaneous e = true → adds w (handle e w).
Proof.
  intros He. destruct e; try done; cbn [handle].
  - unfold handle_start. change (whisperService (next_call w)) with (whisperService w).
    destruct (whisperService w) as [a|]; [|adds_go].
    pose proof (adds_stop a w (next_call w) (adds_next_call _ _ (adds_refl _))) as H.
    destruct (stop a (next_call w)) as [w1 p]. by eapply adds_same.
  - unfold handle_stop. change (whisperService (next_call w)) with (whisperService w).
    destruct (whisperService w) as [a|]; [|adds_go].
    pose proof (adds_stop a w (next_call w) (adds_next_call _ _ (adds_refl _))) as H.
    destruct (stop a (next_call w)) as [w1 p]. by eapply adds_same.
  - unfold on_open. adds_go.
  - unfold on_ping. adds_go.
  - adds_go.
  - unfold on_error, emit_error. adds_go.
  - adds_go.
  - unfold on_close. adds_go.
  - unfold on_connect_timeout. adds_go.
  - unfold on_stop_timeout. adds_go.
  - adds_go.
Qed.

Lemma adds_resume n w : adds w (resume n w).
Proof.
  unfold resume. destruct (tasks w !! n) as [t|]; [|apply adds_refl].
  destruct (ready w t); [|apply adds_refl].
  destruct t; cbn [continue]; unfold start_connected; adds_go.
Qed.

Lemma trace_on_message c m w :
  receptive c w = true →
  trace (on_message c m w) = trace w ++ Recv c m :: reaction m.
Proof.
  intros Hr. apply receptive_hearing in Hr as (k & Hk & _).
  unfold on_message. rewrite Hk. destruct m as [|type text message]; [done|].
  cbn [reaction]. destruct (type =? "ready"); [cbn; by rewrite <- app_assoc|].
  destruct (type =? "transcript"); [cbn; by rewrite <- app_assoc|].
  destruct (type =? "done"); [by rewrite trace_emit_done|].
  destruct (type =? "error"); [cbn; by rewrite <- app_assoc|done].
Qed.

(** What [transcription:send-audio] says: one audio frame at most, on
    the socket of the service that the handlers know. *)
Lemma trace_handle_sendAudio d w :
  adds w (handle_sendAudio d w) ∨
  ∃ i c, whisperService w = Some i ∧ ws_of i w = Some c ∧
         trace (handle_sendAudio d w) =
         trace w ++ [Sent c (FAudio d); Reply (calls w) RVoid].
Proof.
  unfold handle_sendAudio, sendAudio, ws_send.
  change (whisperService (next_call w)) with (whisperService w).
  destruct (whisperService w) as [i|]; [|left; adds_go].
  destruct (getIsConnected i (next_call w)); [|left; adds_go].
  change (ws_of i (next_call w)) with (ws_of i w).
  destruct (ws_of i w) as [c|] eqn:Hw; [|left; adds_go].
  destruct (rs_of c (next_call w)) as [[]|]; try (left; solve [adds_go]).
  right. exists i, c. split; [done|]. split; [done|]. cbn. by rewrite <- app_assoc.
Qed.

(** * The claims *)

Lemma Inv_torn_down ex i w :
  InvE ex w → ws_of i w = None → i < length (services w) → torn_down i w.
Proof.
  intros H Hw Hi. split; [done|]. split.
  - unfold getIsConnected. destruct (services w !! i) as [s|] eqn:Hs; [|done].
    destruct (isConnected s) eqn:Hc; [|done].
    destruct (inv_connected _ _ H i s Hs Hc) as (c & k & Hc' & _).
    rewrite ws_of_None in Hw. by rewrite (Hw s Hs) in Hc'.
  - intros c k Hk <- Ha. pose proof (inv_torn _ _ H c k Hk Ha). congruence.
Qed.

Lemma stop_unconnected_eq i w :
  getIsConnected i w = false →
  stop i w = (new_stop (mkStopCall i Resolved 0%N false)
                (match ws_of i w with Some _ => disconnect i w | None => w end), length (stops w)).
Proof. intros Hc. unfold stop. destruct (ws_of i w); by rewrite ?Hc. Qed.

(** ** C1 *)

(** C1, as stated, fails on [WhisperLocalService.sendAudio]: the guard
    of [sendAudio] is [isConnected], which the 'open' handler sets.  After
    [start("en")] and the 'open' event, and before any [ready] frame, a
    call of [sendAudio] puts an audio frame on the wire and warns of
    nothing. *)
Lemma sendAudio_before_ready_sends :
  ∃ w', sendAudio 0 "chunk" (run init [IpcStart "en" false; SockOpen 0]) = inl w' ∧
        trace w' = [Sent 0 (FConfig "en"); Sent 0 (FAudio "chunk")] ∧
        ¬ gated (trace w').
Proof.
  eexists. split; [by vm_compute|]. split; [by vm_compute|].
  intros G. destruct (G [Sent 0 (FConfig "en")] [] 0 "chunk" eq_refl) as (m & _ & Hin).
  apply list_elem_of_singleton in Hin. discriminate.
Qed.

(** C1, amended: through the ipc handlers, which know a service only
    once its [connect()] has resolved to true, every audio frame put on
    the wire of a socket comes after a [ready] frame received on that
    socket, under every schedule of the event loop.  [sendAudio] itself
    tests the connection, not [ready]: on a service that is not connected
    it drops the chunk with a warning; on a connected one it never throws,
    and puts the frame on the wire when the socket is open, or lets the
    socket discard it when the socket is closing. *)
Theorem audio_gated_by_ready (acts : list Action) (i : nat) (d : string) :
  let w := exec init acts in
  gated (trace w) ∧
  (getIsConnected i w = false →
   sendAudio i d w = inl (log (Warn "Not connected to Whisper server") w)) ∧
  (getIsConnected i w = true →
   ∃ c, ws_of i w = Some c ∧
        (rs_of c w = Some OPEN ∧ sendAudio i d w = inl (log (Sent c (FAudio d)) w) ∨
         rs_of c w = Some CLOSING ∧ sendAudio i d w = inl w)).
Proof.
  intros w. assert (H : Inv w) by apply exec_Inv, Inv_init.
  split; [apply (inv_gated _ _ H)|]. split.
  - intros Hc. unfold sendAudio. rewrite Hc. by destruct (ws_of i w).
  - intros Hc. unfold getIsConnected in Hc.
    destruct (services w !! i) as [s|] eqn:Hs; [|done].
    destruct (inv_connected _ _ H i s Hs Hc) as (c & k & Hws & Hk & Hh).
    exists c. assert (Hw : ws_of i w = Some c) by (apply ws_of_Some; eauto).
    split; [done|]. unfold sendAudio, getIsConnected, ws_send, rs_of.
    rewrite Hw, Hs, Hc, Hk. cbn. destruct Hh as [-> | ->]; eauto.
Qed.

(** ** C10 *)

(** C10: [stop()] on a service whose socket handle is null, or whose
    socket never reached the connected state, resolves at once, puts no
    frame on the wire and leaves the session fully disconnected. *)
Theorem stop_unconnected (acts : list Action) (i : nat) :
  i < length (services (exec init acts)) →
  ws_of i (exec init acts) = None ∨ getIsConnected i (exec init acts) = false →
  stop_settled (stop i (exec init acts)).2 (stop i (exec init acts)).1 = Resolved ∧
  trace (stop i (exec init acts)).1 = trace (exec init acts) ∧
  torn_down i (stop i (exec init acts)).1.
Proof.
  set (w := exec init acts). intros Hi Hn.
  assert (H : Inv w) by apply exec_Inv, Inv_init.
  assert (Hc : getIsConnected i w = false).
  { destruct Hn as [Hw|?]; [|done]. by destruct (Inv_torn_down _ _ _ H Hw Hi) as (_ & ? & _). }
  pose proof (stop_InvE _ i w H Hi) as H1.
  rewrite stop_unconnected_eq in * by done. cbn [fst snd] in *.
  split; [|split].
  - unfold stop_settled. cbn [stops new_stop].
    by rewrite list_lookup_middle by (by destruct (ws_of i w); rewrite ?stops_disconnect).
  - cbn [trace new_stop]. destruct (ws_of i w); [apply trace_disconnect|done].
  - apply (Inv_torn_down _ _ _ H1).
    + change (ws_of i (new_stop ?k ?w')) with (ws_of i w').
      destruct (ws_of i w) eqn:Hw; [apply ws_of_disconnect|done].
    + cbn [services new_stop].
      destruct (ws_of i w); by rewrite ?length_services_disconnect.
Qed.

Lemma stop_unconnected_witness :
  stop_settled (stop 0 (exec init [Ev (IpcStart "en" false)])).2
               (stop 0 (exec init [Ev (IpcStart "en" false)])).1 = Resolved ∧
  trace (stop 0 (exec init [Ev (IpcStart "en" false)])).1
  = trace (exec init [Ev (IpcStart "en" false)]) ∧
  torn_down 0 (stop 0 (exec init [Ev (IpcStart "en" false)])).1.
Proof.
  apply (stop_unconnected [Ev (IpcStart "en" false)] 0).
  - vm_compute. lia.
  - right. reflexivity.
Defined.

(** ** Runs, step by step *)

Lemma exec_app w l1 l2 : exec w (l1 ++ l2) = exec (exec w l1) l2.
Proof. unfold exec. apply foldl_app. Qed.

Lemma run_app w l1 l2 : run w (l1 ++ l2) = run (run w l1) l2.
Proof. unfold run. apply foldl_app. Qed.

Lemma act_says w a : ∃ l, trace (act w a) = trace w ++ l ∧ Says w l.
Proof.
  destruct a as [e|n]; cbn [act].
  - destruct (spontaneous e) eqn:He.
    + destruct (adds_handle e w He) as (l & E & F). exists l. split; [done|].
      by apply says_routine.
    + destruct e; try done; cbn [handle].
      * destruct (trace_handle_sendAudio audioData w) as [(l & E & F)|(i & c & Hi & Hc & E)].
        -- exists l. split; [done|]. by apply says_routine.
        -- eexists. split; [done|]. by eapply says_audio.
      * destruct (receptive c w) eqn:Hr.
        -- eexists. split; [by apply trace_on_message|]. apply says_message.
        -- exists []. split; [by rewrite app_nil_r|]. by apply says_routine.
  - destruct (adds_resume n w) as (l & E & F). exists l. split; [done|].
    by apply says_routine.
Qed.

Lemma audio_on_app c l1 l2 : audio_on c (l1 ++ l2) = audio_on c l1 ++ audio_on c l2.
Proof. unfold audio_on. apply omap_app. Qed.

Lemma audio_on_routine c l :
  Forall (λ o, routine o = true) l → audio_on c l = [].
Proof.
  induction 1 as [|o l Ho _ IH]; [done|]. unfold audio_on in *. cbn. rewrite IH.
  destruct o as [c' [] | | | | |]; try done.
Qed.

Lemma audio_on_reaction c m : audio_on c (reaction m) = [].
Proof.
  destruct m as [|type text message]; [done|]. cbn.
  repeat (case_match; try done).
Qed.

(** Audio is put only on the socket that a service holds. *)
Lemma act_audio w a c :
  (∀ i, ws_of i w ≠ Some c) →
  audio_on c (trace (act w a)) = audio_on c (trace w).
Proof.
  intros Hc. destruct (act_says w a) as (l & -> & Hl).
  rewrite audio_on_app. destruct Hl as [l F|c' m|i c' d Hi Hw].
  - by rewrite (audio_on_routine c l F), app_nil_r.
  - assert (audio_on c (Recv c' m :: reaction m) = []) as ->
      by apply (audio_on_reaction c m).
    by rewrite app_nil_r.
  - unfold audio_on at 3. cbn. destruct (decide (c' = c)) as [->|]; [|by rewrite app_nil_r].
    by destruct (Hc i).
Qed.

(** ** C3 *)

(** C3, as stated, fails: [stop()] leaves [isConnected] and the socket
    as they are until [done] or the timer, and the handlers keep the
    service until [stop()] has resolved.  A chunk that arrives after the
    [stop] frame has been sent is put on the wire. *)
Lemma audio_sent_while_stopping :
  trace (run init [IpcStart "en" false; SockOpen 0;
                   SockMessage 0 (Message "ready" None None);
                   IpcStop; IpcSendAudio "late"])
  = [Sent 0 (FConfig "en"); Recv 0 (Message "ready" None None);
     ToRenderer TranscriptionReady; Reply 0 (RBool true);
     Sent 0 FStop; Sent 0 (FAudio "late"); Reply 2 RVoid].
Proof. by vm_compute. Qed.

Lemma dead_service_stays_dead w acts i :
  i < length (services w) → ws_of i w = None → ws_of i (exec w acts) = None.
Proof.
  intros Hi Hw. apply lookup_lt_is_Some_2 in Hi as (s & Hs).
  destruct (ext_service _ _ (Ext_exec acts w) i s Hs) as (s' & Hs' & _ & Hn).
  rewrite ws_of_None in Hw. apply ws_of_None. intros s'' Hs''.
  assert (s'' = s') as -> by congruence. eauto.
Qed.

(** C3, amended: once a [stop()] call on a session has resolved (after
    [done] or the stop timeout, when the service has disconnected), no
    audio frame is ever put on the wire of a socket of that session
    again, whatever is called and whatever arrives. *)
Theorem no_audio_after_stop_resolved (acts acts' : list Action) (p c : nat)
    (k : StopCall) (kc : Conn) :
  stops (exec init acts) !! p = Some k → settled k = Resolved →
  conns (exec init acts) !! c = Some kc → owner kc = target k →
  audio_on c (trace (exec (exec init acts) acts'))
  = audio_on c (trace (exec init acts)).
Proof.
  set (w := exec init acts). intros Hk Hr Hc Ho.
  assert (H : Inv w) by apply exec_Inv, Inv_init.
  pose proof (inv_resolved _ _ H p k Hk Hr) as Hw.
  pose proof (inv_target _ _ H p k Hk) as Hi.
  induction acts' as [|a acts' IH] using rev_ind; [done|].
  rewrite exec_app. cbn [exec foldl]. rewrite <- IH.
  apply act_audio. intros i Hi'.
  pose proof (exec_Inv acts' w H) as H'.
  apply ws_of_Some in Hi' as (s & Hs & Hws).
  destruct (inv_ws _ _ H' i s c Hs Hws) as (k' & Hk' & Ho').
  destruct (ext_conn _ _ (Ext_exec acts' w) c kc Hc) as (k'' & Hk'' & Ho'' & _).
  assert (i = target k) as -> by congruence.
  pose proof (dead_service_stays_dead w acts' (target k) Hi Hw) as Hd.
  rewrite ws_of_None in Hd. by rewrite (Hd s Hs) in Hws.
Qed.

Lemma no_audio_after_stop_resolved_witness :
  audio_on 0 (trace (exec (exec init [Ev (IpcStart "en" false); Ev (SockOpen 0);
                                      Ev (SockMessage 0 (Message "ready" None None));
                                      Resume 0; Ev (IpcSendAudio "a"); Ev IpcStop;
                                      Ev (SockMessage 0 (Message "done" None None))])
                           [Resume 0; Ev (IpcSendAudio "late")]))
  = ["a"].
Proof.
  rewrite (no_audio_after_stop_resolved _ _ 0 0
             (mkStopCall 0 Resolved 10000%N false)
             (mkConn 0 (Some CLOSING) (Some true) 5000%N true));
    reflexivity.
Defined.

(** ** C6 *)

(** C6, as stated, fails: after [start()] has resolved to false no
    service is registered, and [transcription:send-audio] throws.  The
    caller sees the rejection. *)
Lemma sendAudio_after_failed_start_throws :
  reply_of 0 (trace (run init [IpcStart "en" false;
                               SockError 0 "connect ECONNREFUSED 127.0.0.1:8765";
                               IpcSendAudio "chunk"])) = Some (RBool false) ∧
  reply_of 1 (trace (run init [IpcStart "en" false;
                               SockError 0 "connect ECONNREFUSED 127.0.0.1:8765";
                               IpcSendAudio "chunk"])) = Some (RError not_started).
Proof. by vm_compute. Qed.

Lemma conn_outcome_Some c b w :
  conn_outcome c w = Some b ↔ ∃ k, conns w !! c = Some k ∧ outcome k = Some b.
Proof.
  unfold conn_outcome. destruct (conns w !! c) as [k|]; cbn.
  - split; [eauto|]. by intros (? & [= <-] & ?).
  - split; [done|]. by intros (? & ? & ?).
Qed.

(** C6, amended: when [start()] resolves to false it leaves no service
    registered, and the failed service is never registered later.  At
    every later moment the [sendAudio] of the failed service drops the
    chunk with a warning and does not throw, but a send-audio call made
    while no service is registered throws "Transcription not started ..."
    to the caller and puts nothing on the wire. *)
Theorem sendAudio_after_failed_start (acts acts' : list Action)
    (n call i c : nat) (d : string) :
  tasks (exec init acts) !! n = Some (StartAwaitConnect call i c) →
  conn_outcome c (exec init acts) = Some false →
  let w1 := resume n (exec init acts) in
  let w2 := exec w1 acts' in
  trace w1 = trace (exec init acts) ++ [Reply call (RBool false)] ∧
  whisperService w1 = None ∧
  whisperService w2 ≠ Some i ∧
  sendAudio i d w2 = inl (log (Warn "Not connected to Whisper server") w2) ∧
  (whisperService w2 = None →
   handle (IpcSendAudio d) w2
   = log (Reply (calls w2) (RError not_started)) (next_call w2)).
Proof.
  set (w := exec init acts). intros Ht Ho w1 w2.
  assert (H : Inv w) by apply exec_Inv, Inv_init.
  assert (H2 : Inv w2) by (apply exec_Inv, resume_Inv, H).
  assert (E : w1 = log (Reply call (RBool false))
                (set_whisperService None (disconnect i (set_tasks (delete n (tasks w)) w)))).
  { unfold w1, resume. rewrite Ht. cbn [ready]. rewrite Ho. cbn [continue].
    change (conn_outcome c (set_tasks ?ts w)) with (conn_outcome c w). by rewrite Ho. }
  destruct (inv_task _ _ H call i c) as (k & Hk & Hi).
  { by eapply list_elem_of_lookup_2. }
  assert (Hk' : outcome k = Some false).
  { apply conn_outcome_Some in Ho as (k0 & Hk0 & ?). congruence. }
  assert (X : Ext w w2).
  { eapply Ext_trans; [apply Ext_resume|apply Ext_exec]. }
  destruct (ext_conn _ _ X c k Hk) as (k2 & Hk2 & Ho2 & Hout & _).
  assert (Hd : ws_of i w2 = None).
  { apply dead_service_stays_dead.
    - pose proof (inv_owner _ _ H c k Hk) as Hlt. rewrite Hi in Hlt.
      apply lookup_lt_is_Some_2 in Hlt as (s & Hs).
      destruct (ext_service _ _ (Ext_resume n w) i s Hs) as (s' & Hs' & _).
      by eapply lookup_lt_Some.
    - rewrite E. change (ws_of i (log ?o (set_whisperService None ?w'))) with (ws_of i w').
      apply ws_of_disconnect. }
  split; [|split; [|split; [|split]]].
  - rewrite E. cbn [trace log set_whisperService]. by rewrite trace_disconnect.
  - by rewrite E.
  - intros Hreg.
    pose proof (inv_registered _ _ H2 i c k2 Hreg Hk2 (eq_trans Ho2 Hi)) as Ht2.
    rewrite (Hout false Hk') in Ht2. done.
  - unfold sendAudio. by rewrite Hd.
  - intros Hn. cbn [handle]. unfold handle_sendAudio.
    change (whisperService (next_call w2)) with (whisperService w2). by rewrite Hn.
Qed.

Lemma sendAudio_after_failed_start_witness :
  reply_of 2 (trace (handle (IpcSendAudio "chunk")
                (exec (resume 0 (exec init [Ev (IpcStart "en" false);
                                            Ev (SockError 0 "ECONNREFUSED")]))
                      [Ev (IpcSendAudio "first")])))
  = Some (RError not_started).
Proof.
  destruct (sendAudio_after_failed_start
              [Ev (IpcStart "en" false); Ev (SockError 0 "ECONNREFUSED")]
              [Ev (IpcSendAudio "first")]
              0 0 0 0 "chunk") as (_ & _ & _ & _ & ->); by vm_compute.
Defined.

(** ** C7 *)



Lemma tasks_disconnect i w : tasks (disconnect i w) = tasks w.
Proof. unfold disconnect. by destruct (ws_of i w). Qed.




(** ** C8 *)

(** C8, as stated, fails: the renderer's listener replaces the text only
    when the new text is truthy.  After the frames "Hello" and "" the
    page still shows "Hello", not the text of the most recent frame. *)
Lemma empty_transcript_is_not_shown :
  transcripts_received
    (trace (run init [IpcStart "en" false; SockOpen 0;
                      SockMessage 0 (Message "ready" None None);
                      SockMessage 0 (Message "transcript" (Some "Hello") None);
                      SockMessage 0 (Message "transcript" (Some "") None)]))
  = [Some "Hello"; Some ""] ∧
  transcript
    (render initialPage
       (FromMain <$>
        sent_to_renderer
          (trace (run init [IpcStart "en" false; SockOpen 0;
                            SockMessage 0 (Message "ready" None None);
                            SockMessage 0 (Message "transcript" (Some "Hello") None);
                            SockMessage 0 (Message "transcript" (Some "") None)]))))
  = "Hello".
Proof. by vm_compute. Qed.

Lemma transcripts_routine l :
  Forall (λ o, routine o = true) l →
  transcripts_shown l = [] ∧ transcripts_received l = [] ∧
  ready_events l = 0 ∧ readys_received l = 0.
Proof.
  induction 1 as [|o l Ho _ (E1 & E2 & E3 & E4)]; [done|].
  unfold transcripts_shown, transcripts_received, ready_events, readys_received in *.
  destruct o as [c f| | [] | | |]; try done; cbn; rewrite ?E1, ?E2.
  all: split; [done|]; split; [done|]; split.
  all: try (rewrite filter_cons_False; [done|by intros ?]).
Qed.

Lemma shown_reaction m :
  transcripts_shown (Recv 0 m :: reaction m)
  = transcripts_received (Recv 0 m :: reaction m).
Proof.
  destruct m as [|type text message]; [done|]. cbn.
  destruct (type =? "ready") eqn:E1.
  { apply String.eqb_eq in E1 as ->. done. }
  destruct (type =? "transcript"); [done|].
  destruct (type =? "done"); [done|]. by destruct (type =? "error").
Qed.

(** What the renderer is sent is what the sockets received, in order. *)
Lemma shown_is_received acts :
  transcripts_shown (trace (exec init acts))
  = transcripts_received (trace (exec init acts)).
Proof.
  induction acts as [|a acts IH] using rev_ind; [done|].
  rewrite exec_app. cbn [exec foldl].
  destruct (act_says (exec init acts) a) as (l & -> & Hl).
  unfold transcripts_shown, transcripts_received in *. rewrite !omap_app, IH. f_equal.
  destruct Hl as [l F|c m|i c d Hi Hw].
  - destruct (transcripts_routine l F) as (E1 & E2 & _). unfold transcripts_shown,
      transcripts_received in *. by rewrite E1, E2.
  - apply (shown_reaction m).
  - done.
Qed.

(** The same of the part of the trace that some actions add. *)
Lemma shown_is_received_from w acts l :
  trace (exec w acts) = trace w ++ l →
  transcripts_shown l = transcripts_received l.
Proof.
  revert l. induction acts as [|a acts IH] using rev_ind; intros l E.
  - cbn in E. rewrite <- (app_nil_r (trace w)) in E at 1.
    by apply app_inv_head in E as <-.
  - rewrite exec_app in E. cbn [exec foldl] in E.
    destruct (ext_trace _ _ (Ext_exec acts w)) as (l0 & E0).
    destruct (act_says (exec w acts) a) as (l1 & E1 & Hl).
    rewrite E1, E0, <- app_assoc in E. apply app_inv_head in E as <-.
    unfold transcripts_shown, transcripts_received in *. rewrite !omap_app.
    rewrite (IH l0 E0). f_equal.
    destruct Hl as [l F|c m|i c d Hi Hw].
    + destruct (transcripts_routine l F) as (E2 & E3 & _). unfold transcripts_shown,
        transcripts_received in *. by rewrite E2, E3.
    + apply (shown_reaction m).
    + done.
Qed.

Lemma shown_from_main evs l :
  from_main evs = sent_to_renderer l →
  omap (λ e, match e with
             | FromMain (TranscriptionResult text) => Some text
             | _ => None
             end) evs
  = transcripts_shown l.
Proof.
  revert evs. unfold from_main, sent_to_renderer, transcripts_shown.
  induction l as [|o l IH]; intros evs E.
  - cbn in *. induction evs as [|[m| |] evs IHe]; cbn in *; try done; by apply IHe.
  - destruct o as [| |m| | |]; cbn in E |- *; try by apply IH.
    induction evs as [|[m'| |] evs IHe]; cbn in *; try done; try (by apply IHe).
    injection E as -> E. destruct m; cbn; rewrite ?(IH evs E); try done.
Qed.

(** What the page shows is the last text written: without a load, the
    most recent truthy text that a 'transcription:result' carried. *)
Lemma render_transcript st evs :
  Forall (λ e, is_load e = false) evs →
  transcript (render st evs)
  = default (transcript st)
      (most_recent_nonempty
         (omap (λ e, match e with
                     | FromMain (TranscriptionResult text) => Some text
                     | _ => None
                     end) evs)).
Proof.
  induction evs as [|e evs IH] using rev_ind; [done|].
  intros [He Hevs]%Forall_app. rewrite Forall_singleton in Hevs.
  unfold render, most_recent_nonempty in *.
  rewrite foldl_app, !omap_app. cbn [foldl].
  destruct e as [[text| |]|fullText|error]; cbn; rewrite ?app_nil_r; try by apply IH.
  - destruct text as [t|]; cbn; rewrite ?app_nil_r; [|by apply IH].
    destruct t as [|a t]; cbn; rewrite ?app_nil_r; [by apply IH|].
    by rewrite last_snoc.
  - by cbn in Hevs.
Qed.

(** C8, amended: while the page loads no meeting, the transcript it shows
    after the frames of any stretch of a run is the text of the most
    recent transcript frame received in that stretch whose text is a
    non-empty string, or, when there is none, the text that the page
    showed before (empty on a new page, the saved transcript of a meeting
    that was loaded): such a frame replaces the text, nothing is
    appended, and a frame whose text is empty or missing changes
    nothing.  A load that finds a transcript replaces the text by the
    saved one. *)
Theorem transcript_is_latest_nonempty (acts acts' : list Action) (l : list Obs)
    (st : MeetingPage) (evs : list PageEvent) :
  trace (exec (exec init acts) acts') = trace (exec init acts) ++ l →
  from_main evs = sent_to_renderer l →
  Forall (λ e, is_load e = false) evs →
  transcript (render st evs)
  = default (transcript st) (most_recent_nonempty (transcripts_received l))
  ∧ ∀ fullText,
      transcript (render st (evs ++ [TranscriptLoaded fullText]))
      = if truthy fullText then default "" fullText else "".
Proof.
  intros El Em Hno. split.
  - by rewrite render_transcript, (shown_from_main evs l Em),
      (shown_is_received_from _ _ _ El).
  - intros fullText. unfold render. by rewrite foldl_app.
Qed.

Lemma transcript_is_latest_nonempty_witness :
  transcript
    (render (mkMeetingPage "saved text" "" None)
       [FromMain TranscriptionReady; ErrorSet None;
        FromMain (TranscriptionResult (Some ""))])
  = "saved text".
Proof.
  destruct (transcript_is_latest_nonempty
              [Ev (IpcStart "en" false); Ev (SockOpen 0)]
              [Ev (SockMessage 0 (Message "ready" None None)); Resume 0;
               Ev (SockMessage 0 (Message "transcript" (Some "") None))]
              [Recv 0 (Message "ready" None None); ToRenderer TranscriptionReady;
               Reply 0 (RBool true);
               Recv 0 (Message "transcript" (Some "") None);
               ToRenderer (TranscriptionResult (Some ""))]
              (mkMeetingPage "saved text" "" None)
              [FromMain TranscriptionReady; ErrorSet None;
               FromMain (TranscriptionResult (Some ""))])
    as [H _]; [by vm_compute|by vm_compute|by repeat constructor|exact H].
Defined.

(** ** C9 *)

(** C9, as stated, fails: the message handler has no notion of state;
    each [ready] frame emits 'ready' again, and it is forwarded to the
    renderer each time. *)
Lemma duplicate_ready_fires_again :
  ready_events
    (trace (run init [IpcStart "en" false; SockOpen 0;
                      SockMessage 0 (Message "ready" None None);
                      SockMessage 0 (Message "ready" None None)])) = 2 ∧
  length (conns (run init [IpcStart "en" false; SockOpen 0;
                           SockMessage 0 (Message "ready" None None);
                           SockMessage 0 (Message "ready" None None)])) = 1.
Proof. by vm_compute. Qed.

Lemma ready_reaction c m :
  ready_events (Recv c m :: reaction m) = readys_received (Recv c m :: reaction m).
Proof.
  destruct m as [|type text message]; [done|].
  unfold ready_events, readys_received. rewrite !filter_cons.
  cbn [reaction ready_frame is_ready].
  destruct (type =? "ready") eqn:E1; [done|].
  destruct (type =? "transcript"); [done|].
  destruct (type =? "done"); [done|]. by destruct (type =? "error").
Qed.

Lemma ready_events_app l1 l2 : ready_events (l1 ++ l2) = ready_events l1 + ready_events l2.
Proof. unfold ready_events. by rewrite filter_app, length_app. Qed.

Lemma readys_received_app l1 l2 :
  readys_received (l1 ++ l2) = readys_received l1 + readys_received l2.
Proof. unfold readys_received. by rewrite filter_app, length_app. Qed.

Lemma ready_per_frame acts :
  ready_events (trace (exec init acts)) = readys_received (trace (exec init acts)).
Proof.
  induction acts as [|a acts IH] using rev_ind; [done|].
  rewrite exec_app. cbn [exec foldl].
  destruct (act_says (exec init acts) a) as (l & -> & Hl).
  rewrite ready_events_app, readys_received_app, IH. f_equal.
  destruct Hl as [l F|c m|i c d Hi Hw].
  - destruct (transcripts_routine l F) as (_ & _ & E3 & E4). by rewrite E3, E4.
  - apply ready_reaction.
  - done.
Qed.

(** C9, amended: the ready event fires once for every [ready] frame
    received, whatever the state of the session, so a duplicate frame
    fires it again; no frame makes a callback throw; and a connection
    whose promise is settled keeps its outcome, so a later [ready] does
    not change what [start()] resolved to. *)
Theorem ready_fires_per_frame (es es' : list Event) (c : nat) :
  ready_events (trace (run init es)) = readys_received (trace (run init es)) ∧
  (∀ e, Uncaught e ∉ trace (run init es)) ∧
  match conn_outcome c (run init es) with
  | Some b => conn_outcome c (run (run init es) es') = Some b
  | None => True
  end.
Proof.
  split; [|split].
  - destruct (run_exec es init) as (acts & ->). apply ready_per_frame.
  - apply (inv_caught _ _ (run_Inv es)).
  - destruct (conn_outcome c (run init es)) as [b|] eqn:E; [|done].
    destruct (run_exec es' (run init es)) as (acts' & ->).
    unfold conn_outcome in *. destruct (conns (run init es) !! c) as [k|] eqn:Hk; [|done].
    destruct (ext_conn _ _ (Ext_exec acts' (run init es)) c k Hk) as (k' & -> & _ & Ho & _).
    cbn in *. eauto.
Qed.

(** ** The continuations are all run *)

Lemma tasks_resume n w t :
  tasks w !! n = Some t → ready w t = true →
  ∃ extra, tasks (resume n w) = delete n (tasks w) ++ extra ∧
           foldr (λ t n, awaits t + n) 0 extra < awaits t.
Proof.
  intros Ht Hr. unfold resume. rewrite Ht, Hr.
  destruct t as [call lang ctorThrows p|call i c|call p]; cbn [continue awaits].
  - change (stop_settled p (set_tasks ?ts w)) with (stop_settled p w).
    destruct (stop_settled p w).
    + exists [StartAwaitConnect call (length (services w)) (length (conns w))].
      rewrite start_connect_eq. cbn. split; [done|lia].
    + exists [StartAwaitConnect call (length (services w)) (length (conns w))].
      rewrite start_connect_eq. cbn. split; [done|lia].
    + exists []. cbn. rewrite app_nil_r. split; [done|lia].
  - change (conn_outcome c (set_tasks ?ts w)) with (conn_outcome c w).
    exists []. rewrite app_nil_r. split; [|cbn; lia].
    destruct (conn_outcome c w) as [[]|]; [done| |done].
    unfold start_connected. cbn [tasks log set_whisperService].
    by rewrite tasks_disconnect.
  - change (stop_settled p (set_tasks ?ts w)) with (stop_settled p w).
    exists []. rewrite app_nil_r. split; [|cbn; lia].
    by destruct (stop_settled p w).
Qed.

Lemma awaits_delete n (l : list Task) t :
  l !! n = Some t →
  foldr (λ t n, awaits t + n) 0 l
  = awaits t + foldr (λ t n, awaits t + n) 0 (delete n l).
Proof.
  revert n. induction l as [|x l IH]; intros [|n] Hn; try done.
  - by injection Hn as ->.
  - change (delete (S n) (x :: l)) with (x :: delete n l). cbn [foldr].
    rewrite (IH n Hn). lia.
Qed.

Lemma awaits_app (l1 l2 : list Task) :
  foldr (λ t n, awaits t + n) 0 (l1 ++ l2)
  = foldr (λ t n, awaits t + n) 0 l1 + foldr (λ t n, awaits t + n) 0 l2.
Proof. induction l1 as [|x l1 IH]; cbn [foldr app]; [done|]. rewrite IH. lia. Qed.

(** Each continuation that runs brings the end of the drain nearer. *)
Lemma pending_awaits_resume n w t :
  tasks w !! n = Some t → ready w t = true →
  pending_awaits (resume n w) < pending_awaits w.
Proof.
  intros Ht Hr. destruct (tasks_resume n w t Ht Hr) as (extra & E & Hlt).
  unfold pending_awaits. rewrite E, awaits_app, (awaits_delete n (tasks w) t Ht). lia.
Qed.

Lemma first_ready_Some w l n :
  first_ready w l = Some n → ∃ t, l !! n = Some t ∧ ready w t = true.
Proof.
  revert n. induction l as [|x l IH]; intros n; [done|]. cbn.
  destruct (ready w x) eqn:Hx.
  - intros [= <-]. eauto.
  - destruct (first_ready w l) as [m|]; [|done]. intros [= <-]. by apply IH.
Qed.

Lemma first_ready_None w l :
  first_ready w l = None ↔ ∀ t, t ∈ l → ready w t = false.
Proof.
  induction l as [|x l IH]; cbn.
  - split; [|done]. intros _ t Ht. by apply not_elem_of_nil in Ht.
  - destruct (ready w x) eqn:Hx.
    + split; [done|]. intros H. rewrite H in Hx; [done|by left].
    + destruct (first_ready w l) as [m|]; cbn.
      * split; [done|]. intros H.
        assert (Some m = None) as [=]. apply IH. intros t Ht. apply H. by right.
      * split; [|done]. intros _ t Ht. apply elem_of_cons in Ht as [->|Ht]; [done|].
        by apply IH.
Qed.

Lemma awaits_pos (l : list Task) :
  foldr (λ t n, awaits t + n) 0 l = 0 → l = [].
Proof. destruct l as [|[] l]; cbn; [done|lia..]. Qed.

(** The fuel that [drain] gives itself is enough: when it returns, no
    suspended handler can go on. *)
Lemma drain_for_quiescent fuel w :
  (pending_awaits w ≤ fuel)%nat →
  first_ready (drain_for fuel w) (tasks (drain_for fuel w)) = None.
Proof.
  revert w. induction fuel as [|fuel IH]; intros w Hf.
  - cbn. assert (tasks w = []) as -> by (apply awaits_pos; unfold pending_awaits in Hf; lia).
    done.
  - cbn. destruct (first_ready w (tasks w)) as [n|] eqn:E; [|done].
    apply first_ready_Some in E as (t & Ht & Hr). apply IH.
    pose proof (pending_awaits_resume n w t Ht Hr). lia.
Qed.

Lemma drain_quiescent w t : t ∈ tasks (drain w) → ready (drain w) t = false.
Proof.
  revert t. apply first_ready_None. by apply drain_for_quiescent.
Qed.

Lemma run_quiescent es t : t ∈ tasks (run init es) → ready (run init es) t = false.
Proof.
  destruct es as [|e es _] using rev_ind.
  - intros Ht. by apply not_elem_of_nil in Ht.
  - rewrite run_app. cbn [run foldl]. apply drain_quiescent.
Qed.

Lemma elem_of_delete_other {A} (l : list A) n x y :
  x ∈ l → l !! n = Some y → x ≠ y → x ∈ delete n l.
Proof.
  revert n. induction l as [|z l IH]; intros [|n] Hx Hn Hne; try done.
  - injection Hn as ->. apply elem_of_cons in Hx as [?|?]; done.
  - cbn. apply elem_of_cons in Hx as [->|Hx]; [by left|]. right. by eapply IH.
Qed.

Lemma ready_Ext w w' t : Ext w w' → ready w t = true → ready w' t = true.
Proof.
  intros H. destruct t as [call lang ctorThrows p|call i c|call p]; cbn [ready].
  - unfold stop_settled. destruct (stops w !! p) as [k|] eqn:Hk; [|done].
    destruct (ext_stop _ _ H p k Hk) as (k' & -> & _ & _ & Hs).
    destruct (settled k) eqn:E; [done|..]; by rewrite Hs.
  - unfold conn_outcome. destruct (conns w !! c) as [k|] eqn:Hk; [|done].
    destruct (ext_conn _ _ H c k Hk) as (k' & -> & _ & Ho & _). cbn.
    destruct (outcome k) as [b|]; [|done]. by rewrite (Ho b).
  - unfold stop_settled. destruct (stops w !! p) as [k|] eqn:Hk; [|done].
    destruct (ext_stop _ _ H p k Hk) as (k' & -> & _ & _ & Hs).
    destruct (settled k) eqn:E; [done|..]; by rewrite Hs.
Qed.

(** A handler that can go on is resumed before the drain ends. *)
Lemma drain_for_resumes fuel w t :
  (pending_awaits w ≤ fuel)%nat → t ∈ tasks w → ready w t = true →
  ∃ acts1 n acts2,
    drain_for fuel w = exec (resume n (exec w acts1)) acts2 ∧
    tasks (exec w acts1) !! n = Some t.
Proof.
  revert w. induction fuel as [|fuel IH]; intros w Hf Ht Hr.
  - assert (tasks w = []) as E by (apply awaits_pos; unfold pending_awaits in Hf; lia).
    rewrite E in Ht. by apply not_elem_of_nil in Ht.
  - cbn. destruct (first_ready w (tasks w)) as [n|] eqn:E.
    + apply first_ready_Some in E as (t' & Ht' & Hr').
      destruct (decide (t = t')) as [<-|Hne].
      * destruct (drain_for_exec fuel (resume n w)) as (acts2 & ->).
        by exists [], n, acts2.
      * destruct (IH (resume n w)) as (acts1 & n' & acts2 & -> & Hn').
        -- pose proof (pending_awaits_resume n w t' Ht' Hr'). lia.
        -- destruct (tasks_resume n w t' Ht' Hr') as (extra & -> & _).
           apply elem_of_app. left. by eapply elem_of_delete_other.
        -- eapply ready_Ext; [apply Ext_resume|done].
        -- by exists (Resume n :: acts1), n', acts2.
    + rewrite first_ready_None in E. by rewrite (E t Ht) in Hr.
Qed.

(** ** C2 *)

(** C2, as stated, fails when the socket has opened: the timer tests
    [isConnected], which 'open' has set.  With no [ready] frame the timer
    fires and does nothing; [start()] has no outcome, then or later, and
    the socket stays open. *)
Lemma connect_timeout_spares_open_socket :
  conn_timer_due 0 (run init [IpcStart "en" false; SockOpen 0; Elapse 5000]) = true ∧
  reply_of 0 (trace (run init [IpcStart "en" false; SockOpen 0; Elapse 5000;
                               ConnectTimeout 0; Elapse 600000])) = None ∧
  tasks (run init [IpcStart "en" false; SockOpen 0; Elapse 5000;
                   ConnectTimeout 0; Elapse 600000]) = [StartAwaitConnect 0 0 0] ∧
  rs_of 0 (run init [IpcStart "en" false; SockOpen 0; Elapse 5000;
                     ConnectTimeout 0; Elapse 600000]) = Some OPEN ∧
  conn_timer_due 0 (run init [IpcStart "en" false; SockOpen 0; Elapse 5000;
                              ConnectTimeout 0; Elapse 600000]) = false.
Proof. by vm_compute. Qed.

Lemma resume_failed_start n call i c w :
  tasks w !! n = Some (StartAwaitConnect call i c) →
  conn_outcome c w = Some false →
  resume n w = log (Reply call (RBool false))
                 (set_whisperService None
                    (disconnect i (set_tasks (delete n (tasks w)) w))).
Proof.
  intros Ht Ho. unfold resume. rewrite Ht. cbn [ready]. rewrite Ho. cbn [continue].
  change (conn_outcome c (set_tasks ?ts w)) with (conn_outcome c w). by rewrite Ho.
Qed.

Lemma conn_outcome_upd c c' f w :
  (∀ k, outcome (f k) = outcome k) →
  conn_outcome c (upd_conn c' f w) = conn_outcome c w.
Proof.
  intros Hf. unfold conn_outcome. cbn [conns upd_conn]. rewrite list_lookup_alter.
  destruct (decide (c' = c)) as [->|]; [|done].
  destruct (conns w !! c) as [k|]; [|done]. cbn. by rewrite Hf.
Qed.

Lemma conn_outcome_resolve c b w :
  conn_outcome c w = None → is_Some (conns w !! c) →
  conn_outcome c (resolve_conn c b w) = Some b.
Proof.
  unfold conn_outcome, resolve_conn. cbn [conns upd_conn]. intros Ho (k & Hk).
  rewrite list_lookup_alter, decide_True, Hk by done. rewrite Hk in Ho. cbn in *.
  unfold settle_conn. by rewrite Ho.
Qed.

Lemma outcome_closing k : outcome (closing k) = outcome k.
Proof. unfold closing. by destruct (readyState k) as [[]|]. Qed.

Lemma connect_timeout_settles c k w :
  conns w !! c = Some k → outcome k = None →
  conn_timer_due c w = true → getIsConnected (owner k) w = false →
  conn_outcome c (handle (ConnectTimeout c) w) = Some false ∧
  tasks (handle (ConnectTimeout c) w) = tasks w.
Proof.
  intros Hk Ho Hd Hc. cbn [handle]. rewrite Hd. unfold on_connect_timeout.
  cbn [conns upd_conn]. rewrite list_lookup_alter, decide_True, Hk by done.
  cbn [fmap option_fmap option_map owner set_connTimer].
  change (getIsConnected (owner k) (upd_conn c ?f w)) with (getIsConnected (owner k) w).
  rewrite Hc. change (ws_of (owner k) (upd_conn c ?f w)) with (ws_of (owner k) w).
  assert (Ho' : conn_outcome c w = None) by (by unfold conn_outcome; rewrite Hk).
  split; [|by destruct (ws_of (owner k) w)].
  apply conn_outcome_resolve.
  - destruct (ws_of (owner k) w); unfold ws_close;
      rewrite ?(conn_outcome_upd _ _ closing) by apply outcome_closing;
      by rewrite conn_outcome_upd.
  - apply lookup_lt_is_Some.
    destruct (ws_of (owner k) w); unfold ws_close; cbn [conns upd_conn];
      rewrite !length_alter; by eapply lookup_lt_Some.
Qed.

(** ** What settles a [stop()] call *)

Ltac case_inner :=
  match goal with
  | |- context [match ?x with _ => _ end] =>
    lazymatch x with
    | context [match _ with _ => _ end] => fail
    | _ => destruct x eqn:?
    end
  end.

Ltac stops_same :=
  repeat first
    [ done
    | rewrite stops_disconnect
    | progress cbn [stops log upd_conn upd_service new_stop set_whisperService set_tasks
                    suspend next_call elapse resolve_conn ws_close emit_ready
                    emit_transcript emit_error]
    | case_inner ].

Lemma stops_start_connect call lang ctorThrows w :
  stops (start_connect call lang ctorThrows w) = stops w.
Proof. by rewrite start_connect_eq. Qed.

Lemma stops_resume n w : stops (resume n w) = stops w.
Proof.
  unfold resume. destruct (tasks w !! n) as [t|]; [|done].
  destruct (ready w t); [|done].
  destruct t; cbn [continue]; unfold start_connected;
    repeat case_match; rewrite ?stops_start_connect; stops_same.
Qed.

Lemma stops_stop i w : ∃ k, stops (stop i w).1 = stops w ++ [k].
Proof.
  unfold stop, ws_send.
  destruct (ws_of i w) as [c|];
    [destruct (getIsConnected i w); [destruct (rs_of c w) as [[]|]|]|];
    cbn [fst]; eexists; stops_same.
Qed.

Lemma stops_send_via_handle i f w : stops (send_via_handle i f w) = stops w.
Proof. unfold send_via_handle, ws_send. stops_same. Qed.

(** The handlers other than 'message' and the stop timer leave the
    [stop()] calls that exist as they are. *)
Lemma stops_handle_other e w p k :
  match e with SockMessage _ _ | StopTimeout _ => False | _ => True end →
  stops w !! p = Some k → stops (handle e w) !! p = Some k.
Proof.
  intros He Hk. destruct e; try done; cbn [handle].
  - unfold handle_start. destruct (whisperService _) as [a|].
    + destruct (stops_stop a (next_call w)) as (k' & E).
      destruct (stop a (next_call w)) as [w1 p1]. cbn in *. rewrite E.
      by apply lookup_app_l_Some.
    + by rewrite stops_start_connect.
  - unfold handle_sendAudio, sendAudio, ws_send. stops_same.
  - unfold handle_stop. destruct (whisperService _) as [a|]; [|done].
    destruct (stops_stop a (next_call w)) as (k' & E).
    destruct (stop a (next_call w)) as [w1 p1]. cbn in *. rewrite E.
    by apply lookup_app_l_Some.
  - unfold on_open. repeat case_match; rewrite ?stops_send_via_handle; stops_same.
  - unfold on_ping. repeat case_match; rewrite ?stops_send_via_handle; stops_same.
  - unfold on_error. stops_same.
  - stops_same.
  - unfold on_close. stops_same.
  - unfold on_connect_timeout. stops_same.
Qed.

Lemma stop_settled_retire i p q w :
  q ≠ p →
  stop_settled p (resolve_stop q (disconnect i (upd_stop q (set_stopTimer false) w)))
  = stop_settled p w.
Proof.
  intros Hne. unfold stop_settled, resolve_stop. cbn [stops upd_stop].
  rewrite list_lookup_alter_ne by done. rewrite stops_disconnect. cbn [stops upd_stop].
  by rewrite list_lookup_alter_ne.
Qed.

Lemma stop_settled_retired i p k w :
  stops w !! p = Some k → (∀ e, settled k ≠ Rejected e) →
  stop_settled p (resolve_stop p (disconnect i (upd_stop p (set_stopTimer false) w)))
  = Resolved.
Proof.
  intros Hk Hr. unfold stop_settled, resolve_stop. cbn [stops upd_stop].
  rewrite list_lookup_alter, decide_True by done. rewrite stops_disconnect.
  cbn [stops upd_stop]. rewrite list_lookup_alter, decide_True, Hk by done. cbn.
  unfold settle_stop. cbn. destruct (settled k) eqn:E; cbn; rewrite ?E; try done.
  by destruct (Hr reason).
Qed.

Lemma fire_all_cons i q L w :
  fire_all i (q :: L) w
  = fire_all i L (done_listener i q (upd_service i (remove_listener q) w)).
Proof. done. Qed.

Lemma stop_settled_fire_other i L p w :
  p ∉ L → stop_settled p (fire_all i L w) = stop_settled p w.
Proof.
  revert w. induction L as [|q L IH]; intros w Hp; [done|].
  apply not_elem_of_cons in Hp as [Hne Hp]. rewrite fire_all_cons.
  rewrite IH by done. unfold done_listener.
  rewrite stop_settled_retire by done. done.
Qed.

Lemma stop_settled_fire_stable i L p w :
  stop_settled p w = Resolved → stop_settled p (fire_all i L w) = Resolved.
Proof.
  revert w. induction L as [|q L IH]; intros w Hp; [done|].
  rewrite fire_all_cons. apply IH. unfold done_listener.
  destruct (decide (q = p)) as [->|Hne]; [|by rewrite stop_settled_retire].
  unfold stop_settled in Hp.
  destruct (stops w !! p) as [k|] eqn:Hk; [|done].
  eapply (stop_settled_retired i p k); [done|by rewrite Hp].
Qed.

Lemma stop_settled_fire i L p k w :
  p ∈ L → stops w !! p = Some k → (∀ e, settled k ≠ Rejected e) →
  stop_settled p (fire_all i L w) = Resolved.
Proof.
  revert w. induction L as [|q L IH]; intros w Hp Hk Hr.
  - by apply not_elem_of_nil in Hp.
  - rewrite fire_all_cons.
    destruct (decide (q = p)) as [->|Hne].
    + apply stop_settled_fire_stable. unfold done_listener.
      by eapply (stop_settled_retired i p k).
    + apply elem_of_cons in Hp as [->|Hp]; [done|].
      eapply (IH _ Hp).
      * unfold done_listener, resolve_stop. cbn [stops upd_stop].
        rewrite list_lookup_alter_ne by done. rewrite stops_disconnect.
        cbn [stops upd_stop upd_service]. by rewrite list_lookup_alter_ne.
      * done.
Qed.

Lemma emit_done_fire i s w :
  services w !! i = Some s → emit_done i w = fire_all i (doneOnce s) w.
Proof. intros Hs. unfold emit_done. by rewrite Hs. Qed.

Lemma is_done_dispatch type text message w c k :
  conns w !! c = Some k → is_done (Message type text message) = true →
  on_message c (Message type text message) w
  = emit_done (owner k) (log (Recv c (Message type text message)) w).
Proof.
  intros Hk Hd. cbn in Hd. apply String.eqb_eq in Hd as ->.
  unfold on_message. by rewrite Hk.
Qed.

Lemma not_done_dispatch m w c p :
  is_done m = false → stop_settled p (on_message c m w) = stop_settled p w.
Proof.
  intros Hd. unfold on_message. destruct (conns w !! c) as [k|]; [|done].
  destruct m as [|type text message]; [done|]. cbn in Hd. rewrite Hd.
  repeat case_match; done.
Qed.

(** A pending [stop()] call stays pending under every action but the
    two that finish it. *)
Lemma pending_unless_finished p k w a :
  Inv w → stops w !! p = Some k → settled k = Pending →
  stop_settled p (act w a)
  = if finishes p (target k) w a then Resolved else Pending.
Proof.
  intros H Hk Hp.
  assert (Hs : stop_settled p w = Pending) by (by unfold stop_settled; rewrite Hk).
  destruct (inv_pending _ _ H p k (not_elem_of_nil _) Hk Hp) as (Htm & s & Hsv & Hin).
  destruct a as [e|n]; cbn [act finishes].
  2: { unfold stop_settled. by rewrite stops_resume, Hk. }
  destruct e; cbn [finishes];
    try (unfold stop_settled; by rewrite (stops_handle_other _ w p k)).
  - cbn [handle]. destruct (receptive c w) eqn:Hrc; [|by rewrite andb_false_r].
    destruct (is_done m) eqn:Hd; [|by rewrite not_done_dispatch].
    apply receptive_hearing in Hrc as (kc & Hkc & _).
    destruct m as [|type text message]; [done|].
    rewrite (is_done_dispatch _ _ _ _ _ _ Hkc Hd). cbn [andb].
    unfold owner_of. rewrite Hkc. cbn.
    destruct (decide (owner kc = target k)) as [E|Hne].
    + rewrite bool_decide_eq_true_2 by congruence. rewrite E.
      rewrite (emit_done_fire _ s) by done.
      eapply stop_settled_fire; [done|done|]. intros e. by apply (inv_settled _ _ H p k).
    + rewrite bool_decide_eq_false_2 by congruence.
      destruct (services w !! owner kc) as [s'|] eqn:Hs'.
      * rewrite (emit_done_fire _ s') by done. rewrite stop_settled_fire_other; [done|].
        intros Hin'. destruct (inv_listener _ _ H _ s' p Hs' Hin') as (k' & Hk' & Ht').
        congruence.
      * unfold emit_done. cbn [services log]. by rewrite Hs'.
  - cbn [handle]. destruct (decide (p0 = p)) as [->|Hne].
    + rewrite bool_decide_eq_true_2 by done. cbn [andb].
      destruct (stop_timer_due p w) eqn:Hdue; [|done].
      unfold on_stop_timeout. cbn [stops upd_stop].
      rewrite list_lookup_alter, decide_True, Hk by done. cbn.
      eapply (stop_settled_retired _ p k); [done|].
      intros e. by apply (inv_settled _ _ H p k).
    + rewrite bool_decide_eq_false_2 by done. cbn [andb].
      destruct (stop_timer_due p0 w); [|done]. unfold on_stop_timeout.
      destruct (stops _ !! p0) as [k0|]; [by rewrite stop_settled_retire|].
      unfold stop_settled. cbn. by rewrite list_lookup_alter_ne.
Qed.

(** [stop()] on a connected service: the frame goes out if the socket
    is open, the timer is set, the listener registered. *)
Lemma stop_connected i c w :
  ws_of i w = Some c → getIsConnected i w = true →
  rs_of c w ≠ Some CONNECTING →
  stop i w
  = (upd_service i (λ s, set_doneOnce (doneOnce s ++ [length (stops w)]) s)
       (new_stop (mkStopCall i Pending (now w + 10000)%N true)
          (if bool_decide (rs_of c w = Some OPEN) then log (Sent c FStop) w else w)),
     length (stops w)).
Proof.
  intros Hw Hc Hn. unfold stop, ws_send. rewrite Hw, Hc.
  by destruct (rs_of c w) as [[]|].
Qed.

Lemma stop_settled_Some p w s :
  stop_settled p w = s → s ≠ Pending → ∃ k, stops w !! p = Some k ∧ settled k = s.
Proof.
  unfold stop_settled. destruct (stops w !! p) as [k|]; [eauto|]. by intros <-.
Qed.

(** ** C5 *)

(** C5, as stated, fails: [stop()] has no notion of a session that is
    already stopping.  Two [transcription:stop] calls in succession put
    two [stop] frames on the wire. *)
Lemma stop_twice_sends_two_frames :
  stops_on 0 (trace (run init [IpcStart "en" false; SockOpen 0;
                              SockMessage 0 (Message "ready" None None);
                              IpcStop; IpcStop])) = 2.
Proof. by vm_compute. Qed.

Lemma rs_of_stop_connected i c c' w :
  ws_of i w = Some c → getIsConnected i w = true → rs_of c w ≠ Some CONNECTING →
  rs_of c' (stop i w).1 = rs_of c' w ∧ ws_of i (stop i w).1 = Some c ∧
  getIsConnected i (stop i w).1 = true ∧ now (stop i w).1 = now w.
Proof.
  intros Hw Hc Hn. rewrite (stop_connected i c w Hw Hc Hn). cbn [fst].
  split; [by destruct (bool_decide _)|]. split; [|split].
  - unfold ws_of in *. cbn [services upd_service new_stop].
    rewrite list_lookup_alter, decide_True by done.
    destruct (bool_decide _); cbn [services log];
      by destruct (services w !! i).
  - unfold getIsConnected in *. cbn [services upd_service new_stop].
    rewrite list_lookup_alter, decide_True by done.
    destruct (bool_decide _); cbn [services log];
      by destruct (services w !! i).
  - by destruct (bool_decide _).
Qed.

(** C5, amended: each [stop()] call on a session that is connected
    with an open socket puts a [stop] frame on the wire, so two calls in
    succession put two; both are pending, neither is rejected, and a
    [done] frame resolves both; a [stop()] call made after that, when the
    session is closed, sends nothing and is resolved when it returns. *)
Theorem stop_twice (acts : list Action) (i c : nat) (m : Inbound) :
  ws_of i (exec init acts) = Some c →
  getIsConnected i (exec init acts) = true →
  rs_of c (exec init acts) = Some OPEN →
  is_done m = true →
  let w := exec init acts in
  let w1 := (stop i w).1 in
  let w2 := (stop i w1).1 in
  let w3 := handle (SockMessage c m) w2 in
  trace w2 = trace w ++ [Sent c FStop; Sent c FStop] ∧
  (stop i w).2 ≠ (stop i w1).2 ∧
  stop_settled (stop i w).2 w2 = Pending ∧
  stop_settled (stop i w1).2 w2 = Pending ∧
  stop_settled (stop i w).2 w3 = Resolved ∧
  stop_settled (stop i w1).2 w3 = Resolved ∧
  trace (stop i w3).1 = trace w3 ∧
  stop_settled (stop i w3).2 (stop i w3).1 = Resolved.
Proof.
  intros Hw Hc Ho Hm. cbv zeta. set (w := exec init acts) in *.
  set (w1 := (stop i w).1). set (w2 := (stop i w1).1).
  set (w3 := handle (SockMessage c m) w2).
  assert (H : Inv w) by apply exec_Inv, Inv_init.
  assert (Hi : i < length (services w)).
  { apply ws_of_Some in Hw as (s & Hs & _). by eapply lookup_lt_Some. }
  assert (Hn : rs_of c w ≠ Some CONNECTING) by (by rewrite Ho).
  assert (H1 : Inv w1) by by apply stop_InvE.
  destruct (rs_of_stop_connected i c c w Hw Hc Hn) as (Ho1 & Hw1 & Hc1 & _).
  fold w1 in Ho1, Hw1, Hc1. rewrite Ho in Ho1.
  assert (Hn1 : rs_of c w1 ≠ Some CONNECTING) by (by rewrite Ho1).
  assert (Hi1 : i < length (services w1)).
  { apply ws_of_Some in Hw1 as (s & Hs & _). by eapply lookup_lt_Some. }
  assert (H2 : Inv w2) by by apply stop_InvE.
  destruct (rs_of_stop_connected i c c w1 Hw1 Hc1 Hn1) as (Ho2 & Hw2 & Hc2 & _).
  fold w2 in Ho2, Hw2, Hc2. rewrite Ho1 in Ho2.
  pose proof (stop_connected i c w Hw Hc Hn) as E1. fold w1 in E1.
  pose proof (stop_connected i c w1 Hw1 Hc1 Hn1) as E2. fold w2 in E2.
  rewrite Ho, bool_decide_eq_true_2 in E1 by done.
  rewrite Ho1, bool_decide_eq_true_2 in E2 by done.
  assert (Hs1 : stops w1 = stops w ++ [mkStopCall i Pending (now w + 10000)%N true]).
  { unfold w1. by rewrite E1. }
  assert (Hs2 : stops w2 = stops w1 ++ [mkStopCall i Pending (now w1 + 10000)%N true]).
  { unfold w2. by rewrite E2. }
  assert (Hp1 : (stop i w).2 = length (stops w)) by (by rewrite E1).
  assert (Hp2 : (stop i w1).2 = length (stops w1)) by (by rewrite E2).
  assert (Hk1 : stops w2 !! (stop i w).2
                = Some (mkStopCall i Pending (now w + 10000)%N true)).
  { rewrite Hp1, Hs2, Hs1. rewrite lookup_app_l by (rewrite length_app; cbn; lia).
    by apply list_lookup_middle. }
  assert (Hk2 : stops w2 !! (stop i w1).2
                = Some (mkStopCall i Pending (now w1 + 10000)%N true)).
  { rewrite Hp2, Hs2. by apply list_lookup_middle. }
  assert (Hf : ∀ p, finishes p i w2 (Ev (SockMessage c m)) = true).
  { intros p. cbn [finishes]. rewrite Hm. unfold receptive. rewrite Ho2. cbn [andb].
    apply bool_decide_eq_true_2. unfold owner_of.
    apply ws_of_Some in Hw2 as (s & Hs & Hws).
    destruct (inv_ws _ _ H2 i s c Hs Hws) as (k & -> & <-). done. }
  assert (H3 : Inv w3) by by apply handle_Inv.
  assert (Hr1 : stop_settled (stop i w).2 w3 = Resolved).
  { pose proof (pending_unless_finished _ _ w2 (Ev (SockMessage c m)) H2 Hk1 eq_refl) as Hx.
    cbn [target] in Hx. by rewrite Hf in Hx. }
  assert (Hr2 : stop_settled (stop i w1).2 w3 = Resolved).
  { pose proof (pending_unless_finished _ _ w2 (Ev (SockMessage c m)) H2 Hk2 eq_refl) as Hx.
    cbn [target] in Hx. by rewrite Hf in Hx. }
  assert (Hw3 : ws_of i w3 = None).
  { apply stop_settled_Some in Hr1 as (k & Hk & Hr); [|done].
    destruct (ext_stop w2 w3 (Ext_handle (SockMessage c m) w2) (stop i w).2 _ Hk1)
      as (k' & Hk' & Ht' & _).
    fold w3 in Hk'. assert (k' = k) as -> by congruence. cbn in Ht'. rewrite <- Ht'.
    by apply (inv_resolved _ _ H3 (stop i w).2 k). }
  split; [|split; [|split; [|split; [|split; [|split; [|split]]]]]].
  - unfold w2. rewrite trace_stop, Hw1, Hc1, bool_decide_eq_true_2 by done.
    unfold w1. rewrite trace_stop, Hw, Hc, bool_decide_eq_true_2 by done.
    cbn. by rewrite <- app_assoc.
  - rewrite Hp1, Hp2, Hs1, length_app. cbn. lia.
  - unfold stop_settled. by rewrite Hk1.
  - unfold stop_settled. by rewrite Hk2.
  - done.
  - done.
  - rewrite trace_stop, Hw3. by rewrite app_nil_r.
  - unfold stop. rewrite Hw3. cbn [fst snd]. unfold stop_settled. cbn [stops new_stop].
    by rewrite list_lookup_middle.
Qed.

Lemma stop_twice_witness :
  trace (stop 0 (stop 0 (exec init [Ev (IpcStart "en" false); Ev (SockOpen 0);
                                    Ev (SockMessage 0 (Message "ready" None None));
                                    Resume 0])).1).1
  = trace (exec init [Ev (IpcStart "en" false); Ev (SockOpen 0);
                      Ev (SockMessage 0 (Message "ready" None None)); Resume 0])
    ++ [Sent 0 FStop; Sent 0 FStop].
Proof.
  destruct (stop_twice [Ev (IpcStart "en" false); Ev (SockOpen 0);
                        Ev (SockMessage 0 (Message "ready" None None)); Resume 0]
                       0 0 (Message "done" None None))
    as (H & _); [by vm_compute..|exact H].
Defined.

(** * More of the session manager *)

Lemma ConnStep_refl k : ConnStep k k.
Proof.
  split; try done.
  - by right.
  - intros b E1 E2. congruence.
Qed.

Lemma finished_step k k' : ConnStep k k' → finished k → finished k'.
Proof. intros S Hf. unfold finished. rewrite (cs_finished _ _ S Hf). exact Hf. Qed.

Lemma ConnStep_trans k1 k2 k3 : ConnStep k1 k2 → ConnStep k2 k3 → ConnStep k1 k3.
Proof.
  intros S1 S2.
  pose proof S1 as [O1 F1 C1 P1 T1 U1 L1 M1]. pose proof S2 as [O2 F2 C2 P2 T2 U2 L2 M2].
  split.
  - congruence.
  - intros Hf. rewrite <- (F1 Hf). apply F2. by eapply finished_step.
  - eauto.
  - intros Ho. destruct (P2 Ho) as [E|E]; [left; eauto|eauto].
  - eauto.
  - eauto.
  - intros b Hn Hb. destruct (outcome k2) as [b2|] eqn:E2.
    + assert (b2 = b) as -> by (specialize (U2 b2 eq_refl); congruence).
      eauto.
    + destruct (L2 b eq_refl Hb) as [Hl|[-> Ht]].
      * left. intros Hf. apply Hl. by eapply finished_step.
      * right. split; [done|]. destruct (connTimer k1) eqn:E; [done|].
        rewrite T1 in Ht; done.
  - eauto.
Qed.

Lemma Evo_refl w : Evo w w.
Proof.
  split; [done| | |].
  - intros c k Hk. exists k. split; [done|apply ConnStep_refl].
  - intros c k' Hk Hn. congruence.
  - intros i _ E1 E2. congruence.
Qed.

Lemma Evo_trans w1 w2 w3 : Evo w1 w2 → Evo w2 w3 → Evo w1 w3.
Proof.
  intros [L1 C1 N1 R1] [L2 C2 N2 R2]. split.
  - lia.
  - intros c k Hk. destruct (C1 c k Hk) as (k' & Hk' & S1).
    destruct (C2 c k' Hk') as (k'' & Hk'' & S2).
    exists k''. split; [done|]. by eapply ConnStep_trans.
  - intros c k3 Hk3 Hn. destruct (conns w2 !! c) as [k2|] eqn:E2.
    + destruct (C2 c k2 E2) as (k' & Hk' & S2).
      assert (k' = k3) as -> by congruence.
      rewrite (cs_owner _ _ S2). eauto.
    + specialize (N2 c k3 Hk3 E2). lia.
  - intros i Hi Hf Ht. destruct (getIsConnected i w2) eqn:E2; [eauto|].
    destruct (R2 i ltac:(lia) E2 Ht) as (c & k2 & Hk2 & Ho & Ha).
    destruct (conns w1 !! c) as [k1|] eqn:E1.
    + destruct (C1 c k1 E1) as (k' & Hk' & S1).
      assert (k' = k2) as -> by congruence.
      exists c, k1. split; [done|]. split; [by rewrite <- (cs_owner _ _ S1)|].
      destruct Ha as [Ha|Ha]; [left; by eapply cs_connecting|by eapply cs_open].
    + specialize (N1 c k2 Hk2 E1). lia.
Qed.

(** A callback step that leaves services and connections alone. *)
Lemma Evo_same w w' w'' :
  services w'' = services w' → conns w'' = conns w' → Evo w w' → Evo w w''.
Proof.
  intros Es Ec H. eapply Evo_trans; [done|].
  split; rewrite ?Es, ?Ec; [done| | |].
  - intros c k Hk. exists k. split; [done|apply ConnStep_refl].
  - intros c k' Hk Hn. congruence.
  - intros i _ E1 E2. unfold getIsConnected in *. rewrite Es in E2. congruence.
Qed.

Lemma Evo_upd_conn c f w w' :
  (∀ k, conns w' !! c = Some k → ConnStep k (f k)) →
  Evo w w' → Evo w (upd_conn c f w').
Proof.
  intros Hf H. eapply Evo_trans; [done|]. split; cbn.
  - done.
  - intros j k Hk. eexists. split; [by apply lookup_alter_back|].
    destruct (decide (c = j)) as [->|]; [eauto|apply ConnStep_refl].
  - intros j k' Hk Hn. apply lookup_alter_Some in Hk as [(_ & ? & ? & _)|(_ & ?)]; congruence.
  - intros i _ E1 E2. unfold getIsConnected in *. cbn in E2. congruence.
Qed.

Lemma Evo_upd_service i f w w' :
  (∀ s, services w' !! i = Some s → isConnected s = false → isConnected (f s) = true →
     ∃ c k, conns w' !! c = Some k ∧ owner k = i ∧ active k) →
  Evo w w' → Evo w (upd_service i f w').
Proof.
  intros Hf H. eapply Evo_trans; [done|]. split; cbn.
  - by rewrite length_alter.
  - intros c k Hk. exists k. split; [done|apply ConnStep_refl].
  - intros c k' Hk Hn. congruence.
  - intros j _ E1 E2. unfold getIsConnected in *. cbn in E2.
    rewrite list_lookup_alter in E2. destruct (decide (i = j)) as [->|]; [|congruence].
    destruct (services w' !! j) as [s|]; [|done]. cbn in E2. eauto.
Qed.

Lemma Evo_start_connect call lang ctorThrows w w' :
  Evo w w' → Evo w (start_connect call lang ctorThrows w').
Proof.
  intros H. eapply Evo_trans; [done|]. rewrite start_connect_eq. split; cbn.
  - rewrite length_app. lia.
  - intros c k Hk. exists k. split; [by apply lookup_app_l_Some|apply ConnStep_refl].
  - intros c k' Hk Hn. apply lookup_ge_None in Hn.
    rewrite lookup_app_r in Hk by done.
    apply list_lookup_singleton_Some in Hk as [_ <-].
    unfold fresh_conn. by destruct ctorThrows.
  - intros i Hi E1 E2. unfold getIsConnected in *. cbn in E2.
    rewrite lookup_app_l in E2 by done. congruence.
Qed.

Ltac conn_step :=
  split; cbn; try done;
  try (intros [?|?]; congruence); try (intros; congruence);
  try (unfold active; by eauto).

Lemma ConnStep_closing k : ConnStep k (closing k).
Proof.
  unfold closing. destruct (readyState k) as [[]|] eqn:E;
    try apply ConnStep_refl; conn_step.
Qed.

Lemma ConnStep_settle b k k' :
  ConnStep k k' →
  (outcome k = None → ¬ finished k ∨ (b = false ∧ connTimer k = true)) →
  ConnStep k (settle_conn b k').
Proof.
  intros S H. pose proof S as [O F C P T U L M].
  unfold settle_conn. destruct (outcome k') eqn:E; [done|].
  conn_step.
  - intros b' Hb. by specialize (U b' Hb).
  - intros b' Hn [= <-]. eauto.
Qed.

Lemma Evo_ws_close c w w' : Evo w w' → Evo w (ws_close c w').
Proof. apply Evo_upd_conn. intros k _. apply ConnStep_closing. Qed.

Lemma Evo_resolve_conn c b w w' :
  (∀ k, conns w !! c = Some k → outcome k = None →
     ¬ finished k ∨ (b = false ∧ connTimer k = true)) →
  Evo w w' → Evo w (resolve_conn c b w').
Proof.
  intros Hg [L C N R]. split; cbn.
  - done.
  - intros j k Hk. destruct (C j k Hk) as (k' & Hk' & S).
    eexists. split; [by apply lookup_alter_back|].
    destruct (decide (c = j)) as [->|]; [|done].
    apply ConnStep_settle; eauto.
  - intros j k' Hk Hn.
    apply lookup_alter_Some in Hk as [(_ & k0 & Hk & ->)|(_ & Hk)].
    + unfold settle_conn. destruct (outcome k0); cbn; eauto.
    + eauto.
  - intros i Hi E1 E2. apply (R i Hi E1). unfold getIsConnected in *. by cbn in E2.
Qed.

Lemma Evo_log o w w' : Evo w w' → Evo w (log o w').
Proof. by apply Evo_same. Qed.
Lemma Evo_upd_stop p f w w' : Evo w w' → Evo w (upd_stop p f w').
Proof. by apply Evo_same. Qed.
Lemma Evo_new_stop k w w' : Evo w w' → Evo w (new_stop k w').
Proof. by apply Evo_same. Qed.
Lemma Evo_set_whisperService o w w' : Evo w w' → Evo w (set_whisperService o w').
Proof. by apply Evo_same. Qed.
Lemma Evo_set_tasks ts w w' : Evo w w' → Evo w (set_tasks ts w').
Proof. by apply Evo_same. Qed.
Lemma Evo_suspend t w w' : Evo w w' → Evo w (suspend t w').
Proof. by apply Evo_same. Qed.
Lemma Evo_next_call w w' : Evo w w' → Evo w (next_call w').
Proof. by apply Evo_same. Qed.
Lemma Evo_elapse ms w w' : Evo w w' → Evo w (elapse ms w').
Proof. by apply Evo_same. Qed.
Lemma Evo_resolve_stop p w w' : Evo w w' → Evo w (resolve_stop p w').
Proof. by apply Evo_same. Qed.

(** Only the 'open' callback sets [isConnected]. *)
Lemma Evo_upd_service_quiet i f w w' :
  (∀ s, isConnected (f s) = true → isConnected s = true) →
  Evo w w' → Evo w (upd_service i f w').
Proof.
  intros Hf. apply Evo_upd_service. intros s _ E1 E2.
  apply Hf in E2. congruence.
Qed.

Lemma Evo_disconnect i w w' : Evo w w' → Evo w (disconnect i w').
Proof.
  intros H. unfold disconnect. apply Evo_upd_service_quiet; [done|].
  destruct (ws_of i w'); [|done].
  apply Evo_upd_service_quiet; [done|]. by apply Evo_ws_close.
Qed.

Create HintDb evo.
#[local] Hint Resolve Evo_refl Evo_log Evo_upd_stop Evo_new_stop
  Evo_set_whisperService Evo_set_tasks Evo_suspend Evo_next_call Evo_elapse
  Evo_start_connect Evo_ws_close Evo_resolve_stop Evo_disconnect : evo.

Lemma Evo_send_via_handle i f w w' : Evo w w' → Evo w (send_via_handle i f w').
Proof.
  intros H. unfold send_via_handle, ws_send.
  destruct (ws_of i w'); [|done]. destruct (rs_of _ _) as [[]|]; eauto with evo.
Qed.

Lemma Evo_done_listener i p w w' : Evo w w' → Evo w (done_listener i p w').
Proof. intros H. unfold done_listener. eauto with evo. Qed.

Lemma Evo_emit_done i w w' : Evo w w' → Evo w (emit_done i w').
Proof.
  intros H. unfold emit_done. destruct (services w' !! i) as [s|]; [|done].
  revert w' H. induction (doneOnce s) as [|p L IH]; intros w' H; [done|].
  cbn. apply IH, Evo_done_listener. by apply Evo_upd_service_quiet.
Qed.

Lemma Evo_stop i w w' : Evo w w' → Evo w (stop i w').1.
Proof.
  intros H. unfold stop, ws_send. destruct (ws_of i w'); cbn [fst]; [|eauto with evo].
  destruct (getIsConnected i w'); cbn [fst]; [|eauto with evo].
  destruct (rs_of _ _) as [[]|]; cbn [fst]; eauto with evo;
    apply Evo_upd_service_quiet; eauto with evo.
Qed.

Lemma not_finished_rs c k r w :
  rs_of c w = Some r → r ≠ CLOSED → conns w !! c = Some k → ¬ finished k.
Proof.
  intros E Hr Hk. apply rs_of_Some in E as (k' & Hk' & E).
  assert (k' = k) as -> by congruence. intros [?|?]; congruence.
Qed.

Lemma Evo_handle e w : Evo w (handle e w).
Proof.
  destruct e as [lang ctorThrows|audioData| |c|c m|c|c|c err|c|c|c|p|ms]; cbn [handle].
  - unfold handle_start. destruct (whisperService _); [|eauto with evo].
    pose proof (Evo_stop n w (next_call w) (Evo_next_call _ _ (Evo_refl _))) as H.
    destruct (stop n (next_call w)) as [w1 p]. cbn in H. eauto with evo.
  - unfold handle_sendAudio, sendAudio, ws_send.
    destruct (whisperService _); [|eauto with evo].
    destruct (getIsConnected _ _); [|eauto with evo].
    destruct (ws_of _ _); [|eauto with evo].
    destruct (rs_of _ _) as [[]|]; eauto with evo.
  - unfold handle_stop. destruct (whisperService _); [|eauto with evo].
    pose proof (Evo_stop n w (next_call w) (Evo_next_call _ _ (Evo_refl _))) as H.
    destruct (stop n (next_call w)) as [w1 p]. cbn in H. eauto with evo.
  - destruct (rs_of c w) as [[]|] eqn:E; eauto with evo.
    apply rs_of_Some in E as (k & Hk & E).
    assert (H1 : Evo w (upd_conn c (set_readyState OPEN) w)).
    { apply Evo_upd_conn; [|apply Evo_refl]. intros k' Hk'.
      assert (k' = k) as -> by congruence. conn_step. }
    unfold on_open. cbn [conns upd_conn]. rewrite (lookup_alter_back _ _ c c k Hk).
    rewrite decide_True by done. cbn [owner set_readyState].
    assert (H2 : Evo w (upd_service (owner k)
                   (λ s, set_reconnectAttempts 0 (set_isConnected true s))
                   (upd_conn c (set_readyState OPEN) w))).
    { apply Evo_upd_service; [|done]. intros s _ _ _.
      exists c. eexists. split; [by apply lookup_alter_back|].
      rewrite decide_True by done. split; [done|]. by right. }
    match goal with |- context [services ?w1 !! ?i] =>
      destruct (services w1 !! i) end; [|done].
    by apply Evo_send_via_handle.
  - destruct (receptive c w) eqn:Hr; [|eauto with evo].
    unfold on_message. destruct (conns w !! c) as [k|] eqn:Hk; [|eauto with evo].
    destruct m as [|type text message]; [eauto with evo|].
    destruct (type =? "ready").
    { apply Evo_resolve_conn; [|unfold emit_ready; eauto with evo].
      intros k' Hk' _. left. assert (k' = k) as -> by congruence.
      apply receptive_hearing in Hr as (k0 & Hk0 & Hh).
      assert (k0 = k) as -> by congruence.
      intros [?|?]; destruct Hh; congruence. }
    destruct (type =? "transcript"); [unfold emit_transcript; eauto with evo|].
    destruct (type =? "done"); [apply Evo_emit_done; eauto with evo|].
    destruct (type =? "error"); [unfold emit_error|]; eauto with evo.
  - destruct (receptive c w); [|eauto with evo].
    unfold on_ping. destruct (conns w !! c); [|eauto with evo].
    apply Evo_send_via_handle. eauto with evo.
  - eauto with evo.
  - unfold on_error, emit_error.
    destruct (rs_of c w) as [r|] eqn:E; [|eauto with evo].
    destruct (decide (r = CLOSED)) as [->|Hr]; [eauto with evo|].
    assert (Evo w (match conns (ws_close c w) !! c with
                   | Some k => if getIsConnected (owner k) (log (ToRenderer (TranscriptionError err)) (ws_close c w))
                               then log (ToRenderer (TranscriptionError err)) (ws_close c w)
                               else resolve_conn c false (log (ToRenderer (TranscriptionError err)) (ws_close c w))
                   | None => ws_close c w
                   end)); [|by destruct r].
    destruct (conns (ws_close c w) !! c) as [k1|] eqn:Hk1; [|eauto with evo].
    destruct (getIsConnected _ _); [eauto with evo|].
    apply Evo_resolve_conn; [|eauto with evo].
    intros k Hk _. left. by eapply not_finished_rs.
  - destruct (rs_of c w) as [[]|]; eauto with evo.
  - destruct (rs_of c w) as [r|] eqn:E; [|eauto with evo].
    destruct (decide (r = CLOSED)) as [->|Hr]; [eauto with evo|].
    assert (Evo w (on_close c (upd_conn c (set_readyState CLOSED) w))); [|by destruct r].
    unfold on_close. 
    assert (H1 : Evo w (upd_conn c (set_readyState CLOSED) w)).
    { apply Evo_upd_conn; [|apply Evo_refl]. intros k Hk.
      pose proof (not_finished_rs c k r w E Hr Hk) as Hn. conn_step. }
    destruct (conns _ !! c); [|done]. by apply Evo_upd_service_quiet.
  - destruct (conn_timer_due c w) eqn:Hd; [|eauto with evo].
    unfold conn_timer_due in Hd. destruct (conns w !! c) as [k|] eqn:Hk; [|done].
    apply andb_true_iff in Hd as [Ht _].
    assert (H1 : Evo w (upd_conn c (set_connTimer false) w)).
    { apply Evo_upd_conn; [|apply Evo_refl]. intros k' _. conn_step. }
    unfold on_connect_timeout. cbn [conns upd_conn].
    rewrite (lookup_alter_back _ _ c c k Hk), decide_True by done.
    destruct (getIsConnected _ _); [done|].
    apply Evo_resolve_conn.
    + intros k' Hk' _. right. split; [done|]. congruence.
    + destruct (ws_of _ _); eauto with evo.
  - destruct (stop_timer_due p w); [|eauto with evo].
    unfold on_stop_timeout. destruct (stops _ !! p); eauto with evo.
  - eauto with evo.
Qed.

Lemma Evo_resume n w : Evo w (resume n w).
Proof.
  unfold resume. destruct (tasks w !! n) as [t|]; [|eauto with evo].
  destruct (ready w t); [|eauto with evo].
  destruct t; cbn [continue]; unfold start_connected.
  - destruct (stop_settled _ _); eauto with evo.
  - destruct (conn_outcome _ _) as [[]|]; eauto with evo.
  - destruct (stop_settled _ _); eauto with evo.
Qed.

Lemma Evo_act a w : Evo w (act w a).
Proof. destruct a; [apply Evo_handle|apply Evo_resume]. Qed.

Lemma Evo_exec acts w : Evo w (exec w acts).
Proof.
  revert w. induction acts as [|a acts IH]; intros w; [apply Evo_refl|].
  cbn. eapply Evo_trans; [apply Evo_act|apply IH].
Qed.

(** ** The shape of a turn *)

Lemma quiet_refl P w : quiet P w w.
Proof. split; [done|]. split; [done|]. exists []. by rewrite app_nil_r. Qed.

Lemma quiet_trans P w1 w2 w3 : quiet P w1 w2 → quiet P w2 w3 → quiet P w1 w3.
Proof.
  intros (T1 & C1 & l1 & E1 & F1) (T2 & C2 & l2 & E2 & F2).
  split; [congruence|]. split; [congruence|]. exists (l1 ++ l2).
  split; [by rewrite E2, E1, app_assoc|by apply Forall_app].
Qed.

Lemma quiet_same P w w' w'' :
  tasks w'' = tasks w' → calls w'' = calls w' → trace w'' = trace w' →
  quiet P w w' → quiet P w w''.
Proof.
  intros Et Ec Er (T & C & l & E & F). split; [congruence|]. split; [congruence|].
  exists l. by rewrite Er.
Qed.

Lemma quiet_log P o w w' : P o → quiet P w w' → quiet P w (log o w').
Proof.
  intros Ho H. eapply quiet_trans; [done|]. split; [done|]. split; [done|].
  exists [o]. split; [done|]. by apply Forall_singleton.
Qed.

Lemma calls_disconnect i w : calls (disconnect i w) = calls w.
Proof. unfold disconnect. by destruct (ws_of i w). Qed.

Lemma quiet_disconnect P i w w' : quiet P w w' → quiet P w (disconnect i w').
Proof.
  apply quiet_same; [apply tasks_disconnect|apply calls_disconnect|apply trace_disconnect].
Qed.

Lemma quiet_done_listener P i p w w' : quiet P w w' → quiet P w (done_listener i p w').
Proof.
  intros H. unfold done_listener, resolve_stop.
  eapply quiet_same; [done..|]. apply quiet_disconnect.
  by eapply quiet_same; [..|done].
Qed.

Lemma quiet_emit_done P i w w' : quiet P w w' → quiet P w (emit_done i w').
Proof.
  intros H. unfold emit_done. destruct (services w' !! i) as [s|]; [|done].
  revert w' H. induction (doneOnce s) as [|p L IH]; intros w' H; [done|].
  cbn. apply IH, quiet_done_listener. by eapply quiet_same; [..|done].
Qed.

Lemma quiet_send_via_handle P i f w w' :
  (∀ c, ws_of i w' = Some c → rs_of c w' = Some OPEN → P (Sent c f)) →
  (∀ e, P (Uncaught e)) →
  quiet P w w' → quiet P w (send_via_handle i f w').
Proof.
  intros Hf Hu H. unfold send_via_handle, ws_send.
  destruct (ws_of i w') as [c|]; [|done].
  destruct (rs_of c w') as [[]|] eqn:E; try done; apply quiet_log; eauto.
Qed.

Lemma quiet_stop P i w w' :
  (∀ c, rs_of c w' = Some OPEN → P (Sent c FStop)) →
  quiet P w w' → quiet P w (stop i w').1.
Proof.
  intros Hf H. unfold stop, ws_send.
  destruct (ws_of i w') as [c|]; cbn [fst]; [|by eapply quiet_same; [..|done]].
  destruct (getIsConnected i w'); cbn [fst].
  - destruct (rs_of c w') as [[]|] eqn:E; cbn [fst];
      try (by eapply quiet_same; [..|done]).
    eapply quiet_same; [done..|]. eapply quiet_same; [done..|].
    apply quiet_log; eauto.
  - eapply quiet_same; [done..|]. by apply quiet_disconnect.
Qed.

Ltac quiet_step :=
  match goal with
  | |- quiet _ ?w ?w => apply quiet_refl
  | |- quiet _ _ (log _ _) => apply quiet_log; [try done|]
  | |- quiet _ _ (disconnect _ _) => apply quiet_disconnect
  | |- quiet _ _ (emit_done _ _) => apply quiet_emit_done
  | |- quiet _ _ (?f _ _ ?w') => apply (quiet_same _ _ w'); [reflexivity..|]
  | |- quiet _ _ (?f _ ?w') => apply (quiet_same _ _ w'); [reflexivity..|]
  | |- quiet _ _ (?f ?w') => apply (quiet_same _ _ w'); [reflexivity..|]
  end.

Ltac quiet_go := repeat first [quiet_step | case_match].

Lemma stop_suspends i w :
  tasks (stop i w).1 = tasks w ∧ calls (stop i w).1 = calls w.
Proof.
  unfold stop, ws_send. destruct (ws_of i w) as [c|]; cbn [fst]; [|done].
  destruct (getIsConnected i w); cbn [fst].
  - by destruct (rs_of c w) as [[]|].
  - cbn [tasks calls new_stop]. by rewrite tasks_disconnect, calls_disconnect.
Qed.

Lemma handle_of_conn c k w :
  Inv w → conns w !! c = Some k → active k → ws_of (owner k) w = Some c.
Proof. intros H. apply (inv_torn _ _ H). Qed.

Lemma turn_handle e w : Inv w → Turn w (Ev e) (handle e w).
Proof.
  intros H. destruct e as [lang ctorThrows|audioData| |c|c m|c|c|c err|c|c|c|p|ms]; cbn [handle].
  - (* transcription:start *)
    unfold handle_start. change (whisperService (next_call w)) with (whisperService w).
    destruct (whisperService w) as [a|].
    + pose proof (stop_suspends a (next_call w)) as (Et & Ec).
      pose proof (trace_stop a (next_call w)) as Er.
      destruct (stop a (next_call w)) as [w1 p]. cbn [fst] in *.
      apply (turn_suspend w _ _ (IpcStart lang ctorThrows)
               (StartAwaitStop (calls w) lang ctorThrows p));
        [done|done|exact Ec|by cbn; rewrite Et|done|].
      eexists. split; [exact Er|].
      change (ws_of a (next_call w)) with (ws_of a w).
      destruct (ws_of a w) as [c|]; [|done].
      destruct (getIsConnected a (next_call w)); [|done]. cbn [andb].
      change (rs_of c (next_call w)) with (rs_of c w).
      case_bool_decide; [|done]. by repeat constructor.
    + rewrite start_connect_eq.
      apply (turn_suspend w _ _ (IpcStart lang ctorThrows)
               (StartAwaitConnect (calls w) (length (services w)) (length (conns w))));
        [done|done|done|done|done|].
      exists []. by rewrite app_nil_r.
  - (* transcription:send-audio *)
    unfold handle_sendAudio, sendAudio, ws_send.
    change (whisperService (next_call w)) with (whisperService w).
    destruct (whisperService w) as [i|].
    2: { apply (turn_return w _ _ (IpcSendAudio audioData) [] (RError not_started)); eauto. }
    destruct (getIsConnected i (next_call w)) eqn:Hc.
    2: { apply (turn_return w _ _ (IpcSendAudio audioData) [] (RError not_connected)); eauto. }
    change (ws_of i (next_call w)) with (ws_of i w).
    destruct (ws_of i w) as [c|] eqn:Hw.
    2: { apply (turn_return w _ _ (IpcSendAudio audioData)
                  [Warn "Not connected to Whisper server"] RVoid);
           first [done | by repeat constructor | by cbn; rewrite <- app_assoc | by left]. }
    change (rs_of c (next_call w)) with (rs_of c w).
    destruct (rs_of c w) as [[]|] eqn:E.
    + by destruct (connected_not_connecting _ i c w H Hc Hw).
    + apply (turn_return w _ _ (IpcSendAudio audioData) [Sent c (FAudio audioData)] RVoid);
        first [done | by repeat constructor | by cbn; rewrite <- app_assoc | by left].
    + apply (turn_return w _ _ (IpcSendAudio audioData) [] RVoid); eauto.
    + apply (turn_return w _ _ (IpcSendAudio audioData) [] RVoid); eauto.
    + apply (turn_return w _ _ (IpcSendAudio audioData) [] RVoid); eauto.
  - (* transcription:stop *)
    unfold handle_stop. change (whisperService (next_call w)) with (whisperService w).
    destruct (whisperService w) as [a|].
    + pose proof (stop_suspends a (next_call w)) as (Et & Ec).
      pose proof (trace_stop a (next_call w)) as Er.
      destruct (stop a (next_call w)) as [w1 p]. cbn [fst] in *.
      apply (turn_suspend w _ _ IpcStop (StopAwaitStop (calls w) p));
        [done|done|exact Ec|by cbn; rewrite Et|done|].
      eexists. split; [exact Er|].
      change (ws_of a (next_call w)) with (ws_of a w).
      destruct (ws_of a w) as [c|]; [|done].
      destruct (getIsConnected a (next_call w)); [|done]. cbn [andb].
      change (rs_of c (next_call w)) with (rs_of c w).
      case_bool_decide; [|done]. by repeat constructor.
    + apply (turn_return w _ _ IpcStop [] RVoid); eauto.
  - (* 'open' *)
    apply turn_quiet. destruct (rs_of c w) as [[]|] eqn:E; try apply quiet_refl.
    apply rs_of_Some in E as (k & Hk & E).
    pose proof (handle_of_conn c k w H Hk (or_introl E)) as Hw.
    apply ws_of_Some in Hw as (s & Hs & Hws).
    unfold on_open. cbn [conns upd_conn].
    rewrite (lookup_alter_back _ _ c c k Hk), decide_True by done.
    cbn [owner set_readyState services upd_service].
    rewrite (lookup_alter_back _ _ (owner k) (owner k) s Hs), decide_True by done.
    cbn [language set_reconnectAttempts set_isConnected].
    apply quiet_send_via_handle; [|done|by eapply quiet_same; [..|apply quiet_refl]].
    intros c' Hc' _.
    assert (c' = c) as ->.
    { unfold ws_of in Hc'. cbn in Hc'.
      rewrite (lookup_alter_back _ _ (owner k) (owner k) s Hs), decide_True in Hc' by done.
      cbn in Hc'. congruence. }
    cbn. split; [done|]. split; [by apply rs_of_Some; eauto|]. eauto.
  - (* 'message' *)
    destruct (receptive c w) eqn:Hr; [|apply turn_quiet, quiet_refl].
    apply turn_quiet. split; [|split].
    + unfold on_message. destruct (conns w !! c); [|done].
      destruct m as [|type text message]; [done|].
      destruct (type =? "ready"); [done|]. destruct (type =? "transcript"); [done|].
      destruct (type =? "done").
      { by destruct (quiet_emit_done (λ _, True) (owner c0) _ _
                       (quiet_refl _ (log (Recv c (Message type text message)) w))). }
      by destruct (type =? "error").
    + unfold on_message. destruct (conns w !! c); [|done].
      destruct m as [|type text message]; [done|].
      destruct (type =? "ready"); [done|]. destruct (type =? "transcript"); [done|].
      destruct (type =? "done").
      { by destruct (quiet_emit_done (λ _, True) (owner c0) _ _
                       (quiet_refl _ (log (Recv c (Message type text message)) w))) as (_ & ? & _). }
      by destruct (type =? "error").
    + eexists. split; [by apply trace_on_message|].
      constructor; [done|]. destruct m as [|type text message]; [done|].
      cbn. repeat case_match; by repeat constructor.
  - (* 'ping' *)
    apply turn_quiet. destruct (receptive c w); [|apply quiet_refl].
    unfold on_ping. destruct (conns w !! c); [|apply quiet_refl].
    apply quiet_send_via_handle; [by intros|done|apply quiet_refl].
  - apply turn_quiet, quiet_refl.
  - (* 'error' *)
    apply turn_quiet. unfold on_error, emit_error.
    destruct (rs_of c w) as [[]|]; quiet_go.
  - apply turn_quiet. destruct (rs_of c w) as [[]|]; quiet_go.
  - apply turn_quiet. unfold on_close. destruct (rs_of c w) as [[]|]; quiet_go.
  - apply turn_quiet. unfold on_connect_timeout. quiet_go.
  - apply turn_quiet. unfold on_stop_timeout. quiet_go.
  - apply turn_quiet. quiet_go.
Qed.

Lemma not_rejected p w reason : Inv w → stop_settled p w ≠ Rejected reason.
Proof.
  intros H. unfold stop_settled. destruct (stops w !! p) as [k|] eqn:Hk; [|done].
  apply (inv_settled _ _ H p k reason Hk).
Qed.

Lemma turn_resume n w : Inv w → Turn w (Resume n) (resume n w).
Proof.
  intros H. unfold resume. destruct (tasks w !! n) as [t|] eqn:Ht; [|apply turn_quiet, quiet_refl].
  destruct (ready w t) eqn:Hr; [|apply turn_quiet, quiet_refl].
  destruct t as [call lang ctorThrows p|call i c|call p]; cbn [continue].
  - change (stop_settled p (set_tasks ?ts w)) with (stop_settled p w).
    destruct (stop_settled p w) eqn:Es.
    + rewrite start_connect_eq.
      by eapply (turn_resume_suspend w _ _ n _ _ eq_refl Ht Hr).
    + rewrite start_connect_eq.
      by eapply (turn_resume_suspend w _ _ n _ _ eq_refl Ht Hr).
    + by destruct (not_rejected p w reason H).
  - change (conn_outcome c (set_tasks ?ts w)) with (conn_outcome c w).
    pose proof Hr as Hr'. cbn [ready] in Hr'.
    destruct (conn_outcome c w) as [b|] eqn:Eo; [|done]. clear Hr'.
    assert (Hr' : ready w (StartAwaitConnect call i c) = true) by (cbn; by rewrite Eo).
    clear Hr. rename Hr' into Hr.
    unfold start_connected. destruct b.
    + eapply (turn_resume_return w _ _ n _ (RBool true) eq_refl Ht Hr); try done.
      intros _. eauto.
    + eapply (turn_resume_return w _ _ n _ (RBool false) eq_refl Ht Hr); try done.
      * cbn [calls log set_whisperService]. by rewrite calls_disconnect.
      * cbn [tasks log set_whisperService]. by rewrite tasks_disconnect.
      * cbn [trace log set_whisperService]. by rewrite trace_disconnect.
  - change (stop_settled p (set_tasks ?ts w)) with (stop_settled p w).
    destruct (stop_settled p w) eqn:Es.
    + by eapply (turn_resume_return w _ _ n _ RVoid eq_refl Ht Hr).
    + by eapply (turn_resume_return w _ _ n _ RVoid eq_refl Ht Hr).
    + by destruct (not_rejected p w reason H).
Qed.

Lemma turn_act a w : Inv w → Turn w a (act w a).
Proof. intros H. destruct a; [by apply turn_handle|by apply turn_resume]. Qed.

(** ** Every invocation is answered at most once *)

Lemma replies_app l1 l2 : replies (l1 ++ l2) = replies l1 ++ replies l2.
Proof. apply omap_app. Qed.

Lemma replies_caused w a l : Forall (caused w a) l → replies l = [].
Proof.
  induction 1 as [|o l Ho _ IH]; [done|]. by destruct o.
Qed.

Lemma frames_on_app c l1 l2 : frames_on c (l1 ++ l2) = frames_on c l1 ++ frames_on c l2.
Proof. apply omap_app. Qed.

Lemma CallsOk_init : CallsOk init.
Proof. split; cbn; by constructor. Qed.

Lemma calls_of_delete n (ts : list Task) t :
  ts !! n = Some t → call_of <$> ts ≡ₚ call_of t :: (call_of <$> delete n ts).
Proof.
  intros Ht. rewrite (delete_Permutation ts n t Ht) at 1. done.
Qed.

Lemma CallsOk_act a w : Inv w → CallsOk w → CallsOk (act w a).
Proof.
  intros H [Hp Hr Ho]. destruct (turn_act a w H) as
    [(Et & Ec & l & El & Fl)
    |e l r _ _ Ec Et El Fl _
    |e t _ _ Ec Et Hc (l & El & Fl)
    |n t r _ Ht _ Ec Et El _ _
    |n t t' _ Ht _ Ec Et Hc El].
  - split; rewrite ?Et, ?Ec, ?El, ?replies_app, ?(replies_caused _ _ _ Fl), ?app_nil_r; done.
  - assert (Hx : calls w ∉ replies (trace w) ++ (call_of <$> tasks w)).
    { intros Hin. apply elem_of_app in Hin as [Hin|Hin].
      - rewrite Forall_forall in Hr. specialize (Hr _ Hin). lia.
      - apply list_elem_of_fmap in Hin as (t & E & Hin).
        rewrite Forall_forall in Hp. specialize (Hp _ Hin). lia. }
    split; rewrite ?Et, ?Ec, ?El, ?replies_app, ?(replies_caused _ _ _ Fl); cbn.
    + eapply Forall_impl; [done|]. cbn. lia.
    + apply Forall_app. split; [|apply Forall_singleton; lia].
      eapply Forall_impl; [done|]. cbn. lia.
    + rewrite <- app_assoc. cbn.
      eapply (NoDup_Permutation_proper _ (calls w :: (replies (trace w) ++ (call_of <$> tasks w)))).
      * by rewrite Permutation_middle.
      * by apply NoDup_cons.
  - assert (Hx : calls w ∉ replies (trace w) ++ (call_of <$> tasks w)).
    { intros Hin. apply elem_of_app in Hin as [Hin|Hin].
      - rewrite Forall_forall in Hr. specialize (Hr _ Hin). lia.
      - apply list_elem_of_fmap in Hin as (t0 & E & Hin).
        rewrite Forall_forall in Hp. specialize (Hp _ Hin). lia. }
    split; rewrite ?Et, ?Ec, ?El, ?replies_app, ?(replies_caused _ _ _ Fl), ?app_nil_r.
    + apply Forall_app. split; [|apply Forall_singleton; lia].
      eapply Forall_impl; [done|]. cbn. lia.
    + eapply Forall_impl; [done|]. cbn. lia.
    + rewrite fmap_app, app_assoc. cbn. rewrite Hc.
      eapply (NoDup_Permutation_proper _ (calls w :: (replies (trace w) ++ (call_of <$> tasks w)))).
      * by rewrite <- Permutation_cons_append.
      * by apply NoDup_cons.
  - assert (Hlt : call_of t < calls w).
    { rewrite Forall_forall in Hp. apply Hp. by eapply list_elem_of_lookup_2. }
    split; rewrite ?Et, ?Ec, ?El, ?replies_app; cbn.
    + by apply Forall_delete.
    + apply Forall_app. split; [done|by apply Forall_singleton].
    + eapply NoDup_Permutation_proper; [|exact Ho].
      rewrite (calls_of_delete n (tasks w) t Ht).
      by rewrite <- app_assoc.
  - assert (Hlt : call_of t < calls w).
    { rewrite Forall_forall in Hp. apply Hp. by eapply list_elem_of_lookup_2. }
    split; rewrite ?Et, ?Ec, ?El.
    + apply Forall_app. split; [|apply Forall_singleton; lia].
      by apply Forall_delete.
    + done.
    + eapply NoDup_Permutation_proper; [|exact Ho].
      rewrite (calls_of_delete n (tasks w) t Ht), fmap_app. cbn. rewrite Hc.
      f_equiv. symmetry. apply Permutation_cons_append.
Qed.

Lemma CallsOk_exec acts w : Inv w → CallsOk w → CallsOk (exec w acts).
Proof.
  revert w. induction acts as [|a acts IH]; intros w H Hc; [done|].
  cbn. apply IH; [by apply act_Inv|by apply CallsOk_act].
Qed.

Lemma offline_Evo i w w' :
  i < length (services w) → Evo w w' → offline i w → offline i w'.
Proof.
  intros Hi [L C N R] [Hc Ha]. split.
  - destruct (getIsConnected i w') eqn:E; [|done].
    destruct (R i Hi Hc E) as (c & k & Hk & Ho & Hact). by destruct (Ha c k Hk Ho).
  - intros c k' Hk' Ho Hact. destruct (conns w !! c) as [k|] eqn:Hk.
    + destruct (C c k Hk) as (k2 & Hk2 & S).
      assert (k2 = k') as -> by congruence.
      apply (Ha c k Hk); [by rewrite <- (cs_owner _ _ S)|].
      destruct Hact as [E|E]; [left; by eapply cs_connecting|by eapply cs_open].
    + specialize (N c k' Hk' Hk). lia.
Qed.

Lemma stranded_Evo c w w' : Evo w w' → stranded c w → stranded c w'.
Proof.
  intros [L C N R] (k & Hk & Ho & Ht & Hr).
  destruct (C c k Hk) as (k' & Hk' & S). exists k'. split; [done|].
  assert (Hf : finished k) by by right.
  split; [|split].
  - destruct (outcome k') as [b|] eqn:E; [|done].
    destruct (cs_settle _ _ S b Ho E) as [Hn|[_ ?]]; [by destruct Hn|congruence].
  - by apply (cs_timer _ _ S).
  - by rewrite (cs_finished _ _ S Hf).
Qed.

(** After 'close', the service is offline. *)
Lemma offline_after_close c k w :
  Inv w → conns w !! c = Some k → ¬ finished k →
  offline (owner k) (handle (SockClose c) w).
Proof.
  intros H Hk Hn. cbn [handle].
  assert (E : rs_of c w = readyState k) by (unfold rs_of; by rewrite Hk).
  assert (Hw : handle (SockClose c) w = on_close c (upd_conn c (set_readyState CLOSED) w)).
  { cbn [handle]. rewrite E. destruct (readyState k) as [[]|] eqn:Er; try done;
      destruct Hn; unfold finished; eauto. }
  cbn [handle] in Hw. rewrite Hw. unfold on_close. cbn [conns upd_conn].
  rewrite (lookup_alter_back _ _ c c k Hk), decide_True by done. cbn [owner set_readyState].
  split.
  - unfold getIsConnected. cbn. rewrite list_lookup_alter, decide_True by done.
    by destruct (services w !! owner k).
  - cbn. intros c' k' Hk' Ho Ha.
    apply lookup_alter_Some in Hk' as [(<- & k0 & Hk0 & ->)|(Hne & Hk')].
    + destruct Ha as [?|?]; done.
    + apply Hne. by eapply (inv_uniq _ _ H).
Qed.

(** ** Only 'open' opens a socket *)

Lemma calm_refl w : calm w w.
Proof. by intros c. Qed.

Lemma calm_trans w1 w2 w3 : calm w1 w2 → calm w2 w3 → calm w1 w3.
Proof. intros H1 H2 c Hc. eauto. Qed.

Lemma calm_same w w' w'' : conns w'' = conns w' → calm w w' → calm w w''.
Proof. intros E H c Hc. apply H. unfold rs_of in *. by rewrite <- E. Qed.

Lemma calm_upd_conn c f w w' :
  (∀ k, readyState (f k) = Some OPEN → readyState k = Some OPEN) →
  calm w w' → calm w (upd_conn c f w').
Proof.
  intros Hf H j Hj. apply H. apply rs_of_Some in Hj as (k' & Hk' & E).
  apply rs_of_Some. cbn in Hk'.
  apply lookup_alter_Some in Hk' as [(_ & k & Hk & ->)|(_ & Hk)]; eauto.
Qed.

Lemma calm_ws_close c w w' : calm w w' → calm w (ws_close c w').
Proof.
  apply calm_upd_conn. intros k. unfold closing.
  by destruct (readyState k) as [[]|] eqn:E; cbn; rewrite ?E.
Qed.

Lemma calm_resolve_conn c b w w' : calm w w' → calm w (resolve_conn c b w').
Proof.
  apply calm_upd_conn. intros k. unfold settle_conn. by destruct (outcome k); cbn.
Qed.

Lemma calm_disconnect i w w' : calm w w' → calm w (disconnect i w').
Proof.
  intros H. unfold disconnect. eapply calm_same; [done|].
  destruct (ws_of i w'); [|done]. eapply calm_same; [done|]. by apply calm_ws_close.
Qed.

Lemma calm_start_connect call lang ctorThrows w w' :
  calm w w' → calm w (start_connect call lang ctorThrows w').
Proof.
  intros H c Hc. apply H. rewrite start_connect_eq in Hc.
  apply rs_of_Some in Hc as (k & Hk & E). cbn in Hk.
  apply lookup_app_Some in Hk as [Hk|(_ & Hk)]; [apply rs_of_Some; eauto|].
  apply list_lookup_singleton_Some in Hk as [_ <-].
  unfold fresh_conn in E. by destruct ctorThrows.
Qed.

Ltac calm_step :=
  match goal with
  | |- calm ?w ?w => apply calm_refl
  | |- calm _ (disconnect _ _) => apply calm_disconnect
  | |- calm _ (ws_close _ _) => apply calm_ws_close
  | |- calm _ (resolve_conn _ _ _) => apply calm_resolve_conn
  | |- calm _ (start_connect _ _ _ _) => apply calm_start_connect
  | |- calm _ (upd_conn _ (set_connTimer _) _) => apply calm_upd_conn; [done|]
  | |- calm _ (upd_conn _ (set_readyState CLOSED) _) => apply calm_upd_conn; [done|]
  | |- calm _ (?f _ _ ?w') => apply (calm_same _ w'); [reflexivity|]
  | |- calm _ (?f _ ?w') => apply (calm_same _ w'); [reflexivity|]
  | |- calm _ (?f ?w') => apply (calm_same _ w'); [reflexivity|]
  end.

Ltac calm_go := repeat first [calm_step | case_match].

Lemma calm_emit_done i w w' : calm w w' → calm w (emit_done i w').
Proof.
  intros H. unfold emit_done. destruct (services w' !! i) as [s|]; [|done].
  revert w' H. induction (doneOnce s) as [|p L IH]; intros w' H; [done|].
  cbn. apply IH. unfold done_listener, resolve_stop.
  eapply calm_same; [done|]. apply calm_disconnect.
  eapply calm_same; [done|]. by eapply calm_same.
Qed.

Lemma calm_stop i w w' : calm w w' → calm w (stop i w').1.
Proof.
  intros H. unfold stop, ws_send. destruct (ws_of i w'); cbn [fst]; [|by eapply calm_same].
  destruct (getIsConnected i w'); cbn [fst].
  - destruct (rs_of _ _) as [[]|]; cbn [fst]; by eapply calm_same.
  - eapply calm_same; [done|]. by apply calm_disconnect.
Qed.

Lemma calm_handle e w : (∀ c, e ≠ SockOpen c) → calm w (handle e w).
Proof.
  intros He. destruct e as [lang ctorThrows|audioData| |c|c m|c|c|c err|c|c|c|p|ms]; cbn [handle].
  - unfold handle_start. destruct (whisperService _); [|calm_go].
    pose proof (calm_stop n w (next_call w) (calm_refl _)) as H.
    destruct (stop n (next_call w)) as [w1 p]. by eapply calm_same.
  - unfold handle_sendAudio, sendAudio, ws_send.
    destruct (whisperService _); [|calm_go].
    destruct (getIsConnected _ _); [|calm_go].
    destruct (ws_of _ _); [|calm_go].
    destruct (rs_of _ _) as [[]|]; calm_go.
  - unfold handle_stop. destruct (whisperService _); [|calm_go].
    pose proof (calm_stop n w (next_call w) (calm_refl _)) as H.
    destruct (stop n (next_call w)) as [w1 p]. by eapply calm_same.
  - by destruct (He c).
  - destruct (receptive c w); [|apply calm_refl].
    unfold on_message, emit_ready, emit_transcript, emit_error.
    destruct (conns w !! c); [|apply calm_refl].
    destruct m as [|type text message]; [calm_go|].
    destruct (type =? "ready"); [calm_go|]. destruct (type =? "transcript"); [calm_go|].
    destruct (type =? "done"); [apply calm_emit_done; calm_go|]. calm_go.
  - unfold on_ping, send_via_handle, ws_send.
    destruct (receptive c w); [|calm_go].
    destruct (conns w !! c); [|calm_go].
    destruct (ws_of _ _); [|calm_go].
    destruct (rs_of _ _) as [[]|]; calm_go.
  - apply calm_refl.
  - unfold on_error, emit_error. calm_go.
  - calm_go.
  - unfold on_close. calm_go.
  - unfold on_connect_timeout. calm_go.
  - unfold on_stop_timeout, resolve_stop. calm_go.
  - calm_go.
Qed.

Lemma calm_resume n w : calm w (resume n w).
Proof.
  unfold resume. destruct (tasks w !! n) as [t|]; [|apply calm_refl].
  destruct (ready w t); [|apply calm_refl].
  destruct t; cbn [continue]; unfold start_connected; calm_go.
Qed.

(** ** The config frame comes first *)

Lemma handle_open c k s w :
  Inv w → conns w !! c = Some k → readyState k = Some CONNECTING →
  services w !! owner k = Some s →
  handle (SockOpen c) w
  = log (Sent c (FConfig (language s)))
        (upd_service (owner k) (λ s, set_reconnectAttempts 0 (set_isConnected true s))
           (upd_conn c (set_readyState OPEN) w)).
Proof.
  intros H Hk E Hs. cbn [handle].
  rewrite (proj2 (rs_of_Some c CONNECTING w)) by eauto.
  pose proof (handle_of_conn c k w H Hk (or_introl E)) as Hw.
  apply ws_of_Some in Hw as (s' & Hs' & Hws).
  assert (s' = s) as -> by congruence.
  unfold on_open. cbn [conns upd_conn].
  rewrite (lookup_alter_back _ _ c c k Hk), decide_True by done.
  cbn [owner set_readyState services upd_service].
  rewrite (lookup_alter_back _ _ (owner k) (owner k) s Hs), decide_True by done.
  cbn [language set_reconnectAttempts set_isConnected].
  unfold send_via_handle, ws_of. cbn [services upd_service].
  rewrite (lookup_alter_back _ _ (owner k) (owner k) s Hs), decide_True by done.
  cbn. rewrite Hws. unfold ws_send, rs_of. cbn [conns upd_service upd_conn].
  rewrite (lookup_alter_back _ _ c c k Hk), decide_True by done. done.
Qed.

(** What an action puts on the wires. *)
Lemma act_frames a w :
  Inv w → ∃ l, trace (act w a) = trace w ++ l ∧
               ∀ c f, Sent c f ∈ l → caused w a (Sent c f).
Proof.
  intros H. destruct (turn_act a w H) as
    [(_ & _ & l & El & Fl)
    |e l r _ _ _ _ El Fl _
    |e t _ _ _ _ _ (l & El & Fl)
    |n t r _ _ _ _ _ El _ _
    |n t t' _ _ _ _ _ _ El].
  - exists l. split; [done|]. intros c f Hin. by apply (proj1 (Forall_forall _ _) Fl).
  - exists (l ++ [Reply (calls w) r]). split; [done|]. intros c f Hin.
    apply elem_of_app in Hin as [Hin|Hin]; [by apply (proj1 (Forall_forall _ _) Fl)|].
    by apply list_elem_of_singleton in Hin.
  - exists l. split; [done|]. intros c f Hin. by apply (proj1 (Forall_forall _ _) Fl).
  - eexists. split; [done|]. intros c f Hin. by apply list_elem_of_singleton in Hin.
  - exists []. split; [by rewrite app_nil_r|]. intros c f Hin. by apply not_elem_of_nil in Hin.
Qed.

Lemma frames_on_elem c f l : f ∈ frames_on c l ↔ Sent c f ∈ l.
Proof.
  unfold frames_on. rewrite list_elem_of_omap. split.
  - intros (o & Ho & E). destruct o; try done. destruct (decide _); [|done].
    injection E as ->. by subst.
  - intros Hin. exists (Sent c f). split; [done|]. by rewrite decide_True.
Qed.

Lemma frames_on_nil c l : (∀ f, Sent c f ∉ l) → frames_on c l = [].
Proof.
  intros H. destruct (frames_on c l) as [|f r] eqn:E; [done|].
  destruct (H f). apply frames_on_elem. rewrite E. by left.
Qed.

Lemma ConfigFirst_init : ConfigFirst init.
Proof. split; try done. Qed.

Lemma language_Ext w w' i s :
  Ext w w' → services w !! i = Some s →
  ∃ s', services w' !! i = Some s' ∧ language s' = language s.
Proof. intros H Hs. destruct (ext_service _ _ H i s Hs) as (s' & ? & ? & _). eauto. Qed.

Lemma ConfigFirst_act a w : Inv w → ConfigFirst w → ConfigFirst (act w a).
Proof.
  intros H [Hn Ho Hsh].
  assert (D : (∃ c, a = Ev (SockOpen c) ∧ rs_of c w = Some CONNECTING) ∨
              ¬ (∃ c, a = Ev (SockOpen c) ∧ rs_of c w = Some CONNECTING)).
  { destruct a as [[lang ctorThrows|audioData| |c|c m|c|c|c err|c|c|c|p|ms]|n]; try (right; by intros (? & [=] & _)).
    destruct (decide (rs_of c w = Some CONNECTING)); [left; eauto|].
    right. by intros (? & [= <-] & ?). }
  destruct D as [(c0 & -> & E0)|Hno].
  - (* the 'open' callback *)
    apply rs_of_Some in E0 as (k & Hk & E0).
    pose proof (handle_of_conn c0 k w H Hk (or_introl E0)) as Hw.
    apply ws_of_Some in Hw as (s & Hs & Hws).
    cbn [act]. rewrite (handle_open c0 k s w H Hk E0 Hs).
    assert (F0 : frames_on c0 (trace w) = []).
    { apply Hn. right. apply rs_of_Some. eauto. }
    split; cbn [trace log upd_service upd_conn conns services].
    + intros c [Hc|Hc].
      * assert (c ≠ c0).
        { intros ->. by rewrite (lookup_alter_back _ _ c0 c0 k Hk) in Hc. }
        rewrite frames_on_app. cbn. rewrite decide_False by done.
        rewrite app_nil_r. apply Hn. left.
        by rewrite list_lookup_alter_ne in Hc.
      * apply rs_of_Some in Hc as (k' & Hk' & E'). cbn in Hk'.
        apply lookup_alter_Some in Hk' as [(<- & ? & ? & ->)|(Hne & Hk')]; [done|].
        rewrite frames_on_app. cbn. rewrite decide_False by done.
        rewrite app_nil_r. apply Hn. right. apply rs_of_Some. eauto.
    + intros c Hc. rewrite frames_on_app. cbn.
      destruct (decide (c0 = c)) as [<-|Hne]; [by destruct (frames_on c0 (trace w))|].
      rewrite app_nil_r. apply Ho.
      apply rs_of_Some in Hc as (k' & Hk' & E'). cbn in Hk'.
      rewrite list_lookup_alter_ne in Hk' by done. apply rs_of_Some. eauto.
    + intros c f rest. rewrite frames_on_app. cbn.
      destruct (decide (c0 = c)) as [<-|Hne].
      * rewrite F0. cbn. intros [= <- <-]. split; [|done].
        eexists. eexists. split; [by apply lookup_alter_back|].
        rewrite decide_True by done. cbn.
        split; [by apply lookup_alter_back|]. by rewrite decide_True.
      * rewrite app_nil_r. intros E. destruct (Hsh c f rest E) as ((k' & s' & Hk' & Hs' & ->) & F).
        split; [|done]. exists k'. eexists. split; [by rewrite list_lookup_alter_ne|].
        split; [by apply lookup_alter_back|]. by destruct (decide _).
  - (* everything else *)
    destruct (act_frames a w H) as (l & El & Hl).
    assert (Hnc : ∀ c f, Sent c f ∈ l → is_config f = false ∧ rs_of c w = Some OPEN).
    { intros c f Hin. specialize (Hl c f Hin). cbn in Hl.
      destruct (is_config f); [|done]. destruct Hl as (-> & ? & _). destruct Hno. eauto. }
    assert (Hcalm : calm w (act w a)).
    { destruct a as [e|n]; [|apply calm_resume].
      destruct e as [lang ctorThrows|audioData| |c|c m|c|c|c err|c|c|c|p|ms]; try (apply calm_handle; by intros ?).
      cbn. destruct (rs_of c w) as [[]|] eqn:E; try apply calm_refl. destruct Hno; eauto. }
    pose proof (Evo_act a w) as Hevo. pose proof (Ext_act a w) as Hext.
    assert (Hsilent : ∀ c, rs_of c w ≠ Some OPEN → frames_on c l = []).
    { intros c Hc. apply frames_on_nil. intros f Hin. by destruct (Hnc c f Hin). }
    split; rewrite El.
    + intros c Hc. rewrite frames_on_app.
      assert (Hc' : conns w !! c = None ∨ rs_of c w = Some CONNECTING).
      { destruct (conns w !! c) as [k|] eqn:Hk; [|by left]. right.
        destruct (evo_conn _ _ Hevo c k Hk) as (k' & Hk' & S).
        destruct Hc as [Hc|Hc]; [congruence|].
        apply rs_of_Some in Hc as (k2 & Hk2 & E2).
        assert (k2 = k') as -> by congruence.
        apply rs_of_Some. exists k. split; [done|]. by eapply cs_connecting. }
      rewrite (Hn c Hc'), Hsilent; [done|].
      destruct Hc' as [Hc'|Hc']; unfold rs_of in *; rewrite ?Hc'; done.
    + intros c Hc. rewrite frames_on_app. specialize (Ho c (Hcalm c Hc)).
      by destruct (frames_on c (trace w)).
    + intros c f rest. rewrite frames_on_app.
      destruct (frames_on c (trace w)) as [|f0 rest0] eqn:E0; intros E.
      * destruct (decide (rs_of c w = Some OPEN)) as [Hopen|Hnopen]; [by destruct (Ho c Hopen)|].
        by rewrite (Hsilent c Hnopen) in E.
      * cbn in E. injection E as <- <-.
        destruct (Hsh c f0 rest0 E0) as ((k & s & Hk & Hs & ->) & F).
        split.
        -- destruct (evo_conn _ _ Hevo c k Hk) as (k' & Hk' & S).
           rewrite <- (cs_owner _ _ S) in Hs.
           destruct (language_Ext _ _ _ _ Hext Hs) as (s' & Hs' & <-). eauto.
        -- apply Forall_app. split; [done|]. apply Forall_forall. intros f Hin.
           apply frames_on_elem in Hin. by destruct (Hnc c f Hin).
Qed.

Lemma ConfigFirst_exec acts w : Inv w → ConfigFirst w → ConfigFirst (exec w acts).
Proof.
  revert w. induction acts as [|a acts IH]; intros w H Hc; [done|].
  cbn. apply IH; [by apply act_Inv|by apply ConfigFirst_act].
Qed.

Lemma CallsOk_reachable acts : CallsOk (exec init acts).
Proof. apply CallsOk_exec; [apply Inv_init|apply CallsOk_init]. Qed.

Lemma pending_not_answered w t :
  CallsOk w → t ∈ tasks w → call_of t ∉ replies (trace w).
Proof.
  intros [_ _ Ho] Ht Hin. apply NoDup_app in Ho as (_ & Hd & _).
  apply (Hd _ Hin). apply list_elem_of_fmap. eauto.
Qed.

(** X5: every ipc invocation is answered at most once: the invocations
    answered so far are pairwise distinct, each has a number that was
    given out, and an invocation whose handler is suspended at an [await]
    has not been answered. *)
Theorem ipc_call_answered_at_most_once (acts : list Action) :
  NoDup (replies (trace (exec init acts))) ∧
  Forall (λ call, call < calls (exec init acts)) (replies (trace (exec init acts))) ∧
  ∀ t, t ∈ tasks (exec init acts) → call_of t ∉ replies (trace (exec init acts)).
Proof.
  pose proof (CallsOk_reachable acts) as Hc. split; [|split].
  - destruct Hc as [_ _ Ho]. by apply NoDup_app in Ho as (? & _).
  - by destruct Hc.
  - intros t. by apply pending_not_answered.
Qed.

(** A suspended handler that cannot go on stays suspended. *)
Lemma task_stays a w t :
  Inv w → t ∈ tasks w → ready w t = false → t ∈ tasks (act w a).
Proof.
  intros H Ht Hr. destruct (turn_act a w H) as
    [(Et & _)
    |e l r _ _ _ Et _ _ _
    |e t' _ _ _ Et _ _
    |n t' r _ Ht' Hr' _ Et _ _ _
    |n t' t'' _ Ht' Hr' _ Et _ _]; rewrite Et; try done.
  - apply elem_of_app. by left.
  - eapply elem_of_delete_other; [done..|]. intros ->. congruence.
  - apply elem_of_app. left. eapply elem_of_delete_other; [done..|]. intros ->. congruence.
Qed.

Lemma stranded_not_ready call i c w :
  stranded c w → ready w (StartAwaitConnect call i c) = false.
Proof.
  intros (k & Hk & Ho & _). cbn. unfold conn_outcome. by rewrite Hk; cbn; rewrite Ho.
Qed.

Lemma stranded_task_stays acts call i c w :
  Inv w → StartAwaitConnect call i c ∈ tasks w → stranded c w →
  StartAwaitConnect call i c ∈ tasks (exec w acts).
Proof.
  revert w. induction acts as [|a acts IH]; intros w H Ht Hs; [done|].
  cbn. apply IH.
  - by apply act_Inv.
  - apply task_stays; [done..|]. by apply stranded_not_ready.
  - eapply stranded_Evo; [apply Evo_act|done].
Qed.

(** X8: a [transcription:start] invocation whose socket opened, whose
    5000 ms timer has fired (and found the service connected) and whose
    socket has closed without a [ready] frame is never answered: the
    promise of [connect()] stays pending and the handler stays suspended,
    whatever happens next. *)
Theorem stranded_start_is_never_answered (acts acts' : list Action)
    (n call i c : nat) :
  tasks (exec init acts) !! n = Some (StartAwaitConnect call i c) →
  stranded c (exec init acts) →
  stranded c (exec (exec init acts) acts') ∧
  StartAwaitConnect call i c ∈ tasks (exec (exec init acts) acts') ∧
  ∀ r, Reply call r ∉ trace (exec (exec init acts) acts').
Proof.
  set (w := exec init acts). intros Ht Hs.
  assert (H : Inv w) by apply exec_Inv, Inv_init.
  assert (Hin : StartAwaitConnect call i c ∈ tasks w) by by eapply list_elem_of_lookup_2.
  pose proof (stranded_task_stays acts' call i c w H Hin Hs) as Hin'.
  split; [eapply stranded_Evo; [apply Evo_exec|done]|]. split; [done|].
  intros r Hr.
  assert (Hc : CallsOk (exec w acts')).
  { unfold w. rewrite <- exec_app. apply CallsOk_reachable. }
  apply (pending_not_answered _ _ Hc Hin'). cbn.
  unfold replies. apply list_elem_of_omap. by exists (Reply call r).
Qed.

Lemma stranded_start_is_never_answered_witness :
  StartAwaitConnect 0 0 0 ∈ tasks (exec (exec init
         [Ev (IpcStart "en" false); Ev (SockOpen 0); Ev (Elapse 5000);
          Ev (ConnectTimeout 0); Ev (SockClose 0)])
         [Ev (Elapse 60000); Ev (ConnectTimeout 0);
          Ev (SockMessage 0 (Message "ready" None None)); Resume 0]).
Proof.
  destruct (stranded_start_is_never_answered
           [Ev (IpcStart "en" false); Ev (SockOpen 0); Ev (Elapse 5000);
            Ev (ConnectTimeout 0); Ev (SockClose 0)]
           [Ev (Elapse 60000); Ev (ConnectTimeout 0);
            Ev (SockMessage 0 (Message "ready" None None)); Resume 0] 0 0 0 0)
    as (_ & H & _); [by vm_compute|eexists; by vm_compute|exact H].
Defined.

(** X7: there is no reconnection.  Once the 'close' event of a socket
    has been delivered, its service is never connected again and none of
    its sockets is open or opening, whatever happens next; as long as the
    handlers keep that service, [transcription:send-audio] throws
    "Transcription not connected. Please restart recording.". *)
Theorem closed_connection_is_final (acts acts' : list Action) (c : nat) (k : Conn)
    (d : string) :
  conns (exec init acts) !! c = Some k → ¬ finished k →
  offline (owner k) (exec (handle (SockClose c) (exec init acts)) acts') ∧
  (whisperService (exec (handle (SockClose c) (exec init acts)) acts') = Some (owner k) →
   handle (IpcSendAudio d) (exec (handle (SockClose c) (exec init acts)) acts')
   = log (Reply (calls (exec (handle (SockClose c) (exec init acts)) acts'))
                (RError not_connected))
         (next_call (exec (handle (SockClose c) (exec init acts)) acts'))).
Proof.
  set (w := exec init acts). intros Hk Hn.
  assert (H : Inv w) by apply exec_Inv, Inv_init.
  set (w1 := handle (SockClose c) w). set (w2 := exec w1 acts').
  assert (Ho : offline (owner k) w2).
  { apply (offline_Evo _ w1); [|apply Evo_exec|by apply offline_after_close].
    pose proof (inv_owner _ _ H c k Hk) as Hlt.
    pose proof (evo_len _ _ (Evo_handle (SockClose c) w)). fold w1 in H0. lia. }
  split; [done|]. intros Hw. cbn [handle]. unfold handle_sendAudio.
  change (whisperService (next_call w2)) with (whisperService w2). rewrite Hw.
  change (getIsConnected (owner k) (next_call w2)) with (getIsConnected (owner k) w2).
  by rewrite (proj1 Ho).
Qed.

Lemma closed_connection_is_final_witness :
  reply_of 1 (trace (handle (IpcSendAudio "chunk")
     (exec (handle (SockClose 0)
              (exec init [Ev (IpcStart "en" false); Ev (SockOpen 0);
                          Ev (SockMessage 0 (Message "ready" None None)); Resume 0]))
           [Ev (SockOpen 0); Ev (SockMessage 0 (Message "ready" None None))])))
  = Some (RError not_connected).
Proof.
  destruct (closed_connection_is_final
              [Ev (IpcStart "en" false); Ev (SockOpen 0);
               Ev (SockMessage 0 (Message "ready" None None)); Resume 0]
              [Ev (SockOpen 0); Ev (SockMessage 0 (Message "ready" None None))]
              0 (mkConn 0 (Some OPEN) (Some true) 5000%N true) "chunk") as (_ & ->).
  - by vm_compute.
  - intros [?|?]; done.
  - by vm_compute.
  - by vm_compute.
Defined.

(** X4: nothing is put on the wire of a socket that is still connecting,
    an open socket has had a frame put on its wire, and the first frame
    on the wire of any socket is the config frame that carries the
    language of its service; no later frame is a config frame. *)
Theorem config_is_the_first_frame (acts : list Action) (c : nat) :
  (rs_of c (exec init acts) = Some CONNECTING → frames_on c (trace (exec init acts)) = []) ∧
  (rs_of c (exec init acts) = Some OPEN → frames_on c (trace (exec init acts)) ≠ []) ∧
  ∀ f rest, frames_on c (trace (exec init acts)) = f :: rest →
    (∃ k s, conns (exec init acts) !! c = Some k ∧
            services (exec init acts) !! owner k = Some s ∧
            f = FConfig (language s)) ∧
    Forall (λ f, is_config f = false) rest.
Proof.
  destruct (ConfigFirst_exec acts init Inv_init ConfigFirst_init) as [Hn Ho Hs].
  split; [|split]; eauto.
Qed.

Lemma snoc_split {A} (tr l l1 l2 : list A) (o : A) :
  tr ++ l = l1 ++ o :: l2 →
  (∃ l2', tr = l1 ++ o :: l2') ∨ (∃ k, l1 = tr ++ k ∧ l = k ++ o :: l2).
Proof.
  intros E. apply app_eq_inv in E as [(k & -> & E)|(k & -> & ->)].
  - destruct k as [|o0 k].
    + right. exists []. by rewrite !app_nil_r.
    + injection E as <- ->. left. by exists k.
  - right. by exists k.
Qed.

Lemma no_reply_caused w a l k call r l2 :
  Forall (caused w a) l → l ≠ k ++ Reply call r :: l2.
Proof.
  intros Fl ->. apply Forall_app in Fl as [_ Fl]. by inversion Fl.
Qed.

(** X3: every answer true to a [transcription:start] invocation is given
    by the handler of that invocation as it goes on after [connect()],
    and by then a [ready] frame has been received on the socket that
    this [connect()] opened for the service of the invocation. *)
Theorem start_true_only_after_ready (acts : list Action) (l1 l2 : list Obs)
    (call : nat) :
  trace (exec init acts) = l1 ++ Reply call (RBool true) :: l2 →
  ∃ acts1 acts2 n i c m,
    acts = acts1 ++ Resume n :: acts2 ∧
    trace (exec init acts1) = l1 ∧
    tasks (exec init acts1) !! n = Some (StartAwaitConnect call i c) ∧
    owner_of c (exec init acts1) = Some i ∧
    is_ready m = true ∧ Recv c m ∈ l1.
Proof.
  revert l2. induction acts as [|a acts IH] using rev_ind; intros l2 E.
  - by destruct l1.
  - rewrite exec_app in E. cbn [exec foldl] in E. set (w := exec init acts) in *.
    assert (H : Inv w) by apply exec_Inv, Inv_init.
    assert (Hold : ∀ l2', trace w = l1 ++ Reply call (RBool true) :: l2' →
      ∃ acts1 acts2 n i c m,
        acts ++ [a] = acts1 ++ Resume n :: acts2 ∧
        trace (exec init acts1) = l1 ∧
        tasks (exec init acts1) !! n = Some (StartAwaitConnect call i c) ∧
        owner_of c (exec init acts1) = Some i ∧
        is_ready m = true ∧ Recv c m ∈ l1).
    { intros l2' E'. destruct (IH l2' E') as (acts1 & acts2 & n & i & c & m & -> & R).
      exists acts1, (acts2 ++ [a]), n, i, c, m. split; [|done].
      by rewrite <- app_assoc. }
    destruct (turn_act a w H) as
      [(_ & _ & l & El & Fl)
      |e l r _ _ _ _ El Fl Hr
      |e t _ _ _ _ _ (l & El & Fl)
      |n t r -> Ht _ _ _ El Hr _
      |n t t' _ _ _ _ _ _ El]; rewrite El in E.
    + apply snoc_split in E as [(l2' & E)|(k & _ & E)]; [by eapply Hold|].
      by destruct (no_reply_caused _ _ _ _ _ _ _ Fl E).
    + rewrite app_assoc in E.
      apply snoc_split in E as [(l2' & E)|(k & _ & E)].
      * apply snoc_split in E as [(l2'' & E)|(k & _ & E)]; [by eapply Hold|].
        by destruct (no_reply_caused _ _ _ _ _ _ _ Fl E).
      * destruct k as [|o k]; [|by destruct k].
        injection E as _ ->. by destruct Hr as [?|[?|?]].
    + apply snoc_split in E as [(l2' & E)|(k & _ & E)]; [by eapply Hold|].
      by destruct (no_reply_caused _ _ _ _ _ _ _ Fl E).
    + apply snoc_split in E as [(l2' & E)|(k & El1 & E)]; [by eapply Hold|].
      destruct k as [|o k]; [|by destruct k].
      injection E as Ec Er _. subst r. rewrite app_nil_r in El1.
      destruct (Hr eq_refl) as (i & c & Et & Ho). rewrite Ec in Et.
      apply conn_outcome_Some in Ho as (k & Hk & Ho).
      destruct (inv_ready _ _ H c k Hk Ho) as (m & Hm & Hin).
      destruct (inv_task _ _ H call i c) as (k' & Hk' & Hown).
      { rewrite <- Et. by eapply list_elem_of_lookup_2. }
      exists acts, [], n, i, c, m. split; [done|]. split; [done|].
      split; [by rewrite <- Et|]. split.
      * unfold owner_of. fold w. rewrite Hk'. cbn. by rewrite Hown.
      * split; [done|]. by rewrite El1.
    + by eapply Hold.
Qed.

(** X1: when a [ready] frame arrives on the socket of a [connect()] that
    is still pending, the promise resolves to true; the handler then
    forwards nothing more than the ready event, answers true and keeps
    the service. *)
Theorem start_resolves_true_on_ready (acts : list Action) (n call i c : nat)
    (m : Inbound) :
  tasks (exec init acts) !! n = Some (StartAwaitConnect call i c) →
  conn_outcome c (exec init acts) = None →
  receptive c (exec init acts) = true →
  is_ready m = true →
  conn_outcome c (handle (SockMessage c m) (exec init acts)) = Some true ∧
  trace (resume n (handle (SockMessage c m) (exec init acts)))
  = trace (exec init acts)
    ++ [Recv c m; ToRenderer TranscriptionReady; Reply call (RBool true)] ∧
  whisperService (resume n (handle (SockMessage c m) (exec init acts))) = Some i.
Proof.
  set (w := exec init acts). intros Ht Ho Hr Hm.
  pose proof Hr as Hr'. apply receptive_hearing in Hr' as (k & Hk & _).
  destruct m as [|type text message]; [done|]. cbn in Hm.
  assert (E : handle (SockMessage c (Message type text message)) w
              = resolve_conn c true (emit_ready (log (Recv c (Message type text message)) w))).
  { cbn [handle]. rewrite Hr. unfold on_message. by rewrite Hk, Hm. }
  rewrite E.
  assert (Ho1 : conn_outcome c (resolve_conn c true
                  (emit_ready (log (Recv c (Message type text message)) w))) = Some true).
  { apply conn_outcome_resolve; [done|]. by exists k. }
  split; [done|]. unfold resume. cbn [tasks resolve_conn upd_conn emit_ready log].
  rewrite Ht. cbn [ready]. rewrite Ho1. cbn [continue].
  change (conn_outcome c (set_tasks ?ts ?w')) with (conn_outcome c w'). rewrite Ho1.
  unfold start_connected. cbn. by rewrite <- !app_assoc.
Qed.

(** X2: when a socket that is not closed reports an error while its
    service is not connected and [connect()] is pending, the error is
    forwarded to the renderer, [transcription:start] answers false, no
    service is kept and the session is torn down. *)
Theorem start_resolves_false_on_socket_error (acts : list Action)
    (n call i c : nat) (k : Conn) (err : string) :
  tasks (exec init acts) !! n = Some (StartAwaitConnect call i c) →
  conns (exec init acts) !! c = Some k → outcome k = None → ¬ finished k →
  getIsConnected i (exec init acts) = false →
  trace (resume n (handle (SockError c err) (exec init acts)))
  = trace (exec init acts)
    ++ [ToRenderer (TranscriptionError err); Reply call (RBool false)] ∧
  whisperService (resume n (handle (SockError c err) (exec init acts))) = None ∧
  torn_down i (resume n (handle (SockError c err) (exec init acts))).
Proof.
  set (w := exec init acts). intros Ht Hk Ho Hn Hc.
  assert (H : Inv w) by apply exec_Inv, Inv_init.
  assert (Hin : StartAwaitConnect call i c ∈ tasks w) by by eapply list_elem_of_lookup_2.
  destruct (inv_task _ _ H call i c Hin) as (k' & Hk' & Hi).
  assert (k' = k) as -> by congruence.
  set (w1 := handle (SockError c err) w).
  assert (E : w1 = resolve_conn c false (emit_error err (ws_close c w))).
  { unfold w1. cbn [handle]. unfold rs_of. rewrite Hk. cbn.
    assert (Hx : on_error c err (ws_close c w)
                 = resolve_conn c false (emit_error err (ws_close c w))).
    { unfold on_error. cbn [conns ws_close upd_conn].
      rewrite (lookup_alter_back _ _ c c k Hk), decide_True by done.
      rewrite (cs_owner _ _ (ConnStep_closing k)), Hi.
      change (getIsConnected i (emit_error err (ws_close c w))) with (getIsConnected i w).
      by rewrite Hc. }
    destruct (readyState k) as [[]|] eqn:Er; try done; destruct Hn; unfold finished; eauto. }
  assert (H1 : Inv w1) by by apply handle_Inv.
  assert (Ht1 : tasks w1 !! n = Some (StartAwaitConnect call i c)) by by rewrite E.
  assert (Ho1 : conn_outcome c w1 = Some false).
  { rewrite E. apply conn_outcome_resolve.
    - change (conn_outcome c (emit_error err ?w')) with (conn_outcome c w').
      unfold ws_close. rewrite conn_outcome_upd by apply outcome_closing.
      unfold conn_outcome. by rewrite Hk.
    - cbn. rewrite (lookup_alter_back _ _ c c k Hk). eauto. }
  rewrite (resume_failed_start n call i c w1 Ht1 Ho1).
  split; [|split].
  - cbn [trace log set_whisperService]. rewrite trace_disconnect. cbn [trace set_tasks].
    rewrite E. cbn. by rewrite <- app_assoc.
  - done.
  - pose proof (resume_Inv n w1 H1) as H2.
    rewrite (resume_failed_start n call i c w1 Ht1 Ho1) in H2.
    apply (Inv_torn_down _ _ _ H2).
    + change (ws_of i (log ?o (set_whisperService None ?w'))) with (ws_of i w').
      apply ws_of_disconnect.
    + cbn [services log set_whisperService]. rewrite length_services_disconnect.
      cbn [services set_tasks]. rewrite E. cbn.
      rewrite <- Hi. apply (inv_owner _ _ H c k Hk).
Qed.

(** X6: the only errors that an invocation of the transcription
    channels is ever answered with are the two that [transcription:send-audio]
    throws itself; an exception of the socket never crosses the ipc
    boundary. *)
Theorem ipc_replies_are_expected (acts : list Action) (call : nat) (r : IpcResult) :
  Reply call r ∈ trace (exec init acts) → expected_reply r.
Proof.
  induction acts as [|a acts IH] using rev_ind.
  - intros Hin. by apply not_elem_of_nil in Hin.
  - rewrite exec_app. cbn [exec foldl]. set (w := exec init acts) in *.
    assert (H : Inv w) by apply exec_Inv, Inv_init.
    destruct (turn_act a w H) as
      [(_ & _ & l & El & Fl)
      |e l r' _ _ _ _ El Fl Hr
      |e t _ _ _ _ _ (l & El & Fl)
      |n t r' _ _ _ _ _ El _ Hr
      |n t t' _ _ _ _ _ _ El]; rewrite El; [..|done]; intros Hin;
      apply elem_of_app in Hin as [Hin|Hin]; try by apply IH.
    + by destruct (proj1 (Forall_forall _ _) Fl _ Hin).
    + apply elem_of_app in Hin as [Hin|Hin].
      * by destruct (proj1 (Forall_forall _ _) Fl _ Hin).
      * apply list_elem_of_singleton in Hin. injection Hin as _ ->.
        destruct Hr as [-> | [-> | ->]]; cbn; eauto.
    + by destruct (proj1 (Forall_forall _ _) Fl _ Hin).
    + apply list_elem_of_singleton in Hin. injection Hin as _ ->.
      destruct r' as [b| |e]; [done..|]. by destruct (Hr e).
Qed.

Lemma start_resolves_true_on_ready_witness :
  whisperService
    (resume 0 (handle (SockMessage 0 (Message "ready" None None))
                 (exec init [Ev (IpcStart "en" false); Ev (SockOpen 0)])))
  = Some 0.
Proof.
  destruct (start_resolves_true_on_ready
              [Ev (IpcStart "en" false); Ev (SockOpen 0)] 0 0 0 0
              (Message "ready" None None)) as (_ & _ & H);
    [by vm_compute..|exact H].
Defined.

Lemma start_resolves_false_on_socket_error_witness :
  torn_down 0
    (resume 0 (handle (SockError 0 "connect ECONNREFUSED 127.0.0.1:8765")
                 (exec init [Ev (IpcStart "en" false)]))).
Proof.
  destruct (start_resolves_false_on_socket_error
              [Ev (IpcStart "en" false)] 0 0 0 0
              (mkConn 0 (Some CONNECTING) None 5000%N true)
              "connect ECONNREFUSED 127.0.0.1:8765") as (_ & _ & H);
    [by vm_compute|by vm_compute|by vm_compute|by intros [?|?]|by vm_compute|exact H].
Defined.

Lemma ipc_replies_are_expected_witness : expected_reply (RError not_started).
Proof.
  apply (ipc_replies_are_expected [Ev (IpcSendAudio "chunk")] 0).
  vm_compute. by left.
Defined.

Lemma start_true_only_after_ready_witness :
  ∃ acts1 acts2 n i c m,
    [Ev (IpcStart "en" false); Ev (SockOpen 0);
     Ev (SockMessage 0 (Message "ready" None None)); Resume 0]
    = acts1 ++ Resume n :: acts2 ∧
    trace (exec init acts1)
    = [Sent 0 (FConfig "en"); Recv 0 (Message "ready" None None);
       ToRenderer TranscriptionReady] ∧
    tasks (exec init acts1) !! n = Some (StartAwaitConnect 0 i c) ∧
    owner_of c (exec init acts1) = Some i ∧
    is_ready m = true ∧
    Recv c m ∈ [Sent 0 (FConfig "en"); Recv 0 (Message "ready" None None);
                ToRenderer TranscriptionReady].
Proof.
  apply (start_true_only_after_ready
           [Ev (IpcStart "en" false); Ev (SockOpen 0);
            Ev (SockMessage 0 (Message "ready" None None)); Resume 0]
           [Sent 0 (FConfig "en"); Recv 0 (Message "ready" None None);
            ToRenderer TranscriptionReady] [] 0).
  by vm_compute.
Defined.


(** * The claims that need the shape of a turn *)

(** ** Reading the answer of an invocation off the trace *)

Lemma reply_of_replies call tr : reply_of call tr = None ↔ call ∉ replies tr.
Proof.
  unfold reply_of, replies. induction tr as [|o tr IH]; cbn.
  - split; [intros _; apply not_elem_of_nil|done].
  - destruct o as [| | |call' r| |]; cbn; try done.
    destruct (decide (call' = call)) as [->|Hne]; cbn.
    + split; [done|]. intros H. destruct H. by left.
    + rewrite IH, not_elem_of_cons. split; [by intros ?; split|by intros [_ ?]].
Qed.

Lemma reply_of_elem call r tr :
  NoDup (replies tr) → Reply call r ∈ tr → reply_of call tr = Some r.
Proof.
  unfold reply_of, replies. induction tr as [|o tr IH]; cbn; intros Hn Hin.
  - by apply elem_of_nil in Hin.
  - apply elem_of_cons in Hin as [<-|Hin].
    + cbn. by rewrite decide_True.
    + destruct o as [| | |call' r'| |]; cbn in *; try by apply IH.
      apply NoDup_cons in Hn as [Hc Hn].
      destruct (decide (call' = call)) as [->|Hne]; cbn; [|by apply IH].
      destruct Hc. apply list_elem_of_omap. by exists (Reply call r).
Qed.

(** ** A handler that can go on *)

(** A suspended handler stays suspended until it is resumed. *)
Lemma suspended_until_resumed t w acts :
  Inv w → t ∈ tasks w →
  t ∈ tasks (exec w acts)
  ∨ ∃ acts1 n acts2, acts = acts1 ++ Resume n :: acts2 ∧
                     tasks (exec w acts1) !! n = Some t ∧
                     ready (exec w acts1) t = true.
Proof.
  intros H Ht. induction acts as [|a acts IH] using rev_ind; [by left|].
  destruct IH as [Hin|(acts1 & n & acts2 & -> & Hn & Hr)].
  2: { right. exists acts1, n, (acts2 ++ [a]). by rewrite <- app_assoc. }
  rewrite exec_app. cbn [exec foldl]. set (w' := exec w acts) in *.
  assert (H' : Inv w') by by apply exec_Inv.
  destruct (turn_act a w' H') as
    [(Et & _)
    |e l r _ _ _ Et _ _ _
    |e t' _ _ _ Et _ _
    |n t' r -> Ht' Hr' _ Et _ _ _
    |n t' t'' -> Ht' Hr' _ Et _ _]; rewrite ?Et.
  - by left.
  - by left.
  - left. apply elem_of_app. by left.
  - destruct (decide (t' = t)) as [->|Hne].
    + right. by exists acts, n, [].
    + left. by eapply elem_of_delete_other.
  - destruct (decide (t' = t)) as [->|Hne].
    + right. by exists acts, n, [].
    + left. apply elem_of_app. left. by eapply elem_of_delete_other.
Qed.

(** Once [connect()] has resolved to false, the handler that awaits it
    answers false and lets go of the service, whenever it goes on. *)
Lemma failed_start_is_answered call i c w acts :
  Inv w → CallsOk w → StartAwaitConnect call i c ∈ tasks w →
  conn_outcome c w = Some false →
  reply_of call (trace (drain (exec w acts))) = Some (RBool false) ∧
  torn_down i (drain (exec w acts)).
Proof.
  intros H Hc Ht Ho.
  destruct (inv_task _ _ H call i c Ht) as (k & Hk & <-).
  assert (Hi : owner k < length (services w)) by by apply (inv_owner _ _ H c k).
  destruct (drain_for_exec (pending_awaits (exec w acts)) (exec w acts)) as (actsd & Ed).
  fold (drain (exec w acts)) in Ed.
  assert (Hout : ∀ acts0, conn_outcome c (exec w acts0) = Some false).
  { intros acts0. unfold conn_outcome in *. rewrite Hk in Ho. cbn in Ho.
    destruct (ext_conn _ _ (Ext_exec acts0 w) c k Hk) as (k' & -> & _ & Hb & _).
    cbn. eauto. }
  assert (Hres : ∃ acts1 n acts2,
             drain (exec w acts) = exec (resume n (exec w acts1)) acts2 ∧
             tasks (exec w acts1) !! n = Some (StartAwaitConnect call (owner k) c)).
  { destruct (suspended_until_resumed _ w acts H Ht)
      as [Hin|(acts1 & n & acts2 & -> & Hn & _)].
    - destruct (drain_for_resumes (pending_awaits (exec w acts)) (exec w acts)
                  (StartAwaitConnect call (owner k) c))
        as (acts1 & n & acts2 & E & Hn); [done|done|by cbn [ready]; rewrite Hout|].
      exists (acts ++ acts1), n, acts2. by rewrite exec_app.
    - exists acts1, n, (acts2 ++ actsd). by rewrite Ed, !exec_app. }
  destruct Hres as (acts1 & n & acts2 & -> & Hn).
  set (wa := exec w acts1) in *.
  assert (Ha : Inv wa) by by apply exec_Inv.
  pose proof (resume_Inv n wa Ha) as Hb.
  rewrite (resume_failed_start n call (owner k) c wa Hn (Hout acts1)) in Hb |- *.
  set (wb := log _ _) in *.
  assert (Hcb : CallsOk (exec wb acts2)).
  { apply CallsOk_exec; [done|]. unfold wb.
    rewrite <- (resume_failed_start n call (owner k) c wa Hn (Hout acts1)).
    change (resume n wa) with (act wa (Resume n)).
    apply CallsOk_act; [done|]. by apply CallsOk_exec. }
  assert (Hwb : ws_of (owner k) wb = None) by apply ws_of_disconnect.
  assert (Hlb : owner k < length (services wb)).
  { unfold wb. cbn [services log set_whisperService].
    rewrite length_services_disconnect. cbn [services set_tasks].
    destruct (ext_conn _ _ (Ext_exec acts1 w) c k Hk) as (k' & Hk' & <- & _).
    by apply (inv_owner _ _ Ha c k'). }
  pose proof (exec_Inv acts2 wb Hb) as Hf.
  split.
  - apply reply_of_elem.
    + destruct Hcb as [_ _ Hnd]. by apply NoDup_app in Hnd as (? & _).
    + destruct (ext_trace _ _ (Ext_exec acts2 wb)) as (l & ->).
      apply elem_of_app. left. unfold wb. cbn [trace log].
      apply elem_of_app. right. by left.
  - apply (Inv_torn_down _ _ _ Hf).
    + by apply dead_service_stays_dead.
    + destruct (lookup_lt_is_Some_2 _ _ Hlb) as (s & Hs).
      destruct (ext_service _ _ (Ext_exec acts2 wb) _ s Hs) as (s' & Hs' & _).
      by eapply lookup_lt_Some.
Qed.

(** ** C2: the amended claim *)

(** C2, amended: when the connection timer of a [start()] attempt fires
    while its [connect()] is still pending and its service is not
    connected (the socket has not opened, or it has closed again), the
    promise resolves to false; the invocation, not answered before, is
    answered false once the handlers that can go on have run, whatever
    events are delivered first; no exception escapes; and the session is
    torn down: handle released, not connected, no socket of it open or
    opening. *)
Theorem start_false_on_connect_timeout (acts acts' : list Action) (call i c : nat) :
  StartAwaitConnect call i c ∈ tasks (exec init acts) →
  conn_outcome c (exec init acts) = None →
  conn_timer_due c (exec init acts) = true →
  getIsConnected i (exec init acts) = false →
  let w2 := exec (handle (ConnectTimeout c) (exec init acts)) acts' in
  conn_outcome c w2 = Some false ∧
  reply_of call (trace (exec init acts)) = None ∧
  reply_of call (trace (drain w2)) = Some (RBool false) ∧
  torn_down i (drain w2) ∧
  (∀ e, Uncaught e ∉ trace (drain w2)).
Proof.
  set (w := exec init acts). intros Ht Hn Hd Hc w2.
  assert (H : Inv w) by apply exec_Inv, Inv_init.
  assert (Hco : CallsOk w) by apply CallsOk_reachable.
  destruct (inv_task _ _ H call i c Ht) as (k & Hk & <-).
  assert (Ho : outcome k = None).
  { unfold conn_outcome in Hn. rewrite Hk in Hn. by cbn in Hn. }
  destruct (connect_timeout_settles c k w Hk Ho Hd Hc) as (Ho1 & Ht1).
  set (w1 := handle (ConnectTimeout c) w) in *.
  assert (H1 : Inv w1) by by apply handle_Inv.
  assert (Hc1 : CallsOk w1).
  { change w1 with (act w (Ev (ConnectTimeout c))). by apply CallsOk_act. }
  assert (Ht1' : StartAwaitConnect call (owner k) c ∈ tasks w1) by by rewrite Ht1.
  destruct (failed_start_is_answered call (owner k) c w1 acts' H1 Hc1 Ht1' Ho1)
    as (Hr & Htd).
  split; [|split; [|split; [done|split; [done|]]]].
  - unfold conn_outcome in *. destruct (conns w1 !! c) as [k1|] eqn:Hk1; [|done].
    destruct (ext_conn _ _ (Ext_exec acts' w1) c k1 Hk1) as (k' & Hk' & _ & Ho' & _).
    fold w2 in Hk'. rewrite Hk'. cbn in *. eauto.
  - apply reply_of_replies.
    by apply (pending_not_answered w (StartAwaitConnect call (owner k) c)).
  - destruct (drain_for_exec (pending_awaits w2) w2) as (actsd & Ed).
    fold (drain w2) in Ed. rewrite Ed. apply (inv_caught []). by apply exec_Inv, exec_Inv.
Qed.

Lemma start_false_on_connect_timeout_witness :
  reply_of 0
    (trace (drain (exec (handle (ConnectTimeout 0)
                           (exec init [Ev (IpcStart "en" false); Ev (Elapse 5000)]))
                     [Ev (SockError 0 "WebSocket was closed before the connection was established");
                      Ev (SockClose 0)])))
  = Some (RBool false).
Proof.
  destruct (start_false_on_connect_timeout
              [Ev (IpcStart "en" false); Ev (Elapse 5000)]
              [Ev (SockError 0 "WebSocket was closed before the connection was established");
               Ev (SockClose 0)] 0 0 0)
    as (_ & _ & H & _);
    [vm_compute; by left|by vm_compute..|exact H].
Defined.

(** ** A settled [stop()] call has no timer left *)

Lemma stop_new_timer i w :
  ∃ k, stops (stop i w).1 = stops w ++ [k] ∧ (settled k ≠ Pending → stopTimer k = false).
Proof.
  unfold stop, ws_send.
  destruct (ws_of i w) as [c|];
    [destruct (getIsConnected i w); [destruct (rs_of c w) as [[]|]|]|];
    cbn [fst]; eexists; (split; [stops_same|]); done.
Qed.

Lemma TimerOff_snoc w w' k :
  TimerOff w → stops w' = stops w ++ [k] →
  (settled k ≠ Pending → stopTimer k = false) → TimerOff w'.
Proof.
  intros H E Hk p k' Hp Hs. rewrite E in Hp.
  apply lookup_app_Some in Hp as [Hp|[_ Hp]]; [by apply (H p k')|].
  destruct (p - length (stops w)); [|done]. injection Hp as <-. by apply Hk.
Qed.

Lemma TimerOff_same w w' : TimerOff w → stops w' = stops w → TimerOff w'.
Proof. intros H E p k Hp Hs. rewrite E in Hp. by apply (H p k). Qed.

Lemma stops_done_listener i q w :
  stops (done_listener i q w)
  = alter settle_stop q (alter (set_stopTimer false) q (stops w)).
Proof.
  unfold done_listener, resolve_stop. cbn [stops upd_stop]. by rewrite stops_disconnect.
Qed.

Lemma TimerOff_retire w w' q :
  TimerOff w →
  stops w' = alter settle_stop q (alter (set_stopTimer false) q (stops w)) →
  TimerOff w'.
Proof.
  intros H E p k Hp Hs. rewrite E in Hp.
  destruct (decide (q = p)) as [->|Hne].
  - rewrite list_lookup_alter, decide_True in Hp by done.
    rewrite list_lookup_alter, decide_True in Hp by done.
    destruct (stops w !! p) as [k0|]; [|done]. cbn in Hp. injection Hp as <-.
    unfold settle_stop. cbn. by destruct (settled k0).
  - rewrite !list_lookup_alter_ne in Hp by done. by eapply H.
Qed.

Lemma TimerOff_fire_all i L w : TimerOff w → TimerOff (fire_all i L w).
Proof.
  revert w. induction L as [|q L IH]; intros w H; [done|].
  rewrite fire_all_cons. apply IH. eapply TimerOff_retire; [exact H|].
  by rewrite stops_done_listener.
Qed.

Lemma stops_on_message_other c m w :
  is_done m = false → stops (on_message c m w) = stops w.
Proof.
  intros Hd. unfold on_message. destruct (conns w !! c) as [k|]; [|done].
  destruct m as [|type text message]; [done|]. cbn in Hd. rewrite Hd.
  repeat case_match; done.
Qed.

Lemma TimerOff_handle e w : TimerOff w → TimerOff (handle e w).
Proof.
  intros H.
  destruct e as [lang ctorThrows|audioData| |c|c m|c|c|c err|c|c|c|p|ms]; cbn [handle].
  - unfold handle_start. destruct (whisperService _) as [a|].
    + destruct (stop_new_timer a (next_call w)) as (k' & E & Hk).
      destruct (stop a (next_call w)) as [w1 p1]. cbn in *.
      by eapply (TimerOff_snoc w).
    + eapply TimerOff_same; [done|]. by rewrite stops_start_connect.
  - eapply TimerOff_same; [done|]. unfold handle_sendAudio, sendAudio, ws_send. stops_same.
  - unfold handle_stop. destruct (whisperService _) as [a|]; [|done].
    destruct (stop_new_timer a (next_call w)) as (k' & E & Hk).
    destruct (stop a (next_call w)) as [w1 p1]. cbn in *.
    by eapply (TimerOff_snoc w).
  - eapply TimerOff_same; [done|].
    unfold on_open. repeat case_match; rewrite ?stops_send_via_handle; stops_same.
  - destruct (receptive c w) eqn:Hrc; [|done].
    destruct (is_done m) eqn:Hd.
    + apply receptive_hearing in Hrc as (kc & Hkc & _).
      destruct m as [|type text message]; [done|].
      rewrite (is_done_dispatch _ _ _ _ _ _ Hkc Hd). unfold emit_done.
      destruct (services _ !! owner kc) as [s|]; [|done].
      by apply (TimerOff_fire_all (owner kc) (doneOnce s)).
    + eapply TimerOff_same; [done|]. by apply stops_on_message_other.
  - eapply TimerOff_same; [done|].
    unfold on_ping. repeat case_match; rewrite ?stops_send_via_handle; stops_same.
  - done.
  - eapply TimerOff_same; [done|]. unfold on_error. stops_same.
  - eapply TimerOff_same; [done|]. stops_same.
  - eapply TimerOff_same; [done|]. unfold on_close. stops_same.
  - eapply TimerOff_same; [done|]. unfold on_connect_timeout. stops_same.
  - destruct (stop_timer_due p w); [|done]. unfold on_stop_timeout.
    cbn [stops upd_stop]. destruct (alter _ p (stops w) !! p) as [k|] eqn:Hk.
    + eapply TimerOff_retire; [exact H|]. unfold resolve_stop. cbn [stops upd_stop].
      rewrite stops_disconnect. done.
    + intros q k Hq Hs. cbn [stops upd_stop] in Hq.
      destruct (decide (p = q)) as [->|Hne]; [congruence|].
      rewrite list_lookup_alter_ne in Hq by done. by eapply H.
  - done.
Qed.

Lemma TimerOff_exec acts w : TimerOff w → TimerOff (exec w acts).
Proof.
  revert w. induction acts as [|a acts IH]; intros w H; [done|].
  cbn [exec foldl]. apply IH. destruct a as [e|n]; cbn [act].
  - by apply TimerOff_handle.
  - eapply TimerOff_same; [done|]. apply stops_resume.
Qed.

Lemma TimerOff_init : TimerOff init.
Proof. by intros p k Hp. Qed.

Lemma TimerOff_stop i w : TimerOff w → TimerOff (stop i w).1.
Proof.
  intros H. destruct (stop_new_timer i w) as (k & E & Hk). by eapply TimerOff_snoc.
Qed.

Lemma stop_timer_set_settled p w :
  TimerOff w → stop_settled p w ≠ Pending → stop_timer_set p w = false.
Proof.
  unfold stop_settled, stop_timer_set. intros H Hs.
  destruct (stops w !! p) as [k|] eqn:Hk; [|done]. cbn. by apply (H p k).
Qed.

(** ** The listeners of 'done' are removed as they run *)

Lemma listeners_done_listener i j q w :
  listeners j (done_listener i q w) = listeners j w.
Proof.
  unfold listeners, done_listener, resolve_stop, disconnect.
  destruct (ws_of i _) as [c|]; cbn [services upd_stop upd_service ws_close upd_conn];
    rewrite ?list_lookup_alter; repeat case_decide; subst;
    by destruct (services w !! _).
Qed.

Lemma listeners_fire_all i L w :
  listeners i (fire_all i L w) = filter (λ q, q ∉ L) (listeners i w).
Proof.
  revert w. induction L as [|q L IH]; intros w.
  - cbn. symmetry. induction (listeners i w) as [|x l IHl]; [done|].
    rewrite filter_cons, decide_True by apply not_elem_of_nil. by rewrite IHl.
  - rewrite fire_all_cons, IH, listeners_done_listener.
    unfold listeners at 1. cbn [services upd_service]. rewrite list_lookup_alter, decide_True by done.
    unfold listeners. destruct (services w !! i) as [s|]; [|done]. cbn.
    induction (doneOnce s) as [|x l IHl]; [done|].
    rewrite !filter_cons. destruct (decide (x = q)) as [->|Hne].
    + rewrite decide_False by (by intros ?). rewrite IHl.
      rewrite decide_False; [done|]. intros Hn. apply Hn. by left.
    + rewrite decide_True by done. rewrite filter_cons.
      destruct (decide (x ∉ L)) as [Hx|Hx].
      * rewrite decide_True; [by rewrite IHl|]. rewrite not_elem_of_cons. by split.
      * rewrite decide_False; [done|]. rewrite not_elem_of_cons. by intros [_ ?].
Qed.

Lemma filter_not_in_self (L l : list nat) :
  l ⊆ L → filter (λ q, q ∉ L) l = [].
Proof.
  induction l as [|x l IH]; intros Hl; [done|].
  rewrite filter_cons, decide_False.
  - apply IH. intros y Hy. apply Hl. by right.
  - intros Hn. apply Hn, Hl. by left.
Qed.

Lemma listeners_emit_done i w : listeners i (emit_done i w) = [].
Proof.
  unfold emit_done. destruct (services w !! i) as [s|] eqn:Hs.
  - change (foldl _ w (doneOnce s)) with (fire_all i (doneOnce s) w).
    rewrite listeners_fire_all. unfold listeners. rewrite Hs. cbn.
    by apply filter_not_in_self.
  - unfold listeners. by rewrite Hs.
Qed.

(** ** The socket of a stopped session *)

Lemma closing_or_closed i c w w' :
  Inv w → ws_of i w = Some c → getIsConnected i w = true →
  Evo w w' → torn_down i w' →
  rs_of c w' = Some CLOSING ∨ rs_of c w' = Some CLOSED.
Proof.
  intros H Hw Hc He (_ & _ & Hn).
  apply ws_of_Some in Hw as (s & Hs & Hws).
  unfold getIsConnected in Hc. rewrite Hs in Hc.
  destruct (inv_connected _ _ H i s Hs Hc) as (c' & k & Hws' & Hk & Hh).
  assert (c' = c) as -> by congruence.
  destruct (inv_ws _ _ H i s c Hs Hws) as (k0 & Hk0 & Ho).
  assert (k0 = k) as -> by congruence.
  destruct (evo_conn _ _ He c k Hk) as (k' & Hk' & Hst).
  pose proof (Hn c k' Hk') as Hna. rewrite (cs_owner _ _ Hst) in Hna.
  specialize (Hna Ho). unfold rs_of. rewrite Hk'. cbn.
  destruct (readyState k') as [[]|] eqn:Er; auto.
  - destruct Hna. by left.
  - destruct Hna. by right.
  - pose proof (cs_made _ _ Hst Er) as E0. destruct Hh as [E|E]; congruence.
Qed.

(** ** C4 *)

(** C4, as stated, fails: [stop()] calls [close()] on the socket and does
    not wait for it to close, and on the timeout path it leaves its
    listener of 'done' registered.  When the timer has resolved the call
    and the [transcription:stop] invocation has been answered, the socket
    is CLOSING, the listener is still held, and a transcript frame that
    arrives then is still passed on to the renderer. *)
Lemma stop_timeout_leaves_socket_closing :
  let w := exec init [Ev (IpcStart "en" false); Ev (SockOpen 0);
                      Ev (SockMessage 0 (Message "ready" None None)); Resume 0;
                      Ev IpcStop; Ev (Elapse 10000); Ev (StopTimeout 0); Resume 0] in
  stop_settled 0 w = Resolved ∧
  reply_of 1 (trace w) = Some RVoid ∧
  rs_of 0 w = Some CLOSING ∧
  listeners 0 w = [0] ∧
  sent_to_renderer
    (trace (handle (SockMessage 0 (Message "transcript" (Some "late words") None)) w))
  = sent_to_renderer (trace w) ++ [TranscriptionResult (Some "late words")].
Proof. by vm_compute. Qed.

(** C4, amended: a [stop()] call on a connected session is pending when
    it returns, with its timer set and its listener of 'done' registered;
    from then on it is never rejected; it stays pending under every
    action except a [done] frame delivered to the session or its own
    timer firing, which is due exactly from 10000 ms after the call;
    either of the two resolves it, and once resolved it stays resolved.
    Whenever it is resolved the handle is released, the service is not
    connected, no socket of the session is open or opening, the socket
    that was stopped is closing or closed, and the timer of the call is
    gone; when a [done] frame resolved it, the service holds no listener
    of 'done' any more. *)
Theorem stop_resolves_on_done_or_timeout (acts acts' : list Action) (i c : nat)
    (a : Action) :
  ws_of i (exec init acts) = Some c →
  getIsConnected i (exec init acts) = true →
  let w := exec init acts in
  let p := (stop i w).2 in
  let w2 := exec (stop i w).1 acts' in
  stop_settled p (stop i w).1 = Pending ∧
  (∀ e, stop_settled p w2 ≠ Rejected e) ∧
  (stop_settled p w2 = Resolved →
     stopped i p c w2 ∧ stop_settled p (act w2 a) = Resolved) ∧
  (stop_settled p w2 = Pending →
     stop_timer_set p w2 = true ∧ p ∈ listeners i w2 ∧
     stop_timer_due p w2 = (now w + 10000 <=? now w2)%N ∧
     stop_settled p (act w2 a) = (if finishes p i w2 a then Resolved else Pending) ∧
     (finishes p i w2 a = true →
        stopped i p c (act w2 a) ∧
        (∀ c' m, a = Ev (SockMessage c' m) → listeners i (act w2 a) = []))).
Proof.
  intros Hw Hc w p w2.
  assert (H : Inv w) by apply exec_Inv, Inv_init.
  assert (Hi : i < length (services w)).
  { apply ws_of_Some in Hw as (s & Hs & _). by eapply lookup_lt_Some. }
  pose proof (stop_InvE _ i w H Hi) as H1.
  pose proof (connected_not_connecting _ _ _ _ H Hc Hw) as Hn.
  pose proof (stop_connected i c w Hw Hc Hn) as E.
  assert (Hp : p = length (stops w)) by (by unfold p; rewrite E).
  set (k0 := mkStopCall i Pending (now w + 10000)%N true).
  assert (Hk0 : stops (stop i w).1 !! p = Some k0).
  { rewrite E, Hp. cbn [fst stops upd_service new_stop].
    apply list_lookup_middle. by destruct (bool_decide _). }
  assert (H2 : Inv w2) by by apply exec_Inv.
  assert (HT : TimerOff w2).
  { apply TimerOff_exec, TimerOff_stop, TimerOff_exec, TimerOff_init. }
  assert (HE : Evo w w2).
  { eapply Evo_trans; [apply Evo_stop, Evo_refl|apply Evo_exec]. }
  destruct (ext_stop _ _ (Ext_exec acts' (stop i w).1) p k0 Hk0)
    as (k' & Hk' & Ht' & Hd' & _).
  fold w2 in Hk'. cbn in Ht', Hd'.
  assert (Hrel : ∀ w', Inv w' → TimerOff w' → Evo w w' →
                       stop_settled p w' = Resolved →
                       (∀ k, stops w' !! p = Some k → target k = i) → stopped i p c w').
  { intros w' H' HT' HE' Hr Ht.
    assert (Htd : torn_down i w').
    { apply stop_settled_Some in Hr as (k & Hk & Hr); [|done].
      rewrite <- (Ht k Hk). apply (Inv_torn_down _ _ _ H').
      - by apply (inv_resolved _ _ H' p k).
      - by apply (inv_target _ _ H' p k). }
    unfold stopped. split; [done|]. split.
    - apply stop_timer_set_settled; [done|]. by rewrite Hr.
    - by apply (closing_or_closed i c w w'). }
  split; [by unfold stop_settled; rewrite Hk0|]. split; [|split].
  - intros e He. apply stop_settled_Some in He as (k & Hk & He); [|done].
    by apply (inv_settled _ _ H2 p k e).
  - intros Hr. split.
    + apply Hrel; try done. intros k Hk. congruence.
    + unfold stop_settled in Hr. rewrite Hk' in Hr.
      destruct (ext_stop _ _ (Ext_act a w2) p k' Hk') as (k'' & Hk'' & _ & _ & Hs'').
      unfold stop_settled. rewrite Hk''. rewrite Hs''; [done|]. by rewrite Hr.
  - intros Hpend. unfold stop_settled in Hpend. rewrite Hk' in Hpend.
    destruct (inv_pending _ _ H2 p k' (not_elem_of_nil _) Hk' Hpend)
      as (Htm & s & Hs & Hin).
    split; [by unfold stop_timer_set; rewrite Hk'|].
    split; [by unfold listeners; rewrite <- Ht', Hs|].
    split; [|split].
    + unfold stop_timer_due. by rewrite Hk', Htm, Hd'.
    + rewrite <- Ht'. by apply pending_unless_finished.
    + intros Hf. split.
      * apply Hrel.
        -- by apply act_Inv.
        -- change (act w2 a) with (exec w2 [a]). by apply TimerOff_exec.
        -- eapply Evo_trans; [exact HE|apply Evo_act].
        -- rewrite (pending_unless_finished p k' w2 a H2 Hk' Hpend), Ht'. by rewrite Hf.
        -- intros k Hk.
           destruct (ext_stop _ _ (Ext_act a w2) p k' Hk') as (k'' & Hk'' & Ht'' & _).
           congruence.
      * intros c' m ->. cbn [finishes] in Hf.
        apply andb_prop in Hf as [Hf Ho]. apply andb_prop in Hf as [Hd Hrc].
        apply bool_decide_eq_true in Ho. unfold owner_of in Ho.
        cbn [act handle]. rewrite Hrc.
        apply receptive_hearing in Hrc as (kc & Hkc & _).
        rewrite Hkc in Ho. cbn in Ho. injection Ho as Ho.
        destruct m as [|type text message]; [done|].
        rewrite (is_done_dispatch _ _ _ _ _ _ Hkc Hd), Ho.
        apply listeners_emit_done.
Qed.

Lemma stop_resolves_on_done_or_timeout_witness :
  let w2 := exec (stop 0 (exec init [Ev (IpcStart "en" false); Ev (SockOpen 0);
                                     Ev (SockMessage 0 (Message "ready" None None));
                                     Resume 0])).1
                 [Ev (Elapse 3000)] in
  let w3 := act w2 (Ev (SockMessage 0 (Message "done" None None))) in
  stop_settled 0 w3 = Resolved ∧ torn_down 0 w3 ∧ stop_timer_set 0 w3 = false ∧
  listeners 0 w3 = [].
Proof.
  destruct (stop_resolves_on_done_or_timeout
              [Ev (IpcStart "en" false); Ev (SockOpen 0);
               Ev (SockMessage 0 (Message "ready" None None)); Resume 0]
              [Ev (Elapse 3000)] 0 0
              (Ev (SockMessage 0 (Message "done" None None))))
    as (_ & _ & _ & H); [by vm_compute..|].
  destruct H as (_ & _ & _ & H & Hf); [by vm_compute|].
  destruct Hf as ((Ht & Hs & _) & Hl); [by vm_compute|].
  split; [exact H|]. split; [exact Ht|]. split; [exact Hs|].
  exact (Hl 0 (Message "done" None None) eq_refl).
Defined.


(** * The database *)

Ltac db_unfold :=
  unfold Db.createMeeting, Db.updateMeeting, Db.deleteMeeting, Db.saveTranscript,
    Db.saveNotes, Db.saveEnhancedNotes, Db.saveEvaluation, Db.updateEvaluationRating;
  unfold Db.getMeetings, Db.getEvaluations, Db.rows_or_throw, Db.getMeetingById, Db.getTranscriptByMeetingId,
    Db.getNotesByMeetingId, Db.insert_meeting,
    Db.insert_transcript, Db.insert_note, Db.insert_evaluation;
  unfold Db.getDb, mbind, mret, Db.Query_bind, Db.Query_ret, Db.bind, Db.ret,
    Db.read, Db.write, Db.throw.

Lemma getDb_closed d : Db.connected d = false → Db.getDb d = (inr Db.NotInitialized, d).
Proof. intros E. db_unfold. by rewrite E. Qed.

Lemma getDb_open d : Db.connected d = true → Db.getDb d = (inl tt, d).
Proof. intros E. db_unfold. by rewrite E. Qed.

Lemma getMeetingById_open id d :
  Db.connected d = true →
  Db.getMeetingById id d
  = (inl (head (filter (λ m, Db.Meeting.id m = id) (Db.meetings d))), d).
Proof. intros E. db_unfold. by rewrite E. Qed.

Lemma getTranscript_open m d :
  Db.connected d = true →
  Db.getTranscriptByMeetingId m d
  = (inl (head (filter (λ t, Db.Transcript.meetingId t = m) (Db.transcripts d))), d).
Proof. intros E. db_unfold. by rewrite E. Qed.

Lemma getNotes_open m d :
  Db.connected d = true →
  Db.getNotesByMeetingId m d
  = (inl (head (Db.order_by_desc Db.Note.version
                  (filter (λ n, Db.Note.meetingId n = m) (Db.notes d)))), d).
Proof. intros E. db_unfold. by rewrite E. Qed.

(** ** Lists of rows *)

Lemma order_by_desc_perm {A} (key : A → Z) l : Db.order_by_desc key l ≡ₚ l.
Proof. apply merge_sort_Permutation. Qed.

Lemma order_by_desc_nil {A} (key : A → Z) : Db.order_by_desc key [] = [].
Proof. apply Permutation_nil_r. by rewrite order_by_desc_perm. Qed.

Lemma order_by_desc_singleton {A} (key : A → Z) x : Db.order_by_desc key [x] = [x].
Proof. apply Permutation_singleton_r. by rewrite order_by_desc_perm. Qed.

(** Rows selected by a key that is unique. *)
Lemma filter_key_NoDup {A} `{EqDecision K} (key : A → K) (l : list A) k :
  NoDup (key <$> l) →
  filter (λ r, key r = k) l = [] ∨ ∃ r, filter (λ r, key r = k) l = [r] ∧ key r = k ∧ r ∈ l.
Proof.
  induction l as [|x l IH]; [by left|]. rewrite fmap_cons. intros Hnd.
  apply NoDup_cons in Hnd as [Hx Hnd]. rewrite filter_cons.
  destruct (decide (key x = k)) as [E|E].
  - right. exists x. split; [|split; [done|by left]]. f_equal.
    destruct (IH Hnd) as [->|(r & _ & Hr & Hin)]; [done|].
    destruct Hx. rewrite E, <- Hr. apply list_elem_of_fmap. eauto.
  - destruct (IH Hnd) as [?|(r & ? & ? & ?)]; [by left|]. right. exists r.
    split; [done|]. split; [done|]. by right.
Qed.

Lemma filter_key_absent {A} `{EqDecision K} (key : A → K) (l : list A) k :
  filter (λ r, key r = k) l = [] ↔ k ∉ key <$> l.
Proof.
  induction l as [|x l IH].
  - split; [intros _; apply not_elem_of_nil|done].
  - rewrite fmap_cons, filter_cons. destruct (decide (key x = k)) as [E|E].
    + split; [done|]. intros H. destruct H. rewrite E. by left.
    + rewrite IH, not_elem_of_cons. split; [intros ?; split; [congruence|done]|by intros [_ ?]].
Qed.

Lemma update_where_key {A K} (key : A → K) p f (l : list A) :
  (∀ r, key (f r) = key r) → key <$> Db.update_where p f l = key <$> l.
Proof.
  intros Hf. unfold Db.update_where. rewrite <- list_fmap_compose.
  apply list_fmap_ext. intros i x _. cbn. by destruct (p x).
Qed.

Lemma filter_update_where {A} `{EqDecision K} (key : A → K) f (l : list A) k :
  (∀ r, key (f r) = key r) →
  filter (λ r, key r = k) (Db.update_where (λ r, bool_decide (key r = k)) f l)
  = f <$> filter (λ r, key r = k) l.
Proof.
  intros Hf. induction l as [|x l IH]; [done|].
  unfold Db.update_where in *. rewrite fmap_cons, !filter_cons. cbn beta.
  case_bool_decide as E; [rewrite Hf|]; repeat case_decide; try done.
  rewrite fmap_cons. by rewrite IH.
Qed.

Lemma filter_update_where_other {A} `{EqDecision K} (key : A → K) p f (l : list A) k :
  (∀ r, key (f r) = key r) → (∀ r, p r = true → key r ≠ k) →
  filter (λ r, key r = k) (Db.update_where p f l) = filter (λ r, key r = k) l.
Proof.
  intros Hf Hp. induction l as [|x l IH]; [done|].
  unfold Db.update_where in *. rewrite fmap_cons, !filter_cons. cbn beta.
  destruct (p x) eqn:E; [rewrite Hf|]; repeat case_decide; try done;
    try (by rewrite IH); by destruct (Hp x E).
Qed.

(** ** The writes, when the database is open *)

Lemma saveNotes_open m raw id now d :
  Db.connected d = true →
  Db.saveNotes m raw id now d
  = match head (Db.order_by_desc Db.Note.version
                  (filter (λ n, Db.Note.meetingId n = m) (Db.notes d))) with
    | Some e =>
      Db.getNotesByMeetingId m
        (Db.set_notes
           (Db.update_where (λ n, bool_decide (Db.Note.id n = Db.Note.id e))
              (λ n, Db.Note.mk (Db.Note.id n) (Db.Note.meetingId n) (Some raw)
                      (Db.Note.enhancedNotes n) (Db.Note.llmModel n)
                      (Db.Note.enhancementLatencyMs n) (Db.Note.version n)
                      (Db.Note.createdAt n) (Some (Db.seconds now)))
              (Db.notes d)) d)
    | None =>
      if bool_decide (id ∈ Db.Note.id <$> Db.notes d)
      then (inr (Db.UniqueConstraint "notes.id"), d)
      else if Db.references_ok (Some m) d
      then Db.getNotesByMeetingId m
             (Db.set_notes
                (Db.notes d ++ [Db.Note.mk id m (Some raw) None None None 1
                                  (Some (Db.seconds now)) (Some (Db.seconds now))]) d)
      else (inr Db.ForeignKeyConstraint, d)
    end.
Proof.
  intros E. db_unfold. rewrite E. cbn. rewrite ?E.
  destruct (head _); cbn; rewrite ?E; [done|].
  case_bool_decide; [done|]. destruct (_ || _); cbn; by rewrite ?E.
Qed.

Lemma saveEnhancedNotes_open m enh model lat id now d :
  Db.connected d = true →
  Db.saveEnhancedNotes m enh model lat id now d
  = match head (Db.order_by_desc Db.Note.version
                  (filter (λ n, Db.Note.meetingId n = m) (Db.notes d))) with
    | Some e =>
      Db.getNotesByMeetingId m
        (Db.set_notes
           (Db.update_where (λ n, bool_decide (Db.Note.id n = Db.Note.id e))
              (λ n, Db.Note.mk (Db.Note.id n) (Db.Note.meetingId n) (Db.Note.rawNotes n)
                      (Some enh) (Some model) (Some lat) (Db.Note.version n)
                      (Db.Note.createdAt n) (Some (Db.seconds now)))
              (Db.notes d)) d)
    | None =>
      if bool_decide (id ∈ Db.Note.id <$> Db.notes d)
      then (inr (Db.UniqueConstraint "notes.id"), d)
      else if Db.references_ok (Some m) d
      then Db.getNotesByMeetingId m
             (Db.set_notes
                (Db.notes d ++ [Db.Note.mk id m None (Some enh) (Some model) (Some lat) 1
                                  (Some (Db.seconds now)) (Some (Db.seconds now))]) d)
      else (inr Db.ForeignKeyConstraint, d)
    end.
Proof.
  intros E. db_unfold. rewrite E. cbn. rewrite ?E.
  destruct (head _); cbn; rewrite ?E; [done|].
  case_bool_decide; [done|]. destruct (_ || _); cbn; by rewrite ?E.
Qed.

Lemma saveTranscript_open m data id now d :
  Db.connected d = true →
  Db.saveTranscript m data id now d
  = match head (filter (λ t, Db.Transcript.meetingId t = m) (Db.transcripts d)) with
    | Some _ =>
      Db.getTranscriptByMeetingId m
        (Db.set_transcripts
           (Db.update_where (λ t, bool_decide (Db.Transcript.meetingId t = m))
              (λ t, Db.Transcript.mk (Db.Transcript.id t) (Db.Transcript.meetingId t)
                      (Some (Db.td_fullText data)) (Some (Db.td_segments data))
                      (Some (Db.td_sttModel data))
                      (Some (default "en" (Db.td_language data)))
                      (Db.Transcript.createdAt t))
              (Db.transcripts d)) d)
    | None =>
      if bool_decide (id ∈ Db.Transcript.id <$> Db.transcripts d)
      then (inr (Db.UniqueConstraint "transcripts.id"), d)
      else if Db.references_ok (Some m) d
      then Db.getTranscriptByMeetingId m
             (Db.set_transcripts
                (Db.transcripts d ++
                 [Db.Transcript.mk id m (Some (Db.td_fullText data))
                    (Some (Db.td_segments data)) (Some (Db.td_sttModel data))
                    (Some (default "en" (Db.td_language data)))
                    (Some (Db.seconds now))]) d)
      else (inr Db.ForeignKeyConstraint, d)
    end.
Proof.
  intros E. db_unfold. rewrite E. cbn. rewrite ?E.
  destruct (head _); cbn; rewrite ?E; [done|].
  case_bool_decide; [done|]. destruct (_ || _); cbn; by rewrite ?E.
Qed.

Lemma createMeeting_open title templateId date id now d :
  Db.connected d = true →
  Db.createMeeting title templateId date id now d
  = if bool_decide (id ∈ Db.Meeting.id <$> Db.meetings d)
    then (inr (Db.UniqueConstraint "meetings.id"), d)
    else Db.getMeetingById id
           (Db.set_meetings
              (Db.meetings d ++
               [Db.Meeting.mk id title (Db.seconds (default now date)) None templateId
                  (Some Db.recording) (Some (Db.seconds now)) (Some (Db.seconds now))]) d).
Proof.
  intros E. db_unfold. rewrite E. cbn. case_bool_decide; cbn; by rewrite ?E.
Qed.

Lemma updateMeeting_open id data now d :
  Db.connected d = true →
  Db.updateMeeting id data now d
  = Db.getMeetingById id
      (Db.set_meetings
         (Db.update_where (λ m, bool_decide (Db.Meeting.id m = id))
            (Db.apply_update data now) (Db.meetings d)) d).
Proof. intros E. db_unfold. rewrite E. cbn. by rewrite E. Qed.

Lemma deleteMeeting_open id d :
  Db.connected d = true → Db.deleteMeeting id d = (inl true, Db.delete_meeting id d).
Proof. intros E. db_unfold. by rewrite E. Qed.

(** A query that throws writes nothing. *)
Lemma closed_unchanged c d : Db.connected d = false →
  match c with
  | Db.InitDatabase => True
  | _ => Db.perform d c = d
  end.
Proof.
  intros E. destruct c; try done; cbn [Db.perform]; try (db_unfold; by rewrite E).
  destruct d; cbn in *. by subst.
Qed.

(** ** Reads write nothing *)

Lemma getMeetingById_state id d : (Db.getMeetingById id d).2 = d.
Proof. db_unfold. by destruct (Db.connected d). Qed.

Lemma getTranscript_state m d : (Db.getTranscriptByMeetingId m d).2 = d.
Proof. db_unfold. by destruct (Db.connected d). Qed.

Lemma getNotes_state m d : (Db.getNotesByMeetingId m d).2 = d.
Proof. db_unfold. by destruct (Db.connected d). Qed.

Lemma head_order_by_desc_None {A} (key : A → Z) l :
  head (Db.order_by_desc key l) = None → l = [].
Proof.
  intros H. apply Permutation_nil_r. rewrite <- (order_by_desc_perm key l).
  by destruct (Db.order_by_desc key l).
Qed.

Lemma head_order_by_desc_Some {A} (key : A → Z) l x :
  head (Db.order_by_desc key l) = Some x → x ∈ l.
Proof.
  intros H. rewrite <- (order_by_desc_perm key l).
  destruct (Db.order_by_desc key l); [done|]. injection H as ->. by left.
Qed.

Lemma NoDup_fmap_filter {A K} (key : A → K) (P : A → Prop) `{∀ x, Decision (P x)} l :
  NoDup (key <$> l) → NoDup (key <$> filter P l).
Proof.
  intros Hn. eapply sublist_NoDup; [done|]. apply fmap_sublist, sublist_filter.
Qed.

Lemma NoDup_fmap_snoc {A K} (key : A → K) l x :
  NoDup (key <$> l) → key x ∉ key <$> l → NoDup (key <$> (l ++ [x])).
Proof.
  intros Hn Hx. rewrite fmap_app. apply NoDup_app. split; [done|]. split.
  - intros k Hk Hin. apply list_elem_of_singleton in Hin. by subst.
  - apply NoDup_singleton.
Qed.

(** ** Keys stay unique *)

Lemma WellKeyed_empty fk : Db.WellKeyed (Db.empty fk).
Proof. split; cbn; apply NoDup_nil_2. Qed.

Lemma WellKeyed_perform d c : Db.WellKeyed d → Db.WellKeyed (Db.perform d c).
Proof.
  intros W. destruct (Db.connected d) eqn:E.
  2: { pose proof (closed_unchanged c d E) as H. destruct c; try (by rewrite H).
       by destruct W. }
  destruct W as [Wm Wt Wn We Wt1 Wn1].
  destruct c as [| |title templateId date id now|id data now|id|m data id now
                |m raw id now|m enh model lat id now|data id now|id rating evalNotes];
    cbn [Db.perform].
  - by split.
  - by split.
  - rewrite createMeeting_open by done. case_bool_decide as Hid; [by split|].
    rewrite getMeetingById_state. split; cbn; try done.
    by apply NoDup_fmap_snoc.
  - rewrite updateMeeting_open, getMeetingById_state by done. split; cbn; try done.
    by rewrite update_where_key.
  - rewrite deleteMeeting_open by done. cbn [snd]. unfold Db.delete_meeting.
    destruct (_ && _); split; cbn; try done; try (by apply NoDup_fmap_filter);
      by rewrite update_where_key.
  - rewrite saveTranscript_open by done.
    destruct (head _) as [e|] eqn:He.
    + rewrite getTranscript_state. split; cbn; try done; by rewrite update_where_key.
    + case_bool_decide as Hid; [by split|].
      destruct (Db.references_ok _ _); [|by split].
      rewrite getTranscript_state. split; cbn; try done; apply NoDup_fmap_snoc; try done.
      cbn. apply filter_key_absent. by destruct (filter _ _).
  - rewrite saveNotes_open by done.
    destruct (head _) as [e|] eqn:He.
    + rewrite getNotes_state. split; cbn; try done; by rewrite update_where_key.
    + case_bool_decide as Hid; [by split|].
      destruct (Db.references_ok _ _); [|by split].
      rewrite getNotes_state. split; cbn; try done; apply NoDup_fmap_snoc; try done.
      cbn. apply filter_key_absent. by apply head_order_by_desc_None in He.
  - rewrite saveEnhancedNotes_open by done.
    destruct (head _) as [e|] eqn:He.
    + rewrite getNotes_state. split; cbn; try done; by rewrite update_where_key.
    + case_bool_decide as Hid; [by split|].
      destruct (Db.references_ok _ _); [|by split].
      rewrite getNotes_state. split; cbn; try done; apply NoDup_fmap_snoc; try done.
      cbn. apply filter_key_absent. by apply head_order_by_desc_None in He.
  - db_unfold. rewrite E. cbn. destruct (negb _); [by split|].
    case_bool_decide as Hid; [by split|]. destruct (Db.references_ok _ _); [|by split].
    split; cbn; try done. by apply NoDup_fmap_snoc.
  - db_unfold. rewrite E. cbn. destruct (_ && _); [by split|].
    split; cbn; try done. by rewrite update_where_key.
Qed.

Lemma WellKeyed_history fk cs : Db.WellKeyed (Db.history fk cs).
Proof.
  unfold Db.history. induction cs as [|c cs IH] using rev_ind; [apply WellKeyed_empty|].
  rewrite foldl_app. cbn. by apply WellKeyed_perform.
Qed.

(** ** What a history keeps *)

Lemma foreign_keys_perform d c : Db.foreign_keys (Db.perform d c) = Db.foreign_keys d.
Proof.
  destruct (Db.connected d) eqn:E.
  2: { pose proof (closed_unchanged c d E) as H. destruct c; by rewrite ?H. }
  destruct c as [| |title templateId date id now|id data now|id|m data id now
                |m raw id now|m enh model lat id now|data id now|id rating evalNotes];
    cbn [Db.perform]; try done.
  - rewrite createMeeting_open by done. case_bool_decide; [done|].
    by rewrite getMeetingById_state.
  - by rewrite updateMeeting_open, getMeetingById_state.
  - rewrite deleteMeeting_open by done. cbn [snd]. unfold Db.delete_meeting.
    by destruct (_ && _).
  - rewrite saveTranscript_open by done. destruct (head _).
    + by rewrite getTranscript_state.
    + case_bool_decide; [done|]. destruct (Db.references_ok _ _); [|done].
      by rewrite getTranscript_state.
  - rewrite saveNotes_open by done. destruct (head _).
    + by rewrite getNotes_state.
    + case_bool_decide; [done|]. destruct (Db.references_ok _ _); [|done].
      by rewrite getNotes_state.
  - rewrite saveEnhancedNotes_open by done. destruct (head _).
    + by rewrite getNotes_state.
    + case_bool_decide; [done|]. destruct (Db.references_ok _ _); [|done].
      by rewrite getNotes_state.
  - db_unfold. rewrite E. cbn. destruct (negb _); [done|].
    case_bool_decide; [done|]. by destruct (Db.references_ok _ _).
  - db_unfold. rewrite E. cbn. by destruct (_ && _).
Qed.

Lemma foreign_keys_history fk cs : Db.foreign_keys (Db.history fk cs) = fk.
Proof.
  unfold Db.history. induction cs as [|c cs IH] using rev_ind; [done|].
  rewrite foldl_app. cbn. by rewrite foreign_keys_perform.
Qed.

Lemma history_snoc fk cs c : Db.history fk (cs ++ [c]) = Db.perform (Db.history fk cs) c.
Proof. unfold Db.history. by rewrite foldl_app. Qed.

(** ** Rows under a unique key *)

Lemma NoDup_fmap_inj_on {A K} (key : A → K) l x y :
  NoDup (key <$> l) → x ∈ l → y ∈ l → key x = key y → x = y.
Proof.
  induction l as [|z l IH]; [by intros _ ?%elem_of_nil|].
  rewrite fmap_cons, NoDup_cons. intros [Hz Hn] Hx Hy E.
  apply elem_of_cons in Hx as [->|Hx]; apply elem_of_cons in Hy as [->|Hy]; try done.
  - destruct Hz. rewrite E. apply list_elem_of_fmap. eauto.
  - destruct Hz. rewrite <- E. apply list_elem_of_fmap. eauto.
  - by apply IH.
Qed.

Lemma update_where_ext {A} (p q : A → bool) f l :
  (∀ r, r ∈ l → p r = q r) → Db.update_where p f l = Db.update_where q f l.
Proof.
  intros H. unfold Db.update_where. apply list_fmap_ext. intros i x Hx.
  rewrite (H x); [done|]. by eapply list_elem_of_lookup_2.
Qed.

Lemma update_where_none {A} (p : A → bool) f l :
  (∀ r, r ∈ l → p r = false) → Db.update_where p f l = l.
Proof.
  intros H. unfold Db.update_where. rewrite <- (list_fmap_id l) at 2.
  apply list_fmap_ext. intros i x Hx. rewrite (H x); [done|].
  by eapply list_elem_of_lookup_2.
Qed.

Lemma length_update_where {A} (p : A → bool) f l :
  length (Db.update_where p f l) = length l.
Proof. unfold Db.update_where. by rewrite length_fmap. Qed.

Lemma filter_singleton_elem {A} (P : A → Prop) `{∀ x, Decision (P x)} l e :
  filter P l = [e] → P e ∧ e ∈ l.
Proof.
  intros He. apply (list_elem_of_filter P l e). rewrite He. by left.
Qed.

(** A row found by its second key is the row found by its first key. *)
Lemma update_where_rekey {A} `{EqDecision K1} `{EqDecision K2}
    (k1 : A → K1) (k2 : A → K2) f l e m :
  NoDup (k1 <$> l) → NoDup (k2 <$> l) →
  filter (λ r, k2 r = m) l = [e] →
  Db.update_where (λ r, bool_decide (k1 r = k1 e)) f l
  = Db.update_where (λ r, bool_decide (k2 r = m)) f l.
Proof.
  intros H1 H2 He. apply filter_singleton_elem in He as [Em Hin].
  apply update_where_ext. intros r Hr. apply bool_decide_ext. split.
  - intros E. by rewrite (NoDup_fmap_inj_on k1 l r e H1 Hr Hin E).
  - intros E. rewrite (NoDup_fmap_inj_on k2 l r e H2 Hr Hin); [done|congruence].
Qed.

Lemma head_order_by_desc_singleton {A} `{EqDecision K} (key : A → Z) (k : A → K) l m e :
  NoDup (k <$> l) →
  head (Db.order_by_desc key (filter (λ r, k r = m) l)) = Some e →
  filter (λ r, k r = m) l = [e].
Proof.
  intros Hn He. destruct (filter_key_NoDup k l m Hn) as [E|(r & E & _)]; rewrite E in He |- *.
  - by rewrite order_by_desc_nil in He.
  - rewrite order_by_desc_singleton in He. by injection He as ->.
Qed.

Lemma head_filter_singleton {A} `{EqDecision K} (k : A → K) l m e :
  NoDup (k <$> l) →
  head (filter (λ r, k r = m) l) = Some e →
  filter (λ r, k r = m) l = [e].
Proof.
  intros Hn He. destruct (filter_key_NoDup k l m Hn) as [E|(r & E & _)]; rewrite E in He |- *.
  - done.
  - by injection He as ->.
Qed.

Lemma filter_snoc_other {A} `{EqDecision K} (k : A → K) l x m :
  k x ≠ m → filter (λ r, k r = m) (l ++ [x]) = filter (λ r, k r = m) l.
Proof.
  intros H. rewrite filter_app, filter_cons, filter_nil.
  case_decide; [done|]. by rewrite app_nil_r.
Qed.

Lemma filter_snoc_new {A} `{EqDecision K} (k : A → K) l x :
  filter (λ r, k r = k x) l = [] → filter (λ r, k r = k x) (l ++ [x]) = [x].
Proof.
  intros H. rewrite filter_app, H, filter_cons, filter_nil. by case_decide.
Qed.

(** ** ORDER BY ... DESC LIMIT ... OFFSET *)

Lemma order_by_desc_sorted {A} (key : A → Z) l :
  StronglySorted (λ a b, (key b ≤ key a)%Z) (Db.order_by_desc key l).
Proof.
  unfold Db.order_by_desc. apply StronglySorted_merge_sort.
  - intros a b c ? ?. lia.
  - intros a b. lia.
Qed.

Lemma StronglySorted_mono {A} (R1 R2 : relation A) l :
  (∀ a b, R1 a b → R2 a b) → StronglySorted R1 l → StronglySorted R2 l.
Proof.
  intros HR. induction 1 as [|x l Hl IH Hx]; constructor; [done|].
  eapply Forall_impl; [done|]. intros y. apply HR.
Qed.

(** [LIMIT n OFFSET m] cuts a window out of the listing. *)
Lemma limit_offset_window {A} limit offset (l : list A) :
  (0 ≤ limit)%Z →
  ∃ before listed after,
    Db.limit_offset limit offset l = inl listed ∧
    l = before ++ listed ++ after ∧
    length before = Z.to_nat offset `min` length l ∧
    length listed = Z.to_nat limit `min` (length l - Z.to_nat offset).
Proof.
  intros Hl. unfold Db.limit_offset.
  destruct (Z.leb_spec 0 limit) as [_|?]; [|lia].
  exists (take (Z.to_nat offset) l),
         (take (Z.to_nat limit) (drop (Z.to_nat offset) l)),
         (drop (Z.to_nat limit) (drop (Z.to_nat offset) l)).
  split; [done|]. split; [by rewrite !take_drop|].
  rewrite !length_take, length_drop. lia.
Qed.

Lemma limit_offset_unlimited {A} limit (l : list A) :
  (limit < 0)%Z → Db.limit_offset limit 0 l = inl l.
Proof.
  intros Hl. unfold Db.limit_offset. by destruct (Z.leb_spec 0 limit) as [?|_]; [lia|].
Qed.

Lemma limit_offset_rejected {A} limit offset (l : list A) :
  (limit < 0)%Z → offset ≠ 0%Z →
  Db.limit_offset limit offset l = inr (Db.SyntaxError "offset").
Proof.
  intros Hl Ho. unfold Db.limit_offset.
  destruct (Z.leb_spec 0 limit) as [?|_]; [lia|].
  by destruct (Z.eqb_spec offset 0).
Qed.

(** ** Notes: one row for a meeting *)

Lemma saveNotes_closed m raw id now d :
  Db.connected d = false → Db.saveNotes m raw id now d = (inr Db.NotInitialized, d).
Proof. intros E. db_unfold. by rewrite E. Qed.

Lemma saveEnhancedNotes_closed m enh model lat id now d :
  Db.connected d = false →
  Db.saveEnhancedNotes m enh model lat id now d = (inr Db.NotInitialized, d).
Proof. intros E. db_unfold. by rewrite E. Qed.

Lemma saveTranscript_closed m data id now d :
  Db.connected d = false → Db.saveTranscript m data id now d = (inr Db.NotInitialized, d).
Proof. intros E. db_unfold. by rewrite E. Qed.

Lemma getNotes_closed m d :
  Db.connected d = false → Db.getNotesByMeetingId m d = (inr Db.NotInitialized, d).
Proof. intros E. db_unfold. by rewrite E. Qed.

Lemma getNotes_found d m :
  Db.connected d = true → Db.WellKeyed d →
  Db.getNotesByMeetingId m d
  = (inl (head (filter (λ n, Db.Note.meetingId n = m) (Db.notes d))), d).
Proof.
  intros E W. rewrite getNotes_open by done. do 2 f_equal.
  destruct (filter_key_NoDup Db.Note.meetingId (Db.notes d) m (Db.wk_one_note d W))
    as [->|(r & -> & _)].
  - by rewrite order_by_desc_nil.
  - by rewrite order_by_desc_singleton.
Qed.

(** The update of [saveNotes] and [saveEnhancedNotes], which selects the
    row by the id of the one that [getNotesByMeetingId] returned. *)
Lemma notes_update d m f e :
  Db.WellKeyed d →
  head (Db.order_by_desc Db.Note.version
          (filter (λ n, Db.Note.meetingId n = m) (Db.notes d))) = Some e →
  (∀ n, Db.Note.meetingId (f n) = Db.Note.meetingId n) →
  filter (λ n, Db.Note.meetingId n = m) (Db.notes d) = [e]
  ∧ Db.update_where (λ n, bool_decide (Db.Note.id n = Db.Note.id e)) f (Db.notes d)
    = Db.update_where (λ n, bool_decide (Db.Note.meetingId n = m)) f (Db.notes d)
  ∧ filter (λ n, Db.Note.meetingId n = m)
      (Db.update_where (λ n, bool_decide (Db.Note.meetingId n = m)) f (Db.notes d)) = [f e]
  ∧ ∀ m', m' ≠ m →
      filter (λ n, Db.Note.meetingId n = m')
        (Db.update_where (λ n, bool_decide (Db.Note.meetingId n = m)) f (Db.notes d))
      = filter (λ n, Db.Note.meetingId n = m') (Db.notes d).
Proof.
  intros W He Hf.
  pose proof (head_order_by_desc_singleton _ Db.Note.meetingId _ _ _ (Db.wk_one_note d W) He)
    as Hone.
  split; [done|]. split; [|split].
  - by apply update_where_rekey; [apply (Db.wk_notes d W)|apply (Db.wk_one_note d W)|].
  - by rewrite (filter_update_where Db.Note.meetingId f _ m Hf), Hone.
  - intros m' Hm. apply filter_update_where_other; [done|].
    intros r Hr. apply bool_decide_eq_true in Hr. congruence.
Qed.

Lemma WellKeyed_set_notes d l :
  Db.WellKeyed d → NoDup (Db.Note.id <$> l) → NoDup (Db.Note.meetingId <$> l) →
  Db.WellKeyed (Db.set_notes l d).
Proof. intros [] ? ?. by split. Qed.

Lemma WellKeyed_set_transcripts d l :
  Db.WellKeyed d → NoDup (Db.Transcript.id <$> l) → NoDup (Db.Transcript.meetingId <$> l) →
  Db.WellKeyed (Db.set_transcripts l d).
Proof. intros [] ? ?. by split. Qed.

(** What a successful write of notes does, for any rewriting [f] of the
    row that is there and any row [new] that is inserted otherwise. *)
Lemma notes_upsert d m f new r d' :
  Db.connected d = true → Db.WellKeyed d →
  (∀ n, Db.Note.meetingId (f n) = Db.Note.meetingId n) →
  (∀ n, Db.Note.id (f n) = Db.Note.id n) →
  Db.Note.meetingId new = m →
  match head (Db.order_by_desc Db.Note.version
                (filter (λ n, Db.Note.meetingId n = m) (Db.notes d))) with
  | Some e =>
    Db.getNotesByMeetingId m
      (Db.set_notes
         (Db.update_where (λ n, bool_decide (Db.Note.id n = Db.Note.id e)) f (Db.notes d)) d)
  | None =>
    if bool_decide (Db.Note.id new ∈ Db.Note.id <$> Db.notes d)
    then (inr (Db.UniqueConstraint "notes.id"), d)
    else if Db.references_ok (Some m) d
    then Db.getNotesByMeetingId m (Db.set_notes (Db.notes d ++ [new]) d)
    else (inr Db.ForeignKeyConstraint, d)
  end = (inl r, d') →
  ∃ n, r = Some n
    ∧ Db.getNotesByMeetingId m d' = (inl (Some n), d')
    ∧ filter (λ x, Db.Note.meetingId x = m) (Db.notes d') = [n]
    ∧ (∀ old, Db.getNotesByMeetingId m d = (inl (Some old), d) →
         n = f old ∧ length (Db.notes d') = length (Db.notes d))
    ∧ (Db.getNotesByMeetingId m d = (inl None, d) →
         n = new ∧ Db.notes d' = Db.notes d ++ [new])
    ∧ (∀ m', m' ≠ m →
         (Db.getNotesByMeetingId m' d').1 = (Db.getNotesByMeetingId m' d).1)
    ∧ Db.meetings d' = Db.meetings d ∧ Db.transcripts d' = Db.transcripts d
    ∧ Db.modelEvaluations d' = Db.modelEvaluations d.
Proof.
  intros E W Hf Hid Hnew.
  rewrite (getNotes_found d m E W).
  destruct (head (Db.order_by_desc _ _)) as [e|] eqn:He.
  - destruct (notes_update d m f e W He Hf) as (Hone & Hre & Hnow & Hother).
    rewrite Hre, Hone. cbn [head].
    set (d1 := Db.set_notes _ d).
    assert (W1 : Db.WellKeyed d1).
    { apply WellKeyed_set_notes; [done|rewrite update_where_key by done..];
        [apply (Db.wk_notes d W)|apply (Db.wk_one_note d W)]. }
    assert (E1 : Db.connected d1 = true) by done.
    rewrite (getNotes_found d1 m E1 W1). cbn [Db.notes d1 Db.set_notes]. subst d1.
    cbn [Db.notes Db.set_notes]. rewrite Hnow. cbn [head].
    intros [= <- <-]. exists (f e). cbn [Db.notes Db.meetings Db.transcripts
      Db.modelEvaluations Db.set_notes].
    split; [done|]. split.
    { set (d1 := Db.set_notes _ d) in *.
      rewrite (getNotes_found d1 m E1 W1). subst d1. cbn [Db.notes Db.set_notes].
      by rewrite Hnow. }
    split; [done|]. split.
    { intros old [= <-]. split; [done|]. apply length_update_where. }
    split; [by intros [=]|]. split; [|done].
    intros m' Hm. set (d1 := Db.set_notes _ d) in *.
    rewrite (getNotes_found d1 m' E1 W1), (getNotes_found d m' E W). subst d1.
    cbn [Db.notes Db.set_notes fst]. by rewrite Hother.
  - apply head_order_by_desc_None in He. rewrite He. cbn [head].
    case_bool_decide as Hfresh; [done|]. destruct (Db.references_ok _ _); [|done].
    set (d1 := Db.set_notes _ d).
    assert (Hm : filter (λ x, Db.Note.meetingId x = m) (Db.notes d ++ [new]) = [new]).
    { rewrite <- Hnew. apply filter_snoc_new. by rewrite Hnew. }
    assert (W1 : Db.WellKeyed d1).
    { apply WellKeyed_set_notes; [done|apply NoDup_fmap_snoc..]; try done.
      - apply (Db.wk_notes d W).
      - apply (Db.wk_one_note d W).
      - rewrite Hnew. by apply filter_key_absent. }
    assert (E1 : Db.connected d1 = true) by done.
    rewrite (getNotes_found d1 m E1 W1). cbn [Db.notes d1 Db.set_notes]. subst d1.
    cbn [Db.notes Db.set_notes]. rewrite Hm. cbn [head].
    intros [= <- <-]. exists new. cbn [Db.notes Db.meetings Db.transcripts
      Db.modelEvaluations Db.set_notes].
    split; [done|]. split.
    { set (d1 := Db.set_notes _ d) in *.
      rewrite (getNotes_found d1 m E1 W1). subst d1. cbn [Db.notes Db.set_notes].
      by rewrite Hm. }
    split; [done|]. split; [by intros old [=]|]. split; [done|]. split; [|done].
    intros m' Hm'. set (d1 := Db.set_notes _ d) in *.
    rewrite (getNotes_found d1 m' E1 W1), (getNotes_found d m' E W). subst d1.
    cbn [Db.notes Db.set_notes fst]. rewrite filter_snoc_other; [done|congruence].
Qed.

(** ** Transcripts: one row for a meeting *)

Lemma transcript_upsert d m f new r d' :
  Db.connected d = true → Db.WellKeyed d →
  (∀ t, Db.Transcript.meetingId (f t) = Db.Transcript.meetingId t) →
  (∀ t, Db.Transcript.id (f t) = Db.Transcript.id t) →
  Db.Transcript.meetingId new = m →
  match head (filter (λ t, Db.Transcript.meetingId t = m) (Db.transcripts d)) with
  | Some _ =>
    Db.getTranscriptByMeetingId m
      (Db.set_transcripts
         (Db.update_where (λ t, bool_decide (Db.Transcript.meetingId t = m)) f
            (Db.transcripts d)) d)
  | None =>
    if bool_decide (Db.Transcript.id new ∈ Db.Transcript.id <$> Db.transcripts d)
    then (inr (Db.UniqueConstraint "transcripts.id"), d)
    else if Db.references_ok (Some m) d
    then Db.getTranscriptByMeetingId m (Db.set_transcripts (Db.transcripts d ++ [new]) d)
    else (inr Db.ForeignKeyConstraint, d)
  end = (inl r, d') →
  ∃ t, r = Some t
    ∧ Db.getTranscriptByMeetingId m d' = (inl (Some t), d')
    ∧ filter (λ x, Db.Transcript.meetingId x = m) (Db.transcripts d') = [t]
    ∧ (∀ old, Db.getTranscriptByMeetingId m d = (inl (Some old), d) →
         t = f old ∧ length (Db.transcripts d') = length (Db.transcripts d))
    ∧ (Db.getTranscriptByMeetingId m d = (inl None, d) →
         t = new ∧ Db.transcripts d' = Db.transcripts d ++ [new])
    ∧ (∀ m', m' ≠ m →
         (Db.getTranscriptByMeetingId m' d').1 = (Db.getTranscriptByMeetingId m' d).1)
    ∧ Db.meetings d' = Db.meetings d ∧ Db.notes d' = Db.notes d
    ∧ Db.modelEvaluations d' = Db.modelEvaluations d.
Proof.
  intros E W Hf Hid Hnew. rewrite (getTranscript_open m d E).
  destruct (head _) as [e|] eqn:He.
  - apply (head_filter_singleton _ _ _ _ (Db.wk_one_transcript d W)) in He.
    set (l1 := Db.update_where _ f _).
    assert (Hnow : filter (λ x, Db.Transcript.meetingId x = m) l1 = [f e]).
    { subst l1. by rewrite (filter_update_where Db.Transcript.meetingId f _ m Hf), He. }
    rewrite getTranscript_open by done. cbn [Db.transcripts Db.set_transcripts].
    rewrite Hnow. cbn [head]. intros [= <- <-]. exists (f e).
    cbn [Db.notes Db.meetings Db.transcripts Db.modelEvaluations Db.set_transcripts].
    split; [done|]. split.
    { rewrite getTranscript_open by done. cbn [Db.transcripts Db.set_transcripts].
      by rewrite Hnow. }
    split; [done|]. split.
    { intros old [= <-]. split; [done|]. apply length_update_where. }
    split; [by intros [=]|]. split; [|done].
    intros m' Hm. rewrite !getTranscript_open by done.
    cbn [Db.transcripts Db.set_transcripts fst]. subst l1.
    rewrite filter_update_where_other; [done|done|].
    intros t Ht. apply bool_decide_eq_true in Ht. congruence.
  - assert (He' : filter (λ t, Db.Transcript.meetingId t = m) (Db.transcripts d) = []).
    { by destruct (filter _ _). }
    case_bool_decide as Hfresh; [done|]. destruct (Db.references_ok _ _); [|done].
    assert (Hm : filter (λ x, Db.Transcript.meetingId x = m) (Db.transcripts d ++ [new])
                 = [new]).
    { rewrite <- Hnew. apply filter_snoc_new. by rewrite Hnew. }
    rewrite getTranscript_open by done. cbn [Db.transcripts Db.set_transcripts].
    rewrite Hm. cbn [head]. intros [= <- <-]. exists new.
    cbn [Db.notes Db.meetings Db.transcripts Db.modelEvaluations Db.set_transcripts].
    split; [done|]. split.
    { rewrite getTranscript_open by done. cbn [Db.transcripts Db.set_transcripts].
      by rewrite Hm. }
    split; [done|]. split; [by intros old [=]|]. split; [done|].
    split; [|done].
    intros m' Hm'. rewrite !getTranscript_open by done.
    cbn [Db.transcripts Db.set_transcripts fst].
    rewrite filter_snoc_other; [done|congruence].
Qed.

(** ** Meetings *)

Lemma createMeeting_closed title templateId date id now d :
  Db.connected d = false →
  Db.createMeeting title templateId date id now d = (inr Db.NotInitialized, d).
Proof. intros E. db_unfold. by rewrite E. Qed.


Lemma filter_ne_absent {A} `{EqDecision K} (key : A → K) (l : list A) k :
  k ∉ key <$> l → filter (λ r, key r ≠ k) l = l.
Proof.
  induction l as [|x l IH]; [done|]. rewrite fmap_cons, not_elem_of_cons.
  intros [Hx Hl]. rewrite filter_cons. case_decide; [|congruence]. by rewrite IH.
Qed.

Lemma filter_eq_filter_ne {A} `{EqDecision K} (key : A → K) (l : list A) k k' :
  k' ≠ k →
  filter (λ r, key r = k') (filter (λ r, key r ≠ k) l) = filter (λ r, key r = k') l.
Proof.
  intros Hk. induction l as [|x l IH]; [done|]. rewrite !filter_cons.
  repeat case_decide; rewrite ?filter_cons; repeat case_decide; try congruence.
Qed.

Lemma filter_eq_filter_ne_same {A} `{EqDecision K} (key : A → K) (l : list A) k :
  filter (λ r, key r = k) (filter (λ r, key r ≠ k) l) = [].
Proof.
  induction l as [|x l IH]; [done|]. rewrite !filter_cons.
  repeat case_decide; rewrite ?filter_cons; repeat case_decide; try congruence.
Qed.

(** ** Rows that name a meeting *)

Lemma Referenced_empty fk : Db.Referenced (Db.empty fk).
Proof. split; cbn; intros; by apply elem_of_nil in H. Qed.

Lemma elem_of_snoc {A} (l : list A) x y : y ∈ l ++ [x] ↔ y ∈ l ∨ y = x.
Proof. by rewrite elem_of_app, list_elem_of_singleton. Qed.

Lemma elem_of_update_where {A} (p : A → bool) f l y :
  y ∈ Db.update_where p f l → ∃ r, r ∈ l ∧ y = if p r then f r else r.
Proof.
  unfold Db.update_where. intros (r & -> & Hr)%list_elem_of_fmap. eauto.
Qed.

Lemma ids_snoc l (x : Db.Meeting.row) k :
  k ∈ Db.Meeting.id <$> l → k ∈ Db.Meeting.id <$> (l ++ [x]).
Proof. rewrite fmap_app, elem_of_app. by left. Qed.

Lemma ids_filter_ne (l : list Db.Meeting.row) k k' :
  k ∈ Db.Meeting.id <$> l → k ≠ k' →
  k ∈ Db.Meeting.id <$> filter (λ m, Db.Meeting.id m ≠ k') l.
Proof.
  intros (r & -> & Hr)%list_elem_of_fmap Hk. apply list_elem_of_fmap.
  exists r. split; [done|]. by apply list_elem_of_filter.
Qed.

Lemma Referenced_perform d c :
  Db.foreign_keys d = true → Db.Referenced d → Db.Referenced (Db.perform d c).
Proof.
  intros Hfk R. destruct (Db.connected d) eqn:E.
  2: { pose proof (closed_unchanged c d E) as H. destruct c; try (by rewrite H).
       by destruct R. }
  destruct R as [Rt Rn Re].
  destruct c as [| |title templateId date id now|id data now|id|m data id now
                |m raw id now|m enh model lat id now|data id now|id rating evalNotes];
    cbn [Db.perform].
  - by split.
  - by split.
  - rewrite createMeeting_open by done. case_bool_decide as Hid; [by split|].
    rewrite getMeetingById_state. split; cbn; intros; apply ids_snoc; eauto.
  - rewrite updateMeeting_open, getMeetingById_state by done.
    split; cbn; intros; rewrite update_where_key by done; eauto.
  - rewrite deleteMeeting_open by done. cbn [snd]. unfold Db.delete_meeting.
    rewrite Hfk. cbn [andb]. unfold Db.has_meeting. case_bool_decide as Hin.
    + split; cbn.
      * intros t [Ht Hin']%list_elem_of_filter. apply ids_filter_ne; eauto.
      * intros n [Hn Hin']%list_elem_of_filter. apply ids_filter_ne; eauto.
      * intros e m (r & Hr & ->)%elem_of_update_where Hm.
        case_bool_decide as Hp; [done|]. apply ids_filter_ne; [eauto|congruence].
    + rewrite filter_ne_absent by done. destruct d; by split.
  - rewrite saveTranscript_open by done. destruct (head _) as [e|] eqn:He.
    + rewrite getTranscript_state. split; cbn; try done.
      intros t (r & Hr & ->)%elem_of_update_where. case_bool_decide; cbn; eauto.
    + case_bool_decide as Hid; [by split|].
      unfold Db.references_ok, Db.has_meeting. rewrite Hfk. cbn [negb orb].
      case_bool_decide as Hm; [|by split].
      rewrite getTranscript_state. split; cbn; try done.
      intros t [?| ->]%elem_of_snoc; eauto.
  - rewrite saveNotes_open by done. destruct (head _) as [e|] eqn:He.
    + rewrite getNotes_state. split; cbn; try done.
      intros t (r & Hr & ->)%elem_of_update_where. case_bool_decide; cbn; eauto.
    + case_bool_decide as Hid; [by split|].
      unfold Db.references_ok, Db.has_meeting. rewrite Hfk. cbn [negb orb].
      case_bool_decide as Hm; [|by split].
      rewrite getNotes_state. split; cbn; try done.
      intros t [?| ->]%elem_of_snoc; eauto.
  - rewrite saveEnhancedNotes_open by done. destruct (head _) as [e|] eqn:He.
    + rewrite getNotes_state. split; cbn; try done.
      intros t (r & Hr & ->)%elem_of_update_where. case_bool_decide; cbn; eauto.
    + case_bool_decide as Hid; [by split|].
      unfold Db.references_ok, Db.has_meeting. rewrite Hfk. cbn [negb orb].
      case_bool_decide as Hm; [|by split].
      rewrite getNotes_state. split; cbn; try done.
      intros t [?| ->]%elem_of_snoc; eauto.
  - db_unfold. rewrite E. cbn. destruct (negb _); [by split|].
    case_bool_decide as Hid; [by split|].
    destruct (Db.ed_meetingId data) as [m|] eqn:Em; cbn.
    + unfold Db.has_meeting. rewrite Hfk. cbn [negb orb].
      case_bool_decide as Hm; [|by split]. split; cbn; try done.
      intros e m' [?| ->]%elem_of_snoc; [eauto|]. cbn. by intros [= <-].
    + split; cbn; try done. intros e m' [?| ->]%elem_of_snoc; [eauto|]. done.
  - db_unfold. rewrite E. cbn. destruct (_ && _); [by split|].
    split; cbn; try done.
    intros e m (r & Hr & ->)%elem_of_update_where. case_bool_decide; cbn; eauto.
Qed.

Lemma Referenced_history cs : Db.Referenced (Db.history true cs).
Proof.
  induction cs as [|c cs IH] using rev_ind; [apply Referenced_empty|].
  rewrite history_snoc. apply Referenced_perform; [apply foreign_keys_history|done].
Qed.

(** ** The database: what the queries guarantee *)

(** X9: after any sequence of calls on a database that was empty, the
    ids of each table are pairwise distinct, and no meeting has two rows
    of [transcripts] or two rows of [notes]: the save queries replace the
    row of a meeting, they never add a second one. *)
Theorem keys_stay_unique (fk : bool) (cs : list Db.Call) :
  Db.WellKeyed (Db.history fk cs).
Proof.
  induction cs as [|c cs IH] using rev_ind.
  - apply WellKeyed_empty.
  - rewrite history_snoc. by apply WellKeyed_perform.
Qed.

(** X10: when foreign keys are enforced, after any sequence of calls
    every transcript and every notes row belongs to a meeting of the
    table, and so does every evaluation that names a meeting. *)
Theorem rows_reference_meetings (cs : list Db.Call) :
  Db.Referenced (Db.history true cs).
Proof.
  induction cs as [|c cs IH] using rev_ind.
  - apply Referenced_empty.
  - rewrite history_snoc. apply Referenced_perform; [|done].
    apply foreign_keys_history.
Qed.

(** X11: a [saveNotes] that returns gives back the notes row of the
    meeting, holding the new raw notes; [getNotesByMeetingId] then
    returns that row, which is the only one of the meeting.  A row that
    was there keeps its id, its enhanced notes, model, latency, version
    and creation time; otherwise the row is new, with version 1 and no
    enhanced notes.  The notes of other meetings are as before. *)
Theorem saveNotes_round_trip (fk : bool) (cs : list Db.Call)
    (m raw id : string) (now : N) (r : option Db.Note.row) (d' : Db.Database)
    (Hsave : Db.saveNotes m raw id now (Db.history fk cs) = (inl r, d')) :
  ∃ n, r = Some n
    ∧ Db.Note.meetingId n = m
    ∧ Db.Note.rawNotes n = Some raw
    ∧ Db.Note.updatedAt n = Some (Db.seconds now)
    ∧ Db.getNotesByMeetingId m d' = (inl (Some n), d')
    ∧ filter (λ x, Db.Note.meetingId x = m) (Db.notes d') = [n]
    ∧ (∀ old, Db.getNotesByMeetingId m (Db.history fk cs)
              = (inl (Some old), Db.history fk cs) →
         n = Db.Note.mk (Db.Note.id old) m (Some raw) (Db.Note.enhancedNotes old)
               (Db.Note.llmModel old) (Db.Note.enhancementLatencyMs old)
               (Db.Note.version old) (Db.Note.createdAt old) (Some (Db.seconds now))
         ∧ length (Db.notes d') = length (Db.notes (Db.history fk cs)))
    ∧ (Db.getNotesByMeetingId m (Db.history fk cs) = (inl None, Db.history fk cs) →
         n = Db.Note.mk id m (Some raw) None None None 1
               (Some (Db.seconds now)) (Some (Db.seconds now)))
    ∧ (∀ m', m' ≠ m →
         (Db.getNotesByMeetingId m' d').1
         = (Db.getNotesByMeetingId m' (Db.history fk cs)).1).
Proof.
  set (d := Db.history fk cs) in *.
  destruct (Db.connected d) eqn:E; [|by rewrite saveNotes_closed in Hsave].
  pose proof (WellKeyed_history fk cs) as W. fold d in W.
  rewrite saveNotes_open in Hsave by done.
  eapply (notes_upsert d m _ (Db.Note.mk id m (Some raw) None None None 1
            (Some (Db.seconds now)) (Some (Db.seconds now)))) in Hsave; try done.
  destruct Hsave as (n & -> & Hget & Hone & Hold & Hnew & Hother & _).
  exists n. split; [done|].
  assert (Hn : Db.Note.meetingId n = m ∧ Db.Note.rawNotes n = Some raw
               ∧ Db.Note.updatedAt n = Some (Db.seconds now)).
  { rewrite (getNotes_found d m E W) in Hold, Hnew.
    destruct (head _) as [old|] eqn:Ho.
    - destruct (Hold old eq_refl) as [-> _]. cbn. split; [|done].
      apply head_Some_elem_of in Ho. by apply list_elem_of_filter in Ho as [? _].
    - by destruct (Hnew eq_refl) as [-> _]. }
  destruct Hn as (Hm & Hraw & Hup). repeat (split; [done|]). split; [|split; [|done]].
  - intros old Ho. destruct (Hold old Ho) as [-> Hlen]. split; [|done].
    rewrite (getNotes_found d m E W) in Ho. injection Ho as Ho.
    apply head_Some_elem_of in Ho. apply list_elem_of_filter in Ho as [<- _]. done.
  - intros Hno. by destruct (Hnew Hno).
Qed.

Lemma saveNotes_round_trip_witness :
  ∃ n, Some (Db.Note.mk "n1" "m1" (Some "agenda") None None None 1 (Some 2%N) (Some 2%N))
       = Some n
     ∧ Db.Note.meetingId n = "m1" ∧ Db.Note.rawNotes n = Some "agenda".
Proof.
  destruct (saveNotes_round_trip true
              [Db.InitDatabase; Db.CreateMeeting "Standup" None None "m1" 1000]
              "m1" "agenda" "n1" 2000
              (Some (Db.Note.mk "n1" "m1" (Some "agenda") None None None 1 (Some 2%N) (Some 2%N)))
              (Db.history true
                 [Db.InitDatabase; Db.CreateMeeting "Standup" None None "m1" 1000;
                  Db.SaveNotes "m1" "agenda" "n1" 2000]))
    as (n & H1 & H2 & H3 & _); [by vm_compute|]. by exists n.
Defined.

(** X12: a [saveEnhancedNotes] that returns gives back the notes row of
    the meeting, holding the enhanced notes, the model and the latency;
    [getNotesByMeetingId] then returns it.  A row that was there keeps
    its id and its raw notes; when there was none the new row has no raw
    notes.  The notes of other meetings are as before. *)
Theorem saveEnhancedNotes_round_trip (fk : bool) (cs : list Db.Call)
    (m enh model : string) (lat : Z) (id : string) (now : N)
    (r : option Db.Note.row) (d' : Db.Database)
    (Hsave : Db.saveEnhancedNotes m enh model lat id now (Db.history fk cs) = (inl r, d')) :
  ∃ n, r = Some n
    ∧ Db.Note.meetingId n = m
    ∧ Db.Note.enhancedNotes n = Some enh
    ∧ Db.Note.llmModel n = Some model
    ∧ Db.Note.enhancementLatencyMs n = Some lat
    ∧ Db.getNotesByMeetingId m d' = (inl (Some n), d')
    ∧ filter (λ x, Db.Note.meetingId x = m) (Db.notes d') = [n]
    ∧ (∀ old, Db.getNotesByMeetingId m (Db.history fk cs)
              = (inl (Some old), Db.history fk cs) →
         Db.Note.id n = Db.Note.id old ∧ Db.Note.rawNotes n = Db.Note.rawNotes old
         ∧ Db.Note.createdAt n = Db.Note.createdAt old
         ∧ length (Db.notes d') = length (Db.notes (Db.history fk cs)))
    ∧ (Db.getNotesByMeetingId m (Db.history fk cs) = (inl None, Db.history fk cs) →
         Db.Note.id n = id ∧ Db.Note.rawNotes n = None)
    ∧ (∀ m', m' ≠ m →
         (Db.getNotesByMeetingId m' d').1
         = (Db.getNotesByMeetingId m' (Db.history fk cs)).1).
Proof.
  set (d := Db.history fk cs) in *.
  destruct (Db.connected d) eqn:E; [|by rewrite saveEnhancedNotes_closed in Hsave].
  pose proof (WellKeyed_history fk cs) as W. fold d in W.
  rewrite saveEnhancedNotes_open in Hsave by done.
  eapply (notes_upsert d m _ (Db.Note.mk id m None (Some enh) (Some model) (Some lat) 1
            (Some (Db.seconds now)) (Some (Db.seconds now)))) in Hsave; try done.
  destruct Hsave as (n & -> & Hget & Hone & Hold & Hnew & Hother & _).
  exists n. split; [done|].
  assert (Hn : Db.Note.meetingId n = m ∧ Db.Note.enhancedNotes n = Some enh
               ∧ Db.Note.llmModel n = Some model
               ∧ Db.Note.enhancementLatencyMs n = Some lat).
  { rewrite (getNotes_found d m E W) in Hold, Hnew.
    destruct (head _) as [old|] eqn:Ho.
    - destruct (Hold old eq_refl) as [-> _]. cbn. split; [|done].
      apply head_Some_elem_of in Ho. by apply list_elem_of_filter in Ho as [? _].
    - by destruct (Hnew eq_refl) as [-> _]. }
  destruct Hn as (Hm & He & Hmo & Hl). repeat (split; [done|]). split; [|split; [|done]].
  - intros old Ho. by destruct (Hold old Ho) as [-> Hlen].
  - intros Hno. by destruct (Hnew Hno) as [-> _].
Qed.

Lemma saveEnhancedNotes_round_trip_witness :
  ∃ n, Some (Db.Note.mk "n1" "m1" None (Some "## Summary") (Some "llama3") (Some 850%Z) 1
               (Some 2%N) (Some 2%N)) = Some n
     ∧ Db.Note.meetingId n = "m1" ∧ Db.Note.enhancedNotes n = Some "## Summary".
Proof.
  destruct (saveEnhancedNotes_round_trip true
              [Db.InitDatabase; Db.CreateMeeting "Standup" None None "m1" 1000]
              "m1" "## Summary" "llama3" 850 "n1" 2000
              (Some (Db.Note.mk "n1" "m1" None (Some "## Summary") (Some "llama3")
                       (Some 850%Z) 1 (Some 2%N) (Some 2%N)))
              (Db.history true
                 [Db.InitDatabase; Db.CreateMeeting "Standup" None None "m1" 1000;
                  Db.SaveEnhancedNotes "m1" "## Summary" "llama3" 850 "n1" 2000]))
    as (n & H1 & H2 & H3 & _); [by vm_compute|]. by exists n.
Defined.

(** X13: after a [saveNotes] that returned, [saveEnhancedNotes] for the
    same meeting always returns, and both writes end in one row: it has
    the id of the row that [saveNotes] returned, the raw notes of the
    first call and the enhanced notes, model and latency of the second.
    The table has as many rows as before the second call. *)
Theorem enhanced_notes_join_raw_notes (fk : bool) (cs : list Db.Call)
    (m raw id1 : string) (t1 : N) (enh model : string) (lat : Z) (id2 : string) (t2 : N)
    (r1 : option Db.Note.row) (d1 : Db.Database)
    (Hsave : Db.saveNotes m raw id1 t1 (Db.history fk cs) = (inl r1, d1)) :
  ∃ n1 n2 d2,
    r1 = Some n1
    ∧ Db.saveEnhancedNotes m enh model lat id2 t2 d1 = (inl (Some n2), d2)
    ∧ n2 = Db.Note.mk (Db.Note.id n1) m (Some raw) (Some enh) (Some model) (Some lat)
             (Db.Note.version n1) (Db.Note.createdAt n1) (Some (Db.seconds t2))
    ∧ Db.getNotesByMeetingId m d2 = (inl (Some n2), d2)
    ∧ length (Db.notes d2) = length (Db.notes d1).
Proof.
  assert (Hd1 : d1 = Db.history fk (cs ++ [Db.SaveNotes m raw id1 t1])).
  { rewrite history_snoc. cbn [Db.perform]. by rewrite Hsave. }
  set (d := Db.history fk cs) in *.
  destruct (Db.connected d) eqn:E; [|by rewrite saveNotes_closed in Hsave].
  pose proof (WellKeyed_history fk cs) as W. fold d in W.
  pose proof (WellKeyed_history fk (cs ++ [Db.SaveNotes m raw id1 t1])) as W1.
  rewrite <- Hd1 in W1.
  rewrite saveNotes_open in Hsave by done.
  eapply (notes_upsert d m _ (Db.Note.mk id1 m (Some raw) None None None 1
            (Some (Db.seconds t1)) (Some (Db.seconds t1)))) in Hsave; try done.
  destruct Hsave as (n1 & -> & Hget & Hone & Hold & Hnew & _).
  assert (Hn1 : Db.Note.meetingId n1 = m ∧ Db.Note.rawNotes n1 = Some raw).
  { rewrite (getNotes_found d m E W) in Hold, Hnew.
    destruct (head _) as [old|] eqn:Ho.
    - destruct (Hold old eq_refl) as [-> _]. cbn. split; [|done].
      apply head_Some_elem_of in Ho. by apply list_elem_of_filter in Ho as [? _].
    - by destruct (Hnew eq_refl) as [-> _]. }
  destruct Hn1 as [Hm Hraw].
  assert (E1 : Db.connected d1 = true).
  { destruct (Db.connected d1) eqn:E1; [done|].
    by rewrite getNotes_closed in Hget. }
  destruct (Db.saveEnhancedNotes m enh model lat id2 t2 d1) as [[r2|e] d2] eqn:H2.
  2: { rewrite saveEnhancedNotes_open in H2 by done.
       rewrite getNotes_open in Hget by done. injection Hget as Hget. rewrite Hget in H2.
       by rewrite getNotes_open in H2. }
  rewrite saveEnhancedNotes_open in H2 by done.
  eapply (notes_upsert d1 m _ (Db.Note.mk id2 m None (Some enh) (Some model) (Some lat) 1
            (Some (Db.seconds t2)) (Some (Db.seconds t2)))) in H2; try done.
  destruct H2 as (n2 & -> & Hget2 & _ & Hold2 & _).
  destruct (Hold2 n1 Hget) as [-> Hlen].
  exists n1, (Db.Note.mk (Db.Note.id n1) (Db.Note.meetingId n1) (Db.Note.rawNotes n1)
                (Some enh) (Some model) (Some lat) (Db.Note.version n1)
                (Db.Note.createdAt n1) (Some (Db.seconds t2))), d2.
  split; [done|]. split; [done|]. split; [by rewrite Hm, Hraw|]. done.
Qed.

Lemma enhanced_notes_join_raw_notes_witness :
  ∃ n1 n2 d2,
    Some (Db.Note.mk "n1" "m1" (Some "agenda") None None None 1 (Some 2%N) (Some 2%N))
    = Some n1
    ∧ Db.saveEnhancedNotes "m1" "## Summary" "llama3" 850 "n2" 3000
        (Db.history true
           [Db.InitDatabase; Db.CreateMeeting "Standup" None None "m1" 1000;
            Db.SaveNotes "m1" "agenda" "n1" 2000])
      = (inl (Some n2), d2)
    ∧ Db.Note.rawNotes n2 = Some "agenda".
Proof.
  destruct (enhanced_notes_join_raw_notes true
              [Db.InitDatabase; Db.CreateMeeting "Standup" None None "m1" 1000]
              "m1" "agenda" "n1" 2000 "## Summary" "llama3" 850 "n2" 3000
              (Some (Db.Note.mk "n1" "m1" (Some "agenda") None None None 1 (Some 2%N) (Some 2%N)))
              (Db.history true
                 [Db.InitDatabase; Db.CreateMeeting "Standup" None None "m1" 1000;
                  Db.SaveNotes "m1" "agenda" "n1" 2000]))
    as (n1 & n2 & d2 & H1 & H2 & H3 & _); [by vm_compute|].
  exists n1, n2, d2. split; [done|]. split; [done|]. by rewrite H3.
Defined.

(** X14: a [saveTranscript] that returns gives back the transcript row
    of the meeting with the text, segments and model that were passed
    and the language, or "en" when none was passed;
    [getTranscriptByMeetingId] then returns it, and it is the only row
    of the meeting.  A row that was there is rewritten in place and
    keeps its id and creation time; the transcripts of other meetings
    are as before. *)
Theorem saveTranscript_round_trip (fk : bool) (cs : list Db.Call)
    (m : string) (data : Db.TranscriptData) (id : string) (now : N)
    (r : option Db.Transcript.row) (d' : Db.Database)
    (Hsave : Db.saveTranscript m data id now (Db.history fk cs) = (inl r, d')) :
  ∃ t, r = Some t
    ∧ Db.Transcript.meetingId t = m
    ∧ Db.Transcript.fullText t = Some (Db.td_fullText data)
    ∧ Db.Transcript.segments t = Some (Db.td_segments data)
    ∧ Db.Transcript.sttModel t = Some (Db.td_sttModel data)
    ∧ Db.Transcript.language t = Some (default "en" (Db.td_language data))
    ∧ Db.getTranscriptByMeetingId m d' = (inl (Some t), d')
    ∧ filter (λ x, Db.Transcript.meetingId x = m) (Db.transcripts d') = [t]
    ∧ (∀ old, Db.getTranscriptByMeetingId m (Db.history fk cs)
              = (inl (Some old), Db.history fk cs) →
         Db.Transcript.id t = Db.Transcript.id old
         ∧ Db.Transcript.createdAt t = Db.Transcript.createdAt old
         ∧ length (Db.transcripts d') = length (Db.transcripts (Db.history fk cs)))
    ∧ (Db.getTranscriptByMeetingId m (Db.history fk cs) = (inl None, Db.history fk cs) →
         Db.Transcript.id t = id ∧ Db.Transcript.createdAt t = Some (Db.seconds now))
    ∧ (∀ m', m' ≠ m →
         (Db.getTranscriptByMeetingId m' d').1
         = (Db.getTranscriptByMeetingId m' (Db.history fk cs)).1).
Proof.
  set (d := Db.history fk cs) in *.
  destruct (Db.connected d) eqn:E; [|by rewrite saveTranscript_closed in Hsave].
  pose proof (WellKeyed_history fk cs) as W. fold d in W.
  rewrite saveTranscript_open in Hsave by done.
  eapply (transcript_upsert d m _
            (Db.Transcript.mk id m (Some (Db.td_fullText data)) (Some (Db.td_segments data))
               (Some (Db.td_sttModel data)) (Some (default "en" (Db.td_language data)))
               (Some (Db.seconds now)))) in Hsave; try done.
  destruct Hsave as (t & -> & Hget & Hone & Hold & Hnew & Hother & _).
  exists t. split; [done|].
  assert (Ht : Db.Transcript.meetingId t = m
               ∧ Db.Transcript.fullText t = Some (Db.td_fullText data)
               ∧ Db.Transcript.segments t = Some (Db.td_segments data)
               ∧ Db.Transcript.sttModel t = Some (Db.td_sttModel data)
               ∧ Db.Transcript.language t = Some (default "en" (Db.td_language data))).
  { rewrite (getTranscript_open m d E) in Hold, Hnew.
    destruct (head _) as [old|] eqn:Ho.
    - destruct (Hold old eq_refl) as [-> _]. cbn. split; [|done].
      apply head_Some_elem_of in Ho. by apply list_elem_of_filter in Ho as [? _].
    - by destruct (Hnew eq_refl) as [-> _]. }
  destruct Ht as (? & ? & ? & ? & ?). repeat (split; [done|]). split; [|split; [|done]].
  - intros old Ho. by destruct (Hold old Ho) as [-> Hlen].
  - intros Hno. by destruct (Hnew Hno) as [-> _].
Qed.

Lemma saveTranscript_round_trip_witness :
  ∃ t, Some (Db.Transcript.mk "t1" "m1" (Some "hello") (Some []) (Some "whisper-local")
               (Some "en") (Some 2%N)) = Some t
     ∧ Db.Transcript.language t = Some "en".
Proof.
  destruct (saveTranscript_round_trip true
              [Db.InitDatabase; Db.CreateMeeting "Standup" None None "m1" 1000]
              "m1" (Db.mkTranscriptData "hello" [] "whisper-local" None) "t1" 2000
              (Some (Db.Transcript.mk "t1" "m1" (Some "hello") (Some []) (Some "whisper-local")
                       (Some "en") (Some 2%N)))
              (Db.history true
                 [Db.InitDatabase; Db.CreateMeeting "Standup" None None "m1" 1000;
                  Db.SaveTranscript "m1" (Db.mkTranscriptData "hello" [] "whisper-local" None)
                    "t1" 2000]))
    as (t & H1 & _ & _ & _ & _ & H2 & _); [by vm_compute|]. by exists t.
Defined.

Lemma getMeetingById_closed id d :
  Db.connected d = false → Db.getMeetingById id d = (inr Db.NotInitialized, d).
Proof. intros E. db_unfold. by rewrite E. Qed.

Lemma set_meetings_same d : Db.set_meetings (Db.meetings d) d = d.
Proof. by destruct d. Qed.

(** X15: a [createMeeting] that returns has added one row at the end of
    [meetings] and gives it back: status 'recording', no duration, the
    date that was passed or else the time of the call, in whole seconds;
    the id was not in use.  [getMeetingById] then finds the row, and
    finds for every other id what it found before. *)
Theorem createMeeting_round_trip (title : string) (templateId : option string)
    (date : option N) (id : string) (now : N) (d : Db.Database)
    (r : option Db.Meeting.row) (d' : Db.Database)
    (Hcreate : Db.createMeeting title templateId date id now d = (inl r, d')) :
  let row := Db.Meeting.mk id title (Db.seconds (default now date)) None templateId
               (Some Db.recording) (Some (Db.seconds now)) (Some (Db.seconds now)) in
  r = Some row
  ∧ (id ∉ Db.Meeting.id <$> Db.meetings d)
  ∧ Db.meetings d' = Db.meetings d ++ [row]
  ∧ Db.getMeetingById id d' = (inl (Some row), d')
  ∧ (∀ id', id' ≠ id → (Db.getMeetingById id' d').1 = (Db.getMeetingById id' d).1)
  ∧ Db.transcripts d' = Db.transcripts d ∧ Db.notes d' = Db.notes d
  ∧ Db.modelEvaluations d' = Db.modelEvaluations d.
Proof.
  intros row. destruct (Db.connected d) eqn:E; [|by rewrite createMeeting_closed in Hcreate].
  rewrite createMeeting_open in Hcreate by done.
  case_bool_decide as Hid; [done|]. fold row in Hcreate.
  assert (Hrow : filter (λ m, Db.Meeting.id m = id) (Db.meetings d ++ [row]) = [row]).
  { apply (filter_snoc_new Db.Meeting.id (Db.meetings d) row).
    by apply filter_key_absent. }
  rewrite getMeetingById_open in Hcreate by done.
  cbn [Db.meetings Db.set_meetings] in Hcreate. rewrite Hrow in Hcreate.
  injection Hcreate as <- <-. cbn [Db.meetings Db.transcripts Db.notes
    Db.modelEvaluations Db.set_meetings].
  split; [done|]. split; [done|]. split; [done|]. split.
  { rewrite getMeetingById_open by done. cbn [Db.meetings Db.set_meetings].
    by rewrite Hrow. }
  split; [|done]. intros id' Hid'. rewrite !getMeetingById_open by done.
  cbn [Db.meetings Db.set_meetings fst]. by rewrite filter_snoc_other.
Qed.

Lemma createMeeting_round_trip_witness :
  Some (Db.Meeting.mk "m1" "Standup" 1%N None None (Some Db.recording) (Some 1%N) (Some 1%N))
  = Some (Db.Meeting.mk "m1" "Standup" (Db.seconds (default 1000%N None)) None None
            (Some Db.recording) (Some (Db.seconds 1000)) (Some (Db.seconds 1000))).
Proof.
  destruct (createMeeting_round_trip "Standup" None None "m1" 1000
              (Db.history true [Db.InitDatabase])
              (Some (Db.Meeting.mk "m1" "Standup" 1%N None None (Some Db.recording)
                       (Some 1%N) (Some 1%N)))
              (Db.history true
                 [Db.InitDatabase; Db.CreateMeeting "Standup" None None "m1" 1000]))
    as (H & _); [by vm_compute|exact H].
Defined.



(** X17: [updateMeeting] on an id that [getMeetingById] does not find
    returns null and leaves the database as it was: no row is created
    and no other row is touched. *)
Theorem updateMeeting_missing (id : string) (data : Db.MeetingUpdate) (now : N)
    (d : Db.Database)
    (Hnone : Db.getMeetingById id d = (inl None, d)) :
  Db.updateMeeting id data now d = (inl None, d).
Proof.
  destruct (Db.connected d) eqn:E; [|by rewrite getMeetingById_closed in Hnone].
  rewrite getMeetingById_open in Hnone by done. injection Hnone as Hnone.
  assert (Hf : filter (λ m, Db.Meeting.id m = id) (Db.meetings d) = [])
    by (by destruct (filter _ _)).
  rewrite updateMeeting_open by done.
  rewrite update_where_none, set_meetings_same.
  - rewrite getMeetingById_open by done. by rewrite Hf.
  - intros r Hr. apply bool_decide_eq_false. intros Er.
    apply (filter_nil_not_elem_of _ _ r Hf Er Hr).
Qed.

Lemma updateMeeting_missing_witness :
  Db.updateMeeting "m2" (Db.mkMeetingUpdate (Some "Retro") None None None) 5000
    (Db.history true [Db.InitDatabase; Db.CreateMeeting "Standup" None None "m1" 1000])
  = (inl None,
     Db.history true [Db.InitDatabase; Db.CreateMeeting "Standup" None None "m1" 1000]).
Proof.
  apply (updateMeeting_missing "m2" (Db.mkMeetingUpdate (Some "Retro") None None None) 5000
           (Db.history true [Db.InitDatabase; Db.CreateMeeting "Standup" None None "m1" 1000])).
  by vm_compute.
Defined.

(** X18: on an open database [deleteMeeting] always answers success,
    whether or not the meeting exists.  Afterwards [getMeetingById] finds
    nothing under the id and what it found before under every other id.
    When foreign keys are not enforced the transcripts, notes and
    evaluations are all left in place, those of the deleted meeting
    included. *)
Theorem deleteMeeting_removes_the_meeting (id : string) (d : Db.Database)
    (Hopen : Db.connected d = true) :
  ∃ d',
    Db.deleteMeeting id d = (inl true, d')
    ∧ Db.getMeetingById id d' = (inl None, d')
    ∧ (∀ id', id' ≠ id → (Db.getMeetingById id' d').1 = (Db.getMeetingById id' d).1)
    ∧ (id ∉ Db.Meeting.id <$> Db.meetings d → d' = d)
    ∧ (Db.foreign_keys d = false →
         Db.transcripts d' = Db.transcripts d ∧ Db.notes d' = Db.notes d
         ∧ Db.modelEvaluations d' = Db.modelEvaluations d).
Proof.
  eexists. split; [by apply deleteMeeting_open|].
  assert (Hm : Db.meetings (Db.delete_meeting id d)
               = filter (λ m, Db.Meeting.id m ≠ id) (Db.meetings d)).
  { unfold Db.delete_meeting. by destruct (_ && _). }
  assert (Hc : Db.connected (Db.delete_meeting id d) = true).
  { unfold Db.delete_meeting. by destruct (_ && _). }
  split; [|split; [|split]].
  - rewrite getMeetingById_open, Hm by done.
    by rewrite (filter_eq_filter_ne_same Db.Meeting.id).
  - intros id' Hid'. rewrite !getMeetingById_open, Hm by done. cbn [fst].
    by rewrite (filter_eq_filter_ne Db.Meeting.id).
  - intros Hid. unfold Db.delete_meeting, Db.has_meeting.
    rewrite (bool_decide_eq_false_2 _ Hid), andb_false_r.
    by rewrite filter_ne_absent, set_meetings_same.
  - intros Hfk. unfold Db.delete_meeting. by rewrite Hfk.
Qed.

Lemma deleteMeeting_removes_the_meeting_witness :
  ∃ d',
    Db.deleteMeeting "m1"
      (Db.history false [Db.InitDatabase; Db.CreateMeeting "Standup" None None "m1" 1000;
                         Db.SaveNotes "m1" "agenda" "n1" 2000])
    = (inl true, d')
    ∧ Db.getMeetingById "m1" d' = (inl None, d').
Proof.
  destruct (deleteMeeting_removes_the_meeting "m1"
              (Db.history false [Db.InitDatabase; Db.CreateMeeting "Standup" None None "m1" 1000;
                                 Db.SaveNotes "m1" "agenda" "n1" 2000]))
    as (d' & H1 & H2 & _); [by vm_compute|]. by exists d'.
Defined.

(** X19: when foreign keys are enforced, after [deleteMeeting] nothing
    of the meeting is left: [getMeetingById], [getTranscriptByMeetingId]
    and [getNotesByMeetingId] find nothing under its id and no
    evaluation names it, while the evaluations themselves are kept.
    Transcripts and notes of other meetings are found as before. *)
Theorem deleteMeeting_cascades (cs : list Db.Call) (id : string)
    (Hopen : Db.connected (Db.history true cs) = true) :
  ∃ d',
    Db.deleteMeeting id (Db.history true cs) = (inl true, d')
    ∧ Db.getMeetingById id d' = (inl None, d')
    ∧ Db.getTranscriptByMeetingId id d' = (inl None, d')
    ∧ Db.getNotesByMeetingId id d' = (inl None, d')
    ∧ (∀ e, e ∈ Db.modelEvaluations d' → Db.Evaluation.meetingId e ≠ Some id)
    ∧ length (Db.modelEvaluations d') = length (Db.modelEvaluations (Db.history true cs))
    ∧ (∀ id', id' ≠ id →
         (Db.getTranscriptByMeetingId id' d').1
         = (Db.getTranscriptByMeetingId id' (Db.history true cs)).1
         ∧ (Db.getNotesByMeetingId id' d').1
           = (Db.getNotesByMeetingId id' (Db.history true cs)).1).
Proof.
  pose proof (Referenced_history cs) as [Rt Rn Re].
  pose proof (foreign_keys_history true cs) as Hfk.
  set (d := Db.history true cs) in *.
  destruct (deleteMeeting_removes_the_meeting id d Hopen) as (d' & Hdel & Hget & _ & Hsame & _).
  exists d'. split; [done|]. split; [done|].
  rewrite deleteMeeting_open in Hdel by done. injection Hdel as <-.
  assert (Hc : Db.connected (Db.delete_meeting id d) = true).
  { unfold Db.delete_meeting. by destruct (_ && _). }
  destruct (decide (id ∈ Db.Meeting.id <$> Db.meetings d)) as [Hin|Hout].
  - assert (Hd : Db.transcripts (Db.delete_meeting id d)
                 = filter (λ t, Db.Transcript.meetingId t ≠ id) (Db.transcripts d)
               ∧ Db.notes (Db.delete_meeting id d)
                 = filter (λ n, Db.Note.meetingId n ≠ id) (Db.notes d)
               ∧ Db.modelEvaluations (Db.delete_meeting id d)
                 = Db.update_where (λ e, bool_decide (Db.Evaluation.meetingId e = Some id))
                     (λ e, Db.Evaluation.mk (Db.Evaluation.id e) None (Db.Evaluation.taskType e)
                             (Db.Evaluation.modelId e) (Db.Evaluation.modelName e)
                             (Db.Evaluation.input e) (Db.Evaluation.output e)
                             (Db.Evaluation.latencyMs e) (Db.Evaluation.tokensUsed e)
                             (Db.Evaluation.userRating e) (Db.Evaluation.notes e)
                             (Db.Evaluation.createdAt e))
                     (Db.modelEvaluations d)).
    { unfold Db.delete_meeting, Db.has_meeting.
      by rewrite Hfk, (bool_decide_eq_true_2 _ Hin). }
    destruct Hd as (Ht & Hn & He).
    split; [|split; [|split; [|split]]].
    + rewrite getTranscript_open, Ht by done.
      by rewrite (filter_eq_filter_ne_same Db.Transcript.meetingId).
    + rewrite getNotes_open, Hn by done.
      by rewrite (filter_eq_filter_ne_same Db.Note.meetingId), order_by_desc_nil.
    + rewrite He. intros e (r & Hr & ->)%elem_of_update_where.
      by case_bool_decide.
    + rewrite He. apply length_update_where.
    + intros id' Hid'. rewrite !getTranscript_open, !getNotes_open, Ht, Hn by done.
      cbn [fst]. rewrite (filter_eq_filter_ne Db.Transcript.meetingId) by done.
      by rewrite (filter_eq_filter_ne Db.Note.meetingId) by done.
  - rewrite (Hsame Hout) in *.
    split; [|split; [|split; [|done]]].
    + rewrite getTranscript_open by done. do 2 f_equal.
      assert (Hf : filter (λ t, Db.Transcript.meetingId t = id) (Db.transcripts d) = []);
        [|by rewrite Hf].
      apply filter_key_absent. intros (t & -> & Hin)%list_elem_of_fmap. eauto.
    + rewrite getNotes_open by done. do 2 f_equal.
      assert (Hf : filter (λ n, Db.Note.meetingId n = id) (Db.notes d) = []);
        [|by rewrite Hf, order_by_desc_nil].
      apply filter_key_absent. intros (n & -> & Hin)%list_elem_of_fmap. eauto.
    + intros e He Hid. eauto.
Qed.

Lemma deleteMeeting_cascades_witness :
  ∃ d',
    Db.deleteMeeting "m1"
      (Db.history true [Db.InitDatabase; Db.CreateMeeting "Standup" None None "m1" 1000;
                        Db.SaveNotes "m1" "agenda" "n1" 2000])
    = (inl true, d')
    ∧ Db.getNotesByMeetingId "m1" d' = (inl None, d').
Proof.
  destruct (deleteMeeting_cascades
              [Db.InitDatabase; Db.CreateMeeting "Standup" None None "m1" 1000;
               Db.SaveNotes "m1" "agenda" "n1" 2000] "m1")
    as (d' & H1 & _ & _ & H2 & _); [by vm_compute|]. by exists d'.
Defined.

(** X20: when foreign keys are enforced, nothing is saved for a meeting
    that is not in the table (never created, or deleted): with an unused
    id for the new row, [saveNotes], [saveEnhancedNotes] and
    [saveTranscript] all fail on the foreign key and write nothing. *)
Theorem save_for_missing_meeting_fails (cs : list Db.Call) (m : string)
    (Hopen : Db.connected (Db.history true cs) = true)
    (Hmissing : m ∉ Db.Meeting.id <$> Db.meetings (Db.history true cs)) :
  (∀ raw id now, id ∉ Db.Note.id <$> Db.notes (Db.history true cs) →
     Db.saveNotes m raw id now (Db.history true cs)
     = (inr Db.ForeignKeyConstraint, Db.history true cs))
  ∧ (∀ enh model lat id now, id ∉ Db.Note.id <$> Db.notes (Db.history true cs) →
       Db.saveEnhancedNotes m enh model lat id now (Db.history true cs)
       = (inr Db.ForeignKeyConstraint, Db.history true cs))
  ∧ (∀ data id now, id ∉ Db.Transcript.id <$> Db.transcripts (Db.history true cs) →
       Db.saveTranscript m data id now (Db.history true cs)
       = (inr Db.ForeignKeyConstraint, Db.history true cs)).
Proof.
  pose proof (Referenced_history cs) as [Rt Rn Re].
  pose proof (foreign_keys_history true cs) as Hfk.
  set (d := Db.history true cs) in *.
  assert (Hn : filter (λ n, Db.Note.meetingId n = m) (Db.notes d) = []).
  { apply filter_key_absent. intros (n & -> & Hin)%list_elem_of_fmap. eauto. }
  assert (Ht : filter (λ t, Db.Transcript.meetingId t = m) (Db.transcripts d) = []).
  { apply filter_key_absent. intros (n & -> & Hin)%list_elem_of_fmap. eauto. }
  assert (Hr : Db.references_ok (Some m) d = false).
  { unfold Db.references_ok, Db.has_meeting.
    by rewrite Hfk, (bool_decide_eq_false_2 _ Hmissing). }
  split; [|split].
  - intros raw id now Hid. rewrite saveNotes_open by done.
    by rewrite Hn, order_by_desc_nil, (bool_decide_eq_false_2 _ Hid), Hr.
  - intros enh model lat id now Hid. rewrite saveEnhancedNotes_open by done.
    by rewrite Hn, order_by_desc_nil, (bool_decide_eq_false_2 _ Hid), Hr.
  - intros data id now Hid. rewrite saveTranscript_open by done.
    by rewrite Ht, (bool_decide_eq_false_2 _ Hid), Hr.
Qed.

Lemma save_for_missing_meeting_fails_witness :
  Db.saveNotes "m1" "late edit" "n2" 9000
    (Db.history true [Db.InitDatabase; Db.CreateMeeting "Standup" None None "m1" 1000;
                      Db.SaveNotes "m1" "agenda" "n1" 2000; Db.DeleteMeeting "m1"])
  = (inr Db.ForeignKeyConstraint,
     Db.history true [Db.InitDatabase; Db.CreateMeeting "Standup" None None "m1" 1000;
                      Db.SaveNotes "m1" "agenda" "n1" 2000; Db.DeleteMeeting "m1"]).
Proof.
  destruct (save_for_missing_meeting_fails
              [Db.InitDatabase; Db.CreateMeeting "Standup" None None "m1" 1000;
               Db.SaveNotes "m1" "agenda" "n1" 2000; Db.DeleteMeeting "m1"] "m1")
    as (H & _); [by vm_compute|by apply (bool_decide_unpack _); vm_compute|].
  apply H. by apply (bool_decide_unpack _); vm_compute.
Defined.

Lemma order_by_desc_orders {A} (key : A → Z) l :
  Db.orders_desc (@Db.order_by_desc A) key l.
Proof. split; [apply order_by_desc_perm|apply order_by_desc_sorted]. Qed.


(** X21: on an open database [getMeetings] with a limit that is not
    negative (50 when none is given) returns a window of the table
    listed by date, latest first: the engine lists every row of
    [meetings] once, no row before a later one; the first [offset] rows
    of that listing are skipped (none when no offset is given or it is
    negative), and the next [limit] rows, or as many as are left, are
    returned.  So no row that is skipped is earlier, and no row that is
    left out at the end is later, than a row that is returned.  With a
    negative limit and the offset 0 the whole table is returned, latest
    first; with a negative limit and another offset the statement is
    refused with a syntax error near "offset".  The database is not
    changed. *)
Theorem getMeetings_most_recent_first (order : Db.Ordering Db.Meeting.row)
    (limit offset : option Z) (d : Db.Database)
    (Hopen : Db.connected d = true)
    (Horder : Db.orders_desc order Db.dated (Db.meetings d)) :
  let n := default 50%Z limit in
  let m := default 0%Z offset in
  let latest_first := StronglySorted (λ a b, (Db.Meeting.date b ≤ Db.Meeting.date a)%N) in
  ((0 ≤ n)%Z →
     ∃ skipped listed left_out,
       Db.getMeetings order limit offset d = (inl listed, d) ∧
       skipped ++ listed ++ left_out ≡ₚ Db.meetings d ∧
       latest_first (skipped ++ listed ++ left_out) ∧
       length skipped = Z.to_nat m `min` length (Db.meetings d) ∧
       length listed = Z.to_nat n `min` (length (Db.meetings d) - Z.to_nat m)) ∧
  ((n < 0)%Z → m = 0%Z →
     ∃ listed,
       Db.getMeetings order limit offset d = (inl listed, d) ∧
       listed ≡ₚ Db.meetings d ∧ latest_first listed) ∧
  ((n < 0)%Z → m ≠ 0%Z →
     Db.getMeetings order limit offset d = (inr (Db.SyntaxError "offset"), d)).
Proof.
  intros n m latest_first. destruct Horder as [Hperm Hsorted].
  assert (Hs : latest_first (order Db.dated (Db.meetings d))).
  { eapply StronglySorted_mono; [|exact Hsorted]. intros a b. unfold Db.dated. lia. }
  assert (Hget : Db.getMeetings order limit offset d
                 = Db.rows_or_throw (Db.limit_offset n m (order Db.dated (Db.meetings d))) d).
  { db_unfold. by rewrite Hopen. }
  split; [|split].
  - intros Hn.
    destruct (limit_offset_window n m (order Db.dated (Db.meetings d)) Hn)
      as (skipped & listed & left_out & E & Eq & Hl1 & Hl2).
    exists skipped, listed, left_out. rewrite Hget, E. split; [done|].
    rewrite <- Eq. rewrite Hperm in Hl1, Hl2. by rewrite Hperm at 1.
  - intros Hn Hm. exists (order Db.dated (Db.meetings d)).
    by rewrite Hget, Hm, limit_offset_unlimited.
  - intros Hn Hm. by rewrite Hget, limit_offset_rejected.
Qed.

Lemma getMeetings_most_recent_first_witness :
  ∃ skipped listed left_out,
    Db.getMeetings (@Db.order_by_desc _) (Some 1%Z) None
      (Db.history true [Db.InitDatabase; Db.CreateMeeting "Standup" None None "m1" 1000;
                        Db.CreateMeeting "Retro" None None "m2" 9000])
    = (inl listed,
       Db.history true [Db.InitDatabase; Db.CreateMeeting "Standup" None None "m1" 1000;
                        Db.CreateMeeting "Retro" None None "m2" 9000])
    ∧ skipped ++ listed ++ left_out
      ≡ₚ Db.meetings
           (Db.history true [Db.InitDatabase; Db.CreateMeeting "Standup" None None "m1" 1000;
                             Db.CreateMeeting "Retro" None None "m2" 9000])
    ∧ length skipped = 0%nat ∧ length listed = 1%nat.
Proof.
  destruct (getMeetings_most_recent_first (@Db.order_by_desc _) (Some 1%Z) None
              (Db.history true [Db.InitDatabase; Db.CreateMeeting "Standup" None None "m1" 1000;
                                Db.CreateMeeting "Retro" None None "m2" 9000]))
    as (H & _ & _); [by vm_compute|apply order_by_desc_orders|].
  destruct H as (skipped & listed & left_out & H1 & H2 & _ & H3 & H4); [by vm_compute|].
  exists skipped, listed, left_out. split; [exact H1|]. split; [exact H2|].
  split; [exact H3|exact H4].
Defined.




(** * Audio capture *)

Lemma answered_app t1 t2 :
  Audio.answered (t1 ++ t2) = Audio.answered t1 ++ Audio.answered t2.
Proof. apply omap_app. Qed.

Lemma answered_snoc_answer t n r :
  Audio.answered (t ++ [Audio.Answer n r]) = Audio.answered t ++ [n].
Proof. by rewrite answered_app. Qed.

Lemma audio_run_snoc es e : Audio.run (es ++ [e]) = Audio.handle e (Audio.run es).
Proof. unfold Audio.run. by rewrite foldl_app. Qed.

Lemma audio_run_app es es' :
  Audio.run (es ++ es') = foldl (λ s e, Audio.handle e s) (Audio.run es) es'.
Proof. unfold Audio.run. by rewrite foldl_app. Qed.

Lemma Core_init : Audio.Core Audio.init.
Proof.
  split; cbn; try (intros p Hp; by apply elem_of_nil in Hp); try (intros; lia);
    try done. apply NoDup_nil_2.
Qed.

Lemma Core_answer r s : Audio.Core s → Audio.Core (Audio.answer r s).
Proof.
  intros [Ht Hc He Ha Hal Hnb Hs Hck Hek Ho Hw].
  split; cbn [Audio.answer Audio.timers Audio.calls Audio.complete_listeners
    Audio.error_listeners Audio.settled Audio.trace Audio.audioCapture]; try done;
    rewrite ?answered_snoc_answer.
  - intros p Hp. apply Ht in Hp. lia.
  - intros p Hp. apply Hc in Hp. lia.
  - intros p Hp. apply He in Hp. lia.
  - intros p Hp. rewrite elem_of_snoc.
    destruct (decide (p = Audio.calls s)) as [->|Hne]; [by left; right|].
    destruct (Ha p) as [?|?]; [lia|by left; left|by right].
  - intros p [Hp| ->]%elem_of_snoc; [apply Hal in Hp|]; lia.
  - intros p Hp [Hq| ->]%elem_of_snoc; [by apply (Hnb p)|].
    apply Ht in Hp. lia.
  - intros p Hp. rewrite elem_of_snoc. left. by apply Hs.
  - apply NoDup_app. split; [done|]. split; [|apply NoDup_singleton].
    intros p Hp ->%list_elem_of_singleton. apply Hal in Hp. lia.
Qed.

Lemma Core_startRecording source s :
  Audio.Core s → Audio.Core (Audio.startRecording source s).
Proof.
  intros [Ht Hc He Ha Hal Hnb Hs Hck Hek Ho Hw].
  split; cbn [Audio.startRecording Audio.log Audio.set_audioCapture Audio.timers
    Audio.calls Audio.complete_listeners Audio.error_listeners Audio.settled Audio.trace
    Audio.audioCapture]; rewrite ?answered_app; cbn [Audio.answered omap];
    rewrite ?app_nil_r; try done.
  by intros c [= <-].
Qed.

Lemma Core_await_capture c s :
  Audio.Core s → Audio.mainWindow c = true → Audio.Core (Audio.await_capture c s).
Proof.
  intros [Ht Hc He Ha Hal Hnb Hs Hck Hek Ho Hw] Hwin.
  split; cbn [Audio.await_capture Audio.timers Audio.calls Audio.complete_listeners
    Audio.error_listeners Audio.settled Audio.trace Audio.audioCapture];
    rewrite ?answered_app; cbn [Audio.answered omap]; rewrite ?app_nil_r; try done.
  - intros p [Hp| ->]%elem_of_snoc; [apply Ht in Hp|]; lia.
  - intros p [Hp| ->]%elem_of_snoc; [apply Hc in Hp|]; lia.
  - intros p [Hp| ->]%elem_of_snoc; [apply He in Hp|]; lia.
  - intros p Hp. rewrite elem_of_snoc.
    destruct (decide (p = Audio.calls s)) as [->|Hne]; [by right; right|].
    destruct (Ha p) as [?|?]; [lia|by left|by right; left].
  - intros p Hp. apply Hal in Hp. lia.
  - intros p [Hp| ->]%elem_of_snoc; [by apply Hnb|].
    intros Hp. apply Hal in Hp. lia.
  - intros p [Hp| ->]%elem_of_snoc; rewrite elem_of_snoc.
    + destruct (Hck p Hp); [by left|by right; left].
    + by right; right.
  - intros p [Hp| ->]%elem_of_snoc; rewrite elem_of_snoc.
    + destruct (Hek p Hp); [by left|by right; left].
    + by right; right.
  - by intros c' [= <-].
Qed.

(** One listener runs: the timer of its promise is cleared and the
    promise settled. *)
Lemma Core_listener p r s :
  Audio.Core s → p ∈ Audio.settled s ∨ p ∈ Audio.timers s →
  Audio.Core (Audio.settle p r (Audio.clearTimeout p s)).
Proof.
  intros [Ht Hc He Ha Hal Hnb Hs Hck Hek Ho Hw] Hp. unfold Audio.settle.
  cbn [Audio.clearTimeout Audio.settled]. case_bool_decide as Hset.
  - split; cbn [Audio.clearTimeout Audio.timers Audio.calls Audio.complete_listeners
      Audio.error_listeners Audio.settled Audio.trace Audio.audioCapture]; try done.
    + intros q [_ Hq]%list_elem_of_filter. by apply Ht.
    + intros q Hq. destruct (Ha q Hq) as [?|Hin]; [by left|].
      destruct (decide (q = p)) as [->|Hne]; [left; by apply Hs|].
      right. by apply list_elem_of_filter.
    + intros q [_ Hq]%list_elem_of_filter. by apply Hnb.
    + intros q Hq. destruct (Hck q Hq) as [?|Hin]; [by left|].
      destruct (decide (q = p)) as [->|Hne]; [by left|].
      right. by apply list_elem_of_filter.
    + intros q Hq. destruct (Hek q Hq) as [?|Hin]; [by left|].
      destruct (decide (q = p)) as [->|Hne]; [by left|].
      right. by apply list_elem_of_filter.
  - destruct Hp as [?|Hp]; [done|].
    split; cbn [Audio.clearTimeout Audio.timers Audio.calls Audio.complete_listeners
      Audio.error_listeners Audio.settled Audio.trace Audio.audioCapture]; try done;
      rewrite ?answered_snoc_answer.
    + intros q [_ Hq]%list_elem_of_filter. by apply Ht.
    + intros q Hq. rewrite elem_of_snoc.
      destruct (decide (q = p)) as [->|Hne]; [by left; right|].
      destruct (Ha q Hq) as [?|Hin]; [by left; left|].
      right. by apply list_elem_of_filter.
    + intros q [Hq| ->]%elem_of_snoc; [by apply Hal|by apply Ht].
    + intros q [Hne Hq]%list_elem_of_filter [Hin| ->]%elem_of_snoc; [|done].
      by apply (Hnb q).
    + intros q [Hq| ->]%elem_of_snoc; rewrite elem_of_snoc;
        [left; by apply Hs|by right].
    + intros q Hq. rewrite elem_of_snoc.
      destruct (decide (q = p)) as [->|Hne]; [by left; right|].
      destruct (Hck q Hq) as [?|Hin]; [by left; left|].
      right. by apply list_elem_of_filter.
    + intros q Hq. rewrite elem_of_snoc.
      destruct (decide (q = p)) as [->|Hne]; [by left; right|].
      destruct (Hek q Hq) as [?|Hin]; [by left; left|].
      right. by apply list_elem_of_filter.
    + apply NoDup_app. split; [done|]. split; [|apply NoDup_singleton].
      intros q Hq ->%list_elem_of_singleton. by apply (Hnb p).
Qed.

(** What the listeners of one event leave of the state. *)
Lemma listeners_frame r ps s :
  let s' := foldl (λ s p, Audio.settle p r (Audio.clearTimeout p s)) s ps in
  Audio.audioCapture s' = Audio.audioCapture s
  ∧ Audio.calls s' = Audio.calls s
  ∧ Audio.complete_listeners s' = Audio.complete_listeners s
  ∧ Audio.error_listeners s' = Audio.error_listeners s
  ∧ (∀ q, q ∈ Audio.timers s' ↔ q ∈ Audio.timers s ∧ q ∉ ps)
  ∧ (∀ q, q ∈ Audio.settled s → q ∈ Audio.settled s')
  ∧ ∃ t, Audio.trace s' = Audio.trace s ++ t.
Proof.
  revert s. induction ps as [|p ps IH]; intros s; cbn [foldl].
  - repeat (split; [done|]). split.
    + intros q. split; [intros ?; split; [done|apply not_elem_of_nil]|by intros [? _]].
    + split; [done|]. exists []. by rewrite app_nil_r.
  - destruct (IH (Audio.settle p r (Audio.clearTimeout p s)))
      as (H1 & H2 & H3 & H4 & H5 & H6 & t & H7).
    assert (Hst : ∀ s0, Audio.audioCapture (Audio.settle p r s0) = Audio.audioCapture s0
                     ∧ Audio.calls (Audio.settle p r s0) = Audio.calls s0
                     ∧ Audio.complete_listeners (Audio.settle p r s0)
                       = Audio.complete_listeners s0
                     ∧ Audio.error_listeners (Audio.settle p r s0) = Audio.error_listeners s0
                     ∧ Audio.timers (Audio.settle p r s0) = Audio.timers s0
                     ∧ (∀ q, q ∈ Audio.settled s0 → q ∈ Audio.settled (Audio.settle p r s0))
                     ∧ ∃ t, Audio.trace (Audio.settle p r s0) = Audio.trace s0 ++ t).
    { intros s0. unfold Audio.settle. case_bool_decide; cbn.
      - repeat (split; [done|]). exists []. by rewrite app_nil_r.
      - repeat (split; [done|]). split; [|by eexists].
        intros q Hq. apply elem_of_app. by left. }
    destruct (Hst (Audio.clearTimeout p s)) as (G1 & G2 & G3 & G4 & G5 & G6 & t' & G7).
    rewrite H1, H2, H3, H4, G1, G2, G3, G4. repeat (split; [done|]). split; [|split].
    + intros q. rewrite H5, G5. cbn [Audio.clearTimeout Audio.timers].
      rewrite list_elem_of_filter, not_elem_of_cons. tauto.
    + intros q Hq. apply H6, G6. done.
    + exists (t' ++ t). rewrite H7, G7. cbn [Audio.clearTimeout Audio.trace].
      by rewrite app_assoc.
Qed.

Lemma Core_listeners r ps s :
  Audio.Core s → (∀ p, p ∈ ps → p ∈ Audio.settled s ∨ p ∈ Audio.timers s) →
  Audio.Core (foldl (λ s p, Audio.settle p r (Audio.clearTimeout p s)) s ps).
Proof.
  revert s. induction ps as [|p ps IH]; intros s Hs Hps; cbn [foldl]; [done|].
  apply IH.
  - apply Core_listener; [done|]. apply Hps. by left.
  - intros q Hq.
    destruct (listeners_frame r [p] s) as (_ & _ & _ & _ & Ht & Hst & _).
    cbn [foldl] in Ht, Hst.
    destruct (Hps q) as [?|Hin]; [by right|left; by apply Hst|].
    destruct (decide (q = p)) as [->|Hne].
    + left. unfold Audio.settle. case_bool_decide as Hset; [done|].
      cbn. apply elem_of_app. right. by left.
    + right. apply Ht. split; [done|]. rewrite not_elem_of_cons. split; [done|].
      apply not_elem_of_nil.
Qed.

Lemma Audio_Inv_handle e s : Audio.Inv s → Audio.Inv (Audio.handle e s).
Proof.
  intros [C L].
  destruct e as [source| | |buffer|error|p]; cbn [Audio.handle].
  - split; [by apply Core_answer, Core_startRecording|]. done.
  - destruct (Audio.audioCapture s) as [c|] eqn:Ec.
    + pose proof (Audio.c_window s C c Ec) as Hw. rewrite Hw. split.
      * by apply Core_await_capture.
      * cbn. intros p [Hp| ->]%elem_of_snoc; rewrite !elem_of_snoc.
        -- destruct (L p Hp). by split; left.
        -- by split; right.
    + split; [by apply Core_answer|done].
  - split; [by apply Core_answer|done].
  - unfold Audio.emit_complete.
    set (s0 := Audio.mkState _ _ [] _ _ _ _).
    assert (C0 : Audio.Core s0).
    { destruct C. split; try done; intros p Hp; by apply elem_of_nil in Hp. }
    split.
    + apply Core_listeners; [done|]. intros p Hp. by apply (Audio.c_complete_known s C).
    + destruct (listeners_frame (Audio.RBuffer buffer) (Audio.complete_listeners s) s0)
        as (_ & _ & _ & _ & Ht & _). intros p [Hp Hn]%Ht. destruct Hn. by apply L.
  - unfold Audio.emit_error.
    set (s0 := Audio.mkState _ _ _ [] _ _ _).
    assert (C0 : Audio.Core s0).
    { destruct C. split; try done; intros p Hp; by apply elem_of_nil in Hp. }
    split.
    + apply Core_listeners; [done|]. intros p Hp. by apply (Audio.c_error_known s C).
    + destruct (listeners_frame (Audio.RError error) (Audio.error_listeners s) s0)
        as (_ & _ & _ & _ & Ht & _). intros q [Hq Hn]%Ht. destruct Hn. by apply L.
  - case_bool_decide as Hp; [|done].
    change (Audio.mkState _ _ _ _ _ _ _) with (Audio.clearTimeout p s).
    split; [apply Core_listener; [done|by right]|].
    destruct (listeners_frame (Audio.RError "Timeout waiting for audio data") [p] s)
      as (_ & _ & H3 & H4 & Ht & _). cbn [foldl] in H3, H4, Ht.
    intros q [Hq _]%Ht. rewrite H3, H4. by apply L.
Qed.

Lemma Audio_Inv_init : Audio.Inv Audio.init.
Proof. split; [apply Core_init|]. intros p Hp. by apply elem_of_nil in Hp. Qed.

Lemma Audio_Inv_run es : Audio.Inv (Audio.run es).
Proof.
  induction es as [|e es IH] using rev_ind; [apply Audio_Inv_init|].
  rewrite audio_run_snoc. by apply Audio_Inv_handle.
Qed.

(** ** The capture object over a run *)

Lemma audioCapture_emit_complete b s :
  Audio.audioCapture (Audio.emit_complete b s) = Audio.audioCapture s.
Proof.
  unfold Audio.emit_complete.
  by destruct (listeners_frame (Audio.RBuffer b) (Audio.complete_listeners s)
                 (Audio.mkState (Audio.audioCapture s) (Audio.calls s) []
                    (Audio.error_listeners s) (Audio.timers s) (Audio.settled s)
                    (Audio.trace s))) as (-> & _).
Qed.

Lemma audioCapture_emit_error m s :
  Audio.audioCapture (Audio.emit_error m s) = Audio.audioCapture s.
Proof.
  unfold Audio.emit_error.
  by destruct (listeners_frame (Audio.RError m) (Audio.error_listeners s)
                 (Audio.mkState (Audio.audioCapture s) (Audio.calls s)
                    (Audio.complete_listeners s) [] (Audio.timers s) (Audio.settled s)
                    (Audio.trace s))) as (-> & _).
Qed.

Lemma audioCapture_settle p r s :
  Audio.audioCapture (Audio.settle p r s) = Audio.audioCapture s.
Proof. unfold Audio.settle. by case_bool_decide. Qed.

Lemma audioCapture_timeout p s :
  Audio.audioCapture (Audio.handle (Audio.Timeout p) s) = Audio.audioCapture s.
Proof. cbn. case_bool_decide; [|done]. by rewrite audioCapture_settle. Qed.

Lemma capture_exists_after_start es :
  is_Some (Audio.audioCapture (Audio.run es)) ↔ existsb Audio.is_start es = true.
Proof.
  induction es as [|e es IH] using rev_ind.
  - cbn. split; [by intros [? [=]]|done].
  - rewrite audio_run_snoc, existsb_app. cbn [existsb]. rewrite orb_false_r.
    destruct e as [source| | |buffer|error|p]; cbn [Audio.is_start];
      rewrite ?orb_true_r, ?orb_false_r.
    + split; [by intros _|]. intros _. cbn. by eexists.
    + rewrite <- IH. cbn [Audio.handle].
      destruct (Audio.audioCapture (Audio.run es)) as [c|] eqn:Ec.
      * destruct (Audio.mainWindow c); cbn; rewrite ?Ec; split; by eauto.
      * cbn. by rewrite Ec.
    + by rewrite <- IH.
    + rewrite <- IH. cbn [Audio.handle]. by rewrite audioCapture_emit_complete.
    + rewrite <- IH. cbn [Audio.handle]. by rewrite audioCapture_emit_error.
    + by rewrite <- IH, audioCapture_timeout.
Qed.

Lemma recording_follows es :
  from_option Audio.recording false (Audio.audioCapture (Audio.run es))
  = Audio.last_request_was_start es.
Proof.
  induction es as [|e es IH] using rev_ind; [done|].
  unfold Audio.last_request_was_start in *. rewrite audio_run_snoc, foldl_app. cbn [foldl].
  destruct e as [source| | |buffer|error|p].
  - done.
  - cbn [Audio.handle].
    destruct (Audio.audioCapture (Audio.run es)) as [c|] eqn:Ec.
    + destruct (Audio_Inv_run es) as [C _]. by rewrite (Audio.c_window _ C c Ec).
    + cbn. by rewrite Ec.
  - by rewrite <- IH.
  - cbn [Audio.handle]. by rewrite audioCapture_emit_complete.
  - cbn [Audio.handle]. by rewrite audioCapture_emit_error.
  - by rewrite audioCapture_timeout.
Qed.

(** ** A promise that waits *)

Lemma waiting_stays p e s :
  Audio.leaves_waiting p e = true → p ∈ Audio.timers s →
  p ∈ Audio.timers (Audio.handle e s).
Proof.
  intros He Hp. destruct e as [source| | |buffer|error|q]; try done; cbn.
  - destruct (Audio.audioCapture s) as [c|]; [|done].
    destruct (Audio.mainWindow c); [|done]. cbn. apply elem_of_app. by left.
  - cbn in He. apply bool_decide_eq_true in He. case_bool_decide; [|done].
    unfold Audio.settle. case_bool_decide; cbn; apply list_elem_of_filter; by split.
Qed.

Lemma waiting_stays_all p es s :
  forallb (Audio.leaves_waiting p) es = true → p ∈ Audio.timers s →
  p ∈ Audio.timers (foldl (λ s e, Audio.handle e s) s es).
Proof.
  revert s. induction es as [|e es IH]; intros s; cbn [forallb foldl]; [done|].
  intros [He Hes]%andb_true_iff Hp. apply IH; [done|]. by apply waiting_stays.
Qed.

Lemma trace_settle p r s :
  Audio.trace (Audio.settle p r s)
  = if bool_decide (p ∈ Audio.settled s) then Audio.trace s
    else Audio.trace s ++ [Audio.Answer p r].
Proof. unfold Audio.settle. by case_bool_decide. Qed.

(** The listener of a promise that is not settled answers it. *)
Lemma listeners_answer r p ps s :
  p ∈ ps → p ∉ Audio.settled s →
  Audio.Answer p r
  ∈ Audio.trace (foldl (λ s p, Audio.settle p r (Audio.clearTimeout p s)) s ps).
Proof.
  revert s. induction ps as [|q ps IH]; intros s Hp Hs; [by apply elem_of_nil in Hp|].
  cbn [foldl]. destruct (decide (q = p)) as [->|Hne].
  - destruct (listeners_frame r ps (Audio.settle p r (Audio.clearTimeout p s)))
      as (_ & _ & _ & _ & _ & _ & t & ->).
    apply elem_of_app. left. rewrite trace_settle. cbn [Audio.clearTimeout Audio.settled].
    rewrite (bool_decide_eq_false_2 _ Hs). apply elem_of_app. right. by left.
  - apply IH.
    + apply elem_of_cons in Hp as [?|?]; [congruence|done].
    + unfold Audio.settle. cbn [Audio.clearTimeout Audio.settled].
      case_bool_decide; [done|]. cbn. rewrite elem_of_snoc. intros [?|?]; congruence.
Qed.

Lemma elem_of_answered p t : p ∈ Audio.answered t ↔ ∃ r, Audio.Answer p r ∈ t.
Proof.
  unfold Audio.answered. rewrite list_elem_of_omap. split.
  - intros ([| |n r] & Hin & [= ->]). eauto.
  - intros (r & Hin). by exists (Audio.Answer p r).
Qed.

(** ** What a run guarantees *)

(** X23: 'audio:stop-recording' needs an earlier 'audio:start-recording'.
    While none has been invoked, a stop is answered at once with the
    error [No recording in progress], and nothing is sent to the
    renderer and no timer is set.  Once one has been invoked, a stop is
    never answered at once: [audio:stop-capture] is sent, the flag
    [recording] is cleared and the invocation waits with its timer set,
    also when a stop has been made before. *)
Theorem stop_recording_needs_a_start (es : list Audio.Event) :
  let s := Audio.run es in
  (existsb Audio.is_start es = false →
     Audio.handle Audio.StopRecording s
     = Audio.answer (Audio.RError "No recording in progress") s)
  ∧ (existsb Audio.is_start es = true →
       Audio.trace (Audio.handle Audio.StopRecording s)
       = Audio.trace s ++ [Audio.StopCapture]
       ∧ Audio.calls s ∈ Audio.timers (Audio.handle Audio.StopRecording s)
       ∧ (Audio.calls s ∉ Audio.answered (Audio.trace (Audio.handle Audio.StopRecording s)))
       ∧ from_option Audio.recording true
           (Audio.audioCapture (Audio.handle Audio.StopRecording s)) = false).
Proof.
  intros s. pose proof (capture_exists_after_start es) as Hc. fold s in Hc.
  destruct (Audio_Inv_run es) as [C L]. fold s in C, L. split.
  - intros Hno. cbn [Audio.handle]. destruct (Audio.audioCapture s) as [c|] eqn:Ec; [|done].
    assert (is_Some (Some c)) as Hs%Hc by eauto. congruence.
  - intros [c Ec]%Hc. cbn [Audio.handle]. rewrite Ec, (Audio.c_window s C c Ec). cbn.
    split; [done|]. split; [apply elem_of_app; right; by left|]. split; [|done].
    rewrite answered_app. cbn. rewrite app_nil_r. intros Hin.
    apply (Audio.c_answered_lt s C) in Hin. lia.
Qed.

(** X24: 'audio:is-recording' answers whether the last request to start
    or stop was one to start, false when there was none.  So it answers
    false after every stop that was invoked, whether that stop was
    answered with a buffer, failed, timed out or is still waiting. *)
Theorem is_recording_follows_last_request (es : list Audio.Event) :
  Audio.trace (Audio.handle Audio.IsRecording (Audio.run es))
  = Audio.trace (Audio.run es)
    ++ [Audio.Answer (Audio.calls (Audio.run es))
          (Audio.RBool (Audio.last_request_was_start es))].
Proof. cbn. by rewrite recording_follows. Qed.

(** X25: in every run no invocation of the [audio:*] channels is
    answered twice, and only invocations that were made are answered:
    a promise of [stopRecording] is settled by whichever of its two
    listeners and its timer comes first, and the others change
    nothing. *)
Theorem audio_call_answered_at_most_once (es : list Audio.Event) :
  NoDup (Audio.answered (Audio.trace (Audio.run es)))
  ∧ ∀ p, p ∈ Audio.answered (Audio.trace (Audio.run es)) → p < Audio.calls (Audio.run es).
Proof.
  destruct (Audio_Inv_run es) as [C _]. split; [apply (Audio.c_once _ C)|].
  apply (Audio.c_answered_lt _ C).
Qed.

(** X26: a stop that waits is answered by the first of three events:
    the next 'audio:capture-complete', with the buffer it carries; the
    next 'audio:capture-error', with its message; or its own timer, with
    [Timeout waiting for audio data].  Until then it is not answered,
    whatever other invocations are made and whichever other timers
    fire.  The message of the renderer is not matched with the stop it
    was sent for. *)
Theorem first_event_answers_the_stop (es es' : list Audio.Event)
    (buffer error : string)
    (Hstarted : existsb Audio.is_start es = true)
    (Hwaiting : forallb (Audio.leaves_waiting (Audio.calls (Audio.run es))) es' = true) :
  let p := Audio.calls (Audio.run es) in
  let s := Audio.run (es ++ [Audio.StopRecording] ++ es') in
  (p ∉ Audio.answered (Audio.trace s))
  ∧ Audio.Answer p (Audio.RBuffer buffer)
    ∈ Audio.trace (Audio.handle (Audio.CaptureComplete buffer) s)
  ∧ Audio.Answer p (Audio.RError error)
    ∈ Audio.trace (Audio.handle (Audio.CaptureError error) s)
  ∧ Audio.trace (Audio.handle (Audio.Timeout p) s)
    = Audio.trace s ++ [Audio.Answer p (Audio.RError "Timeout waiting for audio data")].
Proof.
  intros p s.
  assert (Hp : p ∈ Audio.timers s).
  { subst s. rewrite app_assoc, audio_run_app. apply waiting_stays_all; [done|].
    rewrite audio_run_snoc. by apply (stop_recording_needs_a_start es). }
  destruct (Audio_Inv_run (es ++ [Audio.StopRecording] ++ es')) as [C L]. fold s in C, L.
  destruct (L p Hp) as [Hc He].
  assert (Hn : p ∉ Audio.settled s).
  { intros Hs%(Audio.c_settled_answered s C). by apply (Audio.c_not_both s C p). }
  split; [by apply (Audio.c_not_both s C)|]. split; [|split].
  - cbn [Audio.handle]. unfold Audio.emit_complete. by apply listeners_answer.
  - cbn [Audio.handle]. unfold Audio.emit_error. by apply listeners_answer.
  - cbn [Audio.handle]. rewrite (bool_decide_eq_true_2 _ Hp), trace_settle. cbn.
    by rewrite (bool_decide_eq_false_2 _ Hn).
Qed.

Lemma first_event_answers_the_stop_witness :
  Audio.Answer 2 (Audio.RBuffer "webm of the first recording")
  ∈ Audio.trace
      (Audio.run
         [Audio.StartRecording Audio.microphone; Audio.StopRecording; Audio.Timeout 1;
          Audio.StopRecording; Audio.IsRecording;
          Audio.CaptureComplete "webm of the first recording"]).
Proof.
  destruct (first_event_answers_the_stop
              [Audio.StartRecording Audio.microphone; Audio.StopRecording; Audio.Timeout 1]
              [Audio.IsRecording] "webm of the first recording" "denied")
    as (_ & H & _); [by vm_compute|by vm_compute|].
  rewrite <- audio_run_snoc in H. exact H.
Defined.

(** X27: no invocation is left without both an answer and a timer: at
    every point of a run each invocation made so far has been answered
    or is a stop whose timer is pending, and when that timer fires the
    stop is answered with [Timeout waiting for audio data]. *)
Theorem unanswered_stop_can_time_out (es : list Audio.Event) (p : nat)
    (Hmade : p < Audio.calls (Audio.run es)) :
  p ∈ Audio.answered (Audio.trace (Audio.run es))
  ∨ (p ∈ Audio.timers (Audio.run es)
     ∧ Audio.trace (Audio.handle (Audio.Timeout p) (Audio.run es))
       = Audio.trace (Audio.run es)
         ++ [Audio.Answer p (Audio.RError "Timeout waiting for audio data")]).
Proof.
  destruct (Audio_Inv_run es) as [C L].
  destruct (Audio.c_answered _ C p Hmade) as [?|Hp]; [by left|right].
  split; [done|].
  assert (Hn : p ∉ Audio.settled (Audio.run es)).
  { intros Hs%(Audio.c_settled_answered _ C). by apply (Audio.c_not_both _ C p). }
  cbn [Audio.handle]. rewrite (bool_decide_eq_true_2 _ Hp), trace_settle. cbn.
  by rewrite (bool_decide_eq_false_2 _ Hn).
Qed.

Lemma unanswered_stop_can_time_out_witness :
  1 ∈ Audio.answered
        (Audio.trace (Audio.run [Audio.StartRecording Audio.both; Audio.StopRecording]))
  ∨ (1 ∈ Audio.timers (Audio.run [Audio.StartRecording Audio.both; Audio.StopRecording])
     ∧ Audio.trace
         (Audio.handle (Audio.Timeout 1)
            (Audio.run [Audio.StartRecording Audio.both; Audio.StopRecording]))
       = Audio.trace (Audio.run [Audio.StartRecording Audio.both; Audio.StopRecording])
         ++ [Audio.Answer 1 (Audio.RError "Timeout waiting for audio data")]).
Proof.
  apply (unanswered_stop_can_time_out
           [Audio.StartRecording Audio.both; Audio.StopRecording] 1).
  vm_compute. lia.
Defined.


(** * The meeting page and the database *)









(** * The request to Anthropic *)

(** X30: of the messages passed, the request to Anthropic carries under
    [system] the content of the first message of role 'system', and
    under [messages] the messages of the other roles, all of them and
    in their order.  A second system message is in neither place: it is
    dropped.  Without a system message the request has no [system]. *)
Theorem anthropic_sends_first_system_message (stream : bool) (config : Llm.ModelConfig)
    (messages : list Llm.ChatMessage) :
  let body := Llm.anthropic_body stream config messages in
  Llm.body_messages body = filter (λ m, Llm.role m ≠ Llm.system) messages
  ∧ (∀ m, m ∈ Llm.body_messages body → Llm.role m ≠ Llm.system)
  ∧ (Llm.body_system body = None ↔ ∀ m, m ∈ messages → Llm.role m ≠ Llm.system)
  ∧ (∀ pre s post,
       messages = pre ++ s :: post → Llm.role s = Llm.system →
       (∀ m, m ∈ pre → Llm.role m ≠ Llm.system) →
       Llm.body_system body = Some (Llm.content s)
       ∧ Llm.body_messages body
         = pre ++ filter (λ m, Llm.role m ≠ Llm.system) post).
Proof.
  intros body. subst body. unfold Llm.anthropic_body. cbn [Llm.body_messages Llm.body_system].
  assert (Hid : ∀ l : list Llm.ChatMessage,
            (λ m, Llm.mkChatMessage (Llm.role m) (Llm.content m)) <$> l = l).
  { intros l. rewrite <- (list_fmap_id l) at 2. apply list_fmap_ext. by intros i [] _. }
  rewrite Hid. split; [done|]. split; [|split].
  - by intros m [? _]%list_elem_of_filter.
  - destruct (list_find _ messages) as [[i s]|] eqn:Hf; cbn.
    + apply list_find_Some in Hf as (Hi & Hs & _). split; [done|].
      intros Hall. destruct (Hall s); [|done]. by eapply list_elem_of_lookup_2.
    + split; [|done]. intros _ m Hm. apply list_find_None in Hf.
      by apply (proj1 (Forall_forall _ _) Hf).
  - intros pre s post -> Hs Hpre.
    assert (Hfilter : filter (λ m, Llm.role m ≠ Llm.system) pre = pre).
    { clear -Hpre. induction pre as [|x pre IH]; [done|]. rewrite filter_cons.
      destruct (decide (Llm.role x ≠ Llm.system)) as [Hx|Hx].
      - rewrite IH; [done|]. intros m Hm. apply Hpre. by right.
      - destruct Hx. apply Hpre. by left. }
    split.
    + assert (Hf : list_find (λ m, Llm.role m = Llm.system) (pre ++ s :: post)
                   = Some (length pre, s)).
      { apply list_find_Some. split; [|split; [done|]].
        - by rewrite lookup_app_r, Nat.sub_diag by lia.
        - intros j y Hj Hlt. rewrite lookup_app_l in Hj by done.
          apply Hpre. by eapply list_elem_of_lookup_2. }
      by rewrite Hf.
    + rewrite filter_app, filter_cons, Hfilter.
      by destruct (decide (Llm.role s ≠ Llm.system)).
Qed.

